(** * Masked Authenticated Messaging (mam.js): a shallow embedding

    The development follows the bundled library [dist/mam.js]: the Curl
    sponge, the tryte codec, the one-time signature scheme (iss-p27), the
    Merkle tree, the pascal codec, the bit-sliced nonce search
    (HammingDiver), the masking layer, the channel and the parser.

    Conventions.
    - An [Int8Array] is a [list Z]; its entries are trits (-1, 0, 1) wherever
      the program keeps that invariant.
    - A JavaScript number that is used as an integer is a [Z]; array positions
      are converted with [Z.to_nat] at the access.
    - A loop whose trip count is not known beforehand carries fuel, and a
      function that can throw returns an [option]. *)

From Stdlib Require Import ZArith List Lia Bool String Ascii.
Import ListNotations.
Open Scope Z_scope.

(** ** Typed arrays *)

Module Int8Array.

(** [new Int8Array(n)]: [n] zeros. *)
Definition new (n : nat) : list Z := repeat 0 n.

(** [a[i]]; reading outside the array yields [undefined], which is stored
    back into an [Int8Array] as 0. *)
Definition get (a : list Z) (i : Z) : Z :=
  if i <? 0 then 0 else nth (Z.to_nat i) a 0.

(** [a.slice(b, e)] and [a.subarray(b, e)] for [0 <= b]: the end is clamped to
    the length.  No view is written through in the program, so a view and a
    copy are modelled alike. *)
Definition slice (a : list Z) (b e : nat) : list Z :=
  firstn (e - b) (skipn b a).

Definition subarray : list Z -> nat -> nat -> list Z := slice.

(** A position given as any integer: a negative one counts from the end, and
    both ways it is clamped to the array. *)
Definition clamp (len : nat) (i : Z) : nat :=
  if i <? 0 then Z.to_nat (Z.max (Z.of_nat len + i) 0)
  else Nat.min (Z.to_nat i) len.

(** [a.slice(b, e)] for integers [b] and [e] of either sign. *)
Definition sliceZ (a : list Z) (b e : Z) : list Z :=
  slice a (clamp (List.length a) b) (clamp (List.length a) e).

(** [dst.set(src, off)] when [src] fits into [dst] from [off] on, which is
    the case at every call of the program. *)
Definition set (dst src : list Z) (off : nat) : list Z :=
  firstn off dst ++ src ++ skipn (off + List.length src) dst.

(** [a[i] = v]: a write outside a typed array is ignored. *)
Fixpoint store (a : list Z) (i : nat) (v : Z) : list Z :=
  match a, i with
  | [], _ => []
  | _ :: t, O => v :: t
  | x :: t, S j => x :: store t j v
  end.

End Int8Array.

Definition is_trit (t : Z) : Prop := t = -1 \/ t = 0 \/ t = 1.
Definition trits (l : list Z) : Prop := Forall is_trit l.

(** ** The Curl sponge *)

Module Curl.

Definition HASH_LENGTH : nat := 243.
Definition STATE_LENGTH : nat := (3 * HASH_LENGTH)%nat.
Definition NUMBER_OF_ROUNDS : nat := 81.
Definition TRUTH_TABLE : list Z := [1; 0; -1; 2; 1; -1; 0; 2; -1; 1; 0].

Record t : Type := mk { _state : list Z; _rounds : nat }.

(** [new Curl(rounds)]; the program only ever asks for 27 or 81 rounds. *)
Definition new (rounds : nat) : t :=
  mk (Int8Array.new STATE_LENGTH) rounds.

Definition reset (c : t) : t :=
  mk (Int8Array.new STATE_LENGTH) (_rounds c).

Definition rate (c : t) (len : nat) : list Z :=
  Int8Array.slice (_state c) 0 len.

(** [index += index < 365 ? 364 : -365] *)
Definition next_index (index : Z) : Z :=
  index + (if index <? 365 then 364 else -365).

(** [TRUTH_TABLE[a + (b << 2) + 5]] *)
Definition truth (a b : Z) : Z :=
  Int8Array.get TRUTH_TABLE (a + Z.shiftl b 2 + 5).

(** The inner loop of [transform]: cells [i, i+1, ...] of the new state, read
    from [stateCopy] with the running [index]. *)
Fixpoint transform_cells (n : nat) (stateCopy : list Z) (index : Z)
  : list Z * Z :=
  match n with
  | O => ([], index)
  | S n' =>
      let a := Int8Array.get stateCopy index in
      let index' := next_index index in
      let b := Int8Array.get stateCopy index' in
      let '(rest, last) := transform_cells n' stateCopy index' in
      (truth a b :: rest, last)
  end.

(** The outer loop: [index] is declared outside it and survives a round. *)
Fixpoint transform_rounds (rounds : nat) (state : list Z) (index : Z)
  : list Z :=
  match rounds with
  | O => state
  | S r =>
      let '(state', index') := transform_cells STATE_LENGTH state index in
      transform_rounds r state' index'
  end.

(** [transform()] as the source writes it. *)
Definition transform_loop (rounds : nat) (state : list Z) : list Z :=
  transform_rounds rounds state 0.

(** *** A linear-time reading of one round

    The running index visits 0, 364, 728, 363, 727, ...: the second half of
    the state backwards interleaved with the first half backwards.  The
    definitions below compute a round by walking that sequence once; they are
    proved equal to [transform_loop] and are what the sponge evaluates. *)

Fixpoint interleave {A} (a b : list A) : list A :=
  match a, b with
  | x :: a', y :: b' => x :: y :: interleave a' b'
  | _, _ => []
  end.

Fixpoint adjacent {A} (l : list A) : list (A * A) :=
  match l with
  | a :: t => match t with b :: _ => (a, b) :: adjacent t | [] => [] end
  | [] => []
  end.

Definition visit {A} (d : A) (s : list A) : list A :=
  interleave (hd d s :: rev_append (skipn 365 s) [])
             (rev_append (firstn 365 s) []).

(** The truth table on trits, by cases; anything else goes through the
    table. *)
Definition truth_cases (a b : Z) : Z :=
  match a, b with
  | 0, 0 => -1 | 0, 1 => 1 | 0, -1 => 0
  | 1, 0 => 0 | 1, 1 => 0 | 1, -1 => -1
  | -1, 0 => 1 | -1, 1 => -1 | -1, -1 => 1
  | _, _ => truth a b
  end.

(** The identity on a list of integers, written so that reading a cell of
    the result evaluates the integer in it: the rounds of a long computation
    are then evaluated one after the other. *)
Fixpoint force (l : list Z) : list Z :=
  match l with
  | [] => []
  | x :: t =>
      match x with
      | 0 => 0 :: force t
      | Zpos p => Zpos p :: force t
      | Zneg p => Zneg p :: force t
      end
  end.

Definition round_fast (s : list Z) : list Z :=
  force (map (fun p => truth_cases (fst p) (snd p)) (adjacent (visit 0 s))).

Fixpoint iter {A} (n : nat) (f : A -> A) (x : A) : A :=
  match n with
  | O => x
  | S n' => iter n' f (f x)
  end.

(** The transform the sponge runs: [transform_loop], evaluated in linear time
    on a state of the right length (see [transform_is_loop]). *)
Definition transform_state (rounds : nat) (state : list Z) : list Z :=
  if Nat.eqb (List.length state) STATE_LENGTH
  then iter rounds round_fast state
  else transform_loop rounds state.

Definition transform (c : t) : t :=
  mk (transform_state (_rounds c) (_state c)) (_rounds c).

(** [absorb(trits, offset, length)]: a do-while loop; [fuel] bounds the
    number of further iterations. *)
Fixpoint absorb_loop (fuel : nat) (c : t) (trits : list Z) (offset length : Z)
  : t :=
  let limit := if length <? Z.of_nat HASH_LENGTH then length
               else Z.of_nat HASH_LENGTH in
  let chunk := Int8Array.subarray trits (Z.to_nat offset)
                 (Z.to_nat (offset + limit)) in
  let c1 := transform (mk (Int8Array.set (_state c) chunk 0) (_rounds c)) in
  let length' := length - Z.of_nat HASH_LENGTH in
  let offset' := offset + limit in
  if 0 <? length' then
    match fuel with
    | O => c1
    | S fuel' => absorb_loop fuel' c1 trits offset' length'
    end
  else c1.

(** Every iteration takes 243 off [length], so [length / 243] further
    iterations are enough. *)
Definition absorb (c : t) (trits : list Z) (offset length : Z) : t :=
  absorb_loop (Z.to_nat (length / Z.of_nat HASH_LENGTH)) c trits offset length.

(** [squeeze(trits, offset, length)]: returns the sponge and the array
    written to. *)
Fixpoint squeeze_loop (fuel : nat) (c : t) (trits : list Z) (offset length : Z)
  : t * list Z :=
  let limit := if length <? Z.of_nat HASH_LENGTH then length
               else Z.of_nat HASH_LENGTH in
  let trits1 := Int8Array.set trits
                  (Int8Array.subarray (_state c) 0 (Z.to_nat limit))
                  (Z.to_nat offset) in
  let c1 := transform c in
  let length' := length - Z.of_nat HASH_LENGTH in
  let offset' := offset + limit in
  if 0 <? length' then
    match fuel with
    | O => (c1, trits1)
    | S fuel' => squeeze_loop fuel' c1 trits1 offset' length'
    end
  else (c1, trits1).

Definition squeeze (c : t) (trits : list Z) (offset length : Z) : t * list Z :=
  squeeze_loop (Z.to_nat (length / Z.of_nat HASH_LENGTH)) c trits offset length.

End Curl.

(** ** Text (textHelper)

    A JavaScript string is given by its UTF-16 code units, each a number from
    0 to 65535: the regular expressions of the two functions have no [u]
    flag and work on code units. *)

Module TextHelper.

(** A digit of [toString(16)]: 0 to 9, then a to f. *)
Definition hex_digit (d : Z) : Z := if d <? 10 then 48 + d else 87 + d.

(** [n.toString(16)] for an integer [n >= 0]; [fuel] bounds the number of
    digits. *)
Fixpoint toString16_fuel (fuel : nat) (n : Z) : list Z :=
  match fuel with
  | O => []
  | S fuel' =>
      if n <? 16 then [hex_digit n]
      else toString16_fuel fuel' (n / 16) ++ [hex_digit (n mod 16)]
  end.

(** A number has no more hexadecimal digits than binary ones. *)
Definition toString16 (n : Z) : list Z :=
  toString16_fuel (S (Z.to_nat (Z.log2 n))) n.

(** [s.slice(-4)] *)
Definition last4 (s : list Z) : list Z := skipn (List.length s - 4) s.

(** [encodeNonASCII]: a [replace] over the code units 007F to FFFF, every
    code unit from 127 on replaced by a backslash, [u] and the last four
    characters of [0000] and its hexadecimal digits. *)
Fixpoint encodeNonASCII (value : list Z) : list Z :=
  match value with
  | [] => []
  | chr :: rest =>
      (if (127 <=? chr) && (chr <=? 65535)
       then [92; 117] ++ last4 ([48; 48; 48; 48] ++ toString16 chr)
       else [chr])
      ++ encodeNonASCII rest
  end.

(** [\w]: a letter, a digit or the underscore; with the [i] flag and without
    the [u] flag no other code unit is matched. *)
Definition is_word (c : Z) : bool :=
  ((48 <=? c) && (c <=? 57)) || ((65 <=? c) && (c <=? 90))
  || ((97 <=? c) && (c <=? 122)) || (c =? 95).

(** The value of a hexadecimal digit of either case. *)
Definition hex_value (c : Z) : option Z :=
  if (48 <=? c) && (c <=? 57) then Some (c - 48)
  else if (97 <=? c) && (c <=? 102) then Some (c - 87)
  else if (65 <=? c) && (c <=? 70) then Some (c - 55)
  else None.

(** The digits [parseInt] reads: it stops at the first character that is no
    digit; [None] stands for NaN, the result when there is no digit. *)
Fixpoint parse_hex (s : list Z) (acc : option Z) : option Z :=
  match s with
  | [] => acc
  | c :: rest =>
      match hex_value c with
      | Some d =>
          parse_hex rest
            (Some (match acc with Some a => a * 16 + d | None => d end))
      | None => acc
      end
  end.

(** [Number.parseInt(grp, 16)] on word characters, among which there is no
    white space and no sign to skip: [0x] or [0X] at the start is dropped. *)
Definition parseInt16 (grp : list Z) : option Z :=
  parse_hex
    (match grp with
     | z :: x :: rest =>
         if (z =? 48) && ((x =? 120) || (x =? 88)) then rest else grp
     | _ => grp
     end)
    None.

(** [String.fromCharCode(n)]: the code unit is [n] modulo 2^16, and 0 for
    NaN. *)
Definition fromCharCode (n : option Z) : Z :=
  match n with
  | Some v => v mod 65536
  | None => 0
  end.

(** [decodeNonASCII]: [value.replace(/\\u(\w{4})/gi, ...)]; after a match the
    scan goes on behind it, and otherwise one code unit further. *)
Fixpoint decodeNonASCII (value : list Z) : list Z :=
  match value with
  | [] => []
  | c :: rest =>
      match rest with
      | u :: g1 :: g2 :: g3 :: g4 :: after =>
          if (c =? 92) && ((u =? 117) || (u =? 85))
             && is_word g1 && is_word g2 && is_word g3 && is_word g4
          then fromCharCode (parseInt16 [g1; g2; g3; g4])
               :: decodeNonASCII after
          else c :: decodeNonASCII rest
      | _ => c :: decodeNonASCII rest
      end
  end.

End TextHelper.

(** ** Trytes *)

Module TrytesHelper.

Definition ALPHABET : string := "9ABCDEFGHIJKLMNOPQRSTUVWXYZ".

Definition TRYTES_TRITS : list (Z * Z * Z) :=
  [ (0, 0, 0); (1, 0, 0); (-1, 1, 0); (0, 1, 0); (1, 1, 0); (-1, -1, 1);
    (0, -1, 1); (1, -1, 1); (-1, 0, 1); (0, 0, 1); (1, 0, 1); (-1, 1, 1);
    (0, 1, 1); (1, 1, 1); (-1, -1, -1); (0, -1, -1); (1, -1, -1); (-1, 0, -1);
    (0, 0, -1); (1, 0, -1); (-1, 1, -1); (0, 1, -1); (1, 1, -1); (-1, -1, 0);
    (0, -1, 0); (1, -1, 0); (-1, 0, 0) ].

(** [s.indexOf(c)] for a one-character [c]; [None] stands for -1. *)
Fixpoint indexOf (s : string) (c : ascii) : option nat :=
  match s with
  | EmptyString => None
  | String x rest =>
      if Ascii.eqb x c then Some O else option_map S (indexOf rest c)
  end.

Definition is_tryte_char (c : ascii) : bool :=
  match indexOf ALPHABET c with Some _ => true | None => false end.

Fixpoint all_tryte_chars (s : string) : bool :=
  match s with
  | EmptyString => true
  | String c rest => is_tryte_char c && all_tryte_chars rest
  end.

(** [/^[9A-Z]{81}$/] *)
Definition isHash (trytes : string) : bool :=
  Nat.eqb (String.length trytes) 81 && all_tryte_chars trytes.

(** [/^[9A-Z]+$/] *)
Definition isTrytes (trytes : string) : bool :=
  negb (Nat.eqb (String.length trytes) 0) && all_tryte_chars trytes.

(** [toTrits]: a character outside the alphabet indexes the table at -1 and
    the read of its first component throws. *)
Fixpoint toTrits (value : string) : option (list Z) :=
  match value with
  | EmptyString => Some []
  | String c rest =>
      match indexOf ALPHABET c, toTrits rest with
      | Some idx, Some ts =>
          let '(a, b, d) := nth idx TRYTES_TRITS (0, 0, 0) in
          Some (a :: b :: d :: ts)
      | _, _ => None
      end
  end.

(** The inner search of [fromTrits]: the first table row that is equal to
    the three trits, if there is one. *)
Fixpoint find_tryte (rows : list (Z * Z * Z)) (j : nat) (a b d : option Z)
  : option nat :=
  match rows with
  | [] => None
  | (x, y, z) :: rows' =>
      match a, b, d with
      | Some a', Some b', Some d' =>
          if (x =? a') && (y =? b') && (z =? d') then Some j
          else find_tryte rows' (S j) a b d
      | _, _, _ => None
      end
  end.

Definition charAt (s : string) (j : nat) : string :=
  match String.get j s with
  | Some c => String c EmptyString
  | None => EmptyString
  end.

(** [fromTrits]: three trits at a time; a triple that is no row of the table
    (also a short last one) adds nothing. *)
Fixpoint fromTrits_fuel (fuel : nat) (trits : list Z) : string :=
  match fuel, trits with
  | O, _ => EmptyString
  | _, [] => EmptyString
  | S fuel', a :: rest =>
      let b := nth_error rest 0 in
      let d := nth_error rest 1 in
      let here :=
        match find_tryte TRYTES_TRITS 0 (Some a) b d with
        | Some j => charAt ALPHABET j
        | None => EmptyString
        end in
      String.append here (fromTrits_fuel fuel' (skipn 2 rest))
  end.

Definition fromTrits (trits : list Z) : string :=
  fromTrits_fuel (List.length trits) trits.

(** [tritsValue]: the loop runs from the last trit down to the first. *)
Definition tritsValue (trits : list Z) : Z :=
  fold_right (fun t value => value * 3 + t) 0 trits.

(** [/^[9A-Z]{27}$/] *)
Definition isTag (trytes : string) : bool :=
  Nat.eqb (String.length trytes) 27 && all_tryte_chars trytes.

(** [ALPHABET[k]] as it is added to a string: a read past the end is
    [undefined], which the concatenation spells out. *)
Definition alphabet_at (k : Z) : string :=
  if k <? 0 then "undefined"
  else
    match String.get (Z.to_nat k) ALPHABET with
    | Some c => String c EmptyString
    | None => "undefined"
    end.

(** [fromAscii], on the character codes of [value] ([charCodeAt] yields them,
    each from 0 to 65535): two characters for every code. *)
Fixpoint fromAscii (value : list Z) : string :=
  match value with
  | [] => EmptyString
  | asciiValue :: rest =>
      let firstValue := Z.rem asciiValue 27 in
      let secondValue := (asciiValue - firstValue) / 27 in
      String.append
        (String.append (alphabet_at firstValue) (alphabet_at secondValue))
        (fromAscii rest)
  end.

(** [s.indexOf(c)] as a number. *)
Definition indexOfZ (s : string) (c : ascii) : Z :=
  match indexOf s c with
  | Some i => Z.of_nat i
  | None => -1
  end.

(** [String.fromCharCode(n)]: the code unit is [n] modulo 2^16. *)
Definition fromCharCode (n : Z) : Z := n mod 65536.

(** The loop of [toAscii] over a string of even length, two characters at a
    time; the result is given by its character codes. *)
Fixpoint toAscii_loop (trytesString : string) : list Z :=
  match trytesString with
  | String a (String b rest) =>
      let firstValue := indexOfZ ALPHABET a in
      let secondValue := indexOfZ ALPHABET b in
      let decimalValue := firstValue + secondValue * 27 in
      fromCharCode decimalValue :: toAscii_loop rest
  | _ => []
  end.

(** [toAscii]: it throws on a string of odd length. *)
Definition toAscii (trytes : string) : option (list Z) :=
  if Nat.eqb (String.length trytes mod 2) 1 then None
  else Some (toAscii_loop trytes).

(** [trytes.replace(/\9+$/, ...)] with nothing: the 9s at the end are removed. *)
Fixpoint trim9 (trytes : string) : string :=
  match trytes with
  | EmptyString => EmptyString
  | String c rest =>
      match trim9 rest with
      | EmptyString =>
          if Ascii.eqb c "9" then EmptyString else String c EmptyString
      | trimmed => String c trimmed
      end
  end.

(** [stringToTrytes]: an empty encoding is falsy. *)
Definition stringToTrytes (str : list Z) : string :=
  match TextHelper.encodeNonASCII str with
  | [] => EmptyString
  | encoded => fromAscii encoded
  end.

(** [stringFromTrytes]: the string is given by its code units. *)
Definition stringFromTrytes (trytes : string) : option (list Z) :=
  let trimmed := trim9 trytes in
  let trimmed :=
    if Nat.eqb (String.length trimmed mod 2) 1
    then String.append trimmed "9"
    else trimmed in
  match toAscii trimmed with
  | None => None
  | Some ascii => Some (TextHelper.decodeNonASCII ascii)
  end.

End TrytesHelper.

(** ** One-time signatures (iss-p27) *)

Module IssP27.

Definition PRIVATE_KEY_NUM_FRAGMENTS : nat := 27.
Definition PRIVATE_KEY_FRAGMENT_LENGTH : nat :=
  (PRIVATE_KEY_NUM_FRAGMENTS * Curl.HASH_LENGTH)%nat.
Definition MIN_TRYTE_VALUE : Z := -13.
Definition MAX_TRYTE_VALUE : Z := 13.
Definition MIN_TRIT_VALUE : Z := -1.
Definition MAX_TRIT_VALUE : Z := 1.

(** One pass of the inner [for] of [subseed]: add one, carrying while the old
    trit was at least [MAX_TRIT_VALUE]. *)
Fixpoint increment_preimage (preimage : list Z) : list Z :=
  match preimage with
  | [] => []
  | x :: rest =>
      if MAX_TRIT_VALUE <=? x then MIN_TRIT_VALUE :: increment_preimage rest
      else (x + 1) :: rest
  end.

Definition subseed (seed : list Z) (index : Z) : list Z :=
  let sponge := Curl.new 27 in
  let subseedPreimage := Curl.iter (Z.to_nat index) increment_preimage seed in
  let sponge := Curl.absorb sponge subseedPreimage 0
                  (Z.of_nat (List.length subseedPreimage)) in
  let ss := Int8Array.new Curl.HASH_LENGTH in
  snd (Curl.squeeze sponge ss 0 (Z.of_nat (List.length ss))).

(** The body of the [k] loop of [digestFromSubseed]. *)
Definition rehash (curl2 : Curl.t) (digest : list Z) : Curl.t * list Z :=
  let curl2 := Curl.reset curl2 in
  let curl2 := Curl.absorb curl2 digest 0 (Z.of_nat (List.length digest)) in
  Curl.squeeze curl2 digest 0 (Z.of_nat (List.length digest)).

(** The body of the [i] loop of [digestFromSubseed], on
    [(curl1, curl2, curl3, digest)]. *)
Definition digest_step (st : Curl.t * Curl.t * Curl.t * list Z)
  : Curl.t * Curl.t * Curl.t * list Z :=
  let '(curl1, curl2, curl3, digest) := st in
  let '(curl1, digest) :=
    Curl.squeeze curl1 digest 0 (Z.of_nat (List.length digest)) in
  let '(curl2, digest) :=
    Curl.iter (Z.to_nat (MAX_TRYTE_VALUE - MIN_TRYTE_VALUE + 1))
      (fun cd => rehash (fst cd) (snd cd)) (curl2, digest) in
  let curl3 := Curl.absorb curl3 digest 0 (Z.of_nat (List.length digest)) in
  (curl1, curl2, curl3, digest).

Definition digestFromSubseed (subSeed : list Z) (securityLevel : Z) : list Z :=
  let curl1 := Curl.new 27 in
  let curl2 := Curl.new 27 in
  let curl3 := Curl.new 27 in
  let length := (securityLevel * Z.of_nat PRIVATE_KEY_FRAGMENT_LENGTH)
                / Z.of_nat Curl.HASH_LENGTH in
  let digest := Int8Array.new Curl.HASH_LENGTH in
  let curl1 := Curl.absorb curl1 subSeed 0 (Z.of_nat (List.length subSeed)) in
  let '(_, _, curl3, digest) :=
    Curl.iter (Z.to_nat length) digest_step (curl1, curl2, curl3, digest) in
  snd (Curl.squeeze curl3 digest 0 (Z.of_nat (List.length digest))).

Definition address (digests : list Z) : list Z :=
  let sponge := Curl.new 27 in
  let sponge := Curl.absorb sponge digests 0 (Z.of_nat (List.length digests)) in
  let addressTrits := Int8Array.new Curl.HASH_LENGTH in
  snd (Curl.squeeze sponge addressTrits 0 (Z.of_nat (List.length addressTrits))).

(** The [i] loop of [privateKeyFromSubseed], on [(sponge, actualKeyTrits)]. *)
Fixpoint whiten (n : nat) (i : nat) (sponge : Curl.t)
  (keyTrits actualKeyTrits : list Z) : list Z :=
  match n with
  | O => actualKeyTrits
  | S n' =>
      let offset := (i * Curl.HASH_LENGTH)%nat in
      let sponge := Curl.reset sponge in
      let sponge := Curl.absorb sponge keyTrits (Z.of_nat offset)
                      (Z.of_nat Curl.HASH_LENGTH) in
      let actualKeyTrits :=
        Int8Array.set actualKeyTrits (Curl.rate sponge Curl.HASH_LENGTH) offset in
      whiten n' (S i) sponge keyTrits actualKeyTrits
  end.

Definition privateKeyFromSubseed (subSeed : list Z) (securityLevel : Z)
  : list Z :=
  let keyLength := (Z.to_nat securityLevel * PRIVATE_KEY_FRAGMENT_LENGTH)%nat in
  let keyTrits := Int8Array.new keyLength in
  let actualKeyTrits := Int8Array.new keyLength in
  let sponge := Curl.new 27 in
  let sponge := Curl.absorb sponge subSeed 0 (Z.of_nat (List.length subSeed)) in
  let '(sponge, keyTrits) :=
    Curl.squeeze sponge keyTrits 0 (Z.of_nat (List.length keyTrits)) in
  whiten (keyLength / Curl.HASH_LENGTH)%nat 0 sponge keyTrits actualKeyTrits.

(** [hash[i * 3] + hash[i * 3 + 1] * 3 + hash[i * 3 + 2] * 9] *)
Definition tryte_at (hash : list Z) (i : nat) : Z :=
  Int8Array.get hash (Z.of_nat (i * 3))
  + Int8Array.get hash (Z.of_nat (i * 3 + 1)) * 3
  + Int8Array.get hash (Z.of_nat (i * 3 + 2)) * 9.

(** The body of the inner loops of [signature] and [digestFromSignature]. *)
Definition chain_step (sb : Curl.t * list Z) : Curl.t * list Z :=
  let '(sponge, buffer) := sb in
  let sponge := Curl.reset sponge in
  let sponge := Curl.absorb sponge buffer 0 (Z.of_nat (List.length buffer)) in
  (sponge, Curl.rate sponge Curl.HASH_LENGTH).

(** The number of fragments a loop [i < length / HASH_LENGTH] visits. *)
Definition fragments (length : nat) : nat :=
  ((length + (Curl.HASH_LENGTH - 1)) / Curl.HASH_LENGTH)%nat.

Fixpoint signature_loop (n : nat) (i : nat) (sponge : Curl.t)
  (hashTrits key signatures : list Z) : list Z :=
  match n with
  | O => signatures
  | S n' =>
      let buffer := Int8Array.subarray key (i * Curl.HASH_LENGTH)%nat
                      ((i + 1) * Curl.HASH_LENGTH)%nat in
      let '(sponge, buffer) :=
        Curl.iter (Z.to_nat (MAX_TRYTE_VALUE - tryte_at hashTrits i))
          chain_step (sponge, buffer) in
      let signatures :=
        Int8Array.set signatures buffer (i * Curl.HASH_LENGTH)%nat in
      signature_loop n' (S i) sponge hashTrits key signatures
  end.

Definition signature (hashTrits key : list Z) : list Z :=
  let signatures := Int8Array.new (List.length key) in
  let sponge := Curl.new 27 in
  signature_loop (fragments (List.length key)) 0 sponge hashTrits key signatures.

Definition sum (l : list Z) : Z := fold_left Z.add l 0.

Definition checksumSecurity (hash : list Z) : Z :=
  if sum (Int8Array.slice hash 0 (Curl.HASH_LENGTH / 3)%nat) =? 0 then 1
  else if sum (Int8Array.slice hash 0 (2 * Curl.HASH_LENGTH / 3)%nat) =? 0 then 2
  else if sum hash =? 0 then 3 else 0.

Fixpoint digest_loop (n : nat) (i : nat) (sponge : Curl.t)
  (hash sig bytes : list Z) : Curl.t * list Z :=
  match n with
  | O => (sponge, bytes)
  | S n' =>
      let innerBytes := Int8Array.slice sig (i * Curl.HASH_LENGTH)%nat
                          ((i + 1) * Curl.HASH_LENGTH)%nat in
      let '(sponge, innerBytes) :=
        Curl.iter (Z.to_nat (tryte_at hash i - MIN_TRYTE_VALUE))
          chain_step (sponge, innerBytes) in
      let bytes := Int8Array.set bytes innerBytes (i * Curl.HASH_LENGTH)%nat in
      digest_loop n' (S i) sponge hash sig bytes
  end.

Definition digestFromSignature (hash sig : list Z) : list Z :=
  let sponge := Curl.new 27 in
  let bytes := Int8Array.new (List.length sig) in
  let '(sponge, bytes) :=
    digest_loop (fragments (List.length sig)) 0 sponge hash sig bytes in
  let sponge := Curl.reset sponge in
  let sponge := Curl.absorb sponge bytes 0 (Z.of_nat (List.length bytes)) in
  Curl.rate sponge Curl.HASH_LENGTH.

End IssP27.

(** ** The Merkle tree *)

Module MerkleHashGenerator.

Record addressPrivateKey : Type :=
  mk { address : list Z; privateKey : list Z }.

Definition generateAddress (seedTrits : list Z) (index security : Z)
  : addressPrivateKey :=
  let ss := IssP27.subseed seedTrits index in
  let dg := IssP27.digestFromSubseed ss security in
  mk (IssP27.address dg) (IssP27.privateKeyFromSubseed ss security).

End MerkleHashGenerator.

#[warnings="-register-all"]
Inductive MerkleNode : Type :=
| Node (left right : option MerkleNode) (size : Z)
       (addressTrits : list Z) (privateKeyTrits : option (list Z)).

Module MerkleNode.

Definition left (n : MerkleNode) : option MerkleNode :=
  let 'Node l _ _ _ _ := n in l.
Definition right (n : MerkleNode) : option MerkleNode :=
  let 'Node _ r _ _ _ := n in r.
Definition size (n : MerkleNode) : Z :=
  let 'Node _ _ s _ _ := n in s.
Definition addressTrits (n : MerkleNode) : list Z :=
  let 'Node _ _ _ a _ := n in a.
Definition privateKeyTrits (n : MerkleNode) : option (list Z) :=
  let 'Node _ _ _ _ k := n in k.

(** The constructor: the size is the sum of the children's sizes. *)
Definition new (left' right' : option MerkleNode) (addressTrits : list Z)
  (privateKeyTrits : option (list Z)) : MerkleNode :=
  Node left' right'
    ((match left' with Some l => size l | None => 0 end)
     + (match right' with Some r => size r | None => 0 end))
    addressTrits privateKeyTrits.

(** [node.size = s] *)
Definition set_size (n : MerkleNode) (s : Z) : MerkleNode :=
  let 'Node l r _ a k := n in Node l r s a k.

End MerkleNode.

Module MerkleTree.

(** One level of [buildTree]: the [for] loop that pairs the nodes up. *)
Fixpoint pair_up (leaves : list MerkleNode) : list MerkleNode :=
  match leaves with
  | [] => []
  | left' :: rest =>
      match rest with
      | right' :: rest' =>
          let sponge := Curl.new 27 in
          let sponge :=
            Curl.absorb sponge (MerkleNode.addressTrits left') 0
              (Z.of_nat (List.length (MerkleNode.addressTrits left'))) in
          let sponge :=
            Curl.absorb sponge (MerkleNode.addressTrits right') 0
              (Z.of_nat (List.length (MerkleNode.addressTrits right'))) in
          let addressTrits := Int8Array.new Curl.HASH_LENGTH in
          let addressTrits :=
            snd (Curl.squeeze sponge addressTrits 0
                   (Z.of_nat (List.length addressTrits))) in
          MerkleNode.new (Some left') (Some right') addressTrits None
          :: pair_up rest'
      | [] =>
          [MerkleNode.new (Some left') None (MerkleNode.addressTrits left')
             None]
      end
  end.

(** [buildTree]: it calls itself on the level above until one node is left;
    on no leaves at all it never returns, which is [None] for every fuel. *)
Fixpoint buildTree_fuel (fuel : nat) (leaves : list MerkleNode)
  : option MerkleNode :=
  match fuel with
  | O => None
  | S fuel' =>
      match pair_up leaves with
      | [root] => Some root
      | subnodes => buildTree_fuel fuel' subnodes
      end
  end.

Definition buildTree (leaves : list MerkleNode) : option MerkleNode :=
  buildTree_fuel (List.length leaves) leaves.

(** The constructor's loop over the leaves. *)
Fixpoint make_leaves (n : nat) (seedTrits : list Z) (index : Z) (i : Z)
  (security : Z) : list MerkleNode :=
  match n with
  | O => []
  | S n' =>
      let addressPrivateKey :=
        MerkleHashGenerator.generateAddress seedTrits (index + i) security in
      MerkleNode.set_size
        (MerkleNode.new None None
           (MerkleHashGenerator.address addressPrivateKey)
           (Some (MerkleHashGenerator.privateKey addressPrivateKey))) 1
      :: make_leaves n' seedTrits index (i + 1) security
  end.

(** [new MerkleTree(seed, index, count, security)]: the tree is its root
    node.  [None] when the seed is no tryte string or there is no leaf. *)
Definition new (seed : string) (index count security : Z)
  : option MerkleNode :=
  match TrytesHelper.toTrits seed with
  | None => None
  | Some seedTrits =>
      buildTree (make_leaves (Z.to_nat count) seedTrits index 0 security)
  end.

(** [i & index] and [i <<= 1] work on 32-bit integers. *)
Definition int32 (x : Z) : Z := (x + 2 ^ 31) mod 2 ^ 32 - 2 ^ 31.

(** The loop of the static [MerkleTree.root], on [(sponge, i, rate)]. *)
Fixpoint root_loop (n : nat) (c : nat) (sponge : Curl.t) (i : Z)
  (rate siblings : list Z) (index : Z) : Curl.t :=
  match n with
  | O => sponge
  | S n' =>
      let chunk := Int8Array.slice siblings (c * Curl.HASH_LENGTH)%nat
                     ((c + 1) * Curl.HASH_LENGTH)%nat in
      let sponge := Curl.reset sponge in
      let sponge :=
        if Z.land i (int32 index) =? 0 then
          let sponge := Curl.absorb sponge rate 0 (Z.of_nat (List.length rate)) in
          Curl.absorb sponge chunk 0 (Z.of_nat (List.length chunk))
        else
          let sponge := Curl.absorb sponge chunk 0 (Z.of_nat (List.length chunk)) in
          Curl.absorb sponge rate 0 (Z.of_nat (List.length rate)) in
      let i := int32 (Z.shiftl i 1) in
      let rate := Curl.rate sponge Curl.HASH_LENGTH in
      root_loop n' (S c) sponge i rate siblings index
  end.

(** The static [MerkleTree.root(rate, siblings, index)]. *)
Definition root (rate siblings : list Z) (index : Z) : list Z :=
  let sponge := Curl.new 27 in
  let numChunks := IssP27.fragments (List.length siblings) in
  Curl.rate (root_loop numChunks 0 sponge 1 rate siblings index)
    Curl.HASH_LENGTH.

Record subtree : Type := mkSubtree { key : list Z; leaves : list MerkleNode }.

(** The [while (node)] loop of [getSubtree]; it ends at a node without a left
    child, or when it steps to an absent right child. *)
Fixpoint descend (node : MerkleNode) (index : Z) (leaves : list MerkleNode)
  : option (list Z) * list MerkleNode :=
  match node with
  | Node None _ _ _ privateKeyTrits => (privateKeyTrits, leaves)
  | Node (Some left') right' _ _ _ =>
      let size := MerkleNode.size left' in
      if index <? size then
        let leaves :=
          leaves ++ [match right' with Some r => r | None => left' end] in
        descend left' index leaves
      else
        let leaves := leaves ++ [left'] in
        match right' with
        | Some r => descend r (index - size) leaves
        | None => (None, leaves)
        end
  end.

Definition getSubtree (root : MerkleNode) (index : Z) : subtree :=
  if MerkleNode.size root =? 1 then
    mkSubtree
      (match MerkleNode.left root with
       | Some l =>
           match MerkleNode.privateKeyTrits l with
           | Some k => k
           | None => []
           end
       | None => []
       end) []
  else
    let '(privateKey, leaves) :=
      if index <? MerkleNode.size root then descend root index []
      else (None, []) in
    mkSubtree (match privateKey with Some k => k | None => [] end)
      (rev leaves).

End MerkleTree.

(** ** The pascal codec *)

Module Pascal.

Definition ZERO : list Z := [1; 0; 0; -1].
Definition RADIX : Z := 3.
Definition TRITS_PER_TRYTE : nat := 3.

Definition roundThird (value : Z) : Z :=
  let rem := Z.rem value RADIX in
  if rem =? 0 then value else value + RADIX - rem.

(** [minTrits]: the basis grows past any input, so the recursion ends; the
    fuel handed over by [minTrits] is never used up. *)
Fixpoint minTrits_fuel (fuel : nat) (input basis : Z) : Z :=
  if input <=? basis then 1
  else
    match fuel with
    | O => 1
    | S fuel' => 1 + minTrits_fuel fuel' input (1 + basis * RADIX)
    end.

Definition minTrits (input basis : Z) : Z :=
  minTrits_fuel (Z.to_nat (Z.log2_up input)) input basis.

Definition encodedLength (value : Z) : Z :=
  let length := roundThird (minTrits (Z.abs value) 1) in
  length + length / RADIX.

(** [writeTrits]: [Math.floor(input / 3)] and the remainder [input % 3], which
    has the sign of [input].  On a negative input the quotient never reaches
    0 and the recursion does not end: [None], for every fuel. *)
Fixpoint writeTrits_fuel (fuel : nat) (input : Z) (trits : list Z) (index : Z)
  : option (Z * list Z) :=
  if input =? 0 then Some (0, trits)
  else
    match fuel with
    | O => None
    | S fuel' =>
        let abs := input / RADIX in
        let r := Z.rem input RADIX in
        let '(abs, r) := if 1 <? r then (abs + 1, -1) else (abs, r) in
        let trits := Int8Array.store trits (Z.to_nat index) r in
        match writeTrits_fuel fuel' abs trits (index + 1) with
        | Some (n, trits) => Some (1 + n, trits)
        | None => None
        end
    end.

Definition valueToTrits_fuel (fuel : nat) (input : Z) (trits : list Z)
  : option (Z * list Z) :=
  match writeTrits_fuel fuel input trits 0 with
  | None => None
  | Some (endWrite, trits) =>
      if 0 <=? input then Some (endWrite, trits)
      else Some (endWrite, map Z.opp trits)
  end.

Definition int32 (x : Z) : Z := (x + 2 ^ 31) mod 2 ^ 32 - 2 ^ 31.

(** [encoding |= 1 << index] *)
Definition set_bit (encoding index : Z) : Z :=
  int32 (Z.lor (int32 encoding) (int32 (Z.shiftl 1 (index mod 32)))).

(** [(encoder >> i) & 1] *)
Definition bit (encoder i : Z) : Z :=
  Z.land (Z.shiftr (int32 encoder) (i mod 32)) 1.

(** [trits[off + j] = -trits[off + j]] for [j < n]. *)
Fixpoint negate_at (trits : list Z) (off : nat) (n : nat) : list Z :=
  match n with
  | O => trits
  | S n' =>
      negate_at
        (Int8Array.store trits off (- Int8Array.get trits (Z.of_nat off)))
        (S off) n'
  end.

(** The first loop of [pascalEncode], on [(trits, encoding, index)]; [n]
    counts the chunks before the last one. *)
Fixpoint encode_chunks (n : nat) (i : nat) (trits : list Z)
  (encoding index : Z) : list Z * Z * Z :=
  match n with
  | O => (trits, encoding, index)
  | S n' =>
      let tritValue := Int8Array.slice trits i (i + TRITS_PER_TRYTE)%nat in
      let tritsAsInt := TrytesHelper.tritsValue tritValue in
      let '(trits, encoding) :=
        if 0 <=? tritsAsInt
        then (negate_at trits i (List.length tritValue),
              set_bit encoding index)
        else (trits, encoding) in
      encode_chunks n' (i + TRITS_PER_TRYTE)%nat trits encoding (index + 1)
  end.

Definition pascalEncode_fuel (fuel : nat) (value : Z) : option (list Z) :=
  if value =? 0 then Some ZERO
  else
    let length := Z.to_nat (roundThird (minTrits (Z.abs value) 1)) in
    let trits := Int8Array.new (Z.to_nat (encodedLength value)) in
    match valueToTrits_fuel fuel value trits with
    | None => None
    | Some (_, trits) =>
        let '(trits, encoding, index) :=
          encode_chunks ((length - TRITS_PER_TRYTE + 2) / 3)%nat 0 trits 0 0 in
        let v := Int8Array.slice trits (length - TRITS_PER_TRYTE)%nat
                   (length - TRITS_PER_TRYTE + length)%nat in
        let '(trits, encoding) :=
          if TrytesHelper.tritsValue v <? 0
          then (negate_at trits (length - TRITS_PER_TRYTE)%nat (List.length v),
                set_bit encoding index)
          else (trits, encoding) in
        let checksumTrits := Int8Array.new (List.length trits - length)%nat in
        match valueToTrits_fuel fuel encoding checksumTrits with
        | None => None
        | Some (_, checksumTrits) =>
            Some (Int8Array.set trits checksumTrits length)
        end
    end.

(** A positive number loses at least a third in [writeTrits], so its binary
    length (and one more) bounds the depth. *)
Definition depth (value : Z) : nat := S (Z.to_nat (Z.log2_up (Z.abs value + 1))).

Definition pascalEncode (value : Z) : option (list Z) :=
  pascalEncode_fuel (depth value + 32)%nat value.

(** [end]: the position after the first chunk with a positive value.  When
    no chunk is positive the recursion goes on over empty slices for ever:
    [None]. *)
Fixpoint end_fuel (fuel : nat) (input : list Z) : option nat :=
  match fuel with
  | O => None
  | S fuel' =>
      if 0 <? TrytesHelper.tritsValue (Int8Array.slice input 0 TRITS_PER_TRYTE)
      then Some TRITS_PER_TRYTE
      else
        match end_fuel fuel' (skipn TRITS_PER_TRYTE input) with
        | Some e => Some (TRITS_PER_TRYTE + e)%nat
        | None => None
        end
  end.

Definition end_ (input : list Z) : option nat :=
  end_fuel (S (List.length input)) input.

Record decoded : Type := mkDecoded { value : Z; end' : nat }.

(** The loop of [pascalDecode]. *)
Fixpoint decode_chunks (n : nat) (i : nat) (value : list Z) (encoder : Z)
  (result : Z) : Z :=
  match n with
  | O => result
  | S n' =>
      let chunk := TrytesHelper.tritsValue
                     (Int8Array.slice value (i * TRITS_PER_TRYTE)%nat
                        ((i + 1) * TRITS_PER_TRYTE)%nat) in
      let tritsIntValue :=
        if negb (bit encoder (Z.of_nat i) =? 0) then - chunk else chunk in
      decode_chunks n' (S i) value encoder
        (result + 27 ^ Z.of_nat i * tritsIntValue)
  end.

Definition pascalDecode (value : list Z) : option decoded :=
  if (4 <=? List.length value)%nat
     && (Int8Array.get value 0 =? Int8Array.get ZERO 0)
     && (Int8Array.get value 1 =? Int8Array.get ZERO 1)
     && (Int8Array.get value 2 =? Int8Array.get ZERO 2)
     && (Int8Array.get value 3 =? Int8Array.get ZERO 3)
  then Some (mkDecoded 0 4)
  else
    match end_ value with
    | None => None
    | Some encoderStart =>
        let inputEnd := (encoderStart + encoderStart / TRITS_PER_TRYTE)%nat in
        let encoder :=
          TrytesHelper.tritsValue (Int8Array.slice value encoderStart inputEnd) in
        let result :=
          decode_chunks (encoderStart / TRITS_PER_TRYTE)%nat 0 value encoder 0 in
        Some (mkDecoded result inputEnd)
    end.

End Pascal.

(** ** The bit-sliced nonce search *)

Module HammingDiver.

(** The search state: two arrays of 64-bit integers, one bit per lane. *)
Record states : Type := mkStates { low : list Z; high : list Z }.

Definition MAX_VALUE : Z := 0xFFFFFFFFFFFFFFFF.
Definition MIN_VALUE : Z := 0x0000000000000000.
Definition HIGH_0 : Z := 0xB6DB6DB6DB6DB6DB.
Definition HIGH_1 : Z := 0x8FC7E3F1F8FC7E3F.
Definition HIGH_2 : Z := 0xFFC01FFFF803FFFF.
Definition HIGH_3 : Z := 0x003FFFFFFFFFFFFF.
Definition LOW_0 : Z := 0xDB6DB6DB6DB6DB6D.
Definition LOW_1 : Z := 0xF1F8FC7E3F1F8FC7.
Definition LOW_2 : Z := 0x7FFFE00FFFFC01FF.
Definition LOW_3 : Z := 0xFFC0000007FFFFFF.
Definition ROUNDS : nat := 27.

(** [a[i] = v] on an array of integers, for [i] inside the array (every
    write of the search is). *)
Definition store : list Z -> nat -> Z -> list Z := Int8Array.store.

Definition get : list Z -> Z -> Z := Int8Array.get.

Definition encode_low (t : Z) : Z :=
  if t =? 0 then MAX_VALUE else if t =? 1 then MIN_VALUE else MAX_VALUE.

Definition encode_high (t : Z) : Z :=
  if t =? 0 then MAX_VALUE else if t =? 1 then MAX_VALUE else MIN_VALUE.

Definition tritsToBigInt (input : list Z) (length : nat) : states :=
  let pad := repeat MAX_VALUE (length - List.length input) in
  mkStates (map encode_low input ++ pad) (map encode_high input ++ pad).

Definition prepareTrits (trits : list Z) (offset : nat) : states :=
  let initialState := tritsToBigInt trits Curl.STATE_LENGTH in
  let l := low initialState in
  let l := store l offset LOW_0 in
  let l := store l (offset + 1) LOW_1 in
  let l := store l (offset + 2) LOW_2 in
  let l := store l (offset + 3) LOW_3 in
  let h := high initialState in
  let h := store h offset HIGH_0 in
  let h := store h (offset + 1) HIGH_1 in
  let h := store h (offset + 2) HIGH_2 in
  let h := store h (offset + 3) HIGH_3 in
  mkStates l h.

(** The loop of [increment]; [n] positions are left before [toIndex]. *)
Fixpoint increment_loop (n : nat) (i : nat) (s : states) (fromIndex toIndex : Z)
  : states * Z :=
  match n with
  | O => (s, toIndex - fromIndex + 1)
  | S n' =>
      let l := get (low s) (Z.of_nat i) in
      let h := get (high s) (Z.of_nat i) in
      let s := mkStates (store (low s) i (Z.lxor h l)) (store (high s) i l) in
      if Z.land h (Z.lnot l) =? 0 then (s, toIndex - fromIndex)
      else increment_loop n' (S i) s fromIndex toIndex
  end.

Definition increment (s : states) (fromIndex toIndex : Z) : states * Z :=
  increment_loop (Z.to_nat (toIndex - fromIndex)) (Z.to_nat fromIndex) s
    fromIndex toIndex.

(** [bitWiseNot]: the complement within 64 bits. *)
Definition bitWiseNot (value : Z) : Z := Z.shiftl 1 64 - 1 - value.

(** One cell of the bit-sliced round, from [alpha], [beta] (low and high at
    the running index) and the low and high words after the index moved. *)
Definition cell (alpha beta lowNext gamma : Z) : Z * Z :=
  let lowXorBeta := Z.lxor lowNext beta in
  let notGamma := bitWiseNot gamma in
  let alphaOrNotGamma := Z.lor alpha notGamma in
  let delta := Z.land alphaOrNotGamma lowXorBeta in
  let alphaXorGamma := Z.lxor alpha gamma in
  (bitWiseNot delta, Z.lor alphaXorGamma delta).

(** The inner loop of [transform] over [stateIndex]. *)
Fixpoint transform_cells (n : nat) (curlScratchpad : states)
  (curlScratchpadIndex : Z) : list Z * list Z * Z :=
  match n with
  | O => ([], [], curlScratchpadIndex)
  | S n' =>
      let alpha := get (low curlScratchpad) curlScratchpadIndex in
      let beta := get (high curlScratchpad) curlScratchpadIndex in
      let index' := Curl.next_index curlScratchpadIndex in
      let gamma := get (high curlScratchpad) index' in
      let lowNext := get (low curlScratchpad) index' in
      let '(l, h) := cell alpha beta lowNext gamma in
      let '(ls, hs, last) := transform_cells n' curlScratchpad index' in
      (l :: ls, h :: hs, last)
  end.

Fixpoint transform_rounds (rounds : nat) (searchStates : states) (index : Z)
  : states :=
  match rounds with
  | O => searchStates
  | S r =>
      let curlScratchpad :=
        mkStates (Int8Array.slice (low searchStates) 0 Curl.STATE_LENGTH)
                 (Int8Array.slice (high searchStates) 0 Curl.STATE_LENGTH) in
      let '(ls, hs, index') :=
        transform_cells Curl.STATE_LENGTH curlScratchpad index in
      transform_rounds r
        (mkStates (Int8Array.set (low searchStates) ls 0)
                  (Int8Array.set (high searchStates) hs 0)) index'
  end.

(** [transform] as the source writes it. *)
Definition transform_loop (searchStates : states) : states :=
  transform_rounds ROUNDS searchStates 0.

(** One round in linear time, along the sequence the index visits. *)
Definition round_fast (s : states) : states :=
  let cells :=
    map (fun p => cell (fst (fst p)) (snd (fst p)) (fst (snd p)) (snd (snd p)))
      (Curl.adjacent (Curl.visit (0, 0) (combine (low s) (high s)))) in
  mkStates (map fst cells) (map snd cells).

(** The transform the search runs: [transform_loop], in linear time on
    states of the right length (see [bitslice_transform_is_loop]). *)
Definition transform (searchStates : states) : states :=
  if Nat.eqb (List.length (low searchStates)) Curl.STATE_LENGTH
     && Nat.eqb (List.length (high searchStates)) Curl.STATE_LENGTH
  then Curl.iter ROUNDS round_fast searchStates
  else transform_loop searchStates.

(** The innermost loop of [check]: positions [k, k+1, ...] of one third. *)
Fixpoint check_third (n : nat) (k : nat) (low high : list Z) (i : Z) (sum : Z)
  : Z :=
  match n with
  | O => sum
  | S n' =>
      let bIndex := Z.shiftl 1 i in
      let sum :=
        if Z.land (get low (Z.of_nat k)) bIndex =? 0 then sum - 1
        else if Z.land (get high (Z.of_nat k)) bIndex =? 0 then sum + 1
        else sum in
      check_third n' (S k) low high i sum
  end.

(** The loop over the thirds [j], with its [break]. *)
Fixpoint check_thirds (n : nat) (j : Z) (securityLevel : Z)
  (low high : list Z) (i : Z) (sum : Z) : Z :=
  match n with
  | O => sum
  | S n' =>
      let sum :=
        check_third (Z.to_nat ((j + 1) * 243 / 3 - j * 243 / 3))
          (Z.to_nat (j * 243 / 3)) low high i sum in
      if (sum =? 0) && (j <? securityLevel - 1) then 1
      else check_thirds n' (j + 1) securityLevel low high i sum
  end.

(** The loop over the lanes. *)
Fixpoint check_lanes (n : nat) (i : Z) (securityLevel : Z) (low high : list Z)
  : Z :=
  match n with
  | O => 0
  | S n' =>
      let sum :=
        check_thirds (Z.to_nat securityLevel) 0 securityLevel low high i 0 in
      if sum =? 0 then i
      else check_lanes n' (i + 1) securityLevel low high
  end.

Definition check (securityLevel : Z) (low high : list Z) : Z :=
  check_lanes 64 0 securityLevel low high.

Definition trinary_digit (l h : Z) : Z :=
  if (l =? 1) && (h =? 0) then -1
  else if (l =? 0) && (h =? 1) then 1
  else 0.

Definition trinaryGet (low high : list Z) (arrLength : nat) (index : Z)
  : list Z :=
  map (fun i =>
         trinary_digit
           (Z.land (Z.shiftr (get low (Z.of_nat i)) index) 1)
           (Z.land (Z.shiftr (get high (Z.of_nat i)) index) 1))
      (seq 0 arrLength).

(** The [while (index === 0)] loop of [search]; it ends when [check] finds a
    lane other than lane 0. *)
Fixpoint search_loop (fuel : nat) (state : states) (size : Z)
  (securityLevel : Z) (offset : Z) : option (list Z) :=
  match fuel with
  | O => None
  | S fuel' =>
      let '(state, incrementResult) :=
        increment state (offset + size * 2 / 3) (offset + size) in
      let size :=
        Z.min (Pascal.roundThird (offset + size * 2 / 3 + incrementResult))
              (Z.of_nat Curl.HASH_LENGTH) - offset in
      let curlCopy := transform (mkStates (low state) (high state)) in
      let index := check securityLevel (low curlCopy) (high curlCopy) in
      if index =? 0 then search_loop fuel' state size securityLevel offset
      else Some (trinaryGet (low state) (high state) (Z.to_nat size) index)
  end.

Definition search (fuel : nat) (trits : list Z) (securityLevel : Z)
  (length offset : Z) : option (list Z) :=
  let state := prepareTrits trits (Z.to_nat offset) in
  let size := Z.min length (Z.of_nat Curl.HASH_LENGTH) - offset in
  search_loop fuel state size securityLevel offset.

End HammingDiver.

(** ** Masking *)

Module Mask.

Definition maskHash (keyTrits : list Z) : list Z :=
  let sponge := Curl.new 81 in
  let sponge := Curl.absorb sponge keyTrits 0 (Z.of_nat (List.length keyTrits)) in
  let finalKeyTrits := Int8Array.new Curl.HASH_LENGTH in
  snd (Curl.squeeze sponge finalKeyTrits 0
         (Z.of_nat (List.length finalKeyTrits))).

Definition tritSum (left' right' : Z) : Z :=
  let sum := left' + right' in
  if sum =? 2 then -1 else if sum =? -2 then 1 else sum.

(** The inner loop of [mask] over one chunk: the masked trits. *)
Fixpoint mask_chunk (chunk keyChunk : list Z) (i : Z) : list Z :=
  match chunk with
  | [] => []
  | x :: rest =>
      tritSum x (Int8Array.get keyChunk i) :: mask_chunk rest keyChunk (i + 1)
  end.

(** The loop of [mask] over the chunks, on [(payload, sponge, keyChunk)]. *)
Fixpoint mask_loop (n : nat) (c : nat) (payload : list Z) (sponge : Curl.t)
  (keyChunk : list Z) : list Z * Curl.t :=
  match n with
  | O => (payload, sponge)
  | S n' =>
      let chunk := Int8Array.slice payload (c * Curl.HASH_LENGTH)%nat
                     ((c + 1) * Curl.HASH_LENGTH)%nat in
      let sponge := Curl.absorb sponge chunk 0 (Z.of_nat (List.length chunk)) in
      let state := Curl.rate sponge Curl.HASH_LENGTH in
      let payload :=
        Int8Array.set payload (mask_chunk chunk keyChunk 0)
          (c * Curl.HASH_LENGTH)%nat in
      let keyChunk :=
        Int8Array.set keyChunk (firstn (List.length chunk) state) 0 in
      mask_loop n' (S c) payload sponge keyChunk
  end.

(** [mask(payload, sponge)]: the masked payload and the sponge after it. *)
Definition mask (payload : list Z) (sponge : Curl.t) : list Z * Curl.t :=
  let keyChunk := Curl.rate sponge Curl.HASH_LENGTH in
  let numChunks := IssP27.fragments (List.length payload) in
  mask_loop numChunks 0 payload sponge keyChunk.

(** The positions of one chunk in [unmask]: [unmasked[c] = tritSum(unmasked[c],
    -state[indexInChunk])]; positions past the end of the array write
    nothing. *)
Fixpoint unmask_chunk (chunk state : list Z) (indexInChunk : Z) : list Z :=
  match chunk with
  | [] => []
  | x :: rest =>
      tritSum x (- Int8Array.get state indexInChunk)
      :: unmask_chunk rest state (indexInChunk + 1)
  end.

(** The loop of [unmask], one chunk of 243 positions at a time: at the first
    position the rate is read, at the last the chunk is absorbed. *)
Fixpoint unmask_loop (n : nat) (q : nat) (unmasked : list Z) (sponge : Curl.t)
  : list Z * Curl.t :=
  match n with
  | O => (unmasked, sponge)
  | S n' =>
      let state := Curl.rate sponge Curl.HASH_LENGTH in
      let chunk := Int8Array.slice unmasked (q * Curl.HASH_LENGTH)%nat
                     ((q + 1) * Curl.HASH_LENGTH)%nat in
      let unmasked :=
        Int8Array.set unmasked (unmask_chunk chunk state 0)
          (q * Curl.HASH_LENGTH)%nat in
      let sponge :=
        Curl.absorb sponge unmasked (Z.of_nat (q * Curl.HASH_LENGTH))
          (Z.of_nat Curl.HASH_LENGTH) in
      unmask_loop n' (S q) unmasked sponge
  end.

Definition unmask (payload : list Z) (sponge : Curl.t) : list Z * Curl.t :=
  let unmasked := payload in
  let limit := (IssP27.fragments (List.length unmasked) * Curl.HASH_LENGTH)%nat in
  unmask_loop (limit / Curl.HASH_LENGTH)%nat 0 unmasked sponge.

End Mask.

(** ** Channels *)

Inductive MamMode : Type := public | private | restricted.

Record IMamChannelState : Type := mkChannelState {
  seed : string;
  mode : MamMode;
  sideKey : option string;
  security : Z;
  start : Z;
  count : Z;
  nextCount : Z;
  index : Z;
  nextRoot : option string
}.

Record IMamMessage : Type := mkMessage {
  payload : string;
  root : string;
  address : string
}.

Module Guards.

(** [validateModeKey]: [true] when it does not throw.  An empty side key
    counts as none (it is falsy). *)
Definition validateModeKey (mode : MamMode) (sideKey : option string) : bool :=
  let given :=
    match sideKey with
    | Some k => negb (Nat.eqb (String.length k) 0)
    | None => false
    end in
  match mode with
  | restricted =>
      match sideKey with
      | Some k =>
          given && TrytesHelper.isTrytes k && (String.length k <=? 81)%nat
      | None => false
      end
  | _ => negb given
  end.

End Guards.

Module Channel.

(** ["9".repeat(n)] *)
Fixpoint nines (n : nat) : string :=
  match n with
  | O => EmptyString
  | S n' => String "9"%char (nines n')
  end.

(** [s.padEnd(81, "9")] *)
Definition padEnd81 (s : string) : string :=
  String.append s (nines (81 - String.length s)).

Definition createChannel (seed : string) (security : Z) (mode : MamMode)
  (sideKey : option string) : option IMamChannelState :=
  if negb (TrytesHelper.isHash seed) then None
  else if (security <? 1) || (3 <? security) then None
  else if negb (Guards.validateModeKey mode sideKey) then None
  else
    Some (mkChannelState seed mode
            (match mode with
             | restricted =>
                 Some (padEnd81 (match sideKey with
                                 | Some k => k
                                 | None => EmptyString
                                 end))
             | _ => None
             end)
            security 0 1 1 0 None).

Definition channelRoot (channelState : IMamChannelState) : option string :=
  if start channelState <? 0 then None
  else if count channelState <=? 0 then None
  else if (security channelState <? 1) || (3 <? security channelState) then None
  else
    match MerkleTree.new (seed channelState) (start channelState)
            (count channelState) (security channelState) with
    | None => None
    | Some tree => Some (TrytesHelper.fromTrits (MerkleNode.addressTrits tree))
    end.

(** The end of [createMessage]: the channel moves on to the next leaf, or to
    the next tree, and remembers the next root. *)
Definition advance (channelState : IMamChannelState) (nextRootTrits : list Z)
  : IMamChannelState :=
  let '(start', index') :=
    if index channelState =? count channelState - 1
    then (nextCount channelState + start channelState, 0)
    else (start channelState, index channelState + 1) in
  mkChannelState (seed channelState) (mode channelState)
    (sideKey channelState) (security channelState) start'
    (count channelState) (nextCount channelState) index'
    (Some (TrytesHelper.fromTrits nextRootTrits)).

(** [createMessage]: the message and the channel state after the call; [None]
    when it throws or the nonce search does not end within [fuel] rounds, and
    then the state is as it was. *)
Definition createMessage (fuel : nat) (channelState : IMamChannelState)
  (message : string) : option (IMamMessage * IMamChannelState) :=
  if negb (TrytesHelper.isTrytes message) then None
  else
    match MerkleTree.new (seed channelState) (start channelState)
            (count channelState) (security channelState),
          MerkleTree.new (seed channelState)
            (start channelState + count channelState)
            (nextCount channelState) (security channelState),
          TrytesHelper.toTrits message,
          TrytesHelper.toTrits
            (match sideKey channelState with
             | Some k => k
             | None => nines 81
             end)
    with
    | Some tree, Some nextRootTree, Some messageTrits, Some sideKeyTrits =>
        let nextRootTrits := MerkleNode.addressTrits nextRootTree in
        match Pascal.pascalEncode (index channelState),
              Pascal.pascalEncode (Z.of_nat (List.length messageTrits)) with
        | Some indexTrits, Some messageLengthTrits =>
            let subtree := MerkleTree.getSubtree tree (index channelState) in
            let sponge := Curl.new 27 in
            let sponge :=
              Curl.absorb sponge sideKeyTrits 0
                (Z.of_nat (List.length sideKeyTrits)) in
            let sponge :=
              Curl.absorb sponge (MerkleNode.addressTrits tree) 0
                (Z.of_nat (List.length (MerkleNode.addressTrits tree))) in
            let payload := indexTrits ++ messageLengthTrits in
            let sponge :=
              Curl.absorb sponge payload 0 (Z.of_nat (List.length payload)) in
            let '(maskedNextRoot, sponge) :=
              Mask.mask (nextRootTrits ++ messageTrits) sponge in
            let payload := payload ++ maskedNextRoot in
            match HammingDiver.search fuel
                    (Curl.rate sponge Curl.STATE_LENGTH)
                    (security channelState)
                    (Z.of_nat Curl.HASH_LENGTH / 3) 0 with
            | None => None
            | Some nonceTrits =>
                let '(nonceTrits, sponge) := Mask.mask nonceTrits sponge in
                let payload := payload ++ nonceTrits in
                let sig :=
                  IssP27.signature (Curl.rate sponge Curl.HASH_LENGTH)
                    (MerkleTree.key subtree) in
                let subtreeTrits :=
                  List.concat (map MerkleNode.addressTrits
                            (MerkleTree.leaves subtree)) in
                let siblingsCount :=
                  Z.of_nat (List.length subtreeTrits)
                  / Z.of_nat Curl.HASH_LENGTH in
                match Pascal.pascalEncode siblingsCount with
                | None => None
                | Some siblingsCountTrits =>
                    let '(encryptedSignature, sponge) :=
                      Mask.mask (sig ++ siblingsCountTrits ++ subtreeTrits)
                        sponge in
                    let payload := payload ++ encryptedSignature in
                    let nextThird := (List.length payload mod 3)%nat in
                    let payload :=
                      if negb (Nat.eqb nextThird 0)
                      then payload ++ Int8Array.new (3 - nextThird)
                      else payload in
                    let messageAddress :=
                      match mode channelState with
                      | public => MerkleNode.addressTrits tree
                      | _ => Mask.maskHash (MerkleNode.addressTrits tree)
                      end in
                    let maskedAuthenticatedMessage :=
                      mkMessage
                        (TrytesHelper.fromTrits payload)
                        (TrytesHelper.fromTrits (MerkleNode.addressTrits tree))
                        (TrytesHelper.fromTrits messageAddress) in
                    Some (maskedAuthenticatedMessage,
                          advance channelState nextRootTrits)
                end
            end
        | _, _ => None
        end
    | _, _, _, _ => None
    end.

End Channel.

(** ** The parser *)

Module Parser.

Record parsed : Type := mkParsed { nextRoot : string; message : string }.

(** [parseMessage(payload, root, channelKey)]; [None] when it throws. *)
Definition parseMessage (payload root : string) (channelKey : option string)
  : option parsed :=
  match TrytesHelper.toTrits payload,
        TrytesHelper.toTrits root,
        TrytesHelper.toTrits
          (match channelKey with
           | Some k => k
           | None => Channel.nines 81
           end)
  with
  | Some payloadTrits, Some rootTrits, Some channelKeyTrits =>
      match Pascal.pascalDecode payloadTrits with
      | None => None
      | Some indexData =>
          let index := Pascal.value indexData in
          match Pascal.pascalDecode
                  (skipn (Pascal.end' indexData) payloadTrits) with
          | None => None
          | Some messageData =>
              let messageLength := Pascal.value messageData in
              let nextRootStart :=
                (Pascal.end' indexData + Pascal.end' messageData)%nat in
              let messageStart := (nextRootStart + Curl.HASH_LENGTH)%nat in
              let messageEnd := Z.of_nat messageStart + messageLength in
              let sponge := Curl.new 27 in
              let sponge :=
                Curl.absorb sponge channelKeyTrits 0
                  (Z.of_nat (List.length channelKeyTrits)) in
              let sponge :=
                Curl.absorb sponge rootTrits 0
                  (Z.of_nat (List.length rootTrits)) in
              let sponge :=
                Curl.absorb sponge payloadTrits 0 (Z.of_nat nextRootStart) in
              let '(nextRoot, sponge) :=
                Mask.unmask
                  (Int8Array.slice payloadTrits nextRootStart
                     (nextRootStart + Curl.HASH_LENGTH)) sponge in
              let '(message, sponge) :=
                Mask.unmask
                  (Int8Array.sliceZ payloadTrits (Z.of_nat messageStart)
                     (Z.of_nat messageStart + messageLength)) sponge in
              let '(nonce, sponge) :=
                Mask.unmask
                  (Int8Array.sliceZ payloadTrits messageEnd
                     (messageEnd + Z.of_nat Curl.HASH_LENGTH / 3)) sponge in
              let hmac := Curl.rate sponge Curl.HASH_LENGTH in
              let securityLevel := IssP27.checksumSecurity hmac in
              if securityLevel =? 0 then None
              else
                let '(decryptedMetadata, sponge) :=
                  Mask.unmask
                    (Int8Array.sliceZ payloadTrits
                       (messageEnd + Z.of_nat (List.length nonce))
                       (Z.of_nat (List.length payloadTrits)))
                    sponge in
                let sponge := Curl.reset sponge in
                let sigLength :=
                  (Z.to_nat securityLevel
                   * IssP27.PRIVATE_KEY_FRAGMENT_LENGTH)%nat in
                let signature :=
                  Int8Array.slice decryptedMetadata 0 sigLength in
                let digest := IssP27.digestFromSignature hmac signature in
                let sponge :=
                  Curl.absorb sponge digest 0 (Z.of_nat (List.length digest)) in
                match Pascal.pascalDecode (skipn sigLength decryptedMetadata)
                with
                | None => None
                | Some siblingsCountData =>
                    let siblingsCount := Pascal.value siblingsCountData in
                    let recalculatedRoot := Curl.rate sponge Curl.HASH_LENGTH in
                    let recalculatedRoot :=
                      if negb (siblingsCount =? 0) then
                        let siblingsStart :=
                          (sigLength + Pascal.end' siblingsCountData)%nat in
                        let siblings :=
                          Int8Array.sliceZ decryptedMetadata
                            (Z.of_nat siblingsStart)
                            (Z.of_nat siblingsStart
                             + siblingsCount * Z.of_nat Curl.HASH_LENGTH) in
                        MerkleTree.root recalculatedRoot siblings index
                      else recalculatedRoot in
                    if negb (String.eqb
                               (TrytesHelper.fromTrits recalculatedRoot) root)
                    then None
                    else
                      Some (mkParsed (TrytesHelper.fromTrits nextRoot)
                              (TrytesHelper.fromTrits message))
                end
          end
      end
  | _, _, _ => None
  end.

End Parser.

(** ** The client *)

Module Client.

(** [decodeAddress(root, mode)]: the address a message with this root is
    stored at; [toTrits] throws on a root that is no tryte string. *)
Definition decodeAddress (root : string) (mode : MamMode) : option string :=
  match mode with
  | public => Some root
  | _ =>
      match TrytesHelper.toTrits root with
      | None => None
      | Some rootTrits =>
          Some (TrytesHelper.fromTrits (Mask.maskHash rootTrits))
      end
  end.

(** The functions of the library iota2.js that the client calls.  They are
    no part of this program, which is read here for any implementation of
    them.  Bytes are numbers. *)
Record Library : Type := mkLibrary {
  asciiToBytes : string -> list Z;
  bytesToAscii : list Z -> string;
  bytesToHex : list Z -> string;
  hexToBytes : string -> list Z;
  sum256 : list Z -> list Z
}.

(** An indexation payload, and a message of the node as far as the client
    reads it: its payload, if it has one; a payload of another kind has
    another type. *)
Record IIndexationPayload : Type := mkIndexation {
  payload_type : Z;
  payload_index : string;
  payload_data : string
}.

Record IMessage : Type := mkIMessage {
  message_payload : option IIndexationPayload
}.

(** What [mamFetch] returns: the root, what the parser returned, and the
    tag. *)
Record IMamFetchedMessage : Type := mkFetched {
  fetched_root : string;
  fetched_nextRoot : string;
  fetched_message : string;
  fetched_tag : string
}.

(** [data.set(source, offset)] on a Uint8Array: it throws when the source
    does not fit. *)
Definition set_bytes (data source : list Z) (offset : nat)
  : option (list Z) :=
  if (offset + List.length source <=? List.length data)%nat
  then Some (firstn offset data ++ source
             ++ skipn (offset + List.length source) data)
  else None.

(** The indexation payload that [mamAttach] builds, before it asks the node
    for tips and submits the message; [None] when a [set] throws.  An
    absent and an empty tag are both falsy. *)
Definition mamAttach_payload (lib : Library) (mamMessage : IMamMessage)
  (tag : option string) : option IIndexationPayload :=
  let given :=
    match tag with
    | Some t => negb (Nat.eqb (String.length t) 0)
    | None => false
    end in
  let tagLength :=
    match tag with
    | Some t => if given then String.length t else 0%nat
    | None => 0%nat
    end in
  let data :=
    Int8Array.new (1 + tagLength + String.length (payload mamMessage)) in
  let data := Int8Array.store data 0 (Z.of_nat tagLength mod 256) in
  match (match tag with
         | Some t =>
             if given then set_bytes data (asciiToBytes lib t) 1
             else Some data
         | None => Some data
         end) with
  | None => None
  | Some data =>
      match set_bytes data (asciiToBytes lib (payload mamMessage))
              (1 + tagLength) with
      | None => None
      | Some data =>
          Some (mkIndexation 2
                  (bytesToHex lib
                     (sum256 lib (asciiToBytes lib (address mamMessage))))
                  (bytesToHex lib data))
      end
  end.

(** [decodeMessages(messages, root, sideKey)]: the first message that
    parses; [None] is [undefined].  A message with a tag length of 0 or of
    more than 27 ends the search. *)
Fixpoint decodeMessages (lib : Library) (messages : list IMessage)
  (root : string) (sideKey : option string) : option IMamFetchedMessage :=
  match messages with
  | [] => None
  | message :: rest =>
      match message_payload message with
      | Some p =>
          if payload_type p =? 2 then
            let data := hexToBytes lib (payload_data p) in
            if (100 <? List.length data)%nat then
              let tagLength := Int8Array.get data 0 in
              if (tagLength =? 0) || (27 <? tagLength) then None
              else
                let tag :=
                  bytesToAscii lib
                    (Int8Array.slice data 1 (1 + Z.to_nat tagLength)) in
                let msg :=
                  bytesToAscii lib (skipn (1 + Z.to_nat tagLength) data) in
                match Parser.parseMessage msg root sideKey with
                | Some parsed =>
                    Some (mkFetched root (Parser.nextRoot parsed)
                            (Parser.message parsed) tag)
                | None => decodeMessages lib rest root sideKey
                end
            else decodeMessages lib rest root sideKey
          else decodeMessages lib rest root sideKey
      | None => decodeMessages lib rest root sideKey
      end
  end.

End Client.

(** * Definitions used to state and prove the properties *)

(** The positions the running index reads in [n] steps from [index], in
    pairs, and where it ends. *)
Fixpoint index_pairs (n : nat) (index : Z) : list (Z * Z) :=
  match n with
  | O => []
  | S n' => (index, Curl.next_index index) :: index_pairs n' (Curl.next_index index)
  end.

Fixpoint final_index (n : nat) (index : Z) : Z :=
  match n with
  | O => index
  | S n' => final_index n' (Curl.next_index index)
  end.

Definition positions (n : nat) : list Z := map Z.of_nat (seq 0 n).

(** The sum of the first [level] thirds of a hash. *)
Definition cumulative_sum (hash : list Z) (level : Z) : Z :=
  IssP27.sum (firstn (Z.to_nat level * 81) hash).

(** A sponge as the program keeps it: 729 trits. *)
Definition sponge_ok (c : Curl.t) : Prop :=
  List.length (Curl._state c) = Curl.STATE_LENGTH /\ trits (Curl._state c).

(** One iteration of [absorb]: a chunk of at most 243 trits is copied over
    the head of the state, which is then transformed. *)
Definition absorb_chunk (c : Curl.t) (chunk : list Z) : Curl.t :=
  Curl.transform (Curl.mk (Int8Array.set (Curl._state c) chunk 0) (Curl._rounds c)).

(** [mask] read chunk by chunk over what is left of the payload. *)
Fixpoint mask_chunks (n : nat) (rest keyChunk : list Z) (sponge : Curl.t)
  : list Z * Curl.t :=
  match n with
  | O => (rest, sponge)
  | S n' =>
      let chunk := firstn 243 rest in
      let sponge' := absorb_chunk sponge chunk in
      let keyChunk' :=
        Int8Array.set keyChunk
          (firstn (List.length chunk) (Curl.rate sponge' Curl.HASH_LENGTH)) 0 in
      let '(out, last) := mask_chunks n' (skipn 243 rest) keyChunk' sponge' in
      (Mask.mask_chunk chunk keyChunk 0 ++ out, last)
  end.

(** [unmask] read chunk by chunk over what is left of the payload. *)
Fixpoint unmask_chunks (n : nat) (rest : list Z) (sponge : Curl.t)
  : list Z * Curl.t :=
  match n with
  | O => (rest, sponge)
  | S n' =>
      let state := Curl.rate sponge Curl.HASH_LENGTH in
      let plain := Mask.unmask_chunk (firstn 243 rest) state 0 in
      let sponge' := absorb_chunk sponge plain in
      let '(out, last) := unmask_chunks n' (skipn 243 rest) sponge' in
      (plain ++ out, last)
  end.

(** The state of a sponge has the right length (its cells need not be
    trits). *)
Definition sponge_len (c : Curl.t) : Prop :=
  List.length (Curl._state c) = Curl.STATE_LENGTH.

(** The hash the signature chains iterate: a block is absorbed by a fresh
    27-round sponge and the rate is read. *)
Definition chain_hash (block : list Z) : list Z :=
  Curl.rate (absorb_chunk (Curl.new 27) block) Curl.HASH_LENGTH.

(** The [j]-th block a sponge yields when it is squeezed again and again. *)
Definition squeezed (c : Curl.t) (j : nat) : list Z :=
  Curl.rate (Curl.iter j Curl.transform c) Curl.HASH_LENGTH.

(** All blocks have 243 cells. *)
Definition blocks_ok (blocks : list (list Z)) : Prop :=
  Forall (fun b => List.length b = 243%nat) blocks.

(** The sponge that both the key and the digest of a subseed start from. *)
Definition subseed_sponge (subSeed : list Z) : Curl.t :=
  Curl.absorb (Curl.new 27) subSeed 0 (Z.of_nat (List.length subSeed)).

(** Fragment [i] of the signature of [hash] under a key: the key block
    hashed [13 - tryte] times. *)
Definition signed_block (hash : list Z) (blocks : list (list Z)) (i : nat)
  : list Z :=
  Curl.iter (Z.to_nat (IssP27.MAX_TRYTE_VALUE - IssP27.tryte_at hash i))
    chain_hash (nth i blocks []).

(** Fragment [i] as the verifier recovers it: the signature block hashed
    [tryte + 13] times. *)
Definition verified_block (hash : list Z) (blocks : list (list Z)) (i : nat)
  : list Z :=
  Curl.iter (Z.to_nat (IssP27.tryte_at hash i - IssP27.MIN_TRYTE_VALUE))
    chain_hash (nth i blocks []).

(** The third sponge of [digestFromSubseed] after [n] rounds of its loop. *)
Definition third_sponge (st : Curl.t * Curl.t * Curl.t * list Z) : Curl.t :=
  let '(_, _, curl3, _) := st in curl3.

(** The digest committed to: every squeezed block hashed 27 times, absorbed
    in turn. *)
Definition committed_blocks (c : Curl.t) (n : nat) : list (list Z) :=
  map (fun j => Curl.iter 27 chain_hash (squeezed c j)) (seq 0 n).

(** The digest buffer of [digestFromSubseed] after some rounds of its loop. *)
Definition digest_buffer (st : Curl.t * Curl.t * Curl.t * list Z) : list Z :=
  let '(_, _, _, digest) := st in digest.

(** A 64-bit word. *)
Definition word64 (x : Z) : Prop := 0 <= x < 2 ^ 64.

(** The trit that two bits stand for: (1,0) is -1, (0,1) is 1, (1,1) is 0
    (and so is the unused (0,0)). *)
Definition trit_of_bits (l h : bool) : Z :=
  if l && negb h then -1 else if negb l && h then 1 else 0.

(** The trit of lane [lane] in a pair of words. *)
Definition lane_trit (lane : Z) (l h : Z) : Z :=
  trit_of_bits (Z.testbit l lane) (Z.testbit h lane).

(** Lane [lane] of a pair of words holds one of the three used codes. *)
Definition lane_valid (lane : Z) (l h : Z) : Prop :=
  Z.testbit l lane || Z.testbit h lane = true.

(** The cell of the bit-sliced round at a pair of positions. *)
Definition cell_at (s : HammingDiver.states) (p : Z * Z) : Z * Z :=
  HammingDiver.cell
    (HammingDiver.get (HammingDiver.low s) (fst p))
    (HammingDiver.get (HammingDiver.high s) (fst p))
    (HammingDiver.get (HammingDiver.low s) (snd p))
    (HammingDiver.get (HammingDiver.high s) (snd p)).

(** One round of the bit-sliced transform, cell by cell. *)
Definition bitslice_round (s : HammingDiver.states) : HammingDiver.states :=
  let cells := map (cell_at s) (index_pairs Curl.STATE_LENGTH 0) in
  HammingDiver.mkStates (map fst cells) (map snd cells).

(** One round of Curl, cell by cell. *)
Definition curl_round (s : list Z) : list Z :=
  map (fun p => Curl.truth (Int8Array.get s (fst p)) (Int8Array.get s (snd p)))
    (index_pairs Curl.STATE_LENGTH 0).

(** The trits of one lane of a search state. *)
Definition lane_state (lane : Z) (s : HammingDiver.states) : list Z :=
  map (fun lh => lane_trit lane (fst lh) (snd lh))
    (combine (HammingDiver.low s) (HammingDiver.high s)).

(** A search state whose lane [lane] holds 729 trits. *)
Definition lane_ok (lane : Z) (s : HammingDiver.states) : Prop :=
  List.length (HammingDiver.low s) = Curl.STATE_LENGTH
  /\ List.length (HammingDiver.high s) = Curl.STATE_LENGTH
  /\ Forall (fun lh => word64 (fst lh) /\ word64 (snd lh)
                       /\ lane_valid lane (fst lh) (snd lh))
       (combine (HammingDiver.low s) (HammingDiver.high s)).

(** Every lane of a search state holds 729 trits. *)
Definition lanes_ok (s : HammingDiver.states) : Prop :=
  forall lane, 0 <= lane < 64 -> lane_ok lane s.

(** Two search states agree from position [m] on. *)
Definition same_tail (m : nat) (s s' : HammingDiver.states) : Prop :=
  skipn m (HammingDiver.low s) = skipn m (HammingDiver.low s')
  /\ skipn m (HammingDiver.high s) = skipn m (HammingDiver.high s').

(** The sum of the trits of third [j] of a lane. *)
Definition third_sum (lane_trits : list Z) (j : nat) : Z :=
  IssP27.sum (firstn 81 (skipn (j * 81) lane_trits)).

(** The nonce that [search] finds from the all-zero state at security 1. *)
Definition zero_state_nonce : list Z :=
  -1 :: 1 :: 1 :: 1 :: repeat 0 50 ++ 1 :: repeat 0 26.

(** The address [buildTree] gives a node with two children: both addresses
    absorbed, in order, by a fresh 27-round sponge. *)
Definition parent_address (l r : list Z) : list Z :=
  Curl.rate
    (Curl.absorb
       (Curl.absorb (Curl.new 27) l 0 (Z.of_nat (List.length l)))
       r 0 (Z.of_nat (List.length r)))
    Curl.HASH_LENGTH.

(** [spans A h n j0]: the node [n] is a full tree of height [h] over the
    leaves whose addresses are [A j0], [A (j0 + 1)], ... *)
Fixpoint spans (A : Z -> list Z) (h : nat) (n : MerkleNode) (j0 : Z) : Prop :=
  match h with
  | O =>
      MerkleNode.left n = None /\ MerkleNode.size n = 1
      /\ MerkleNode.addressTrits n = A j0
  | S h' =>
      exists l r,
        MerkleNode.left n = Some l /\ MerkleNode.right n = Some r
        /\ MerkleNode.size n = 2 ^ Z.of_nat (S h')
        /\ MerkleNode.addressTrits n
           = parent_address (MerkleNode.addressTrits l)
               (MerkleNode.addressTrits r)
        /\ spans A h' l j0 /\ spans A h' r (j0 + 2 ^ Z.of_nat h')
  end.

(** One level of the construction: full trees of height [h], side by
    side. *)
Fixpoint level (A : Z -> list Z) (h : nat) (ns : list MerkleNode) (j0 : Z)
  : Prop :=
  match ns with
  | [] => True
  | n :: rest => spans A h n j0 /\ level A h rest (j0 + 2 ^ Z.of_nat h)
  end.

(** The siblings met on the way from a node of height [h] down to its leaf
    [i], the topmost first. *)
Fixpoint path_siblings (h : nat) (n : MerkleNode) (i : Z) : list MerkleNode :=
  match h with
  | O => []
  | S h' =>
      match MerkleNode.left n, MerkleNode.right n with
      | Some l, Some r =>
          if i <? 2 ^ Z.of_nat h' then r :: path_siblings h' l i
          else l :: path_siblings h' r (i - 2 ^ Z.of_nat h')
      | _, _ => []
      end
  end.

(** One iteration of the loop of [MerkleTree.root], on
    [(sponge, i, rate)]. *)
Definition root_step (siblings : list Z) (index : Z) (c : nat)
  (st : Curl.t * Z * list Z) : Curl.t * Z * list Z :=
  let '(sponge, i, rate) := st in
  let chunk := Int8Array.slice siblings (c * Curl.HASH_LENGTH)%nat
                 ((c + 1) * Curl.HASH_LENGTH)%nat in
  let sponge := Curl.reset sponge in
  let sponge :=
    if Z.land i (MerkleTree.int32 index) =? 0 then
      let sponge := Curl.absorb sponge rate 0 (Z.of_nat (List.length rate)) in
      Curl.absorb sponge chunk 0 (Z.of_nat (List.length chunk))
    else
      let sponge := Curl.absorb sponge chunk 0 (Z.of_nat (List.length chunk)) in
      Curl.absorb sponge rate 0 (Z.of_nat (List.length rate)) in
  (sponge, MerkleTree.int32 (Z.shiftl i 1), Curl.rate sponge Curl.HASH_LENGTH).

(** The loop of [MerkleTree.root] after [n] iterations from chunk [c]. *)
Fixpoint root_run (siblings : list Z) (index : Z) (n c : nat)
  (st : Curl.t * Z * list Z) : Curl.t * Z * list Z :=
  match n with
  | O => st
  | S n' => root_step siblings index (c + n') (root_run siblings index n' c st)
  end.

(** The address of leaf [j] of the tree that starts at [start]. *)
Definition leaf_address (seedTrits : list Z) (start security : Z) (j : Z)
  : list Z :=
  MerkleHashGenerator.address
    (MerkleHashGenerator.generateAddress seedTrits (start + j) security).


(** A channel and its first message: the seed is 80 nines and an A, the
    mode is public, the security level 1. *)
Definition hello_seed : string := String.append (Channel.nines 80) "A".


Definition hello_channel : IMamChannelState :=
  mkChannelState hello_seed public None 1 0 1 1 0 None.

Definition hello_payload : string :=
  ("AQB9CWEKDBBTNOHGMFMIPIAUSBBNHQLCQLWSCQZCNJDTAFZKGUOKPVPJXRRW" ++
   "GH9TNXMTJUF9GBPKNVFTVDWMYSOCZTEMCUIVWWNTTXAQPSYZZVRRUIQSQXOS" ++
   "GSWKTRBFMLBYKFT9AAHRHVGYZ9DBD9GDCYFBJBUOBHCKS9B9DQEZGIA9UIXA" ++
   "EDX9FNJFOQJW9BUXRFKGQIHQMFFABVGGHL9VILHEODEFPLYBEAQDLQIRBKPV" ++
   "QYZQ99RMQVKGKFIMYPXPLZGGSEUQRKIGXTXD9FLYVGYLMVQL9LOHLVZNNBBE" ++
   "QLXUVPNZJDBSFDRHQVYSMHAXVRKRZCRFTMEAOUXVZ9LAVUDYXULKADWWWUIW" ++
   "TM9HDWBN9YEDQWLOCFBMLDQQMAQHDYCSBXDSUDTDQPTNJSNXXODAXMXCOMNE" ++
   "CKCPXRTVXABVLPAQAPKWCTLLODVBRIODJVAWMCYCMAGEJVVSVZZZEDBBFSGO" ++
   "KIOMQM9DWDNUPZHXQWRTEVGO9K9DLLCWCNYP9NVUHFPIVJETBAOALDMPQVJF" ++
   "YJEUQANDGS9NWDQUCLZREUWUUQPSBPUQFYECUIYEZDMVQYHQVPHIOCAAPJDT" ++
   "DBOU9R9TSPVKCEEJNNWKBMDJFZILWGPWBJCWGZUBDWJNUQPIZHHGHETEUHYH" ++
   "UJOVNGRRKKCRHRQZKKGXFOGVMEMEBTPUURBNKCQA9MUQUEYHKWAXIXKWPVBM" ++
   "LPQXPKZEDUHOPXVUEWVXGUMYRWEBGGGFRLAKQN99VUPMQPPACTZPEJESPSJE" ++
   "TMESSEIEIVYVDTKWPBMTDOWDDQKY9CYUWSWLBIPGKMJ9UTEFUASU9KLTMBPL" ++
   "HNVSTEHPFZGDIGFQOGJFJXI9MXL9VZH9EORYCYTSSNIWOAXZURFJZFFADQRK" ++
   "ATGDUNWBEJJTTCUXKUITPCPJLYQKIEQIVGEP9CIG9MZWLWVOVJJLXUGQOLUC" ++
   "KLUMXYG9YJSXAIAHWMQJJSVLSPKZMWVPEGGJFLEIEMVTDBVEMDNPSSVGDUMT" ++
   "EIDXHBCZJABSYOP9WIJZGPFNKGEE9VKG9SKDEUSRLKTMVOT9TGQCBXGCEQVS" ++
   "YPEDQAZUZDQWPDTPXVVHPHIMBG9RF9GPGXRSNV9TPXSNWILCOPFIATUYIXXE" ++
   "FLVSIAIJQPENLSLOBHDROQ9FXDSSJBWCPMWKEOJOYZPZHLDJMCKHITPJAXBS" ++
   "NUXJKXLQTVJZRZKKOXZJUDDYVLLCNKUNGHMWYGNUYDXNPWHFD9K9JFJYXXQV" ++
   "REIWNVDQHJNTVHQVSBSIZICPXRPVWVHHFOYLBVHITK9RAHQSEWFIYDQIWSPQ" ++
   "HOX9AQBXDTFABNDZGX9PAXA9VXWZENMEUCJOIMCYBCEPHYJVQIQNLWWUZZGJ" ++
   "IDOCKYAJMQVHULSNWUXZEGLJEUJNEVVVJRREAYBXHLMKLPXUPKHQCEPPNDRU" ++
   "WDBAHYHOTDTLMSDOTTXADQONVWLRIQJWEDXMEFJRJOSEUGNUBLBJEHIKMWRO" ++
   "DJCFZFKQMKUCMCSAVICJPBNFVEUZFDQUNSNZDHJWL9CKJBSVTCK99PP9IGOB" ++
   "BDVPATDYNMNGRBFNEZNKDMNBDCSVHNVVWTPLMIVENAVWRXMXQRYTEX9AESVO" ++
   "URYPTFCRMMWKX9EZEVMULJSRNXTREJQEMMDSXPADPRTHIKFLHAQAWXX9UHNF" ++
   "CLBXAHJHJACDZNWWLADLUGQHNFHLKEIOTDHXMNOCIYTGWYKLUKGGGMVIBYIJ" ++
   "WXBRXHUEGYGGRFQCLTAXFLKEBRJEFKRYKJQTMXHMAEYYZNKCUYYVRPZYAKSN" ++
   "FDUJMOGQKWYZQIJQWLI9XEGJIZEHVMDFUJVWCXEFUEDGKZRAESKDCEIPTMNJ" ++
   "TVAVV9GQRQXJTVGMSSNAK9TDSFRLYKUTZMQCDGRFEBSOSAISKITQSJIAGMZI" ++
   "LWEFAVCENJIJHWCLZUZVQQUTCIYANQNUSHOI9WXUDCMPUYFGI9AAJRHABLNR" ++
   "MZBIASOWPBLKZYQLNSSLCGQ9TUMNOJHJBTYLBVOVMRCIJQTHCAVLN9BJ9SGZ" ++
   "WTGVDPPZJOWGYLZKNLNVQQLBMXQPLHVHIK9MHHFCWVW9GFFBJEOAAEYKWYDR" ++
   "JSXYOGHMHNNBTOXQLVFPBCQYA9UHHVLONBSANJYCF9NQGCKXSQOQTOLEVOYO" ++
   "FWQLKKQCJALASELMLCIQHMJHCNZOESPALMY9OWGSWKPPCYOBFESYGPNFNSHD" ++
   "BGMHUDVGQVFZMJVUJHCVDQNDNO9TTMIQOPT9PZBCJJIEW9RDFEUBOEHXGIPE" ++
   "KIGUHI9QVQHGBVNWQRQKNIULJA")%string.

Definition hello_root : string :=
  "HZVXHCGKIEZYBBQMIXODYVDDPTZVKTJSKGUDYQXYQB9AZASTIC9XIZHWWHEKYJJFTGPFODAYQFWEBL9QM".

Definition hello_next_root : string :=
  "QAHOLULUBSHQDVKDNMAZXODGYYZHENUQS9QSFOYPQANXAFRPZKWSA9VLBJKSSAVWXYKOLYMTSTBSBVFRM".

Definition hello_message : IMamMessage :=
  mkMessage hello_payload hello_root hello_root.

Definition hello_next_channel : IMamChannelState :=
  mkChannelState hello_seed public None 1 1 1 1 0 (Some hello_next_root).






(** The largest number that [k] trits hold: 0, 1, 4, 13, ...; the sequence
    [minTrits] walks with its basis. *)
Fixpoint max_bt (k : nat) : Z :=
  match k with
  | O => 0
  | S k' => 1 + 3 * max_bt k'
  end.

(** A chunk of three trits as the first loop of [pascalEncode] leaves it:
    negated when its value is not negative. *)
Definition flip_chunk (c : list Z) : list Z :=
  if 0 <=? TrytesHelper.tritsValue c then map Z.opp c else c.

(** Whether the first loop of [pascalEncode] sets the bit of a chunk. *)
Definition flipped (c : list Z) : bool := 0 <=? TrytesHelper.tritsValue c.

(** The number with the given bits, the lowest first. *)
Fixpoint bits_value (bs : list bool) : Z :=
  match bs with
  | [] => 0
  | b :: bs' => Z.b2z b + 2 * bits_value bs'
  end.

(** Chunks of three. *)
Definition chunks3 (cs : list (list Z)) : Prop :=
  Forall (fun c => List.length c = 3%nat) cs.

(** The sizes of some nodes, added up. *)
Definition total_size (ns : list MerkleNode) : Z :=
  fold_right Z.add 0 (map MerkleNode.size ns).

(** A node with an address of 243 cells, which are trits when [T] holds. *)
Definition address_ok (T : Prop) (n : MerkleNode) : Prop :=
  List.length (MerkleNode.addressTrits n) = 243%nat
  /\ (T -> trits (MerkleNode.addressTrits n)).

(** [holds_keys K h n j0]: the leaves of the full tree [n] of height [h]
    hold the private keys [K j0], [K (j0 + 1)], ... *)
Fixpoint holds_keys (K : Z -> list Z) (h : nat) (n : MerkleNode) (j0 : Z)
  : Prop :=
  match h with
  | O => MerkleNode.privateKeyTrits n = Some (K j0)
  | S h' =>
      exists l r,
        MerkleNode.left n = Some l /\ MerkleNode.right n = Some r
        /\ holds_keys K h' l j0 /\ holds_keys K h' r (j0 + 2 ^ Z.of_nat h')
  end.

(** One level of the construction with its keys. *)
Fixpoint level_keys (K : Z -> list Z) (h : nat) (ns : list MerkleNode)
  (j0 : Z) : Prop :=
  match ns with
  | [] => True
  | n :: rest => holds_keys K h n j0 /\ level_keys K h rest (j0 + 2 ^ Z.of_nat h)
  end.

(** The private key of leaf [j] of the tree that starts at [start]. *)
Definition leaf_key (seedTrits : list Z) (start security : Z) (j : Z)
  : list Z :=
  MerkleHashGenerator.privateKey
    (MerkleHashGenerator.generateAddress seedTrits (start + j) security).

(** The sponge of [createMessage] and of [parseMessage] after the key, the
    root and the head of the payload (the index and the length of the
    message) have been absorbed. *)
Definition header_sponge (keyTrits rootTrits header : list Z) : Curl.t :=
  Curl.absorb
    (Curl.absorb
       (Curl.absorb (Curl.new 27) keyTrits 0 (Z.of_nat (List.length keyTrits)))
       rootTrits 0 (Z.of_nat (List.length rootTrits)))
    header 0 (Z.of_nat (List.length header)).

(** The end of [createMessage]'s payload: zeros up to a multiple of three
    trits. *)
Definition pad_third (payload : list Z) : list Z :=
  if negb (Nat.eqb (List.length payload mod 3) 0)
  then payload ++ Int8Array.new (3 - List.length payload mod 3)
  else payload.

(** The side key a channel state stands for. *)
Definition key_of (sideKey : option string) : string :=
  match sideKey with
  | Some k => k
  | None => Channel.nines 81
  end.

(** The nonce [createMessage] finds: its steps up to the search, and the
    search. *)
Definition message_nonce (fuel : nat) (channelState : IMamChannelState)
  (message : string) : option (list Z) :=
  match MerkleTree.new (seed channelState) (start channelState)
          (count channelState) (security channelState),
        MerkleTree.new (seed channelState)
          (start channelState + count channelState)
          (nextCount channelState) (security channelState),
        TrytesHelper.toTrits message,
        TrytesHelper.toTrits (key_of (sideKey channelState))
  with
  | Some tree, Some nextRootTree, Some messageTrits, Some sideKeyTrits =>
      match Pascal.pascalEncode (index channelState),
            Pascal.pascalEncode (Z.of_nat (List.length messageTrits)) with
      | Some indexTrits, Some messageLengthTrits =>
          let sponge :=
            header_sponge sideKeyTrits (MerkleNode.addressTrits tree)
              (indexTrits ++ messageLengthTrits) in
          let '(_, sponge) :=
            Mask.mask (MerkleNode.addressTrits nextRootTree ++ messageTrits)
              sponge in
          HammingDiver.search fuel (Curl.rate sponge Curl.STATE_LENGTH)
            (security channelState) (Z.of_nat Curl.HASH_LENGTH / 3) 0
      | _, _ => None
      end
  | _, _, _, _ => None
  end.

(** A match of the pattern of [decodeNonASCII] at the start of [s]: a
    backslash, [u] or [U], and four word characters. *)
Definition escape_at (s : list Z) : bool :=
  match s with
  | c :: u :: g1 :: g2 :: g3 :: g4 :: _ =>
      (c =? 92) && ((u =? 117) || (u =? 85))
      && TextHelper.is_word g1 && TextHelper.is_word g2
      && TextHelper.is_word g3 && TextHelper.is_word g4
  | _ => false
  end.

(** A match of the pattern somewhere in [s]. *)
Fixpoint has_escape (s : list Z) : bool :=
  match s with
  | [] => false
  | _ :: rest => escape_at s || has_escape rest
  end.

(** The four hexadecimal digits of a code unit. *)
Definition hex4 (c : Z) : list Z :=
  [TextHelper.hex_digit (c / 4096); TextHelper.hex_digit (c / 256 mod 16);
   TextHelper.hex_digit (c / 16 mod 16); TextHelper.hex_digit (c mod 16)].

(** A code unit. *)
Definition code_unit (c : Z) : Prop := 0 <= c <= 65535.

(** A byte. *)
Definition byte (b : Z) : Prop := 0 <= b < 256.

(** What the client needs of the library: ASCII text and its bytes go back
    and forth, and so do bytes and their hexadecimal text. *)
Definition library_ok (lib : Client.Library) : Prop :=
  (forall s, List.length (Client.asciiToBytes lib s) = String.length s)
  /\ (forall s, Forall byte (Client.asciiToBytes lib s))
  /\ (forall s, Client.bytesToAscii lib (Client.asciiToBytes lib s) = s)
  /\ (forall d, Forall byte d ->
        Client.hexToBytes lib (Client.bytesToHex lib d) = d).

(** The length of the tag as [mamAttach] writes it. *)
Definition tag_length (tag : option string) : nat :=
  match tag with
  | Some t => String.length t
  | None => 0
  end.

(** A library of the kind: a character for every byte, also as the
    hexadecimal text. *)
Definition plain_bytes (s : string) : list Z :=
  map (fun c => Z.of_nat (nat_of_ascii c)) (list_ascii_of_string s).

Definition plain_text (d : list Z) : string :=
  string_of_list_ascii (map (fun b => ascii_of_nat (Z.to_nat b)) d).

Definition plain_library : Client.Library :=
  Client.mkLibrary plain_bytes plain_text plain_text plain_bytes (fun d => d).

(** * Properties *)

Section ArrayFacts.

Lemma get_nth (a : list Z) (i : nat) :
  Int8Array.get a (Z.of_nat i) = nth i a 0.
Proof.
  unfold Int8Array.get.
  destruct (Z.ltb_spec (Z.of_nat i) 0); [lia|].
  now rewrite Nat2Z.id.
Qed.

Lemma map_get_positions (a : list Z) :
  map (Int8Array.get a) (positions (List.length a)) = a.
Proof.
  unfold positions. rewrite map_map.
  erewrite map_ext by (intros; apply get_nth).
  induction a as [|x a IH]; [reflexivity|].
  cbn [List.length seq map nth]. f_equal.
  rewrite <- seq_shift, map_map. exact IH.
Qed.

Lemma interleave_map {A B} (g : A -> B) (a b : list A) :
  Curl.interleave (map g a) (map g b) = map g (Curl.interleave a b).
Proof.
  revert b. induction a as [|x a IH]; intros [|y b]; cbn; try reflexivity.
  now rewrite IH.
Qed.

Lemma adjacent_map {A B} (g : A -> B) (l : list A) :
  Curl.adjacent (map g l)
  = map (fun p => (g (fst p), g (snd p))) (Curl.adjacent l).
Proof.
  induction l as [|a [|b t] IH]; cbn; try reflexivity.
  f_equal. exact IH.
Qed.

Lemma rev_append_map {A B} (g : A -> B) (l acc : list A) :
  rev_append (map g l) (map g acc) = map g (rev_append l acc).
Proof.
  revert acc. induction l as [|x l IH]; intros acc; cbn; [reflexivity|].
  now rewrite <- IH.
Qed.

Lemma visit_map {A B} (g : A -> B) (d : A) (d' : B) (l : list A) :
  l <> [] -> Curl.visit d' (map g l) = map g (Curl.visit d l).
Proof.
  intros Hl. unfold Curl.visit.
  rewrite <- interleave_map. f_equal.
  - cbn [map]. f_equal.
    + destruct l; [congruence|reflexivity].
    + rewrite skipn_map. apply (rev_append_map g _ []).
  - rewrite firstn_map. apply (rev_append_map g _ []).
Qed.

End ArrayFacts.

Section CurlTransform.

Lemma truth_cases_truth (a b : Z) : Curl.truth_cases a b = Curl.truth a b.
Proof.
  destruct a as [|[?|?|]|[?|?|]], b as [|[?|?|]|[?|?|]]; reflexivity.
Qed.

Lemma transform_cells_map (n : nat) (copy : list Z) (index : Z) :
  Curl.transform_cells n copy index
  = (map (fun p => Curl.truth (Int8Array.get copy (fst p))
                     (Int8Array.get copy (snd p)))
       (index_pairs n index),
     final_index n index).
Proof.
  revert index. induction n as [|n IH]; intros index; [reflexivity|].
  cbn [Curl.transform_cells index_pairs final_index map fst snd].
  now rewrite IH.
Qed.

Lemma visited_pairs :
  Curl.adjacent (Curl.visit 0 (positions Curl.STATE_LENGTH))
  = index_pairs Curl.STATE_LENGTH 0.
Proof. vm_compute. reflexivity. Qed.

Lemma final_index_round : final_index Curl.STATE_LENGTH 0 = 0.
Proof. vm_compute. reflexivity. Qed.

Lemma force_id (l : list Z) : Curl.force l = l.
Proof.
  induction l as [|[|p|p] l IH]; cbn; now rewrite ?IH.
Qed.

Lemma round_fast_map (s : list Z) :
  List.length s = Curl.STATE_LENGTH ->
  Curl.round_fast s
  = map (fun p => Curl.truth (Int8Array.get s (fst p)) (Int8Array.get s (snd p)))
      (index_pairs Curl.STATE_LENGTH 0).
Proof.
  intros Hlen. unfold Curl.round_fast. rewrite force_id.
  rewrite <- (map_get_positions s) at 1. rewrite Hlen.
  rewrite (visit_map (Int8Array.get s) 0 0) by discriminate.
  rewrite adjacent_map, map_map, visited_pairs.
  apply map_ext. intros [p q]. apply truth_cases_truth.
Qed.

Lemma index_pairs_length (n : nat) (index : Z) :
  List.length (index_pairs n index) = n.
Proof.
  revert index. induction n as [|n IH]; intros; cbn; [reflexivity|].
  now rewrite IH.
Qed.

Lemma round_fast_length (s : list Z) :
  List.length s = Curl.STATE_LENGTH ->
  List.length (Curl.round_fast s) = Curl.STATE_LENGTH.
Proof.
  intros H. rewrite round_fast_map by exact H.
  now rewrite length_map, index_pairs_length.
Qed.

Lemma transform_rounds_fast (rounds : nat) (s : list Z) :
  List.length s = Curl.STATE_LENGTH ->
  Curl.transform_rounds rounds s 0 = Curl.iter rounds Curl.round_fast s.
Proof.
  revert s. induction rounds as [|r IH]; intros s Hlen; [reflexivity|].
  cbn [Curl.transform_rounds Curl.iter].
  rewrite transform_cells_map, final_index_round, <- round_fast_map by exact Hlen.
  apply IH, round_fast_length, Hlen.
Qed.

(** The sponge's transform is the loop of the source, on every state. *)
Lemma transform_is_loop (rounds : nat) (s : list Z) :
  Curl.transform_state rounds s = Curl.transform_loop rounds s.
Proof.
  unfold Curl.transform_state, Curl.transform_loop.
  destruct (Nat.eqb_spec (List.length s) Curl.STATE_LENGTH) as [H|H];
    [|reflexivity].
  symmetry. now apply transform_rounds_fast.
Qed.

End CurlTransform.

Section ChecksumSecurity.

Lemma checksumSecurity_cases (h : list Z) :
  List.length h = 243%nat ->
  IssP27.checksumSecurity h =
    if cumulative_sum h 1 =? 0 then 1
    else if cumulative_sum h 2 =? 0 then 2
    else if cumulative_sum h 3 =? 0 then 3 else 0.
Proof.
  intros Hlen. unfold IssP27.checksumSecurity, cumulative_sum, Int8Array.slice.
  change (Z.to_nat 1 * 81)%nat with 81%nat.
  change (Z.to_nat 2 * 81)%nat with 162%nat.
  change (Z.to_nat 3 * 81)%nat with 243%nat.
  change (Curl.HASH_LENGTH / 3 - 0)%nat with 81%nat.
  change (2 * Curl.HASH_LENGTH / 3 - 0)%nat with 162%nat.
  cbn [skipn].
  replace (firstn 243 h) with h; [reflexivity|].
  rewrite <- Hlen. symmetry. apply firstn_all.
Qed.

(** C9.  On a hash of 243 trits [checksumSecurity] returns 1 when the first 81
    trits sum to 0, otherwise 2 when the first 162 do, otherwise 3 when all
    243 do, otherwise 0: the smallest level whose cumulative sum of thirds is
    zero, and 0 when there is none. *)
Theorem checksumSecurity_smallest_level (h : list Z) :
  List.length h = 243%nat ->
  IssP27.checksumSecurity h =
    (if IssP27.sum (firstn 81 h) =? 0 then 1
     else if IssP27.sum (firstn 162 h) =? 0 then 2
     else if IssP27.sum (firstn 243 h) =? 0 then 3 else 0)
  /\ (forall level, 1 <= level <= 3 ->
        (IssP27.checksumSecurity h = level <->
         cumulative_sum h level = 0
         /\ forall l, 1 <= l < level -> cumulative_sum h l <> 0))
  /\ (IssP27.checksumSecurity h = 0 <->
      forall l, 1 <= l <= 3 -> cumulative_sum h l <> 0).
Proof.
  intros Hlen. rewrite (checksumSecurity_cases h Hlen).
  split; [reflexivity|].
  pose (P := fun l => cumulative_sum h l <> 0).
  assert (B1 : (forall l, 1 <= l < 1 -> P l) <-> True)
    by (split; [trivial | intros _ l Hl; lia]).
  assert (B2 : (forall l, 1 <= l < 2 -> P l) <-> P 1).
  { split; [intros H; apply H; lia|].
    intros H l Hl. now replace l with 1 by lia. }
  assert (B3 : (forall l, 1 <= l < 3 -> P l) <-> P 1 /\ P 2).
  { split; [intros H; split; apply H; lia|].
    intros [Ha Hb] l Hl.
    assert (Hc : l = 1 \/ l = 2) by lia. now destruct Hc as [-> | ->]. }
  assert (B4 : (forall l, 1 <= l <= 3 -> P l) <-> P 1 /\ P 2 /\ P 3).
  { split; [intros H; repeat split; apply H; lia|].
    intros (Ha & Hb & Hc) l Hl.
    assert (Hd : l = 1 \/ l = 2 \/ l = 3) by lia.
    now destruct Hd as [-> | [-> | ->]]. }
  split.
  - intros level Hl.
    assert (Hc : level = 1 \/ level = 2 \/ level = 3) by lia.
    destruct Hc as [-> | [-> | ->]];
      [ change (forall l, 1 <= l < 1 -> cumulative_sum h l <> 0)
          with (forall l, 1 <= l < 1 -> P l); rewrite B1
      | change (forall l, 1 <= l < 2 -> cumulative_sum h l <> 0)
          with (forall l, 1 <= l < 2 -> P l); rewrite B2
      | change (forall l, 1 <= l < 3 -> cumulative_sum h l <> 0)
          with (forall l, 1 <= l < 3 -> P l); rewrite B3 ];
      unfold P;
      destruct (Z.eqb_spec (cumulative_sum h 1) 0);
      destruct (Z.eqb_spec (cumulative_sum h 2) 0);
      destruct (Z.eqb_spec (cumulative_sum h 3) 0);
      intuition congruence.
  - change (forall l, 1 <= l <= 3 -> cumulative_sum h l <> 0)
      with (forall l, 1 <= l <= 3 -> P l).
    rewrite B4. unfold P.
    destruct (Z.eqb_spec (cumulative_sum h 1) 0);
      destruct (Z.eqb_spec (cumulative_sum h 2) 0);
      destruct (Z.eqb_spec (cumulative_sum h 3) 0);
      intuition congruence.
Qed.

Lemma checksumSecurity_smallest_level_witness :
  List.length (repeat 0 243) = 243%nat
  /\ IssP27.checksumSecurity (repeat 0 243) = 1.
Proof.
  split; [reflexivity|].
  destruct (checksumSecurity_smallest_level (repeat 0 243) eq_refl)
    as [H _].
  rewrite H. reflexivity.
Defined.

End ChecksumSecurity.

Section TritFacts.

Lemma is_trit_0 : is_trit 0.
Proof. right; left; reflexivity. Qed.

Lemma trits_repeat_0 (n : nat) : trits (repeat 0 n).
Proof. apply Forall_forall. intros x Hx. apply repeat_spec in Hx. subst. apply is_trit_0. Qed.

Lemma trits_app (a b : list Z) : trits a -> trits b -> trits (a ++ b).
Proof. intros. apply Forall_app. now split. Qed.

Lemma trits_firstn (n : nat) (a : list Z) : trits a -> trits (firstn n a).
Proof.
  unfold trits. intros H. revert n.
  induction H as [|x a Hx Ha IH]; intros [|n]; cbn; constructor; auto.
Qed.

Lemma trits_skipn (n : nat) (a : list Z) : trits a -> trits (skipn n a).
Proof.
  unfold trits. intros H. revert n.
  induction H as [|x a Hx Ha IH]; intros [|n]; cbn; try constructor; auto.
Qed.

Lemma trits_slice (a : list Z) (b e : nat) : trits a -> trits (Int8Array.slice a b e).
Proof. intros H. unfold Int8Array.slice. now apply trits_firstn, trits_skipn. Qed.

Lemma trits_set (dst src : list Z) (off : nat) :
  trits dst -> trits src -> trits (Int8Array.set dst src off).
Proof.
  intros Hd Hs. unfold Int8Array.set.
  apply trits_app; [now apply trits_firstn|].
  apply trits_app; [assumption|now apply trits_skipn].
Qed.

Lemma trits_get (a : list Z) (i : Z) : trits a -> is_trit (Int8Array.get a i).
Proof.
  intros H. unfold Int8Array.get.
  destruct (i <? 0); [apply is_trit_0|].
  destruct (Nat.lt_ge_cases (Z.to_nat i) (List.length a)) as [Hlt|Hge].
  - eapply Forall_forall; [exact H|]. now apply nth_In.
  - rewrite nth_overflow by exact Hge. apply is_trit_0.
Qed.

Lemma slice_length_le (a : list Z) (b e : nat) :
  (List.length (Int8Array.slice a b e) <= e - b)%nat.
Proof. unfold Int8Array.slice. rewrite length_firstn. lia. Qed.

Lemma slice_length (a : list Z) (b e : nat) :
  (e <= List.length a)%nat ->
  List.length (Int8Array.slice a b e) = (e - b)%nat.
Proof.
  intros H. unfold Int8Array.slice. rewrite length_firstn, length_skipn. lia.
Qed.

Lemma slice_all (a : list Z) : Int8Array.slice a 0 (List.length a) = a.
Proof. unfold Int8Array.slice. cbn [skipn]. rewrite Nat.sub_0_r. apply firstn_all. Qed.

Lemma set_length (dst src : list Z) (off : nat) :
  (off + List.length src <= List.length dst)%nat ->
  List.length (Int8Array.set dst src off) = List.length dst.
Proof.
  intros H. unfold Int8Array.set.
  rewrite !length_app, length_firstn, length_skipn. lia.
Qed.

Lemma set_whole (dst src : list Z) :
  List.length src = List.length dst -> Int8Array.set dst src 0 = src.
Proof.
  intros H. unfold Int8Array.set. cbn [firstn app Nat.add].
  rewrite H, skipn_all. apply app_nil_r.
Qed.

End TritFacts.

Section SpongeFacts.

Lemma truth_trit (a b : Z) : is_trit a -> is_trit b -> is_trit (Curl.truth a b).
Proof.
  unfold is_trit. intros [-> | [-> | ->]] [-> | [-> | ->]]; cbv; auto.
Qed.

Lemma transform_cells_trits (n : nat) (s : list Z) (i : Z) :
  trits s -> trits (fst (Curl.transform_cells n s i)).
Proof.
  intros Hs. rewrite transform_cells_map. cbn [fst].
  apply Forall_forall. intros x Hx.
  apply in_map_iff in Hx. destruct Hx as (p & <- & _).
  apply truth_trit; now apply trits_get.
Qed.

Lemma transform_cells_length (n : nat) (s : list Z) (i : Z) :
  List.length (fst (Curl.transform_cells n s i)) = n.
Proof.
  rewrite transform_cells_map. cbn [fst].
  now rewrite length_map, index_pairs_length.
Qed.

Lemma transform_rounds_trits (rounds : nat) (s : list Z) (i : Z) :
  trits s -> trits (Curl.transform_rounds rounds s i).
Proof.
  revert s i. induction rounds as [|r IH]; intros s i Hs; [exact Hs|].
  cbn [Curl.transform_rounds].
  pose proof (transform_cells_trits Curl.STATE_LENGTH s i Hs) as Ht.
  destruct (Curl.transform_cells Curl.STATE_LENGTH s i) as [s' i'].
  now apply IH.
Qed.

Lemma transform_rounds_length (rounds : nat) (s : list Z) (i : Z) :
  List.length s = Curl.STATE_LENGTH ->
  List.length (Curl.transform_rounds rounds s i) = Curl.STATE_LENGTH.
Proof.
  revert s i. induction rounds as [|r IH]; intros s i Hs; [exact Hs|].
  cbn [Curl.transform_rounds].
  pose proof (transform_cells_length Curl.STATE_LENGTH s i) as Ht.
  destruct (Curl.transform_cells Curl.STATE_LENGTH s i) as [s' i'].
  now apply IH.
Qed.

Lemma transform_ok (c : Curl.t) : sponge_ok c -> sponge_ok (Curl.transform c).
Proof.
  intros [Hl Ht]. unfold sponge_ok, Curl.transform. cbn [Curl._state].
  rewrite transform_is_loop. unfold Curl.transform_loop. split.
  - now apply transform_rounds_length.
  - now apply transform_rounds_trits.
Qed.

Lemma transform_rounds_eq (c : Curl.t) :
  Curl._rounds (Curl.transform c) = Curl._rounds c.
Proof. reflexivity. Qed.

Lemma new_ok (rounds : nat) : sponge_ok (Curl.new rounds).
Proof.
  split; [apply repeat_length|apply trits_repeat_0].
Qed.

Lemma reset_ok (c : Curl.t) : sponge_ok (Curl.reset c).
Proof.
  split; [apply repeat_length|apply trits_repeat_0].
Qed.

Lemma absorb_chunk_ok (c : Curl.t) (chunk : list Z) :
  sponge_ok c -> trits chunk -> (List.length chunk <= 243)%nat ->
  sponge_ok (absorb_chunk c chunk).
Proof.
  intros [Hl Ht] Hc Hlen. apply transform_ok. split; cbn [Curl._state].
  - rewrite set_length; [exact Hl|]. rewrite Hl.
    change Curl.STATE_LENGTH with 729%nat. lia.
  - now apply trits_set.
Qed.

Lemma absorb_chunk_rounds (c : Curl.t) (chunk : list Z) :
  Curl._rounds (absorb_chunk c chunk) = Curl._rounds c.
Proof. reflexivity. Qed.

Lemma rate_length (c : Curl.t) (n : nat) :
  sponge_ok c -> (n <= 729)%nat -> List.length (Curl.rate c n) = n.
Proof.
  intros [Hl _] Hn. unfold Curl.rate.
  rewrite slice_length; [lia|]. rewrite Hl. exact Hn.
Qed.

Lemma rate_trits (c : Curl.t) (n : nat) : sponge_ok c -> trits (Curl.rate c n).
Proof. intros [_ Ht]. now apply trits_slice. Qed.

(** [absorb] of at most one chunk. *)
Lemma absorb_short (c : Curl.t) (t : list Z) (offset length : Z) :
  length <= 243 ->
  Curl.absorb c t offset length
  = absorb_chunk c
      (Int8Array.subarray t (Z.to_nat offset) (Z.to_nat (offset + length))).
Proof.
  intros Hlen. unfold Curl.absorb.
  assert (Hstep : forall fuel,
    Curl.absorb_loop fuel c t offset length
    = absorb_chunk c
        (Int8Array.subarray t (Z.to_nat offset) (Z.to_nat (offset + length)))).
  { intros fuel. destruct fuel; cbn [Curl.absorb_loop];
      change (Z.of_nat Curl.HASH_LENGTH) with 243;
      (destruct (Z.ltb_spec length 243);
       [|replace length with 243 by lia];
       destruct (Z.ltb_spec 0 (length - 243)); try lia;
       destruct (Z.ltb_spec 0 (243 - 243)); try lia; reflexivity). }
  apply Hstep.
Qed.

(** [absorb] of more than one chunk: the first chunk, then the rest. *)
Lemma absorb_long (c : Curl.t) (t : list Z) (offset length : Z) :
  243 < length ->
  Curl.absorb c t offset length
  = Curl.absorb
      (absorb_chunk c
         (Int8Array.subarray t (Z.to_nat offset) (Z.to_nat (offset + 243))))
      t (offset + 243) (length - 243).
Proof.
  intros Hlen. unfold Curl.absorb.
  change (Z.of_nat Curl.HASH_LENGTH) with 243.
  replace (Z.to_nat (length / 243))
    with (S (Z.to_nat ((length - 243) / 243))).
  2:{ replace length with ((length - 243) + 1 * 243) at 2 by lia.
      rewrite Z.div_add by lia.
      assert (0 <= (length - 243) / 243) by (apply Z.div_pos; lia). lia. }
  cbn [Curl.absorb_loop]. change (Z.of_nat Curl.HASH_LENGTH) with 243.
  destruct (Z.ltb_spec length 243); [lia|].
  destruct (Z.ltb_spec 0 (length - 243)); [|lia].
  reflexivity.
Qed.

(** Absorbing a whole array of at most 243 trits. *)
Lemma absorb_whole_short (c : Curl.t) (t : list Z) :
  (List.length t <= 243)%nat ->
  Curl.absorb c t 0 (Z.of_nat (List.length t)) = absorb_chunk c t.
Proof.
  intros H. rewrite absorb_short by lia.
  cbn [Z.to_nat Z.add]. rewrite Nat2Z.id.
  unfold Int8Array.subarray. now rewrite slice_all.
Qed.

Lemma absorb_ok (c : Curl.t) (t : list Z) (offset length : Z) :
  sponge_ok c -> trits t -> sponge_ok (Curl.absorb c t offset length).
Proof.
  intros Hc Ht. unfold Curl.absorb.
  generalize (Z.to_nat (length / Z.of_nat Curl.HASH_LENGTH)) as fuel.
  intros fuel. revert c offset length Hc.
  induction fuel as [|fuel IH]; intros c offset length Hc;
    cbn [Curl.absorb_loop]; change (Z.of_nat Curl.HASH_LENGTH) with 243.
  all: assert (Hstep : sponge_ok
         (Curl.transform
            (Curl.mk
               (Int8Array.set (Curl._state c)
                  (Int8Array.subarray t (Z.to_nat offset)
                     (Z.to_nat (offset + (if length <? 243 then length else 243)))) 0)
               (Curl._rounds c)))).
  1,3: apply (absorb_chunk_ok c _ Hc);
       [ now apply trits_slice
       | etransitivity; [apply slice_length_le|];
         destruct (Z.ltb_spec length 243); lia ].
  all: destruct (0 <? length - 243); auto.
Qed.

Lemma absorb_rounds (c : Curl.t) (t : list Z) (offset length : Z) :
  Curl._rounds (Curl.absorb c t offset length) = Curl._rounds c.
Proof.
  unfold Curl.absorb.
  generalize (Z.to_nat (length / Z.of_nat Curl.HASH_LENGTH)) as fuel.
  intros fuel. revert c offset length.
  induction fuel as [|fuel IH]; intros c offset length;
    cbn [Curl.absorb_loop]; destruct (0 <? _); try reflexivity.
  now rewrite IH.
Qed.

(** [squeeze] of at most one block. *)
Lemma squeeze_short (c : Curl.t) (out : list Z) (offset length : Z) :
  length <= 243 ->
  Curl.squeeze c out offset length
  = (Curl.transform c,
     Int8Array.set out
       (Int8Array.subarray (Curl._state c) 0 (Z.to_nat length))
       (Z.to_nat offset)).
Proof.
  intros Hlen. unfold Curl.squeeze.
  generalize (Z.to_nat (length / Z.of_nat Curl.HASH_LENGTH)) as fuel.
  intros fuel. destruct fuel; cbn [Curl.squeeze_loop];
    change (Z.of_nat Curl.HASH_LENGTH) with 243;
    (destruct (Z.ltb_spec length 243);
     [|replace length with 243 by lia];
     destruct (Z.ltb_spec 0 (length - 243)); try lia;
     destruct (Z.ltb_spec 0 (243 - 243)); try lia; reflexivity).
Qed.

(** Squeezing one block into a fresh array of 243 cells. *)
Lemma squeeze_block (c : Curl.t) (out : list Z) :
  sponge_ok c -> List.length out = 243%nat ->
  Curl.squeeze c out 0 (Z.of_nat (List.length out))
  = (Curl.transform c, Curl.rate c Curl.HASH_LENGTH).
Proof.
  intros Hc Hout. rewrite squeeze_short by lia.
  f_equal. rewrite Nat2Z.id. cbn [Z.to_nat]. unfold Curl.rate.
  rewrite Hout. change Curl.HASH_LENGTH with 243%nat.
  unfold Int8Array.subarray.
  apply set_whole. rewrite Hout.
  rewrite slice_length; [reflexivity|].
  destruct Hc as [Hl _]. rewrite Hl. cbv. lia.
Qed.

End SpongeFacts.

Section ChunkFacts.

Lemma fragments_0 : IssP27.fragments 0 = 0%nat.
Proof. reflexivity. Qed.

Lemma fragments_step (m : nat) :
  (0 < m)%nat -> IssP27.fragments m = S (IssP27.fragments (m - 243)).
Proof.
  intros Hm. unfold IssP27.fragments.
  change (Curl.HASH_LENGTH - 1)%nat with 242%nat.
  change Curl.HASH_LENGTH with 243%nat.
  destruct (Nat.le_gt_cases m 243) as [Hle|Hgt].
  - replace (m - 243)%nat with 0%nat by lia.
    change ((0 + 242) / 243)%nat with 0%nat.
    symmetry. apply Nat.div_unique with (r := (m - 1)%nat); lia.
  - replace (m + 242)%nat with ((m - 243 + 242) + 1 * 243)%nat by lia.
    rewrite Nat.div_add by lia. lia.
Qed.

Lemma fragments_exact (k : nat) : IssP27.fragments (k * 243) = k.
Proof.
  unfold IssP27.fragments.
  change (Curl.HASH_LENGTH - 1)%nat with 242%nat.
  change Curl.HASH_LENGTH with 243%nat.
  symmetry. apply Nat.div_unique with (r := 242%nat); lia.
Qed.

Lemma slice_app_exact (done rest : list Z) (w : nat) :
  Int8Array.slice (done ++ rest) (List.length done) (List.length done + w)
  = firstn w rest.
Proof.
  unfold Int8Array.slice.
  rewrite skipn_app, skipn_all, Nat.sub_diag. cbn [skipn app].
  f_equal. lia.
Qed.

Lemma set_app_exact (done rest x : list Z) :
  Int8Array.set (done ++ rest) x (List.length done)
  = done ++ x ++ skipn (List.length x) rest.
Proof.
  unfold Int8Array.set.
  rewrite firstn_app, firstn_all, Nat.sub_diag. cbn [firstn].
  rewrite app_nil_r. f_equal. f_equal.
  rewrite skipn_app, skipn_all2 by lia. cbn [app].
  f_equal. lia.
Qed.

Lemma skipn_firstn_length (rest : list Z) (w : nat) :
  skipn (List.length (firstn w rest)) rest = skipn w rest.
Proof.
  rewrite length_firstn.
  destruct (Nat.le_gt_cases w (List.length rest)) as [H|H].
  - now rewrite Nat.min_l by exact H.
  - rewrite Nat.min_r by lia. now rewrite skipn_all, skipn_all2 by lia.
Qed.

Lemma firstn_app_exact (a b : list Z) (n : nat) :
  List.length a = n -> firstn n (a ++ b) = a.
Proof.
  intros <-. rewrite firstn_app, firstn_all, Nat.sub_diag, firstn_O.
  apply app_nil_r.
Qed.

Lemma skipn_app_exact (a b : list Z) (n : nat) :
  List.length a = n -> skipn n (a ++ b) = b.
Proof.
  intros <-. rewrite skipn_app, skipn_all, Nat.sub_diag, skipn_O.
  reflexivity.
Qed.

Lemma mask_chunk_length (chunk key : list Z) (i : Z) :
  List.length (Mask.mask_chunk chunk key i) = List.length chunk.
Proof.
  revert i. induction chunk as [|x chunk IH]; intros i; cbn; [reflexivity|].
  now rewrite IH.
Qed.

Lemma unmask_chunk_length (chunk state : list Z) (i : Z) :
  List.length (Mask.unmask_chunk chunk state i) = List.length chunk.
Proof.
  revert i. induction chunk as [|x chunk IH]; intros i; cbn; [reflexivity|].
  now rewrite IH.
Qed.

End ChunkFacts.

Section MaskLoops.

Lemma mask_loop_chunks (n c : nat) (done rest key : list Z) (sponge : Curl.t) :
  List.length done = (c * 243)%nat ->
  n = IssP27.fragments (List.length rest) ->
  Mask.mask_loop n c (done ++ rest) sponge key
  = (done ++ fst (mask_chunks n rest key sponge),
     snd (mask_chunks n rest key sponge)).
Proof.
  revert c done rest key sponge.
  induction n as [|n IH]; intros c done rest key sponge Hdone Hn;
    [reflexivity|].
  cbn [Mask.mask_loop mask_chunks].
  change Curl.HASH_LENGTH with 243%nat.
  replace ((c + 1) * 243)%nat with (List.length done + 243)%nat by lia.
  rewrite <- Hdone, slice_app_exact.
  set (chunk := firstn 243 rest).
  assert (Hrest : (0 < List.length rest)%nat).
  { destruct rest; [discriminate Hn|cbn; lia]. }
  assert (Hchunk : (List.length chunk <= 243)%nat) by apply firstn_le_length.
  rewrite absorb_whole_short by exact Hchunk.
  rewrite set_app_exact, mask_chunk_length.
  replace (skipn (List.length chunk) rest) with (skipn 243 rest)
    by (unfold chunk; symmetry; apply skipn_firstn_length).
  rewrite (fragments_step _ Hrest) in Hn. injection Hn as Hn.
  rewrite <- length_skipn in Hn.
  destruct (Nat.le_gt_cases 243 (List.length rest)) as [Hfull|Hpart].
  - replace (done ++ Mask.mask_chunk chunk key 0 ++ skipn 243 rest)
      with ((done ++ Mask.mask_chunk chunk key 0) ++ skipn 243 rest)
      by now rewrite <- app_assoc.
    rewrite (IH (S c)); [| |exact Hn].
    + destruct (mask_chunks n (skipn 243 rest) _ _) as [out last].
      cbn [fst snd]. now rewrite <- app_assoc.
    + rewrite length_app, mask_chunk_length. unfold chunk.
      rewrite length_firstn. lia.
  - assert (Hskip : skipn 243 rest = []) by (apply skipn_all2; lia).
    rewrite Hskip in *.
    change (IssP27.fragments (List.length [])) with 0%nat in Hn. subst n.
    cbn [Mask.mask_loop mask_chunks fst snd]. reflexivity.
Qed.

Lemma unmask_loop_chunks (n q : nat) (done rest : list Z) (sponge : Curl.t) :
  List.length done = (q * 243)%nat ->
  n = IssP27.fragments (List.length rest) ->
  Mask.unmask_loop n q (done ++ rest) sponge
  = (done ++ fst (unmask_chunks n rest sponge),
     snd (unmask_chunks n rest sponge)).
Proof.
  revert q done rest sponge.
  induction n as [|n IH]; intros q done rest sponge Hdone Hn; [reflexivity|].
  cbn [Mask.unmask_loop unmask_chunks].
  change Curl.HASH_LENGTH with 243%nat.
  replace ((q + 1) * 243)%nat with (List.length done + 243)%nat by lia.
  rewrite <- Hdone, slice_app_exact.
  set (state := Curl.rate sponge 243).
  set (plain := Mask.unmask_chunk (firstn 243 rest) state 0).
  assert (Hrest : (0 < List.length rest)%nat).
  { destruct rest; [discriminate Hn|cbn; lia]. }
  assert (Hplain : List.length plain = List.length (firstn 243 rest))
    by apply unmask_chunk_length.
  rewrite set_app_exact, Hplain, skipn_firstn_length.
  assert (Habs :
    Curl.absorb sponge (done ++ plain ++ skipn 243 rest)
      (Z.of_nat (List.length done)) (Z.of_nat 243)
    = absorb_chunk sponge plain).
  { rewrite absorb_short by (cbn; lia).
    rewrite Nat2Z.id. replace (Z.to_nat (Z.of_nat (List.length done) + Z.of_nat 243))
      with (List.length done + 243)%nat by lia.
    unfold Int8Array.subarray. rewrite slice_app_exact.
    f_equal. rewrite firstn_app.
    rewrite length_firstn in Hplain.
    destruct (Nat.le_gt_cases 243 (List.length rest)) as [Hfull|Hpart].
    - rewrite Nat.min_l in Hplain by exact Hfull.
      rewrite Hplain, Nat.sub_diag, firstn_O, app_nil_r.
      apply firstn_all2. lia.
    - rewrite skipn_all2 by lia. rewrite firstn_nil, app_nil_r.
      apply firstn_all2. lia. }
  rewrite Habs.
  rewrite (fragments_step _ Hrest) in Hn. injection Hn as Hn.
  rewrite <- length_skipn in Hn.
  destruct (Nat.le_gt_cases 243 (List.length rest)) as [Hfull|Hpart].
  - replace (done ++ plain ++ skipn 243 rest)
      with ((done ++ plain) ++ skipn 243 rest) by now rewrite <- app_assoc.
    rewrite (IH (S q)); [| |exact Hn].
    + destruct (unmask_chunks n (skipn 243 rest) _) as [out last].
      cbn [fst snd]. now rewrite <- app_assoc.
    + rewrite length_app, Hplain, length_firstn. lia.
  - assert (Hskip : skipn 243 rest = []) by (apply skipn_all2; lia).
    rewrite Hskip in *.
    change (IssP27.fragments (List.length [])) with 0%nat in Hn. subst n.
    cbn [Mask.unmask_loop unmask_chunks fst snd]. reflexivity.
Qed.

Lemma mask_as_chunks (payload : list Z) (sponge : Curl.t) :
  Mask.mask payload sponge
  = mask_chunks (IssP27.fragments (List.length payload)) payload
      (Curl.rate sponge Curl.HASH_LENGTH) sponge.
Proof.
  unfold Mask.mask.
  rewrite (mask_loop_chunks _ 0 [] payload) by reflexivity.
  cbn [app]. now destruct (mask_chunks _ _ _ _).
Qed.

Lemma unmask_as_chunks (payload : list Z) (sponge : Curl.t) :
  Mask.unmask payload sponge
  = unmask_chunks (IssP27.fragments (List.length payload)) payload sponge.
Proof.
  unfold Mask.unmask.
  change Curl.HASH_LENGTH with 243%nat.
  rewrite Nat.div_mul by discriminate.
  rewrite (unmask_loop_chunks _ 0 [] payload) by reflexivity.
  cbn [app]. now destruct (unmask_chunks _ _ _).
Qed.

End MaskLoops.

Section MaskRoundTrip.

Lemma tritSum_cancel (a k : Z) :
  is_trit a -> is_trit k -> Mask.tritSum (Mask.tritSum a k) (- k) = a.
Proof.
  unfold is_trit. intros [-> | [-> | ->]] [-> | [-> | ->]]; reflexivity.
Qed.

Lemma tritSum_trit (a k : Z) :
  is_trit a -> is_trit k -> is_trit (Mask.tritSum a k).
Proof.
  unfold is_trit. intros [-> | [-> | ->]] [-> | [-> | ->]]; cbv; auto.
Qed.

Lemma unmask_mask_chunk (chunk key : list Z) (i : Z) :
  trits chunk -> trits key ->
  Mask.unmask_chunk (Mask.mask_chunk chunk key i) key i = chunk.
Proof.
  intros Hc Hk. revert i.
  induction Hc as [|x chunk Hx Hc IH]; intros i; cbn; [reflexivity|].
  rewrite IH. f_equal. apply tritSum_cancel; [exact Hx|now apply trits_get].
Qed.

Lemma mask_chunk_trits (chunk key : list Z) (i : Z) :
  trits chunk -> trits key -> trits (Mask.mask_chunk chunk key i).
Proof.
  intros Hc Hk. revert i.
  induction Hc as [|x chunk Hx Hc IH]; intros i; cbn; constructor.
  - apply tritSum_trit; [exact Hx|now apply trits_get].
  - apply IH.
Qed.

Lemma unmask_mask_chunks (n : nat) (rest : list Z) (sponge : Curl.t) :
  sponge_ok sponge -> trits rest ->
  n = IssP27.fragments (List.length rest) ->
  unmask_chunks n
    (fst (mask_chunks n rest (Curl.rate sponge Curl.HASH_LENGTH) sponge)) sponge
  = (rest, snd (mask_chunks n rest (Curl.rate sponge Curl.HASH_LENGTH) sponge)).
Proof.
  revert rest sponge.
  induction n as [|n IH]; intros rest sponge Hok Hrest Hn; [reflexivity|].
  cbn [mask_chunks unmask_chunks].
  set (key := Curl.rate sponge Curl.HASH_LENGTH).
  set (chunk := firstn 243 rest).
  set (sponge' := absorb_chunk sponge chunk).
  assert (Hpos : (0 < List.length rest)%nat).
  { destruct rest; [discriminate Hn|cbn; lia]. }
  rewrite (fragments_step _ Hpos) in Hn. injection Hn as Hn.
  rewrite <- length_skipn in Hn.
  assert (Hchunk : trits chunk) by now apply trits_firstn.
  assert (Hkey : trits key) by now apply rate_trits.
  assert (Hlen : (List.length chunk <= 243)%nat) by apply firstn_le_length.
  assert (Hok' : sponge_ok sponge') by now apply absorb_chunk_ok.
  destruct (Nat.le_gt_cases 243 (List.length rest)) as [Hfull|Hpart].
  - assert (Hc243 : List.length chunk = 243%nat).
    { unfold chunk. rewrite length_firstn. lia. }
    assert (Hkey' :
      Int8Array.set key
        (firstn (List.length chunk) (Curl.rate sponge' Curl.HASH_LENGTH)) 0
      = Curl.rate sponge' Curl.HASH_LENGTH).
    { rewrite Hc243.
      assert (Hr : List.length (Curl.rate sponge' Curl.HASH_LENGTH) = 243%nat)
        by (apply rate_length; [exact Hok'|cbv; lia]).
      rewrite <- Hr at 1. rewrite firstn_all.
      apply set_whole. rewrite Hr. unfold key. symmetry.
      apply rate_length; [exact Hok|cbv; lia]. }
    rewrite Hkey'.
    specialize (IH (skipn 243 rest) sponge' Hok' (trits_skipn _ _ Hrest) Hn).
    destruct (mask_chunks n (skipn 243 rest) _ sponge') as [out last].
    cbn [fst snd] in *.
    rewrite firstn_app_exact, skipn_app_exact
      by (now rewrite mask_chunk_length).
    rewrite unmask_mask_chunk by assumption.
    fold sponge'. rewrite IH. f_equal.
    unfold chunk. apply firstn_skipn.
  - assert (Hskip : skipn 243 rest = []) by (apply skipn_all2; lia).
    rewrite Hskip in *.
    change (IssP27.fragments (List.length [])) with 0%nat in Hn. subst n.
    cbn [mask_chunks unmask_chunks fst snd]. rewrite app_nil_r.
    assert (Hall : chunk = rest) by (apply firstn_all2; lia).
    rewrite firstn_all2 by (rewrite mask_chunk_length, Hall; lia).
    rewrite unmask_mask_chunk by assumption.
    rewrite skipn_all2 by (rewrite mask_chunk_length, Hall; lia).
    rewrite app_nil_r. f_equal. exact Hall.
Qed.

(** C6.  Masking a payload of trits with a sponge and unmasking the result
    with a sponge in the same state gives the payload back, whatever its
    length; the two sponges end in the same state. *)
Theorem unmask_mask (p : list Z) (S : Curl.t) :
  sponge_ok S -> trits p ->
  Mask.unmask (fst (Mask.mask p S)) S = (p, snd (Mask.mask p S)).
Proof.
  intros Hok Hp.
  rewrite mask_as_chunks, unmask_as_chunks.
  assert (Hlen :
    List.length
      (fst (mask_chunks (IssP27.fragments (List.length p)) p
              (Curl.rate S Curl.HASH_LENGTH) S))
    = List.length p).
  { generalize (Curl.rate S Curl.HASH_LENGTH) as key.
    generalize (IssP27.fragments (List.length p)) as n.
    intros n. revert p S Hok Hp.
    induction n as [|n IH]; intros p S Hok Hp key; [reflexivity|].
    cbn [mask_chunks].
    specialize (IH (skipn 243 p) (absorb_chunk S (firstn 243 p))).
    match goal with
    | |- context [mask_chunks n ?r ?k ?s] =>
        specialize (IH (absorb_chunk_ok S (firstn 243 p) Hok
                          (trits_firstn _ _ Hp) (firstn_le_length _ _))
                       (trits_skipn _ _ Hp) k);
        destruct (mask_chunks n r k s) as [out last]
    end.
    cbn [fst] in *.
    rewrite length_app, mask_chunk_length, IH, <- length_app.
    now rewrite firstn_skipn. }
  rewrite Hlen. now apply unmask_mask_chunks.
Qed.

Lemma unmask_mask_witness :
  sponge_ok (Curl.new 27) /\ trits [1; 0; -1; 1]
  /\ Mask.unmask (fst (Mask.mask [1; 0; -1; 1] (Curl.new 27))) (Curl.new 27)
     = ([1; 0; -1; 1], snd (Mask.mask [1; 0; -1; 1] (Curl.new 27))).
Proof.
  assert (Ht : trits [1; 0; -1; 1]).
  { unfold trits. repeat (constructor; [unfold is_trit; lia|]). constructor. }
  split; [apply new_ok|]. split; [exact Ht|].
  apply (unmask_mask [1; 0; -1; 1] (Curl.new 27) (new_ok 27) Ht).
Defined.

End MaskRoundTrip.

Section LengthFacts.

Lemma sponge_ok_len (c : Curl.t) : sponge_ok c -> sponge_len c.
Proof. now intros [H _]. Qed.

Lemma transform_len (c : Curl.t) : sponge_len c -> sponge_len (Curl.transform c).
Proof.
  unfold sponge_len, Curl.transform. cbn [Curl._state]. intros H.
  rewrite transform_is_loop. now apply transform_rounds_length.
Qed.

Lemma new_len (rounds : nat) : sponge_len (Curl.new rounds).
Proof. apply repeat_length. Qed.

Lemma reset_len (c : Curl.t) : sponge_len (Curl.reset c).
Proof. apply repeat_length. Qed.

Lemma absorb_chunk_len (c : Curl.t) (chunk : list Z) :
  sponge_len c -> (List.length chunk <= 243)%nat ->
  sponge_len (absorb_chunk c chunk).
Proof.
  intros Hc Hlen. apply transform_len. unfold sponge_len in *.
  cbn [Curl._state]. rewrite set_length; [exact Hc|].
  rewrite Hc. change Curl.STATE_LENGTH with 729%nat. lia.
Qed.

Lemma iter_transform_len (j : nat) (c : Curl.t) :
  sponge_len c -> sponge_len (Curl.iter j Curl.transform c).
Proof.
  revert c. induction j as [|j IH]; intros c H; [exact H|].
  cbn [Curl.iter]. now apply IH, transform_len.
Qed.

Lemma rate_len (c : Curl.t) :
  sponge_len c -> List.length (Curl.rate c Curl.HASH_LENGTH) = 243%nat.
Proof.
  intros H. unfold Curl.rate. rewrite slice_length; [reflexivity|].
  rewrite H. change Curl.STATE_LENGTH with 729%nat.
  change Curl.HASH_LENGTH with 243%nat. lia.
Qed.

Lemma chain_hash_length (block : list Z) :
  (List.length block <= 243)%nat -> List.length (chain_hash block) = 243%nat.
Proof.
  intros H. apply rate_len, absorb_chunk_len; [apply new_len|exact H].
Qed.

Lemma squeezed_length (c : Curl.t) (j : nat) :
  sponge_len c -> List.length (squeezed c j) = 243%nat.
Proof. intros H. now apply rate_len, iter_transform_len. Qed.

Lemma iter_add {A} (a b : nat) (f : A -> A) (x : A) :
  Curl.iter a f (Curl.iter b f x) = Curl.iter (b + a) f x.
Proof.
  revert x. induction b as [|b IH]; intros x; [reflexivity|].
  cbn [Curl.iter Nat.add]. apply IH.
Qed.

Lemma iter_S {A} (n : nat) (f : A -> A) (x : A) :
  Curl.iter (S n) f x = Curl.iter n f (f x).
Proof. reflexivity. Qed.

Lemma iter_S_r {A} (n : nat) (f : A -> A) (x : A) :
  Curl.iter (S n) f x = f (Curl.iter n f x).
Proof.
  revert x. induction n as [|n IH]; intros x; [reflexivity|].
  cbn [Curl.iter] in *. now rewrite IH.
Qed.

Lemma iter_chain_hash_length (n : nat) (block : list Z) :
  List.length block = 243%nat ->
  List.length (Curl.iter n chain_hash block) = 243%nat.
Proof.
  revert block. induction n as [|n IH]; intros block H; [exact H|].
  cbn [Curl.iter]. apply IH, chain_hash_length. lia.
Qed.

End LengthFacts.

Section BlockFacts.

Lemma blocks_length (blocks : list (list Z)) :
  blocks_ok blocks ->
  List.length (List.concat blocks) = (List.length blocks * 243)%nat.
Proof.
  induction 1 as [|b blocks Hb _ IH]; [reflexivity|].
  cbn [List.concat List.length]. rewrite length_app, Hb, IH. lia.
Qed.

Lemma firstn_snoc_nth {A} (l : list A) (i : nat) (d : A) :
  (i < List.length l)%nat -> firstn (S i) l = firstn i l ++ [nth i l d].
Proof.
  revert i. induction l as [|x l IH]; intros i Hi; [cbn in Hi; lia|].
  destruct i as [|i]; [reflexivity|].
  cbn [firstn nth app]. f_equal. apply IH. cbn in Hi. lia.
Qed.

Lemma blocks_ok_nth (blocks : list (list Z)) (i : nat) :
  blocks_ok blocks -> (i < List.length blocks)%nat ->
  List.length (nth i blocks []) = 243%nat.
Proof.
  intros Hok Hi. unfold blocks_ok in Hok. rewrite Forall_forall in Hok.
  apply Hok. now apply nth_In.
Qed.

(** The [i]-th block of an array of blocks. *)
Lemma slice_block (blocks : list (list Z)) (i : nat) :
  blocks_ok blocks -> (i < List.length blocks)%nat ->
  Int8Array.slice (List.concat blocks) (i * 243) ((i + 1) * 243) = nth i blocks [].
Proof.
  intros Hok. revert i.
  induction Hok as [|b blocks Hb Hok IH]; intros i Hi; [cbn in Hi; lia|].
  destruct i as [|i].
  - cbn [nth List.concat Nat.mul]. unfold Int8Array.slice.
    rewrite skipn_O. change ((0 + 1) * 243 - 0)%nat with 243%nat.
    now apply firstn_app_exact.
  - cbn [nth List.concat]. unfold Int8Array.slice in *.
    replace (S i * 243)%nat with (i * 243 + 243)%nat by lia.
    rewrite <- skipn_skipn.
    rewrite (skipn_app_exact b (List.concat blocks) 243 Hb).
    replace ((S i + 1) * 243 - (i * 243 + 243))%nat
      with ((i + 1) * 243 - i * 243)%nat by lia.
    apply IH. cbn in Hi. lia.
Qed.

(** Writing block [i] into an array whose first [i] blocks are filled. *)
Lemma set_block (done : list (list Z)) (x : list Z) (m : nat) :
  blocks_ok done -> List.length x = 243%nat ->
  Int8Array.set (List.concat done ++ Int8Array.new (S m * 243)) x
    (List.length done * 243)
  = List.concat (done ++ [x]) ++ Int8Array.new (m * 243).
Proof.
  intros Hd Hx.
  rewrite <- (blocks_length done Hd), set_app_exact, Hx.
  rewrite concat_app. cbn [List.concat]. rewrite app_nil_r, <- app_assoc.
  reflexivity.
Qed.

Lemma blocks_ok_snoc (done : list (list Z)) (x : list Z) :
  blocks_ok done -> List.length x = 243%nat -> blocks_ok (done ++ [x]).
Proof.
  intros Hd Hx. apply Forall_app. split; [exact Hd|]. now repeat constructor.
Qed.

Lemma blocks_ok_map {A} (f : A -> list Z) (l : list A) :
  (forall a, In a l -> List.length (f a) = 243%nat) -> blocks_ok (map f l).
Proof.
  intros H. apply Forall_forall. intros b Hb.
  apply in_map_iff in Hb. destruct Hb as (a & <- & Ha). now apply H.
Qed.

(** Absorbing whole blocks is absorbing them one after the other. *)
Lemma absorb_block_list (c : Curl.t) (before : list Z) (blocks : list (list Z)) :
  blocks_ok blocks -> blocks <> [] ->
  Curl.absorb c (before ++ List.concat blocks) (Z.of_nat (List.length before))
    (Z.of_nat (List.length (List.concat blocks)))
  = fold_left absorb_chunk blocks c.
Proof.
  intros Hok. revert c before.
  induction Hok as [|b blocks Hb Hok IH]; intros c before Hne; [congruence|].
  destruct blocks as [|b' blocks].
  - cbn [List.concat fold_left]. rewrite app_nil_r.
    rewrite absorb_short by lia.
    rewrite Nat2Z.id, <- Nat2Z.inj_add, Nat2Z.id.
    unfold Int8Array.subarray. rewrite slice_app_exact.
    now rewrite firstn_all.
  - change (fold_left absorb_chunk (b :: b' :: blocks) c)
      with (fold_left absorb_chunk (b' :: blocks) (absorb_chunk c b)).
    rewrite <- (IH (absorb_chunk c b) (before ++ b)) by discriminate.
    remember (b' :: blocks) as rest.
    cbn [List.concat].
    assert (Hrest : (0 < List.length (List.concat rest))%nat).
    { rewrite blocks_length by exact Hok. subst rest. cbn. lia. }
    rewrite absorb_long by (rewrite length_app; lia).
    rewrite Nat2Z.id.
    replace (Z.to_nat (Z.of_nat (List.length before) + 243))
      with (List.length before + 243)%nat by lia.
    unfold Int8Array.subarray. rewrite slice_app_exact.
    rewrite (firstn_app_exact b (List.concat rest) 243 Hb).
    rewrite <- app_assoc. f_equal.
    + rewrite length_app. lia.
    + rewrite length_app. lia.
Qed.

End BlockFacts.

Section SqueezeBlocks.

(** Squeezing [m] further whole blocks after [done] have been written. *)
Lemma squeeze_loop_blocks (m : nat) (c : Curl.t) (done : list (list Z))
  (fuel : nat) :
  sponge_len c -> blocks_ok done -> (m <= fuel)%nat ->
  Curl.squeeze_loop fuel c
    (List.concat done ++ Int8Array.new (S m * 243))
    (Z.of_nat (List.length done * 243)) (Z.of_nat (S m * 243))
  = (Curl.iter (S m) Curl.transform c,
     List.concat (done ++ map (squeezed c) (seq 0 (S m)))).
Proof.
  revert c done fuel.
  induction m as [|m IH]; intros c done fuel Hc Hd Hfuel.
  - assert (Hone : forall f,
      Curl.squeeze_loop f c (List.concat done ++ Int8Array.new (1 * 243))
        (Z.of_nat (List.length done * 243)) (Z.of_nat (1 * 243))
      = (Curl.transform c,
         Int8Array.set (List.concat done ++ Int8Array.new (1 * 243))
           (Int8Array.subarray (Curl._state c) 0 243)
           (List.length done * 243))).
    { intros f. destruct f; cbn [Curl.squeeze_loop];
        change (Z.of_nat Curl.HASH_LENGTH) with 243;
        change (Z.of_nat (1 * 243)) with 243;
        change (243 <? 243) with false; change (0 <? 243 - 243) with false;
        cbn iota; rewrite Nat2Z.id; reflexivity. }
    rewrite Hone. cbn [Curl.iter seq map]. f_equal.
    change (Int8Array.subarray (Curl._state c) 0 243) with (squeezed c 0).
    rewrite (set_block done (squeezed c 0) 0 Hd (squeezed_length c 0 Hc)).
    apply app_nil_r.
  - destruct fuel as [|fuel]; [lia|].
    cbn [Curl.squeeze_loop].
    change (Z.of_nat Curl.HASH_LENGTH) with 243.
    destruct (Z.ltb_spec (Z.of_nat (S (S m) * 243)) 243); [lia|].
    destruct (Z.ltb_spec 0 (Z.of_nat (S (S m) * 243) - 243)); [|lia].
    rewrite Nat2Z.id.
    change (Int8Array.subarray (Curl._state c) 0 (Z.to_nat 243))
      with (squeezed c 0).
    rewrite (set_block done (squeezed c 0) (S m) Hd (squeezed_length c 0 Hc)).
    replace (Z.of_nat (List.length done * 243) + 243)
      with (Z.of_nat (List.length (done ++ [squeezed c 0]) * 243))
      by (rewrite length_app; cbn [List.length]; lia).
    replace (Z.of_nat (S (S m) * 243) - 243) with (Z.of_nat (S m * 243)) by lia.
    rewrite IH;
      [|now apply transform_len
       |apply blocks_ok_snoc; [exact Hd|now apply squeezed_length]
       |lia].
    f_equal. rewrite <- app_assoc. f_equal. f_equal.
    cbn [app]. change (seq 0 (S (S m))) with (0%nat :: seq 1 (S m)).
    cbn [map]. f_equal.
    rewrite <- seq_shift, map_map. apply map_ext.
    intros j. reflexivity.
Qed.

(** Squeezing [n >= 1] blocks into a fresh array. *)
Lemma squeeze_blocks (n : nat) (c : Curl.t) :
  sponge_len c -> (0 < n)%nat ->
  Curl.squeeze c (Int8Array.new (n * 243)) 0
    (Z.of_nat (List.length (Int8Array.new (n * 243))))
  = (Curl.iter n Curl.transform c, List.concat (map (squeezed c) (seq 0 n))).
Proof.
  intros Hc Hn. destruct n as [|m]; [lia|].
  assert (Hl : List.length (Int8Array.new (S m * 243)) = (S m * 243)%nat)
    by apply repeat_length.
  rewrite Hl. unfold Curl.squeeze.
  change (Z.of_nat Curl.HASH_LENGTH) with 243.
  rewrite (squeeze_loop_blocks m c [] _ Hc); [reflexivity|constructor|].
  replace (Z.of_nat (S m * 243)) with (Z.of_nat (S m) * 243) by lia.
  rewrite Z.div_mul by lia. lia.
Qed.

End SqueezeBlocks.

Section KeyAndSignature.

Lemma reset_27 (c : Curl.t) :
  Curl._rounds c = 27%nat -> Curl.reset c = Curl.new 27.
Proof. unfold Curl.reset, Curl.new. now intros ->. Qed.

(** One step of a signature chain hashes the buffer. *)
Lemma chain_step_hash (sponge : Curl.t) (buffer : list Z) :
  Curl._rounds sponge = 27%nat -> List.length buffer = 243%nat ->
  IssP27.chain_step (sponge, buffer)
  = (absorb_chunk (Curl.new 27) buffer, chain_hash buffer).
Proof.
  intros Hr Hb. unfold IssP27.chain_step, chain_hash.
  rewrite (reset_27 sponge Hr), absorb_whole_short by lia.
  reflexivity.
Qed.

Lemma iter_chain_step (n : nat) (sponge : Curl.t) (buffer : list Z) :
  Curl._rounds sponge = 27%nat -> List.length buffer = 243%nat ->
  snd (Curl.iter n IssP27.chain_step (sponge, buffer))
  = Curl.iter n chain_hash buffer
  /\ Curl._rounds (fst (Curl.iter n IssP27.chain_step (sponge, buffer)))
     = 27%nat.
Proof.
  revert sponge buffer.
  induction n as [|n IH]; intros sponge buffer Hr Hb; [now split|].
  cbn [Curl.iter]. rewrite (chain_step_hash sponge buffer Hr Hb).
  apply IH; [reflexivity|]. apply chain_hash_length. lia.
Qed.

(** The whitening loop of [privateKeyFromSubseed]. *)
Lemma whiten_blocks (n : nat) (sponge : Curl.t) (blocks done : list (list Z)) :
  Curl._rounds sponge = 27%nat -> blocks_ok blocks -> blocks_ok done ->
  (List.length done + n = List.length blocks)%nat ->
  done = map chain_hash (firstn (List.length done) blocks) ->
  IssP27.whiten n (List.length done) sponge (List.concat blocks)
    (List.concat done ++ Int8Array.new (n * 243))
  = List.concat (map chain_hash blocks).
Proof.
  revert sponge done.
  induction n as [|n IH]; intros sponge done Hr Hb Hd Hlen Hdone.
  - cbn [IssP27.whiten]. change (Int8Array.new (0 * 243)) with (@nil Z).
    rewrite app_nil_r, Hdone. f_equal. f_equal.
    apply firstn_all2. lia.
  - cbn [IssP27.whiten]. change Curl.HASH_LENGTH with 243%nat.
    rewrite absorb_short by (cbn; lia).
    rewrite Nat2Z.id.
    replace (Z.to_nat (Z.of_nat (List.length done * 243) + Z.of_nat 243))
      with ((List.length done + 1) * 243)%nat by lia.
    unfold Int8Array.subarray.
    rewrite (slice_block blocks (List.length done) Hb) by lia.
    rewrite (reset_27 sponge Hr).
    set (b := nth (List.length done) blocks []).
    assert (Hbl : List.length b = 243%nat).
    { apply (blocks_ok_nth blocks _ Hb). lia. }
    change (Curl.rate (absorb_chunk (Curl.new 27) b) 243) with (chain_hash b).
    rewrite (set_block done (chain_hash b) n Hd)
      by (apply chain_hash_length; lia).
    replace (S (List.length done)) with (List.length (done ++ [chain_hash b]))
      by (rewrite length_app; cbn [List.length]; lia).
    apply IH.
    + reflexivity.
    + exact Hb.
    + apply blocks_ok_snoc; [exact Hd|]. apply chain_hash_length. lia.
    + rewrite length_app. cbn [List.length]. lia.
    + rewrite length_app. cbn [List.length].
      replace (List.length done + 1)%nat with (S (List.length done)) by lia.
      rewrite (firstn_snoc_nth blocks (List.length done) []) by lia.
      rewrite map_app. cbn [map]. fold b. now rewrite <- Hdone.
Qed.

End KeyAndSignature.

Section SignatureLoops.

Lemma absorb_len (c : Curl.t) (t : list Z) (offset length : Z) :
  sponge_len c -> sponge_len (Curl.absorb c t offset length).
Proof.
  intros Hc. unfold Curl.absorb.
  generalize (Z.to_nat (length / Z.of_nat Curl.HASH_LENGTH)) as fuel.
  intros fuel. revert c offset length Hc.
  induction fuel as [|fuel IH]; intros c offset length Hc;
    cbn [Curl.absorb_loop]; change (Z.of_nat Curl.HASH_LENGTH) with 243.
  all: assert (Hstep : sponge_len
         (Curl.transform
            (Curl.mk
               (Int8Array.set (Curl._state c)
                  (Int8Array.subarray t (Z.to_nat offset)
                     (Z.to_nat (offset + (if length <? 243 then length else 243)))) 0)
               (Curl._rounds c)))).
  1,3: apply (absorb_chunk_len c _ Hc);
       etransitivity; [apply slice_length_le|];
       destruct (Z.ltb_spec length 243); lia.
  all: destruct (0 <? length - 243); auto.
Qed.

Lemma subseed_sponge_len (ss : list Z) : sponge_len (subseed_sponge ss).
Proof. apply absorb_len, new_len. Qed.

Lemma subseed_sponge_rounds (ss : list Z) :
  Curl._rounds (subseed_sponge ss) = 27%nat.
Proof. unfold subseed_sponge. now rewrite absorb_rounds. Qed.

Lemma iter_transform_rounds (n : nat) (c : Curl.t) :
  Curl._rounds (Curl.iter n Curl.transform c) = Curl._rounds c.
Proof.
  revert c. induction n as [|n IH]; intros c; [reflexivity|].
  cbn [Curl.iter]. now rewrite IH.
Qed.

(** The private key: every squeezed block hashed once. *)
Lemma privateKey_blocks (ss : list Z) (L : Z) :
  1 <= L ->
  IssP27.privateKeyFromSubseed ss L
  = List.concat
      (map chain_hash
         (map (squeezed (subseed_sponge ss)) (seq 0 (Z.to_nat L * 27)))).
Proof.
  intros HL. unfold IssP27.privateKeyFromSubseed.
  fold (subseed_sponge ss).
  set (F := (Z.to_nat L * 27)%nat).
  replace (Z.to_nat L * IssP27.PRIVATE_KEY_FRAGMENT_LENGTH)%nat
    with (F * 243)%nat
    by (unfold F, IssP27.PRIVATE_KEY_FRAGMENT_LENGTH,
          IssP27.PRIVATE_KEY_NUM_FRAGMENTS, Curl.HASH_LENGTH; lia).
  rewrite (squeeze_blocks F _ (subseed_sponge_len ss)) by (unfold F; lia).
  change Curl.HASH_LENGTH with 243%nat. rewrite Nat.div_mul by discriminate.
  set (blocks := map (squeezed (subseed_sponge ss)) (seq 0 F)).
  assert (Hb : blocks_ok blocks).
  { apply blocks_ok_map. intros j _. apply squeezed_length, subseed_sponge_len. }
  assert (Hlen : List.length blocks = F).
  { unfold blocks. now rewrite length_map, length_seq. }
  apply (whiten_blocks F _ blocks []).
  - now rewrite iter_transform_rounds, subseed_sponge_rounds.
  - exact Hb.
  - constructor.
  - cbn [List.length]. lia.
  - reflexivity.
Qed.

(** The loop of [signature] over the fragments. *)
Lemma signature_loop_blocks (n : nat) (sponge : Curl.t) (hash : list Z)
  (blocks done : list (list Z)) :
  Curl._rounds sponge = 27%nat -> blocks_ok blocks -> blocks_ok done ->
  (List.length done + n = List.length blocks)%nat ->
  done = map (signed_block hash blocks) (seq 0 (List.length done)) ->
  IssP27.signature_loop n (List.length done) sponge hash (List.concat blocks)
    (List.concat done ++ Int8Array.new (n * 243))
  = List.concat
      (map (signed_block hash blocks) (seq 0 (List.length blocks))).
Proof.
  revert sponge done.
  induction n as [|n IH]; intros sponge done Hr Hb Hd Hlen Hdone.
  - cbn [IssP27.signature_loop]. change (Int8Array.new (0 * 243)) with (@nil Z).
    rewrite app_nil_r, Hdone at 1. f_equal. f_equal. f_equal. lia.
  - cbn [IssP27.signature_loop]. change Curl.HASH_LENGTH with 243%nat.
    unfold Int8Array.subarray.
    rewrite (slice_block blocks (List.length done) Hb) by lia.
    set (b := nth (List.length done) blocks []).
    assert (Hbl : List.length b = 243%nat)
      by (apply (blocks_ok_nth blocks _ Hb); lia).
    destruct (iter_chain_step
                (Z.to_nat (IssP27.MAX_TRYTE_VALUE
                           - IssP27.tryte_at hash (List.length done)))
                sponge b Hr Hbl) as [Hsnd Hrounds].
    destruct (Curl.iter _ IssP27.chain_step (sponge, b)) as [sponge' buffer].
    cbn [fst snd] in Hsnd, Hrounds. subst buffer.
    change (Curl.iter _ chain_hash b)
      with (signed_block hash blocks (List.length done)).
    assert (Hsl : List.length (signed_block hash blocks (List.length done))
                  = 243%nat) by now apply iter_chain_hash_length.
    rewrite (set_block done _ n Hd Hsl).
    replace (S (List.length done))
      with (List.length
              (done ++ [signed_block hash blocks (List.length done)]))
      by (rewrite length_app; cbn [List.length]; lia).
    apply IH.
    + exact Hrounds.
    + exact Hb.
    + now apply blocks_ok_snoc.
    + rewrite length_app. cbn [List.length]. lia.
    + rewrite length_app. cbn [List.length].
      rewrite seq_app, map_app. cbn [seq map Nat.add]. now rewrite <- Hdone.
Qed.

(** The loop of [digestFromSignature] over the fragments. *)
Lemma digest_loop_blocks (n : nat) (sponge : Curl.t) (hash : list Z)
  (blocks done : list (list Z)) :
  Curl._rounds sponge = 27%nat -> blocks_ok blocks -> blocks_ok done ->
  (List.length done + n = List.length blocks)%nat ->
  done = map (verified_block hash blocks) (seq 0 (List.length done)) ->
  snd (IssP27.digest_loop n (List.length done) sponge hash
         (List.concat blocks) (List.concat done ++ Int8Array.new (n * 243)))
  = List.concat
      (map (verified_block hash blocks) (seq 0 (List.length blocks)))
  /\ Curl._rounds
       (fst (IssP27.digest_loop n (List.length done) sponge hash
               (List.concat blocks)
               (List.concat done ++ Int8Array.new (n * 243))))
     = 27%nat.
Proof.
  revert sponge done.
  induction n as [|n IH]; intros sponge done Hr Hb Hd Hlen Hdone.
  - cbn [IssP27.digest_loop fst snd]. change (Int8Array.new (0 * 243)) with (@nil Z).
    split; [|exact Hr].
    rewrite app_nil_r, Hdone at 1. f_equal. f_equal. f_equal. lia.
  - cbn [IssP27.digest_loop]. change Curl.HASH_LENGTH with 243%nat.
    rewrite (slice_block blocks (List.length done) Hb) by lia.
    set (b := nth (List.length done) blocks []).
    assert (Hbl : List.length b = 243%nat)
      by (apply (blocks_ok_nth blocks _ Hb); lia).
    destruct (iter_chain_step
                (Z.to_nat (IssP27.tryte_at hash (List.length done)
                           - IssP27.MIN_TRYTE_VALUE))
                sponge b Hr Hbl) as [Hsnd Hrounds].
    destruct (Curl.iter _ IssP27.chain_step (sponge, b)) as [sponge' buffer].
    cbn [fst snd] in Hsnd, Hrounds. subst buffer.
    change (Curl.iter _ chain_hash b)
      with (verified_block hash blocks (List.length done)).
    assert (Hsl : List.length (verified_block hash blocks (List.length done))
                  = 243%nat) by now apply iter_chain_hash_length.
    rewrite (set_block done _ n Hd Hsl).
    replace (S (List.length done))
      with (List.length
              (done ++ [verified_block hash blocks (List.length done)]))
      by (rewrite length_app; cbn [List.length]; lia).
    apply IH.
    + exact Hrounds.
    + exact Hb.
    + now apply blocks_ok_snoc.
    + rewrite length_app. cbn [List.length]. lia.
    + rewrite length_app. cbn [List.length].
      rewrite seq_app, map_app. cbn [seq map Nat.add]. now rewrite <- Hdone.
Qed.

End SignatureLoops.

Section DigestFromSubseed.

Lemma squeeze_block_len (c : Curl.t) (out : list Z) :
  sponge_len c -> List.length out = 243%nat ->
  Curl.squeeze c out 0 (Z.of_nat (List.length out))
  = (Curl.transform c, Curl.rate c Curl.HASH_LENGTH).
Proof.
  intros Hc Hout. rewrite squeeze_short by lia.
  f_equal. rewrite Nat2Z.id. cbn [Z.to_nat]. unfold Curl.rate.
  rewrite Hout. change Curl.HASH_LENGTH with 243%nat.
  unfold Int8Array.subarray.
  apply set_whole. rewrite Hout.
  rewrite slice_length; [reflexivity|].
  rewrite Hc. cbv. lia.
Qed.

Lemma rehash_hash (curl2 : Curl.t) (digest : list Z) :
  Curl._rounds curl2 = 27%nat -> List.length digest = 243%nat ->
  IssP27.rehash curl2 digest
  = (Curl.transform (absorb_chunk (Curl.new 27) digest), chain_hash digest).
Proof.
  intros Hr Hd. unfold IssP27.rehash.
  rewrite (reset_27 curl2 Hr), absorb_whole_short by lia.
  apply squeeze_block_len; [|exact Hd].
  apply absorb_chunk_len; [apply new_len|lia].
Qed.

Lemma iter_rehash (n : nat) (curl2 : Curl.t) (digest : list Z) :
  Curl._rounds curl2 = 27%nat -> List.length digest = 243%nat ->
  snd (Curl.iter n (fun cd => IssP27.rehash (fst cd) (snd cd)) (curl2, digest))
  = Curl.iter n chain_hash digest
  /\ Curl._rounds
       (fst (Curl.iter n (fun cd => IssP27.rehash (fst cd) (snd cd))
               (curl2, digest))) = 27%nat.
Proof.
  revert curl2 digest.
  induction n as [|n IH]; intros curl2 digest Hr Hd; [now split|].
  cbn [Curl.iter fst snd]. rewrite (rehash_hash curl2 digest Hr Hd).
  apply IH; [reflexivity|]. apply chain_hash_length. lia.
Qed.

Lemma digest_step_eq (curl1 curl2 curl3 : Curl.t) (digest : list Z) :
  sponge_len curl1 -> Curl._rounds curl2 = 27%nat ->
  List.length digest = 243%nat ->
  exists curl2',
    Curl._rounds curl2' = 27%nat
    /\ IssP27.digest_step (curl1, curl2, curl3, digest)
       = (Curl.transform curl1, curl2',
          absorb_chunk curl3
            (Curl.iter 27 chain_hash (Curl.rate curl1 Curl.HASH_LENGTH)),
          Curl.iter 27 chain_hash (Curl.rate curl1 Curl.HASH_LENGTH)).
Proof.
  intros H1 H2 Hd. unfold IssP27.digest_step.
  rewrite (squeeze_block_len curl1 digest H1 Hd).
  change (Z.to_nat (IssP27.MAX_TRYTE_VALUE - IssP27.MIN_TRYTE_VALUE + 1))
    with 27%nat.
  assert (Hsq : List.length (Curl.rate curl1 Curl.HASH_LENGTH) = 243%nat)
    by now apply rate_len.
  destruct (iter_rehash 27 curl2 (Curl.rate curl1 Curl.HASH_LENGTH) H2 Hsq)
    as [Hsnd Hr].
  destruct (Curl.iter 27 _ (curl2, Curl.rate curl1 Curl.HASH_LENGTH))
    as [curl2' digest'].
  cbn [fst snd] in Hsnd, Hr. subst digest'.
  assert (Hd' : List.length
                  (Curl.iter 27 chain_hash (Curl.rate curl1 Curl.HASH_LENGTH))
                = 243%nat) by now apply iter_chain_hash_length.
  rewrite absorb_whole_short by lia.
  exists curl2'. now split.
Qed.

Lemma digest_steps (n : nat) (curl1 curl2 curl3 : Curl.t) (digest : list Z) :
  sponge_len curl1 -> Curl._rounds curl2 = 27%nat ->
  List.length digest = 243%nat ->
  third_sponge (Curl.iter n IssP27.digest_step (curl1, curl2, curl3, digest))
  = fold_left absorb_chunk (committed_blocks curl1 n) curl3
  /\ List.length
       (digest_buffer
          (Curl.iter n IssP27.digest_step (curl1, curl2, curl3, digest)))
     = 243%nat.
Proof.
  revert curl1 curl2 curl3 digest.
  induction n as [|n IH]; intros curl1 curl2 curl3 digest H1 H2 Hd;
    [now split|].
  cbn [Curl.iter].
  destruct (digest_step_eq curl1 curl2 curl3 digest H1 H2 Hd)
    as (curl2' & Hr & ->).
  assert (Hd' : List.length
                  (Curl.iter 27 chain_hash (Curl.rate curl1 Curl.HASH_LENGTH))
                = 243%nat)
    by (apply iter_chain_hash_length; now apply rate_len).
  destruct (IH (Curl.transform curl1) curl2'
              (absorb_chunk curl3
                 (Curl.iter 27 chain_hash (Curl.rate curl1 Curl.HASH_LENGTH)))
              _ (transform_len _ H1) Hr Hd') as [IH1 IH2].
  split; [|exact IH2]. rewrite IH1.
  unfold committed_blocks.
  rewrite <- cons_seq, <- seq_shift.
  set (f := fun j => Curl.iter 27 chain_hash (squeezed curl1 j)).
  change (fold_left absorb_chunk (map f (0%nat :: map S (seq 0 n))) curl3)
    with (fold_left absorb_chunk (map f (map S (seq 0 n)))
            (absorb_chunk curl3 (f 0%nat))).
  rewrite map_map. reflexivity.
Qed.

Lemma committed_blocks_ok (c : Curl.t) (n : nat) :
  sponge_len c -> blocks_ok (committed_blocks c n).
Proof.
  intros Hc. apply blocks_ok_map. intros j _.
  apply iter_chain_hash_length. now apply squeezed_length.
Qed.

Lemma fold_absorb_chunk_len (blocks : list (list Z)) (c : Curl.t) :
  blocks_ok blocks -> sponge_len c ->
  sponge_len (fold_left absorb_chunk blocks c).
Proof.
  intros Hb. revert c. induction Hb as [|b blocks Hl _ IH]; intros c Hc;
    [exact Hc|].
  cbn [fold_left]. apply IH, absorb_chunk_len; [exact Hc|lia].
Qed.

(** The digest of a subseed: the committed blocks absorbed by a fresh
    sponge. *)
Lemma digestFromSubseed_blocks (ss : list Z) (L : Z) :
  1 <= L ->
  IssP27.digestFromSubseed ss L
  = Curl.rate
      (fold_left absorb_chunk
         (committed_blocks (subseed_sponge ss) (Z.to_nat L * 27))
         (Curl.new 27))
      Curl.HASH_LENGTH.
Proof.
  intros HL. unfold IssP27.digestFromSubseed. fold (subseed_sponge ss).
  replace (Z.to_nat
             (L * Z.of_nat IssP27.PRIVATE_KEY_FRAGMENT_LENGTH
              / Z.of_nat Curl.HASH_LENGTH))
    with (Z.to_nat L * 27)%nat.
  2:{ change (Z.of_nat IssP27.PRIVATE_KEY_FRAGMENT_LENGTH) with (27 * 243).
      change (Z.of_nat Curl.HASH_LENGTH) with 243.
      rewrite Z.mul_assoc, Z.div_mul by lia. lia. }
  destruct (digest_steps (Z.to_nat L * 27) (subseed_sponge ss) (Curl.new 27)
              (Curl.new 27) (Int8Array.new Curl.HASH_LENGTH)
              (subseed_sponge_len ss) eq_refl eq_refl) as [Hsteps Hdl].
  destruct (Curl.iter _ IssP27.digest_step _) as [[[c1 c2] c3] d].
  cbn [third_sponge digest_buffer] in Hsteps, Hdl. subst c3.
  rewrite squeeze_block_len; [reflexivity| |exact Hdl].
  apply fold_absorb_chunk_len; [|apply new_len].
  apply committed_blocks_ok, subseed_sponge_len.
Qed.

End DigestFromSubseed.

Section SignatureRoundTrip.

Lemma nth_map_seq {A} (f : nat -> A) (n j : nat) (d : A) :
  (j < n)%nat -> nth j (map f (seq 0 n)) d = f j.
Proof.
  intros Hj. rewrite (nth_indep _ d (f 0%nat))
    by now rewrite length_map, length_seq.
  rewrite map_nth, seq_nth by exact Hj. reflexivity.
Qed.

(** C3.  For a hash whose tryte values lie between -13 and 13, a subseed and
    a security level among 1, 2 and 3, the digest recovered from the
    signature made with the subseed's private key is the digest of the
    subseed. *)
Theorem digestFromSignature_signature (h ss : list Z) (L : Z) :
  List.length h = 243%nat ->
  (forall i, (i < Z.to_nat L * 27)%nat -> -13 <= IssP27.tryte_at h i <= 13) ->
  1 <= L <= 3 ->
  IssP27.digestFromSignature h
    (IssP27.signature h (IssP27.privateKeyFromSubseed ss L))
  = IssP27.digestFromSubseed ss L.
Proof.
  intros _ Hrange HL.
  rewrite digestFromSubseed_blocks, privateKey_blocks by lia.
  set (c0 := subseed_sponge ss).
  set (F := (Z.to_nat L * 27)%nat).
  assert (HF : (0 < F)%nat) by (unfold F; lia).
  set (kblocks := map chain_hash (map (squeezed c0) (seq 0 F))).
  assert (Hc0 : sponge_len c0) by apply subseed_sponge_len.
  assert (Hk : blocks_ok kblocks).
  { apply blocks_ok_map. intros b Hin. apply chain_hash_length.
    apply in_map_iff in Hin. destruct Hin as (j & <- & _).
    rewrite squeezed_length by exact Hc0. lia. }
  assert (Hklen : List.length kblocks = F)
    by (unfold kblocks; now rewrite !length_map, length_seq).
  (* the signature *)
  unfold IssP27.signature.
  rewrite (blocks_length kblocks Hk), fragments_exact, Hklen.
  pose proof (signature_loop_blocks F (Curl.new 27) h kblocks []
                eq_refl Hk (Forall_nil _) (eq_sym Hklen) eq_refl) as Hsig.
  cbn [List.length List.concat app] in Hsig. rewrite Hsig, Hklen.
  set (sblocks := map (signed_block h kblocks) (seq 0 F)).
  assert (Hs : blocks_ok sblocks).
  { apply blocks_ok_map. intros j Hj. apply in_seq in Hj.
    apply iter_chain_hash_length, (blocks_ok_nth kblocks j Hk). lia. }
  assert (Hslen : List.length sblocks = F)
    by (unfold sblocks; now rewrite length_map, length_seq).
  (* the verifier *)
  unfold IssP27.digestFromSignature.
  rewrite (blocks_length sblocks Hs), fragments_exact, Hslen.
  destruct (digest_loop_blocks F (Curl.new 27) h sblocks []
              eq_refl Hs (Forall_nil _) (eq_sym Hslen) eq_refl)
    as [Hbytes Hrounds].
  cbn [List.length List.concat app] in Hbytes, Hrounds.
  destruct (IssP27.digest_loop F 0 (Curl.new 27) h (List.concat sblocks)
              (Int8Array.new (F * 243))) as [sponge' bytes].
  cbn [fst snd] in Hbytes, Hrounds. subst bytes. rewrite Hslen.
  rewrite (reset_27 sponge' Hrounds).
  set (vblocks := map (verified_block h sblocks) (seq 0 F)).
  assert (Hv : blocks_ok vblocks).
  { apply blocks_ok_map. intros j Hj. apply in_seq in Hj.
    apply iter_chain_hash_length, (blocks_ok_nth sblocks j Hs). lia. }
  pose proof (absorb_block_list (Curl.new 27) [] vblocks Hv) as Habs.
  change ([] ++ List.concat vblocks) with (List.concat vblocks) in Habs.
  change (Z.of_nat (@List.length Z [])) with 0 in Habs.
  rewrite Habs.
  2:{ unfold vblocks. destruct F; [lia|]. discriminate. }
  f_equal. f_equal.
  (* block by block: 1 + (13 - t) + (t + 13) = 27 hashes *)
  unfold vblocks, committed_blocks. fold c0 F.
  apply map_ext_in. intros j Hj. apply in_seq in Hj.
  unfold verified_block, sblocks.
  rewrite nth_map_seq by lia. unfold signed_block, kblocks.
  rewrite map_map, nth_map_seq by lia.
  rewrite iter_add.
  specialize (Hrange j ltac:(fold F; lia)).
  unfold IssP27.MAX_TRYTE_VALUE, IssP27.MIN_TRYTE_VALUE.
  replace (Z.to_nat (13 - IssP27.tryte_at h j)
           + Z.to_nat (IssP27.tryte_at h j - -13))%nat with 26%nat by lia.
  symmetry. apply (iter_S 26 chain_hash).
Qed.

Lemma digestFromSignature_signature_witness :
  IssP27.digestFromSignature (repeat 0 243)
    (IssP27.signature (repeat 0 243) (IssP27.privateKeyFromSubseed [1; 0; -1] 1))
  = IssP27.digestFromSubseed [1; 0; -1] 1.
Proof.
  apply (digestFromSignature_signature (repeat 0 243) [1; 0; -1] 1).
  - reflexivity.
  - intros i Hi. change (Z.to_nat 1 * 27)%nat with 27%nat in Hi.
    do 27 (destruct i as [|i]; [cbv; split; discriminate|]). lia.
  - lia.
Defined.

End SignatureRoundTrip.

Section BitFacts.

Lemma word64_bits (x : Z) :
  0 <= x -> (x < 2 ^ 64 <-> forall n, 64 <= n -> Z.testbit x n = false).
Proof.
  intros Hx. split.
  - intros Hlt n Hn. destruct (Z.eq_dec x 0) as [->|Hne];
      [apply Z.bits_0|].
    apply Z.bits_above_log2; [exact Hx|].
    assert (Z.log2 x < 64) by (apply Z.log2_lt_pow2; lia). lia.
  - intros Hbits. destruct (Z.lt_ge_cases x (2 ^ 64)) as [H|H]; [exact H|].
    exfalso. assert (Hpos : 0 < x) by lia.
    pose proof (Z.bit_log2 x Hpos) as Hb.
    rewrite Hbits in Hb; [discriminate|].
    apply Z.log2_le_pow2; lia.
Qed.

Lemma word64_lor (a b : Z) : word64 a -> word64 b -> word64 (Z.lor a b).
Proof.
  intros [Ha0 Ha] [Hb0 Hb].
  assert (H0 : 0 <= Z.lor a b) by now apply Z.lor_nonneg.
  split; [exact H0|]. apply word64_bits; [exact H0|].
  intros n Hn. rewrite Z.lor_spec.
  rewrite (proj1 (word64_bits a Ha0) Ha n Hn).
  now rewrite (proj1 (word64_bits b Hb0) Hb n Hn).
Qed.

Lemma word64_land (a b : Z) : word64 a -> word64 b -> word64 (Z.land a b).
Proof.
  intros [Ha0 Ha] [Hb0 Hb].
  assert (H0 : 0 <= Z.land a b) by (apply Z.land_nonneg; now left).
  split; [exact H0|]. apply word64_bits; [exact H0|].
  intros n Hn. rewrite Z.land_spec.
  now rewrite (proj1 (word64_bits a Ha0) Ha n Hn).
Qed.

Lemma word64_lxor (a b : Z) : word64 a -> word64 b -> word64 (Z.lxor a b).
Proof.
  intros [Ha0 Ha] [Hb0 Hb].
  assert (H0 : 0 <= Z.lxor a b) by (apply Z.lxor_nonneg; tauto).
  split; [exact H0|]. apply word64_bits; [exact H0|].
  intros n Hn. rewrite Z.lxor_spec.
  rewrite (proj1 (word64_bits a Ha0) Ha n Hn).
  now rewrite (proj1 (word64_bits b Hb0) Hb n Hn).
Qed.

Lemma bitWiseNot_word64 (x : Z) : word64 x -> word64 (HammingDiver.bitWiseNot x).
Proof.
  unfold word64, HammingDiver.bitWiseNot.
  change (Z.shiftl 1 64) with (2 ^ 64). lia.
Qed.

Lemma bitWiseNot_bit (x lane : Z) :
  word64 x -> 0 <= lane < 64 ->
  Z.testbit (HammingDiver.bitWiseNot x) lane = negb (Z.testbit x lane).
Proof.
  intros Hx Hl. unfold HammingDiver.bitWiseNot.
  change (Z.shiftl 1 64) with (2 ^ 64).
  replace (2 ^ 64 - 1 - x) with (Z.lnot x + 1 * 2 ^ 64)
    by (unfold Z.lnot; lia).
  rewrite <- (Z.mod_pow2_bits_low (Z.lnot x + 1 * 2 ^ 64) 64 lane) by lia.
  rewrite Z.mod_add by lia.
  rewrite Z.mod_pow2_bits_low by lia.
  apply Z.lnot_spec. lia.
Qed.

Lemma land_shiftr_1 (w lane : Z) :
  0 <= lane -> Z.land (Z.shiftr w lane) 1 = Z.b2z (Z.testbit w lane).
Proof.
  intros Hl. change 1 with (Z.ones 1) at 1.
  rewrite Z.land_ones by lia. change (2 ^ 1) with 2.
  rewrite <- Z.bit0_mod, Z.shiftr_spec by lia. now rewrite Z.add_0_l.
Qed.

Lemma trinary_digit_bits (l h : bool) :
  HammingDiver.trinary_digit (Z.b2z l) (Z.b2z h) = trit_of_bits l h.
Proof. destruct l, h; reflexivity. Qed.

(** The bit-sliced cell computes the truth table in every valid lane. *)
Lemma cell_lane (lane alpha beta lowNext gamma : Z) :
  0 <= lane < 64 ->
  word64 alpha -> word64 beta -> word64 lowNext -> word64 gamma ->
  lane_valid lane alpha beta -> lane_valid lane lowNext gamma ->
  let '(l, h) := HammingDiver.cell alpha beta lowNext gamma in
  lane_trit lane l h
  = Curl.truth (lane_trit lane alpha beta) (lane_trit lane lowNext gamma)
  /\ lane_valid lane l h /\ word64 l /\ word64 h.
Proof.
  intros Hl Ha Hb Hn Hg Hv1 Hv2. unfold HammingDiver.cell.
  set (delta := Z.land (Z.lor alpha (HammingDiver.bitWiseNot gamma))
                  (Z.lxor lowNext beta)).
  assert (Hd : word64 delta).
  { apply word64_land; [apply word64_lor|apply word64_lxor]; auto.
    now apply bitWiseNot_word64. }
  unfold lane_trit, lane_valid in *.
  rewrite bitWiseNot_bit, Z.lor_spec, Z.lxor_spec by assumption.
  unfold delta.
  rewrite Z.land_spec, Z.lor_spec, Z.lxor_spec, bitWiseNot_bit by assumption.
  repeat split.
  - destruct (Z.testbit alpha lane), (Z.testbit beta lane),
      (Z.testbit lowNext lane), (Z.testbit gamma lane);
      try discriminate; reflexivity.
  - destruct (Z.testbit alpha lane), (Z.testbit beta lane),
      (Z.testbit lowNext lane), (Z.testbit gamma lane); reflexivity.
  - now apply bitWiseNot_word64.
  - now apply bitWiseNot_word64.
  - apply word64_lor; [apply word64_lxor|]; assumption.
  - apply word64_lor; [apply word64_lxor|]; assumption.
Qed.

End BitFacts.

Section BitsliceLoops.

Lemma bitslice_cells_map (n : nat) (s : HammingDiver.states) (index : Z) :
  HammingDiver.transform_cells n s index
  = (map fst (map (cell_at s) (index_pairs n index)),
     map snd (map (cell_at s) (index_pairs n index)),
     final_index n index).
Proof.
  revert index. induction n as [|n IH]; intros index; [reflexivity|].
  cbn [HammingDiver.transform_cells index_pairs final_index map].
  rewrite IH.
  change (HammingDiver.cell
            (HammingDiver.get (HammingDiver.low s) index)
            (HammingDiver.get (HammingDiver.high s) index)
            (HammingDiver.get (HammingDiver.low s) (Curl.next_index index))
            (HammingDiver.get (HammingDiver.high s) (Curl.next_index index)))
    with (cell_at s (index, Curl.next_index index)).
  destruct (cell_at s (index, Curl.next_index index)) as [l h]. reflexivity.
Qed.

Lemma combine_get_positions (a b : list Z) :
  List.length a = List.length b ->
  map (fun i => (Int8Array.get a i, Int8Array.get b i))
    (positions (List.length a))
  = combine a b.
Proof.
  unfold positions. rewrite map_map.
  erewrite map_ext by (intros; rewrite !get_nth; reflexivity).
  revert b. induction a as [|x a IH]; intros [|y b] Hlen; try discriminate;
    [reflexivity|].
  cbn [List.length seq map nth combine]. f_equal.
  rewrite <- seq_shift, map_map. apply IH. now injection Hlen.
Qed.

Lemma slice_whole (a : list Z) (n : nat) :
  List.length a = n -> Int8Array.slice a 0 n = a.
Proof. intros <-. apply slice_all. Qed.

Lemma bitslice_round_lengths (s : HammingDiver.states) :
  List.length (HammingDiver.low (bitslice_round s)) = Curl.STATE_LENGTH
  /\ List.length (HammingDiver.high (bitslice_round s)) = Curl.STATE_LENGTH.
Proof.
  unfold bitslice_round. cbn [HammingDiver.low HammingDiver.high].
  now rewrite !length_map, index_pairs_length.
Qed.

Lemma round_fast_bitslice (s : HammingDiver.states) :
  List.length (HammingDiver.low s) = Curl.STATE_LENGTH ->
  List.length (HammingDiver.high s) = Curl.STATE_LENGTH ->
  HammingDiver.round_fast s = bitslice_round s.
Proof.
  intros Hl Hh. unfold HammingDiver.round_fast, bitslice_round.
  rewrite <- (combine_get_positions (HammingDiver.low s) (HammingDiver.high s))
    by congruence.
  rewrite Hl.
  rewrite (visit_map
             (fun i => (Int8Array.get (HammingDiver.low s) i,
                        Int8Array.get (HammingDiver.high s) i)) 0 (0, 0))
    by discriminate.
  rewrite adjacent_map, visited_pairs, map_map.
  reflexivity.
Qed.

Lemma bitslice_rounds_loop (rounds : nat) (s : HammingDiver.states) :
  List.length (HammingDiver.low s) = Curl.STATE_LENGTH ->
  List.length (HammingDiver.high s) = Curl.STATE_LENGTH ->
  HammingDiver.transform_rounds rounds s 0 = Curl.iter rounds bitslice_round s.
Proof.
  revert s. induction rounds as [|r IH]; intros s Hl Hh; [reflexivity|].
  cbn [HammingDiver.transform_rounds Curl.iter].
  rewrite !slice_whole by assumption.
  replace (HammingDiver.mkStates (HammingDiver.low s) (HammingDiver.high s))
    with s by now destruct s.
  rewrite bitslice_cells_map, final_index_round.
  assert (Hset : forall a x : list Z,
            List.length a = Curl.STATE_LENGTH ->
            List.length x = Curl.STATE_LENGTH -> Int8Array.set a x 0 = x).
  { intros a x Ha Hx. apply set_whole. congruence. }
  rewrite !Hset
    by (try assumption; now rewrite !length_map, index_pairs_length).
  change (HammingDiver.mkStates
            (map fst (map (cell_at s) (index_pairs Curl.STATE_LENGTH 0)))
            (map snd (map (cell_at s) (index_pairs Curl.STATE_LENGTH 0))))
    with (bitslice_round s).
  apply IH; [exact (proj1 (bitslice_round_lengths s))
            |exact (proj2 (bitslice_round_lengths s))].
Qed.

Lemma iter_round_fast_bitslice (rounds : nat) (s : HammingDiver.states) :
  List.length (HammingDiver.low s) = Curl.STATE_LENGTH ->
  List.length (HammingDiver.high s) = Curl.STATE_LENGTH ->
  Curl.iter rounds HammingDiver.round_fast s
  = Curl.iter rounds bitslice_round s.
Proof.
  revert s. induction rounds as [|r IH]; intros s Hl Hh; [reflexivity|].
  cbn [Curl.iter]. rewrite round_fast_bitslice by assumption.
  apply IH; [exact (proj1 (bitslice_round_lengths s))
            |exact (proj2 (bitslice_round_lengths s))].
Qed.

(** The search's transform is the loop of the source, on every state. *)
Lemma bitslice_transform_is_loop (s : HammingDiver.states) :
  HammingDiver.transform s = HammingDiver.transform_loop s.
Proof.
  unfold HammingDiver.transform, HammingDiver.transform_loop.
  destruct (Nat.eqb_spec (List.length (HammingDiver.low s)) Curl.STATE_LENGTH)
    as [Hl|Hl]; [|reflexivity].
  destruct (Nat.eqb_spec (List.length (HammingDiver.high s)) Curl.STATE_LENGTH)
    as [Hh|Hh]; [|reflexivity].
  cbn [andb].
  now rewrite bitslice_rounds_loop, iter_round_fast_bitslice.
Qed.

Lemma curl_rounds_loop (rounds : nat) (s : list Z) :
  List.length s = Curl.STATE_LENGTH ->
  Curl.transform_loop rounds s = Curl.iter rounds curl_round s.
Proof.
  unfold Curl.transform_loop. revert s.
  induction rounds as [|r IH]; intros s Hs; [reflexivity|].
  cbn [Curl.transform_rounds Curl.iter].
  rewrite transform_cells_map, final_index_round.
  change (map (fun p => Curl.truth (Int8Array.get s (fst p))
                          (Int8Array.get s (snd p)))
            (index_pairs Curl.STATE_LENGTH 0))
    with (curl_round s).
  apply IH. unfold curl_round. now rewrite length_map, index_pairs_length.
Qed.

End BitsliceLoops.

Section LaneSimulation.

Variable lane : Z.
Hypothesis lane_range : 0 <= lane < 64.

Lemma lane_trit_0 : lane_trit lane 0 0 = 0.
Proof. unfold lane_trit. now rewrite Z.bits_0. Qed.

Lemma get_lane_state (s : HammingDiver.states) (i : Z) :
  List.length (HammingDiver.low s) = List.length (HammingDiver.high s) ->
  Int8Array.get (lane_state lane s) i
  = lane_trit lane (HammingDiver.get (HammingDiver.low s) i)
      (HammingDiver.get (HammingDiver.high s) i).
Proof.
  intros Hlen. unfold lane_state, HammingDiver.get, Int8Array.get.
  destruct (i <? 0); [now rewrite lane_trit_0|].
  generalize (Z.to_nat i) as k.
  revert Hlen.
  generalize (HammingDiver.low s) as a, (HammingDiver.high s) as b.
  induction a as [|x a IH]; intros [|y b] Hlen k; try discriminate.
  - destruct k; cbn [combine map nth]; now rewrite lane_trit_0.
  - destruct k as [|k]; [reflexivity|]. cbn [combine map nth].
    apply IH. now injection Hlen.
Qed.

Lemma lane_ok_get (s : HammingDiver.states) (i : Z) :
  lane_ok lane s -> 0 <= i < 729 ->
  word64 (HammingDiver.get (HammingDiver.low s) i)
  /\ word64 (HammingDiver.get (HammingDiver.high s) i)
  /\ lane_valid lane (HammingDiver.get (HammingDiver.low s) i)
       (HammingDiver.get (HammingDiver.high s) i).
Proof.
  intros (Hl & Hh & Hall) Hi.
  rewrite Forall_forall in Hall.
  specialize (Hall (nth (Z.to_nat i) (HammingDiver.low s) 0,
                    nth (Z.to_nat i) (HammingDiver.high s) 0)).
  unfold HammingDiver.get, Int8Array.get.
  destruct (Z.ltb_spec i 0); [lia|].
  apply Hall. rewrite <- combine_nth by congruence.
  apply nth_In. rewrite length_combine, Hl, Hh.
  change Curl.STATE_LENGTH with 729%nat. lia.
Qed.

Lemma index_pairs_range :
  Forall (fun p => 0 <= fst p < 729 /\ 0 <= snd p < 729)
    (index_pairs Curl.STATE_LENGTH 0).
Proof.
  apply Forall_forall. intros p Hp.
  assert (H : forallb (fun p => (0 <=? fst p) && (fst p <? 729)
                                && (0 <=? snd p) && (snd p <? 729))
                (index_pairs Curl.STATE_LENGTH 0) = true)
    by (vm_compute; reflexivity).
  rewrite forallb_forall in H. specialize (H p Hp).
  rewrite !andb_true_iff in H. lia.
Qed.

(** One round: the lane of the bit-sliced round is the Curl round of the
    lane. *)
Lemma bitslice_round_lane (s : HammingDiver.states) :
  lane_ok lane s ->
  lane_state lane (bitslice_round s) = curl_round (lane_state lane s)
  /\ lane_ok lane (bitslice_round s).
Proof.
  intros Hok.
  assert (Hlen : List.length (HammingDiver.low s)
                 = List.length (HammingDiver.high s))
    by (destruct Hok as (-> & -> & _); reflexivity).
  assert (Hcell : forall p, In p (index_pairs Curl.STATE_LENGTH 0) ->
            lane_trit lane (fst (cell_at s p)) (snd (cell_at s p))
            = Curl.truth (Int8Array.get (lane_state lane s) (fst p))
                (Int8Array.get (lane_state lane s) (snd p))
            /\ word64 (fst (cell_at s p)) /\ word64 (snd (cell_at s p))
            /\ lane_valid lane (fst (cell_at s p)) (snd (cell_at s p))).
  { intros p Hp.
    pose proof index_pairs_range as Hr. rewrite Forall_forall in Hr.
    destruct (Hr p Hp) as [Hp1 Hp2].
    destruct (lane_ok_get s (fst p) Hok Hp1) as (Ha & Hb & Hv1).
    destruct (lane_ok_get s (snd p) Hok Hp2) as (Hn & Hg & Hv2).
    pose proof (cell_lane lane _ _ _ _ lane_range Ha Hb Hn Hg Hv1 Hv2) as Hc.
    rewrite !get_lane_state by exact Hlen.
    unfold cell_at. destruct (HammingDiver.cell _ _ _ _) as [l h].
    cbn [fst snd]. tauto. }
  unfold bitslice_round, lane_state at 1, lane_ok, curl_round.
  cbn [HammingDiver.low HammingDiver.high].
  set (pairs := index_pairs Curl.STATE_LENGTH 0) in *.
  assert (Hcomb : combine (map fst (map (cell_at s) pairs))
                    (map snd (map (cell_at s) pairs))
                  = map (cell_at s) pairs).
  { generalize (map (cell_at s) pairs) as l.
    induction l as [|[a b] l IH]; [reflexivity|].
    cbn [map combine fst snd]. now rewrite IH. }
  rewrite Hcomb, !length_map. unfold pairs at 2 3.
  rewrite index_pairs_length. rewrite map_map.
  split; [|split; [reflexivity|split; [reflexivity|]]].
  - apply map_ext_in. intros p Hp. apply (Hcell p Hp).
  - apply Forall_forall. intros lh Hlh.
    apply in_map_iff in Hlh. destruct Hlh as (p & <- & Hp).
    destruct (Hcell p Hp) as (_ & H1 & H2 & H3). tauto.
Qed.

Lemma bitslice_rounds_lane (rounds : nat) (s : HammingDiver.states) :
  lane_ok lane s ->
  lane_state lane (Curl.iter rounds bitslice_round s)
  = Curl.iter rounds curl_round (lane_state lane s)
  /\ lane_ok lane (Curl.iter rounds bitslice_round s).
Proof.
  revert s. induction rounds as [|r IH]; intros s Hok; [now split|].
  cbn [Curl.iter].
  destruct (bitslice_round_lane s Hok) as [Heq Hok'].
  rewrite <- Heq. now apply IH.
Qed.

End LaneSimulation.

Section BitslicedCurl.

Lemma lane_state_length (lane : Z) (s : HammingDiver.states) :
  List.length (HammingDiver.low s) = Curl.STATE_LENGTH ->
  List.length (HammingDiver.high s) = Curl.STATE_LENGTH ->
  List.length (lane_state lane s) = Curl.STATE_LENGTH.
Proof.
  intros Hl Hh. unfold lane_state.
  rewrite length_map, length_combine, Hl, Hh. apply Nat.min_id.
Qed.

(** The transform of the search, in any lane that holds trits, is the
    27-round transform of Curl on that lane. *)
Lemma transform_lane (lane : Z) (s : HammingDiver.states) :
  0 <= lane < 64 -> lane_ok lane s ->
  lane_state lane (HammingDiver.transform s)
  = Curl.transform_state 27 (lane_state lane s)
  /\ lane_ok lane (HammingDiver.transform s).
Proof.
  intros Hlane Hok. pose proof Hok as (Hl & Hh & _).
  rewrite bitslice_transform_is_loop, transform_is_loop.
  unfold HammingDiver.transform_loop.
  rewrite bitslice_rounds_loop by assumption.
  rewrite curl_rounds_loop by now apply lane_state_length.
  now apply bitslice_rounds_lane.
Qed.

(** [trinaryGet] reads a lane. *)
Lemma trinaryGet_lane (low high : list Z) (lane : Z) :
  0 <= lane -> List.length low = List.length high ->
  HammingDiver.trinaryGet low high (List.length low) lane
  = lane_state lane (HammingDiver.mkStates low high).
Proof.
  intros Hlane Hlen. unfold HammingDiver.trinaryGet, lane_state.
  cbn [HammingDiver.low HammingDiver.high].
  rewrite <- (combine_get_positions low high Hlen).
  unfold positions. rewrite !map_map.
  apply map_ext. intros i. cbn [fst snd]. unfold HammingDiver.get.
  rewrite !land_shiftr_1 by exact Hlane.
  apply trinary_digit_bits.
Qed.

Lemma max_value_bit (lane : Z) :
  0 <= lane < 64 -> Z.testbit HammingDiver.MAX_VALUE lane = true.
Proof.
  intros H. change HammingDiver.MAX_VALUE with (Z.ones 64).
  apply Z.ones_spec_low. exact H.
Qed.

Lemma encode_lane (lane t : Z) :
  0 <= lane < 64 -> is_trit t ->
  lane_trit lane (HammingDiver.encode_low t) (HammingDiver.encode_high t) = t
  /\ word64 (HammingDiver.encode_low t)
  /\ word64 (HammingDiver.encode_high t)
  /\ lane_valid lane (HammingDiver.encode_low t) (HammingDiver.encode_high t).
Proof.
  intros Hlane Ht.
  assert (Hmax : word64 HammingDiver.MAX_VALUE) by (cbv; split; congruence).
  assert (Hmin : word64 HammingDiver.MIN_VALUE) by (cbv; split; congruence).
  unfold lane_trit, lane_valid.
  destruct Ht as [-> | [-> | ->]];
    cbn [HammingDiver.encode_low HammingDiver.encode_high Z.eqb Pos.eqb];
    rewrite ?(max_value_bit lane Hlane);
    change HammingDiver.MIN_VALUE with 0; rewrite ?Z.bits_0;
    repeat split; try reflexivity; try apply Hmax; try (cbv; congruence).
Qed.

(** A state of trits, packed: every lane holds the state. *)
Lemma tritsToBigInt_lane (lane : Z) (state : list Z) :
  0 <= lane < 64 -> List.length state = Curl.STATE_LENGTH -> trits state ->
  lane_state lane (HammingDiver.tritsToBigInt state Curl.STATE_LENGTH) = state
  /\ lane_ok lane (HammingDiver.tritsToBigInt state Curl.STATE_LENGTH).
Proof.
  intros Hlane Hlen Ht. unfold HammingDiver.tritsToBigInt, lane_state, lane_ok.
  rewrite Hlen, Nat.sub_diag. cbn [repeat].
  rewrite !app_nil_r. cbn [HammingDiver.low HammingDiver.high].
  rewrite !length_map, Hlen.
  assert (Hcomb : combine (map HammingDiver.encode_low state)
                    (map HammingDiver.encode_high state)
                  = map (fun t => (HammingDiver.encode_low t,
                                   HammingDiver.encode_high t)) state).
  { clear. induction state as [|t state IH]; [reflexivity|].
    cbn [map combine]. now rewrite IH. }
  rewrite Hcomb, map_map. cbn [fst snd].
  split; [|split; [reflexivity|split; [reflexivity|]]].
  - rewrite <- (map_id state) at 2. apply map_ext_in. intros t Hin.
    apply encode_lane; [exact Hlane|].
    unfold trits in Ht. rewrite Forall_forall in Ht. now apply Ht.
  - apply Forall_forall. intros lh Hin.
    apply in_map_iff in Hin. destruct Hin as (t & <- & Hin).
    cbn [fst snd]. apply encode_lane; [exact Hlane|].
    unfold trits in Ht. rewrite Forall_forall in Ht. now apply Ht.
Qed.

(** C8.  Packing a state of 729 trits with [tritsToBigInt], running the
    bit-sliced [transform] of the search and reading any of the 64 lanes with
    [trinaryGet] gives the state that the 27-round transform of Curl gives:
    the bit-sliced permutation is 64 copies of Curl-27. *)
Theorem bitslice_transform_is_curl (state : list Z) (lane : Z) :
  List.length state = Curl.STATE_LENGTH -> trits state -> 0 <= lane < 64 ->
  HammingDiver.trinaryGet
    (HammingDiver.low
       (HammingDiver.transform_loop
          (HammingDiver.tritsToBigInt state Curl.STATE_LENGTH)))
    (HammingDiver.high
       (HammingDiver.transform_loop
          (HammingDiver.tritsToBigInt state Curl.STATE_LENGTH)))
    Curl.STATE_LENGTH lane
  = Curl.transform_loop 27 state.
Proof.
  intros Hlen Ht Hlane.
  destruct (tritsToBigInt_lane lane state Hlane Hlen Ht) as [Hst Hok].
  destruct (transform_lane lane _ Hlane Hok) as [Hsim (Hl & Hh & _)].
  rewrite <- bitslice_transform_is_loop, <- transform_is_loop.
  rewrite <- Hst at 3. rewrite <- Hsim.
  rewrite <- Hl at 3.
  rewrite trinaryGet_lane by (try lia; congruence).
  now destruct (HammingDiver.transform _).
Qed.

Lemma bitslice_transform_is_curl_witness :
  HammingDiver.trinaryGet
    (HammingDiver.low
       (HammingDiver.transform_loop
          (HammingDiver.tritsToBigInt (repeat 0 729) Curl.STATE_LENGTH)))
    (HammingDiver.high
       (HammingDiver.transform_loop
          (HammingDiver.tritsToBigInt (repeat 0 729) Curl.STATE_LENGTH)))
    Curl.STATE_LENGTH 5
  = Curl.transform_loop 27 (repeat 0 729).
Proof.
  apply (bitslice_transform_is_curl (repeat 0 729) 5).
  - apply repeat_length.
  - apply trits_repeat_0.
  - lia.
Defined.

End BitslicedCurl.

Section SearchState.

Lemma store_length (a : list Z) (i : nat) (v : Z) :
  List.length (Int8Array.store a i v) = List.length a.
Proof.
  revert i. induction a as [|x a IH]; intros [|i]; cbn [Int8Array.store List.length];
    try reflexivity.
  now rewrite IH.
Qed.

Lemma skipn_store (a : list Z) (i m : nat) (v : Z) :
  (i < m)%nat -> skipn m (Int8Array.store a i v) = skipn m a.
Proof.
  revert i m. induction a as [|x a IH]; intros i m H.
  - destruct i; reflexivity.
  - destruct m as [|m]; [lia|].
    destruct i as [|i]; cbn [Int8Array.store skipn]; [reflexivity|].
    apply IH. lia.
Qed.

Lemma nth_store_same (a : list Z) (i : nat) (v : Z) :
  (i < List.length a)%nat -> nth i (Int8Array.store a i v) 0 = v.
Proof.
  revert i. induction a as [|x a IH]; intros i H; [cbn in H; lia|].
  destruct i as [|i]; cbn [Int8Array.store nth]; [reflexivity|].
  apply IH. cbn [List.length] in H. lia.
Qed.

Lemma nth_store_other (a : list Z) (i j : nat) (v : Z) :
  i <> j -> nth j (Int8Array.store a i v) 0 = nth j a 0.
Proof.
  revert i j. induction a as [|x a IH]; intros i j H.
  - destruct i; reflexivity.
  - destruct i as [|i], j as [|j]; cbn [Int8Array.store nth];
      try reflexivity; try congruence.
    apply IH. congruence.
Qed.

Lemma skipn_combine_pair (a b : list Z) (m : nat) :
  skipn m (combine a b) = combine (skipn m a) (skipn m b).
Proof.
  revert a b. induction m as [|m IH]; intros a b; [reflexivity|].
  destruct a as [|x a]; [reflexivity|].
  destruct b as [|y b]; [now destruct (skipn (S m) (x :: a))|].
  cbn [combine skipn]. apply IH.
Qed.

Lemma same_tail_lane (lane : Z) (m : nat) (s s' : HammingDiver.states) :
  same_tail m s s' ->
  skipn m (lane_state lane s) = skipn m (lane_state lane s').
Proof.
  intros [Hl Hh]. unfold lane_state.
  rewrite !skipn_map, !skipn_combine_pair. now rewrite Hl, Hh.
Qed.

Lemma same_tail_refl (m : nat) (s : HammingDiver.states) : same_tail m s s.
Proof. now split. Qed.

Lemma same_tail_trans (m : nat) (s1 s2 s3 : HammingDiver.states) :
  same_tail m s1 s2 -> same_tail m s2 s3 -> same_tail m s1 s3.
Proof. intros [A B] [C D]. split; congruence. Qed.

Lemma same_tail_le (m m' : nat) (s s' : HammingDiver.states) :
  (m <= m')%nat -> same_tail m s s' -> same_tail m' s s'.
Proof.
  intros Hle [Hl Hh].
  replace m' with ((m' - m) + m)%nat by lia.
  split; rewrite <- !skipn_skipn; congruence.
Qed.

(** A search state is well formed when each position is. *)
Lemma lane_ok_pointwise (lane : Z) (s : HammingDiver.states) :
  List.length (HammingDiver.low s) = Curl.STATE_LENGTH ->
  List.length (HammingDiver.high s) = Curl.STATE_LENGTH ->
  (forall i : nat, (i < 729)%nat ->
     word64 (nth i (HammingDiver.low s) 0)
     /\ word64 (nth i (HammingDiver.high s) 0)
     /\ lane_valid lane (nth i (HammingDiver.low s) 0)
          (nth i (HammingDiver.high s) 0)) ->
  lane_ok lane s.
Proof.
  intros Hl Hh Hall. split; [exact Hl|]. split; [exact Hh|].
  rewrite <- combine_get_positions by congruence.
  apply Forall_forall. intros p Hp.
  unfold positions in Hp. rewrite map_map in Hp.
  apply in_map_iff in Hp. destruct Hp as (i & <- & Hi).
  apply in_seq in Hi. cbn [fst snd]. rewrite !get_nth.
  apply Hall. rewrite Hl in Hi. change Curl.STATE_LENGTH with 729%nat in Hi.
  lia.
Qed.

Lemma lane_ok_nth (lane : Z) (s : HammingDiver.states) (i : nat) :
  0 <= lane < 64 -> lane_ok lane s -> (i < 729)%nat ->
  word64 (nth i (HammingDiver.low s) 0)
  /\ word64 (nth i (HammingDiver.high s) 0)
  /\ lane_valid lane (nth i (HammingDiver.low s) 0)
       (nth i (HammingDiver.high s) 0).
Proof.
  intros Hlane Hok Hi.
  pose proof (lane_ok_get lane s (Z.of_nat i) Hok ltac:(lia)) as H.
  unfold HammingDiver.get in H. now rewrite !get_nth in H.
Qed.

(** Writing a pair of words that hold a code in lane [lane]. *)
Lemma store_pair_ok (lane : Z) (s : HammingDiver.states) (i : nat) (l h : Z) :
  0 <= lane < 64 -> lane_ok lane s -> (i < 729)%nat ->
  word64 l -> word64 h -> lane_valid lane l h ->
  lane_ok lane
    (HammingDiver.mkStates (HammingDiver.store (HammingDiver.low s) i l)
       (HammingDiver.store (HammingDiver.high s) i h)).
Proof.
  intros Hlane Hok Hi Hwl Hwh Hv. pose proof Hok as (Hl & Hh & _).
  unfold HammingDiver.store.
  apply lane_ok_pointwise; cbn [HammingDiver.low HammingDiver.high].
  - now rewrite store_length.
  - now rewrite store_length.
  - intros j Hj. destruct (Nat.eq_dec i j) as [<-|Hne].
    + rewrite !nth_store_same by
        (rewrite ?Hl, ?Hh; change Curl.STATE_LENGTH with 729%nat; lia).
      tauto.
    + rewrite !nth_store_other by exact Hne.
      now apply lane_ok_nth.
Qed.

(** The constants written by [prepareTrits] hold a code in every lane. *)
Lemma prepare_constants (lane : Z) :
  0 <= lane < 64 ->
  lane_valid lane HammingDiver.LOW_0 HammingDiver.HIGH_0
  /\ lane_valid lane HammingDiver.LOW_1 HammingDiver.HIGH_1
  /\ lane_valid lane HammingDiver.LOW_2 HammingDiver.HIGH_2
  /\ lane_valid lane HammingDiver.LOW_3 HammingDiver.HIGH_3.
Proof.
  intros Hlane. unfold lane_valid. rewrite <- !Z.lor_spec.
  change (Z.lor HammingDiver.LOW_0 HammingDiver.HIGH_0) with HammingDiver.MAX_VALUE.
  change (Z.lor HammingDiver.LOW_1 HammingDiver.HIGH_1) with HammingDiver.MAX_VALUE.
  change (Z.lor HammingDiver.LOW_2 HammingDiver.HIGH_2) with HammingDiver.MAX_VALUE.
  change (Z.lor HammingDiver.LOW_3 HammingDiver.HIGH_3) with HammingDiver.MAX_VALUE.
  now rewrite max_value_bit.
Qed.

Lemma prepare_words :
  word64 HammingDiver.LOW_0 /\ word64 HammingDiver.HIGH_0
  /\ word64 HammingDiver.LOW_1 /\ word64 HammingDiver.HIGH_1
  /\ word64 HammingDiver.LOW_2 /\ word64 HammingDiver.HIGH_2
  /\ word64 HammingDiver.LOW_3 /\ word64 HammingDiver.HIGH_3.
Proof. unfold word64. repeat split; (discriminate || reflexivity). Qed.

(** [prepareTrits] at offset 0: every lane holds trits, and from position 4
    on every lane holds the given state. *)
Lemma prepareTrits_ok (state : list Z) :
  List.length state = Curl.STATE_LENGTH -> trits state ->
  lanes_ok (HammingDiver.prepareTrits state 0)
  /\ same_tail 4 (HammingDiver.prepareTrits state 0)
       (HammingDiver.tritsToBigInt state Curl.STATE_LENGTH).
Proof.
  intros Hlen Ht. split.
  - intros lane Hlane.
    destruct (tritsToBigInt_lane lane state Hlane Hlen Ht) as [_ Hok].
    destruct (prepare_constants lane Hlane) as (V0 & V1 & V2 & V3).
    destruct prepare_words as (A0 & B0 & A1 & B1 & A2 & B2 & A3 & B3).
    unfold HammingDiver.prepareTrits.
    set (s0 := HammingDiver.tritsToBigInt state Curl.STATE_LENGTH) in *.
    pose proof (store_pair_ok lane s0 0 _ _ Hlane Hok ltac:(lia) A0 B0 V0) as H0.
    pose proof (store_pair_ok lane _ 1 _ _ Hlane H0 ltac:(lia) A1 B1 V1) as H1.
    pose proof (store_pair_ok lane _ 2 _ _ Hlane H1 ltac:(lia) A2 B2 V2) as H2.
    exact (store_pair_ok lane _ 3 _ _ Hlane H2 ltac:(lia) A3 B3 V3).
  - unfold HammingDiver.prepareTrits, same_tail, HammingDiver.store.
    cbn [HammingDiver.low HammingDiver.high Nat.add].
    split; rewrite !skipn_store by lia; reflexivity.
Qed.

(** One step of [increment] keeps the codes of every lane. *)
Lemma increment_step_ok (s : HammingDiver.states) (i : nat) :
  lanes_ok s -> (i < 729)%nat ->
  lanes_ok
    (HammingDiver.mkStates
       (HammingDiver.store (HammingDiver.low s) i
          (Z.lxor (HammingDiver.get (HammingDiver.high s) (Z.of_nat i))
             (HammingDiver.get (HammingDiver.low s) (Z.of_nat i))))
       (HammingDiver.store (HammingDiver.high s) i
          (HammingDiver.get (HammingDiver.low s) (Z.of_nat i)))).
Proof.
  intros Hok Hi lane Hlane.
  destruct (lane_ok_nth lane s i Hlane (Hok lane Hlane) Hi) as (Hwl & Hwh & Hv).
  unfold HammingDiver.get. rewrite !get_nth.
  apply store_pair_ok; try assumption; [apply Hok; exact Hlane| |].
  - now apply word64_lxor.
  - unfold lane_valid in *. rewrite Z.lxor_spec.
    destruct (Z.testbit (nth i (HammingDiver.low s) 0) lane),
      (Z.testbit (nth i (HammingDiver.high s) 0) lane);
      (reflexivity || discriminate).
Qed.

(** [increment] keeps every lane well formed, changes no position from
    [i + n] on, and returns the width of the range or one more. *)
Lemma increment_loop_ok (n i : nat) (s : HammingDiver.states) (from to : Z) :
  lanes_ok s -> (i + n <= 729)%nat ->
  lanes_ok (fst (HammingDiver.increment_loop n i s from to))
  /\ same_tail (i + n) (fst (HammingDiver.increment_loop n i s from to)) s
  /\ (snd (HammingDiver.increment_loop n i s from to) = to - from
      \/ snd (HammingDiver.increment_loop n i s from to) = to - from + 1).
Proof.
  revert i s. induction n as [|n IH]; intros i s Hok Hn.
  - cbn [HammingDiver.increment_loop fst snd].
    split; [exact Hok|]. split; [apply same_tail_refl|]. now right.
  - cbn [HammingDiver.increment_loop].
    pose proof (increment_step_ok s i Hok ltac:(lia)) as Hstep.
    set (s1 := HammingDiver.mkStates _ _) in *.
    assert (Htail : same_tail (i + S n) s1 s).
    { unfold s1, same_tail, HammingDiver.store.
      cbn [HammingDiver.low HammingDiver.high].
      split; apply skipn_store; lia. }
    destruct (Z.land _ _ =? 0).
    + cbn [fst snd]. split; [exact Hstep|]. split; [exact Htail|]. now left.
    + destruct (IH (S i) s1 Hstep ltac:(lia)) as (A & B & C).
      split; [exact A|]. split; [|exact C].
      apply same_tail_trans with s1; [|exact Htail].
      replace (i + S n)%nat with (S i + n)%nat by lia. exact B.
Qed.

End SearchState.

Section SearchCheck.

Lemma land_bit (w i : Z) :
  0 <= i -> (Z.land w (Z.shiftl 1 i) =? 0) = negb (Z.testbit w i).
Proof.
  intros Hi. rewrite Z.shiftl_1_l.
  destruct (Z.testbit w i) eqn:Hb; cbn [negb].
  - apply Z.eqb_neq. intros H0.
    assert (H : Z.testbit (Z.land w (2 ^ i)) i = true)
      by (rewrite Z.land_spec, Hb, Z.pow2_bits_true; auto).
    rewrite H0, Z.bits_0 in H. discriminate.
  - apply Z.eqb_eq. apply Z.bits_inj'. intros n Hn.
    rewrite Z.land_spec, Z.bits_0, Z.pow2_bits_eqb by exact Hi.
    destruct (Z.eqb_spec i n) as [->|]; [now rewrite Hb|apply andb_false_r].
Qed.

Lemma sum_acc (l : list Z) (a : Z) : fold_left Z.add l a = a + IssP27.sum l.
Proof.
  unfold IssP27.sum. revert a.
  induction l as [|x l IH]; intros a; cbn [fold_left]; [lia|].
  rewrite IH, (IH (0 + x)). lia.
Qed.

Lemma sum_cons (x : Z) (l : list Z) : IssP27.sum (x :: l) = x + IssP27.sum l.
Proof. unfold IssP27.sum at 1. cbn [fold_left]. now rewrite sum_acc. Qed.

Lemma sum_app (l1 l2 : list Z) :
  IssP27.sum (l1 ++ l2) = IssP27.sum l1 + IssP27.sum l2.
Proof.
  induction l1 as [|x l1 IH]; [reflexivity|].
  rewrite <- app_comm_cons, !sum_cons, IH. lia.
Qed.

Lemma skipn_nth_cons (l : list Z) (k : nat) :
  (k < List.length l)%nat -> skipn k l = nth k l 0 :: skipn (S k) l.
Proof.
  revert k. induction l as [|x l IH]; intros k H; [cbn in H; lia|].
  destruct k as [|k]; [reflexivity|].
  cbn [List.length] in H. cbn [nth]. change (skipn (S k) (x :: l)) with (skipn k l).
  change (skipn (S (S k)) (x :: l)) with (skipn (S k) l).
  apply IH. lia.
Qed.

Lemma firstn_add_split (l : list Z) (a b : nat) :
  firstn (a + b) l = firstn a l ++ firstn b (skipn a l).
Proof.
  revert l. induction a as [|a IH]; intros l; [reflexivity|].
  destruct l as [|x l]; [now rewrite !firstn_nil|].
  cbn [Nat.add firstn skipn app]. now rewrite IH.
Qed.

(** The innermost loop of [check] subtracts the trits of the lane. *)
Lemma check_third_sum (n k : nat) (s : HammingDiver.states) (lane sum : Z) :
  0 <= lane < 64 -> lane_ok lane s -> (k + n <= 729)%nat ->
  HammingDiver.check_third n k (HammingDiver.low s) (HammingDiver.high s)
    lane sum
  = sum - IssP27.sum (firstn n (skipn k (lane_state lane s))).
Proof.
  intros Hlane Hok. pose proof Hok as (Hl & Hh & _).
  revert k sum. induction n as [|n IH]; intros k sum Hk.
  - cbn [HammingDiver.check_third firstn]. change (IssP27.sum []) with 0. lia.
  - cbn [HammingDiver.check_third]. rewrite IH by lia.
    rewrite (skipn_nth_cons (lane_state lane s) k)
      by (rewrite lane_state_length by assumption;
          change Curl.STATE_LENGTH with 729%nat; lia).
    cbn [firstn]. rewrite sum_cons.
    rewrite <- get_nth, get_lane_state by congruence.
    destruct (lane_ok_get lane s (Z.of_nat k) Hok ltac:(lia)) as (_ & _ & Hv).
    rewrite !land_bit by lia.
    unfold lane_trit, trit_of_bits, lane_valid in *.
    destruct (Z.testbit (HammingDiver.get (HammingDiver.low s) (Z.of_nat k)) lane),
      (Z.testbit (HammingDiver.get (HammingDiver.high s) (Z.of_nat k)) lane);
      cbn [negb andb orb] in *; try discriminate; lia.
Qed.

(** One iteration of the loop over the thirds. *)
Lemma check_thirds_step (n j : nat) (sec : Z) (s : HammingDiver.states)
  (lane sum : Z) :
  0 <= lane < 64 -> lane_ok lane s -> (j <= 2)%nat ->
  HammingDiver.check_thirds (S n) (Z.of_nat j) sec (HammingDiver.low s)
    (HammingDiver.high s) lane sum
  = if (sum - third_sum (lane_state lane s) j =? 0)
       && (Z.of_nat j <? sec - 1)
    then 1
    else HammingDiver.check_thirds n (Z.of_nat j + 1) sec (HammingDiver.low s)
           (HammingDiver.high s) lane
           (sum - third_sum (lane_state lane s) j).
Proof.
  intros Hlane Hok Hj. cbn [HammingDiver.check_thirds].
  assert (Hn : Z.to_nat ((Z.of_nat j + 1) * 243 / 3 - Z.of_nat j * 243 / 3)
               = 81%nat).
  { destruct j as [|[|[|j]]]; try reflexivity. lia. }
  assert (Hk : Z.to_nat (Z.of_nat j * 243 / 3) = (j * 81)%nat).
  { destruct j as [|[|[|j]]]; try reflexivity. lia. }
  rewrite Hn, Hk.
  rewrite check_third_sum by (try assumption; lia).
  reflexivity.
Qed.

(** A lane accepted by the loop over the thirds has exactly the security
    level asked for. *)
Lemma check_thirds_level (sec lane : Z) (s : HammingDiver.states) :
  1 <= sec <= 3 -> 0 <= lane < 64 -> lane_ok lane s ->
  HammingDiver.check_thirds (Z.to_nat sec) 0 sec (HammingDiver.low s)
    (HammingDiver.high s) lane 0 = 0 ->
  IssP27.checksumSecurity (firstn 243 (lane_state lane s)) = sec.
Proof.
  intros Hsec Hlane Hok. pose proof Hok as (Hl & Hh & _).
  assert (Hlen : List.length (lane_state lane s) = 729%nat)
    by now apply lane_state_length.
  rewrite checksumSecurity_cases by (rewrite length_firstn; lia).
  unfold cumulative_sum.
  change (Z.to_nat 1 * 81)%nat with 81%nat.
  change (Z.to_nat 2 * 81)%nat with (81 + 81)%nat.
  change (Z.to_nat 3 * 81)%nat with (81 + (81 + 81))%nat.
  rewrite !firstn_firstn.
  change (Nat.min 81 243) with 81%nat.
  change (Nat.min (81 + 81) 243) with (81 + 81)%nat.
  change (Nat.min (81 + (81 + 81)) 243) with (81 + (81 + 81))%nat.
  rewrite !firstn_add_split, !sum_app.
  rewrite skipn_skipn.
  change (81 + 81)%nat with (2 * 81)%nat.
  change (skipn 81 (lane_state lane s))
    with (skipn (1 * 81) (lane_state lane s)).
  replace (firstn 81 (lane_state lane s))
    with (firstn 81 (skipn (0 * 81) (lane_state lane s))) by reflexivity.
  fold (third_sum (lane_state lane s) 0).
  fold (third_sum (lane_state lane s) 1).
  fold (third_sum (lane_state lane s) 2).
  pose proof (fun n sum => check_thirds_step n 0 sec s lane sum Hlane Hok
                             ltac:(lia)) as S0.
  pose proof (fun n sum => check_thirds_step n 1 sec s lane sum Hlane Hok
                             ltac:(lia)) as S1.
  pose proof (fun n sum => check_thirds_step n 2 sec s lane sum Hlane Hok
                             ltac:(lia)) as S2.
  change (Z.of_nat 0) with 0 in S0. change (Z.of_nat 1) with 1 in S1.
  change (Z.of_nat 2) with 2 in S2.
  change (0 + 1) with 1 in S0. change (1 + 1) with 2 in S1.
  generalize dependent (third_sum (lane_state lane s) 0).
  generalize dependent (third_sum (lane_state lane s) 1).
  generalize dependent (third_sum (lane_state lane s) 2).
  intros t2 S2 t1 S1 t0 S0.
  assert (Hcases : sec = 1 \/ sec = 2 \/ sec = 3) by lia.
  destruct Hcases as [-> | [-> | ->]].
  - change (Z.to_nat 1) with 1%nat. rewrite S0.
    change (0 <? 1 - 1) with false. rewrite andb_false_r.
    cbn [HammingDiver.check_thirds]. intros H.
    destruct (Z.eqb_spec t0 0); [reflexivity|lia].
  - change (Z.to_nat 2) with 2%nat. rewrite S0.
    change (0 <? 2 - 1) with true. rewrite andb_true_r.
    destruct (Z.eqb_spec (0 - t0) 0); [discriminate|].
    rewrite S1. change (1 <? 2 - 1) with false. rewrite andb_false_r.
    cbn [HammingDiver.check_thirds]. intros H.
    destruct (Z.eqb_spec t0 0); [lia|].
    destruct (Z.eqb_spec (t0 + t1) 0); [reflexivity|lia].
  - change (Z.to_nat 3) with 3%nat. rewrite S0.
    change (0 <? 3 - 1) with true. rewrite andb_true_r.
    destruct (Z.eqb_spec (0 - t0) 0); [discriminate|].
    rewrite S1. change (1 <? 3 - 1) with true. rewrite andb_true_r.
    destruct (Z.eqb_spec (0 - t0 - t1) 0); [discriminate|].
    rewrite S2. change (2 <? 3 - 1) with false. rewrite andb_false_r.
    cbn [HammingDiver.check_thirds]. intros H.
    destruct (Z.eqb_spec t0 0); [lia|].
    destruct (Z.eqb_spec (t0 + t1) 0); [lia|].
    destruct (Z.eqb_spec (t0 + (t1 + t2)) 0); [reflexivity|lia].
Qed.

(** When the loop over the lanes returns a lane other than 0, that lane was
    accepted. *)
Lemma check_lanes_found (n : nat) (i sec : Z) (low high : list Z) :
  HammingDiver.check_lanes n i sec low high <> 0 ->
  i <= HammingDiver.check_lanes n i sec low high < i + Z.of_nat n
  /\ HammingDiver.check_thirds (Z.to_nat sec) 0 sec low high
       (HammingDiver.check_lanes n i sec low high) 0 = 0.
Proof.
  revert i. induction n as [|n IH]; intros i.
  - cbn [HammingDiver.check_lanes]. congruence.
  - cbn [HammingDiver.check_lanes].
    destruct (Z.eqb_spec
                (HammingDiver.check_thirds (Z.to_nat sec) 0 sec low high i 0) 0)
      as [E|E].
    + intros _. split; [lia|exact E].
    + intros H. destruct (IH (i + 1) H) as [A B]. split; [lia|exact B].
Qed.

End SearchCheck.

Section Search.

Lemma increment_ok (s : HammingDiver.states) (size : Z) :
  lanes_ok s -> 0 <= size <= 243 ->
  lanes_ok (fst (HammingDiver.increment s (0 + size * 2 / 3) (0 + size)))
  /\ same_tail (Z.to_nat size)
       (fst (HammingDiver.increment s (0 + size * 2 / 3) (0 + size))) s
  /\ (snd (HammingDiver.increment s (0 + size * 2 / 3) (0 + size))
      = size - size * 2 / 3
      \/ snd (HammingDiver.increment s (0 + size * 2 / 3) (0 + size))
         = size - size * 2 / 3 + 1).
Proof.
  intros Hok Hsize. unfold HammingDiver.increment.
  assert (Hq : 0 <= size * 2 / 3 <= size)
    by (Z.div_mod_to_equations; lia).
  destruct (increment_loop_ok
              (Z.to_nat (0 + size - (0 + size * 2 / 3)))
              (Z.to_nat (0 + size * 2 / 3)) s
              (0 + size * 2 / 3) (0 + size) Hok ltac:(lia)) as (A & B & C).
  split; [exact A|]. split.
  - replace (Z.to_nat size)
      with (Z.to_nat (0 + size * 2 / 3)
            + Z.to_nat (0 + size - (0 + size * 2 / 3)))%nat by lia.
    exact B.
  - destruct C as [C | C]; rewrite C; [left|right]; lia.
Qed.

(** The size of the nonce grows in steps of three trits, up to 243. *)
Lemma next_size (size r : Z) :
  0 <= size <= 243 -> size mod 3 = 0 ->
  r = size - size * 2 / 3 \/ r = size - size * 2 / 3 + 1 ->
  size
  <= Z.min (Pascal.roundThird (0 + size * 2 / 3 + r))
       (Z.of_nat Curl.HASH_LENGTH) - 0
  <= 243
  /\ (Z.min (Pascal.roundThird (0 + size * 2 / 3 + r))
        (Z.of_nat Curl.HASH_LENGTH) - 0) mod 3 = 0.
Proof.
  intros Hsize Hrem Hr.
  unfold Pascal.roundThird. change Pascal.RADIX with 3.
  change (Z.of_nat Curl.HASH_LENGTH) with 243.
  rewrite Z.rem_mod_nonneg by lia.
  destruct Hr as [-> | ->].
  - replace (0 + size * 2 / 3 + (size - size * 2 / 3)) with size by lia.
    rewrite Hrem. change (0 =? 0) with true. cbv iota.
    Z.div_mod_to_equations. lia.
  - replace (0 + size * 2 / 3 + (size - size * 2 / 3 + 1)) with (size + 1)
      by lia.
    assert (H1 : (size + 1) mod 3 = 1) by (Z.div_mod_to_equations; lia).
    rewrite H1. change (1 =? 0) with false. cbv iota.
    Z.div_mod_to_equations. lia.
Qed.

(** The loop of [search]: when it returns, it returns the head of a lane,
    other than lane 0, that [check] accepted after the transform, of a state
    that agrees with the initial one from the end of the nonce on. *)
Lemma search_loop_found (fuel : nat) (st st0 : HammingDiver.states)
  (size sec : Z) (nonce : list Z) :
  lanes_ok st -> 0 <= size <= 243 -> size mod 3 = 0 ->
  same_tail (Z.to_nat size) st st0 ->
  HammingDiver.search_loop fuel st size sec 0 = Some nonce ->
  exists st' size' lane,
    lanes_ok st' /\ 0 <= size' <= 243
    /\ same_tail (Z.to_nat size') st' st0
    /\ 0 < lane < 64
    /\ HammingDiver.check_thirds (Z.to_nat sec) 0 sec
         (HammingDiver.low (HammingDiver.transform st'))
         (HammingDiver.high (HammingDiver.transform st')) lane 0 = 0
    /\ nonce = HammingDiver.trinaryGet (HammingDiver.low st')
                 (HammingDiver.high st') (Z.to_nat size') lane.
Proof.
  revert st size.
  induction fuel as [|fuel IH]; intros st size Hok Hsize Hrem Htail;
    [discriminate|].
  cbn [HammingDiver.search_loop].
  destruct (increment_ok st size Hok Hsize) as (A & B & C).
  destruct (HammingDiver.increment st (0 + size * 2 / 3) (0 + size))
    as [st1 r].
  cbn [fst snd] in A, B, C.
  destruct (next_size size r Hsize Hrem C) as [Hs' Hrem'].
  set (size' := Z.min (Pascal.roundThird (0 + size * 2 / 3 + r))
                  (Z.of_nat Curl.HASH_LENGTH) - 0) in *.
  assert (Htail' : same_tail (Z.to_nat size') st1 st0).
  { apply same_tail_le with (Z.to_nat size); [lia|].
    now apply same_tail_trans with st. }
  destruct st1 as [l1 h1]. cbn [HammingDiver.low HammingDiver.high].
  set (curlCopy := HammingDiver.transform (HammingDiver.mkStates l1 h1)).
  destruct (Z.eqb_spec
              (HammingDiver.check sec (HammingDiver.low curlCopy)
                 (HammingDiver.high curlCopy)) 0) as [E|E].
  - apply (IH (HammingDiver.mkStates l1 h1) size'); try assumption. lia.
  - intros [= <-].
    exists (HammingDiver.mkStates l1 h1), size',
      (HammingDiver.check sec (HammingDiver.low curlCopy)
         (HammingDiver.high curlCopy)).
    unfold HammingDiver.check in *.
    destruct (check_lanes_found 64 0 sec _ _ E) as [R T].
    split; [exact A|]. split; [lia|]. split; [exact Htail'|].
    split; [lia|]. split; [exact T|reflexivity].
Qed.

Lemma firstn_seq_le (n a len : nat) :
  (n <= len)%nat -> firstn n (seq a len) = seq a n.
Proof.
  revert a len. induction n as [|n IH]; intros a len H; [reflexivity|].
  destruct len as [|len]; [lia|].
  cbn [seq firstn]. f_equal. apply IH. lia.
Qed.

Lemma trinaryGet_firstn (low high : list Z) (n : nat) (lane : Z) :
  (n <= List.length low)%nat ->
  HammingDiver.trinaryGet low high n lane
  = firstn n (HammingDiver.trinaryGet low high (List.length low) lane).
Proof.
  intros Hn. unfold HammingDiver.trinaryGet.
  now rewrite firstn_map, firstn_seq_le by exact Hn.
Qed.

(** C7.  Whenever [search] on a state of 729 trits, at a security level of
    1, 2 or 3, with length 81 and offset 0, returns a nonce, absorbing that
    nonce into a 27-round sponge that holds the state gives a rate whose
    [checksumSecurity] is at least the level asked for. *)
Theorem search_nonce_security (fuel : nat) (state nonce : list Z) (sec : Z) :
  List.length state = Curl.STATE_LENGTH -> trits state -> 1 <= sec <= 3 ->
  HammingDiver.search fuel state sec 81 0 = Some nonce ->
  sec <= IssP27.checksumSecurity
           (Curl.rate
              (Curl.absorb (Curl.mk state 27) nonce 0
                 (Z.of_nat (List.length nonce)))
              Curl.HASH_LENGTH).
Proof.
  intros Hlen Ht Hsec. unfold HammingDiver.search.
  change (Z.to_nat 0) with 0%nat.
  change (Z.min 81 (Z.of_nat Curl.HASH_LENGTH) - 0) with 81.
  intros H.
  destruct (prepareTrits_ok state Hlen Ht) as [Pok Ptail].
  destruct (search_loop_found fuel _
              (HammingDiver.tritsToBigInt state Curl.STATE_LENGTH) 81 sec
              nonce Pok ltac:(lia) eq_refl
              (same_tail_le 4 (Z.to_nat 81) _ _ ltac:(lia) Ptail) H)
    as (st' & size' & lane & Hok' & Hsz & Htail & Hlane & Hchk & ->).
  assert (Hl : 0 <= lane < 64) by lia.
  pose proof (Hok' lane Hl) as Hok. pose proof Hok as (Hlow & Hhigh & _).
  rewrite trinaryGet_firstn
    by (rewrite Hlow; change Curl.STATE_LENGTH with 729%nat; lia).
  rewrite trinaryGet_lane by (try lia; congruence).
  replace (HammingDiver.mkStates (HammingDiver.low st') (HammingDiver.high st'))
    with st' by now destruct st'.
  assert (Hlane_len : List.length (lane_state lane st') = 729%nat)
    by now apply lane_state_length.
  set (n := Z.to_nat size').
  assert (Hn : List.length (firstn n (lane_state lane st')) = n)
    by (rewrite length_firstn; lia).
  rewrite absorb_whole_short by lia.
  unfold absorb_chunk, Curl.transform, Curl.rate, Int8Array.set.
  cbn [Curl._state Curl._rounds].
  rewrite Hn, firstn_O. cbn [app Nat.add].
  destruct (tritsToBigInt_lane lane state Hl Hlen Ht) as [Hst _].
  rewrite <- Hst at 1.
  rewrite <- (same_tail_lane lane n st' _ Htail).
  rewrite firstn_skipn.
  destruct (transform_lane lane st' Hl Hok) as [Hsim Hok2].
  rewrite <- Hsim.
  unfold Int8Array.slice. rewrite skipn_O.
  change (Curl.HASH_LENGTH - 0)%nat with 243%nat.
  rewrite (check_thirds_level sec lane _ Hsec Hl Hok2 Hchk). lia.
Qed.

Lemma search_nonce_security_witness :
  1 <= IssP27.checksumSecurity
         (Curl.rate
            (Curl.absorb (Curl.mk (repeat 0 729) 27) zero_state_nonce 0
               (Z.of_nat (List.length zero_state_nonce)))
            Curl.HASH_LENGTH).
Proof.
  apply (search_nonce_security 1 (repeat 0 729) zero_state_nonce 1).
  - apply repeat_length.
  - apply trits_repeat_0.
  - lia.
  - vm_compute. reflexivity.
Defined.

End Search.

Section RootLoop.

Lemma root_loop_step (n c : nat) (sponge : Curl.t) (i : Z)
  (rate siblings : list Z) (index : Z) :
  MerkleTree.root_loop (S n) c sponge i rate siblings index
  = let '(sponge', i', rate') :=
      root_step siblings index c (sponge, i, rate) in
    MerkleTree.root_loop n (S c) sponge' i' rate' siblings index.
Proof. reflexivity. Qed.

Lemma root_run_shift (siblings : list Z) (index : Z) (n c : nat)
  (st : Curl.t * Z * list Z) :
  root_run siblings index n (S c) (root_step siblings index c st)
  = root_step siblings index (c + n) (root_run siblings index n c st).
Proof.
  induction n as [|n IH]; cbn [root_run].
  - now rewrite Nat.add_0_r.
  - rewrite IH. now rewrite Nat.add_succ_r.
Qed.

Lemma root_loop_run (n c : nat) (sponge : Curl.t) (i : Z)
  (rate siblings : list Z) (index : Z) :
  MerkleTree.root_loop n c sponge i rate siblings index
  = fst (fst (root_run siblings index n c (sponge, i, rate))).
Proof.
  revert c sponge i rate. induction n as [|n IH]; intros c sponge i rate;
    [reflexivity|].
  rewrite root_loop_step.
  change (root_run siblings index (S n) c (sponge, i, rate))
    with (root_step siblings index (c + n)
            (root_run siblings index n c (sponge, i, rate))).
  rewrite <- root_run_shift.
  destruct (root_step siblings index c (sponge, i, rate)) as [[sp' i'] r'].
  apply IH.
Qed.

Lemma int32_small (x : Z) : - 2 ^ 31 <= x < 2 ^ 31 -> MerkleTree.int32 x = x.
Proof.
  intros H. unfold MerkleTree.int32.
  rewrite Z.mod_small; lia.
Qed.

Lemma pow2_pos (h : nat) : 0 < 2 ^ Z.of_nat h.
Proof. apply Z.pow_pos_nonneg; lia. Qed.

Lemma pow2_S (h : nat) : 2 ^ Z.of_nat (S h) = 2 * 2 ^ Z.of_nat h.
Proof. rewrite Nat2Z.inj_succ. apply Z.pow_succ_r. lia. Qed.

Lemma pow2_le_30 (h : nat) : (h <= 30)%nat -> 2 ^ Z.of_nat h <= 2 ^ 30.
Proof. intros H. apply Z.pow_le_mono_r; lia. Qed.

(** The mask tests bit [h] of the index. *)
Lemma land_mask (h : nat) (idx : Z) :
  (Z.land (2 ^ Z.of_nat h) idx =? 0)
  = ((idx / 2 ^ Z.of_nat h) mod 2 =? 0).
Proof.
  pose proof (land_bit idx (Z.of_nat h) ltac:(lia)) as H.
  rewrite Z.shiftl_1_l in H. rewrite Z.land_comm, H.
  destruct (Z.testbit idx (Z.of_nat h)) eqn:Hb; cbn [negb].
  - apply Z.testbit_true in Hb; [|lia]. now rewrite Hb.
  - apply Z.testbit_false in Hb; [|lia]. now rewrite Hb.
Qed.

Lemma mod_pow2_S (h : nat) (idx : Z) :
  idx mod 2 ^ Z.of_nat (S h)
  = idx mod 2 ^ Z.of_nat h
    + 2 ^ Z.of_nat h * ((idx / 2 ^ Z.of_nat h) mod 2).
Proof.
  rewrite pow2_S, Z.mul_comm.
  apply Z.rem_mul_r; [|lia]. pose proof (pow2_pos h). lia.
Qed.

End RootLoop.

Section FullTrees.

Variable A : Z -> list Z.
Hypothesis A_length : forall j, List.length (A j) = 243%nat.

Lemma parent_address_length (l r : list Z) :
  List.length (parent_address l r) = 243%nat.
Proof. unfold parent_address. apply rate_len. do 2 apply absorb_len. apply new_len. Qed.

Lemma spans_address_length (h : nat) (n : MerkleNode) (j0 : Z) :
  spans A h n j0 -> List.length (MerkleNode.addressTrits n) = 243%nat.
Proof.
  destruct h as [|h]; cbn [spans].
  - intros (_ & _ & ->). apply A_length.
  - intros (l & r & _ & _ & _ & -> & _). apply parent_address_length.
Qed.

Lemma spans_size (h : nat) (n : MerkleNode) (j0 : Z) :
  spans A h n j0 -> MerkleNode.size n = 2 ^ Z.of_nat h.
Proof.
  destruct h as [|h]; cbn [spans].
  - now intros (_ & -> & _).
  - now intros (l & r & _ & _ & -> & _).
Qed.

Lemma path_siblings_ok (h : nat) (n : MerkleNode) (j0 i : Z) :
  spans A h n j0 ->
  List.length (path_siblings h n i) = h
  /\ Forall (fun s => List.length (MerkleNode.addressTrits s) = 243%nat)
       (path_siblings h n i).
Proof.
  revert n j0 i. induction h as [|h IH]; intros n j0 i; cbn [spans].
  - intros _. now split.
  - intros (l & r & Hl & Hr & _ & _ & Sl & Sr).
    cbn [path_siblings]. rewrite Hl, Hr.
    destruct (i <? 2 ^ Z.of_nat h).
    + destruct (IH l j0 i Sl) as [Len All]. cbn [List.length].
      split; [now rewrite Len|]. constructor; [|exact All].
      now apply spans_address_length with h (j0 + 2 ^ Z.of_nat h).
    + destruct (IH r (j0 + 2 ^ Z.of_nat h) (i - 2 ^ Z.of_nat h) Sr)
        as [Len All].
      cbn [List.length].
      split; [now rewrite Len|]. constructor; [|exact All].
      now apply spans_address_length with h j0.
Qed.

Lemma path_blocks (h : nat) (n : MerkleNode) (j0 i : Z) :
  spans A h n j0 ->
  blocks_ok (map MerkleNode.addressTrits (rev (path_siblings h n i)))
  /\ List.length (map MerkleNode.addressTrits (rev (path_siblings h n i))) = h.
Proof.
  intros Hs. destruct (path_siblings_ok h n j0 i Hs) as [Len All].
  split.
  - apply blocks_ok_map. intros a Ha. apply in_rev in Ha.
    rewrite Forall_forall in All. now apply All.
  - now rewrite length_map, length_rev.
Qed.

(** The loop of [MerkleTree.root], run over the siblings of leaf
    [idx mod 2^h] of a full tree of height [h], from that leaf's address,
    arrives at the address of the tree. *)
Lemma root_run_spans (h : nat) :
  forall (T : MerkleNode) (j0 idx : Z) (rest : list Z) (sp : Curl.t),
  spans A h T j0 -> (h <= 30)%nat -> 0 <= idx < 2 ^ 31 ->
  Curl._rounds sp = 27%nat ->
  exists sp',
    root_run
      (List.concat
         (map MerkleNode.addressTrits
            (rev (path_siblings h T (idx mod 2 ^ Z.of_nat h)))) ++ rest)
      idx h 0 (sp, 1, A (j0 + idx mod 2 ^ Z.of_nat h))
    = (sp', 2 ^ Z.of_nat h, MerkleNode.addressTrits T)
    /\ Curl._rounds sp' = 27%nat
    /\ (h <> 0%nat -> Curl.rate sp' Curl.HASH_LENGTH = MerkleNode.addressTrits T).
Proof.
  induction h as [|h IH]; intros T j0 idx rest sp Hs Hh Hidx Hr.
  - cbn [spans] in Hs. destruct Hs as (_ & _ & Ha).
    exists sp. cbn [root_run path_siblings rev map List.concat app].
    change (2 ^ Z.of_nat 0) with 1. rewrite Z.mod_1_r, Z.add_0_r, Ha.
    split; [reflexivity|]. split; [exact Hr|]. congruence.
  - pose proof Hs as Hs0. cbn [spans] in Hs.
    destruct Hs as (l & r & Hl & Hr' & Hsize & Haddr & Sl & Sr).
    pose proof (pow2_pos h) as Hpos.
    pose proof (pow2_le_30 (S h) Hh) as Hle. rewrite pow2_S in Hle.
    pose proof (Z.mod_pos_bound idx (2 ^ Z.of_nat h) Hpos) as Hlow.
    pose proof (Z.mod_pos_bound (idx / 2 ^ Z.of_nat h) 2 ltac:(lia)) as Hbit.
    pose proof (mod_pow2_S h idx) as Hsplit.
    set (b := (idx / 2 ^ Z.of_nat h) mod 2) in *.
    set (i' := idx mod 2 ^ Z.of_nat h) in *.
    (* the child on the path, its sibling, and where the child starts *)
    assert (Hpath :
      exists ch top j0',
        spans A h ch j0' /\ List.length (MerkleNode.addressTrits top) = 243%nat
        /\ path_siblings (S h) T (idx mod 2 ^ Z.of_nat (S h))
           = top :: path_siblings h ch i'
        /\ j0 + idx mod 2 ^ Z.of_nat (S h) = j0' + i'
        /\ MerkleNode.addressTrits T
           = if b =? 0
             then parent_address (MerkleNode.addressTrits ch)
                    (MerkleNode.addressTrits top)
             else parent_address (MerkleNode.addressTrits top)
                    (MerkleNode.addressTrits ch)).
    { cbn [path_siblings]. rewrite Hl, Hr', Hsplit.
      destruct (Z.eqb_spec b 0) as [Hb|Hb].
      - exists l, r, j0. rewrite Hb, Z.mul_0_r, Z.add_0_r.
        destruct (Z.ltb_spec i' (2 ^ Z.of_nat h)); [|lia].
        split; [exact Sl|].
        split; [now apply spans_address_length with h (j0 + 2 ^ Z.of_nat h)|].
        split; [reflexivity|]. split; [reflexivity|exact Haddr].
      - assert (Hb1 : b = 1) by lia.
        exists r, l, (j0 + 2 ^ Z.of_nat h). rewrite Hb1, Z.mul_1_r.
        destruct (Z.ltb_spec (i' + 2 ^ Z.of_nat h) (2 ^ Z.of_nat h)); [lia|].
        split; [exact Sr|].
        split; [now apply spans_address_length with h j0|].
        split; [f_equal; f_equal; lia|]. split; [lia|exact Haddr]. }
    destruct Hpath as (ch & top & j0' & Sch & Htop & -> & -> & HaddrT).
    destruct (path_blocks h ch j0' i' Sch) as [Hblocks Hcount].
    cbn [rev]. rewrite map_app, concat_app. cbn [map List.concat].
    rewrite app_nil_r, <- app_assoc.
    destruct (IH ch j0' idx (MerkleNode.addressTrits top ++ rest) sp Sch
                ltac:(lia) Hidx Hr) as (sp1 & Hrun & Hr1 & _).
    fold i' in Hrun.
    cbn [root_run]. rewrite Hrun. cbn [Nat.add].
    unfold root_step.
    (* the chunk is the address of the sibling *)
    assert (Hchunk :
      Int8Array.slice
        (List.concat
           (map MerkleNode.addressTrits (rev (path_siblings h ch i')))
         ++ MerkleNode.addressTrits top ++ rest)
        (h * Curl.HASH_LENGTH) ((h + 1) * Curl.HASH_LENGTH)
      = MerkleNode.addressTrits top).
    { change Curl.HASH_LENGTH with 243%nat.
      replace (h * 243)%nat
        with (List.length
                (List.concat
                   (map MerkleNode.addressTrits
                      (rev (path_siblings h ch i')))))
        by (rewrite blocks_length by exact Hblocks; now rewrite Hcount).
      replace ((h + 1) * 243)%nat
        with (List.length
                (List.concat
                   (map MerkleNode.addressTrits
                      (rev (path_siblings h ch i')))) + 243)%nat
        by (rewrite blocks_length by exact Hblocks; rewrite Hcount; lia).
      rewrite slice_app_exact. now apply firstn_app_exact. }
    rewrite Hchunk, (reset_27 sp1 Hr1).
    rewrite int32_small by lia.
    rewrite land_mask. fold b.
    assert (Hmask : MerkleTree.int32 (Z.shiftl (2 ^ Z.of_nat h) 1)
                    = 2 ^ Z.of_nat (S h)).
    { rewrite Z.shiftl_mul_pow2 by lia. rewrite pow2_S.
      rewrite int32_small; lia. }
    rewrite Hmask.
    destruct (b =? 0).
    + eexists. split; [rewrite HaddrT; reflexivity|].
      split; [now rewrite !absorb_rounds|]. intros _. now rewrite HaddrT.
    + eexists. split; [rewrite HaddrT; reflexivity|].
      split; [now rewrite !absorb_rounds|]. intros _. now rewrite HaddrT.
Qed.

(** [getSubtree]'s walk down a full tree collects the siblings of the
    path. *)
Lemma descend_spans (h : nat) :
  forall (T : MerkleNode) (j0 i : Z) (acc : list MerkleNode),
  spans A h T j0 ->
  snd (MerkleTree.descend T i acc) = acc ++ path_siblings h T i.
Proof.
  induction h as [|h IH]; intros T j0 i acc Hs; cbn [spans] in Hs.
  - destruct Hs as (Hl & _ & _). destruct T as [lo ro sz ad pk].
    cbn [MerkleNode.left] in Hl. subst lo.
    cbn [MerkleTree.descend snd path_siblings]. now rewrite app_nil_r.
  - destruct Hs as (l & r & Hl & Hr & _ & _ & Sl & Sr).
    destruct T as [lo ro sz ad pk].
    cbn [MerkleNode.left MerkleNode.right] in Hl, Hr. subst lo ro.
    cbn [MerkleTree.descend path_siblings MerkleNode.left MerkleNode.right].
    rewrite (spans_size h l j0 Sl).
    destruct (i <? 2 ^ Z.of_nat h).
    + rewrite (IH l j0 i _ Sl). now rewrite <- app_assoc.
    + rewrite (IH r _ (i - 2 ^ Z.of_nat h) _ Sr). now rewrite <- app_assoc.
Qed.

(** In a full tree of height at least 1, [getSubtree] returns the siblings
    of the path, the lowest first. *)
Lemma getSubtree_spans (h : nat) (T : MerkleNode) (j0 i : Z) :
  spans A (S h) T j0 -> 0 <= i < 2 ^ Z.of_nat (S h) ->
  MerkleTree.leaves (MerkleTree.getSubtree T i)
  = rev (path_siblings (S h) T i).
Proof.
  intros Hs Hi. unfold MerkleTree.getSubtree.
  rewrite (spans_size (S h) T j0 Hs).
  pose proof (pow2_pos h) as Hpos. pose proof (pow2_S h) as HS.
  destruct (Z.eqb_spec (2 ^ Z.of_nat (S h)) 1); [lia|].
  destruct (Z.ltb_spec i (2 ^ Z.of_nat (S h))); [|lia].
  pose proof (descend_spans (S h) T j0 i [] Hs) as Hd.
  destruct (MerkleTree.descend T i []) as [pk lv].
  cbn [snd] in Hd. cbn [MerkleTree.leaves]. now rewrite Hd.
Qed.

(** [MerkleTree.root] rebuilds the address of a full tree from any of its
    leaves and what [getSubtree] returns for it. *)
Lemma root_spans (h : nat) (T : MerkleNode) (j0 i : Z) :
  spans A (S h) T j0 -> (S h <= 30)%nat -> 0 <= i < 2 ^ Z.of_nat (S h) ->
  MerkleTree.root (A (j0 + i))
    (List.concat
       (map MerkleNode.addressTrits
          (MerkleTree.leaves (MerkleTree.getSubtree T i)))) i
  = MerkleNode.addressTrits T.
Proof.
  intros Hs Hh Hi. rewrite (getSubtree_spans h T j0 i Hs Hi).
  destruct (path_blocks (S h) T j0 i Hs) as [Hblocks Hcount].
  unfold MerkleTree.root.
  rewrite blocks_length by exact Hblocks. rewrite Hcount, fragments_exact.
  rewrite root_loop_run.
  pose proof (pow2_le_30 (S h) Hh) as Hle.
  destruct (root_run_spans (S h) T j0 i [] (Curl.new 27) Hs Hh ltac:(lia)
              eq_refl) as (sp' & Hrun & _ & Hrate).
  rewrite Z.mod_small in Hrun by exact Hi.
  rewrite app_nil_r in Hrun. rewrite Hrun. cbn [fst].
  apply Hrate. discriminate.
Qed.

(** One level of [buildTree] pairs full trees up into full trees. *)
Lemma pair_up_level (h m : nat) :
  forall (ns : list MerkleNode) (j0 : Z),
  List.length ns = (2 * m)%nat -> level A h ns j0 ->
  level A (S h) (MerkleTree.pair_up ns) j0
  /\ List.length (MerkleTree.pair_up ns) = m.
Proof.
  induction m as [|m IH]; intros ns j0 Hlen Hlev.
  - destruct ns; [now split|discriminate].
  - destruct ns as [|a [|b rest]]; try (cbn in Hlen; lia).
    cbn [level] in Hlev. destruct Hlev as (Sa & Sb & Hrest).
    cbn [MerkleTree.pair_up].
    rewrite squeeze_block_len
      by (try apply repeat_length; do 2 apply absorb_len; apply new_len).
    cbn [snd]. fold (parent_address (MerkleNode.addressTrits a)
                       (MerkleNode.addressTrits b)).
    destruct (IH rest (j0 + 2 ^ Z.of_nat (S h))) as [Hlev' Hlen'].
    { cbn [List.length] in Hlen. lia. }
    { rewrite pow2_S.
      replace (j0 + 2 * 2 ^ Z.of_nat h)
        with (j0 + 2 ^ Z.of_nat h + 2 ^ Z.of_nat h) by lia.
      exact Hrest. }
    split; [|cbn [List.length]; now rewrite Hlen'].
    cbn [level]. split; [|exact Hlev'].
    cbn [spans]. exists a, b.
    unfold MerkleNode.new.
    cbn [MerkleNode.left MerkleNode.right MerkleNode.size
         MerkleNode.addressTrits].
    rewrite (spans_size h a _ Sa), (spans_size h b _ Sb), pow2_S.
    repeat split; try assumption. lia.
Qed.

(** [buildTree] on [2^(k+1)] full trees of height [h] returns a full tree of
    height [h + k + 1]. *)
Lemma buildTree_level (k : nat) :
  forall (h fuel : nat) (ns : list MerkleNode) (j0 : Z),
  List.length ns = (2 ^ S k)%nat -> level A h ns j0 -> (k < fuel)%nat ->
  exists T,
    MerkleTree.buildTree_fuel fuel ns = Some T /\ spans A (h + S k) T j0.
Proof.
  induction k as [|k IH]; intros h fuel ns j0 Hlen Hlev Hfuel;
    (destruct fuel as [|fuel]; [lia|]);
    cbn [MerkleTree.buildTree_fuel].
  - destruct (pair_up_level h 1 ns j0 Hlen Hlev) as [Hlev' Hlen'].
    destruct (MerkleTree.pair_up ns) as [|t [|t2 rest]];
      try discriminate.
    exists t. split; [reflexivity|].
    rewrite Nat.add_1_r. cbn [level] in Hlev'. tauto.
  - assert (Hlen2 : List.length ns = (2 * 2 ^ S k)%nat)
      by (rewrite Hlen; reflexivity).
    destruct (pair_up_level h (2 ^ S k) ns j0 Hlen2 Hlev) as [Hlev' Hlen'].
    assert (H2 : (2 <= 2 ^ S k)%nat).
    { cbn [Nat.pow]. pose proof (Nat.pow_nonzero 2 k). lia. }
    destruct (MerkleTree.pair_up ns) as [|t [|t2 rest]] eqn:E;
      try (cbn [List.length] in Hlen'; lia).
    destruct (IH (S h) fuel (t :: t2 :: rest) j0 Hlen' Hlev' ltac:(lia))
      as (T & HT & Hspan).
    exists T. split; [exact HT|].
    now rewrite Nat.add_succ_r.
Qed.

End FullTrees.

Section MerkleRoundTrip.

Lemma leaf_address_length (seedTrits : list Z) (start security j : Z) :
  List.length (leaf_address seedTrits start security j) = 243%nat.
Proof.
  unfold leaf_address, MerkleHashGenerator.generateAddress.
  cbn [MerkleHashGenerator.address]. unfold IssP27.address.
  rewrite squeeze_block_len
    by (try apply repeat_length; apply absorb_len, new_len).
  cbn [snd]. apply rate_len, absorb_len, new_len.
Qed.

Lemma make_leaves_level (n : nat) (seedTrits : list Z) (start i security : Z) :
  level (leaf_address seedTrits start security) 0
    (MerkleTree.make_leaves n seedTrits start i security) i
  /\ List.length (MerkleTree.make_leaves n seedTrits start i security) = n.
Proof.
  revert i. induction n as [|n IH]; intros i; [now split|].
  cbn [MerkleTree.make_leaves level List.length].
  destruct (IH (i + 1)) as [Hlev Hlen].
  split; [|now rewrite Hlen].
  split; [|exact Hlev].
  cbn [spans]. now repeat split.
Qed.



End MerkleRoundTrip.

Section PascalNegative.

(** On a negative input the quotient [Math.floor(input / 3)] stays negative:
    [writeTrits] never reaches its base case. *)
Lemma writeTrits_negative (fuel : nat) :
  forall (input : Z) (trits : list Z) (index : Z),
  input < 0 -> Pascal.writeTrits_fuel fuel input trits index = None.
Proof.
  induction fuel as [|fuel IH]; intros input trits index Hneg;
    cbn [Pascal.writeTrits_fuel];
    (destruct (Z.eqb_spec input 0); [lia|]); [reflexivity|].
  change Pascal.RADIX with 3.
  assert (Hq : input / 3 < 0) by (Z.div_mod_to_equations; lia).
  assert (Hr : Z.rem input 3 <= 0) by (apply Z.rem_nonpos; lia).
  destruct (Z.ltb_spec 1 (Z.rem input 3)); [lia|].
  now rewrite IH.
Qed.

(** C5, where the code leaves the claim: on every negative value
    [pascalEncode] returns nothing, whatever the depth of recursion it is
    allowed, so there is nothing for [pascalDecode] to give back. *)
Theorem pascalEncode_negative (value : Z) (fuel : nat) :
  value < 0 ->
  Pascal.pascalEncode_fuel fuel value = None
  /\ Pascal.pascalEncode value = None.
Proof.
  intros Hneg.
  assert (H : forall f, Pascal.pascalEncode_fuel f value = None).
  { intros f. unfold Pascal.pascalEncode_fuel.
    destruct (Z.eqb_spec value 0); [lia|].
    unfold Pascal.valueToTrits_fuel.
    now rewrite writeTrits_negative. }
  split; [apply H|]. unfold Pascal.pascalEncode. apply H.
Qed.

Lemma pascalEncode_negative_witness :
  Pascal.pascalEncode_fuel 1000 (-1) = None /\ Pascal.pascalEncode (-1) = None.
Proof. apply (pascalEncode_negative (-1) 1000). lia. Defined.

(** Zero has its own encoding, which [pascalDecode] recognises. *)
Lemma pascal_zero :
  Pascal.pascalEncode 0 = Some [1; 0; 0; -1]
  /\ Pascal.pascalDecode [1; 0; 0; -1] = Some (Pascal.mkDecoded 0 4).
Proof. split; reflexivity. Qed.

End PascalNegative.

Section CreateMessage.

(** What a call of [createMessage] that returns has done: it built the tree
    of the channel and the next one, named the message after the former and
    moved the channel on with the latter. *)
Lemma createMessage_inv (fuel : nat) (st : IMamChannelState) (msg : string)
  (m : IMamMessage) (st' : IMamChannelState) :
  Channel.createMessage fuel st msg = Some (m, st') ->
  exists tree nextRootTree,
    MerkleTree.new (seed st) (start st) (count st) (security st) = Some tree
    /\ MerkleTree.new (seed st) (start st + count st) (nextCount st)
         (security st) = Some nextRootTree
    /\ root m = TrytesHelper.fromTrits (MerkleNode.addressTrits tree)
    /\ st' = Channel.advance st (MerkleNode.addressTrits nextRootTree).
Proof.
  unfold Channel.createMessage.
  destruct (negb (TrytesHelper.isTrytes msg)); [discriminate|].
  destruct (MerkleTree.new (seed st) (start st) (count st) (security st))
    as [tree|]; [|discriminate].
  destruct (MerkleTree.new (seed st) (start st + count st) (nextCount st)
              (security st)) as [nextRootTree|]; [|discriminate].
  destruct (TrytesHelper.toTrits msg) as [messageTrits|]; [|discriminate].
  destruct (TrytesHelper.toTrits _) as [sideKeyTrits|]; [|discriminate].
  destruct (Pascal.pascalEncode (index st)) as [indexTrits|]; [|discriminate].
  destruct (Pascal.pascalEncode _) as [messageLengthTrits|]; [|discriminate].
  destruct (Mask.mask _ _) as [maskedNextRoot sponge1].
  destruct (HammingDiver.search _ _ _ _ _) as [nonceTrits|]; [|discriminate].
  destruct (Mask.mask _ _) as [nonceMasked sponge2].
  destruct (Pascal.pascalEncode _) as [siblingsCountTrits|]; [|discriminate].
  destruct (Mask.mask _ _) as [encryptedSignature sponge3].
  intros [= <- <-]. exists tree, nextRootTree. now repeat split.
Qed.

(** C10.  A call of [createMessage] that returns leaves [seed], [mode],
    [sideKey], [security], [count] and [nextCount] as they were; when
    [index] was [count - 1] it adds [nextCount] to [start] and sets [index]
    to 0, otherwise it adds 1 to [index] and leaves [start]; [nextRoot]
    becomes the trytes of the root of the next tree; and [0 <= index < count]
    still holds afterwards when it held before. *)
Theorem createMessage_frame (fuel : nat) (st : IMamChannelState)
  (msg : string) (m : IMamMessage) (st' : IMamChannelState) :
  Channel.createMessage fuel st msg = Some (m, st') ->
  seed st' = seed st /\ mode st' = mode st /\ sideKey st' = sideKey st
  /\ security st' = security st /\ count st' = count st
  /\ nextCount st' = nextCount st
  /\ (if index st =? count st - 1
      then start st' = start st + nextCount st /\ index st' = 0
      else start st' = start st /\ index st' = index st + 1)
  /\ (exists nextRootTree,
        MerkleTree.new (seed st) (start st + count st) (nextCount st)
          (security st) = Some nextRootTree
        /\ nextRoot st'
           = Some (TrytesHelper.fromTrits
                     (MerkleNode.addressTrits nextRootTree)))
  /\ (0 <= index st < count st -> 0 <= index st' < count st').
Proof.
  intros H.
  destruct (createMessage_inv fuel st msg m st' H)
    as (tree & nextRootTree & _ & Hnext & _ & ->).
  unfold Channel.advance.
  destruct (Z.eqb_spec (index st) (count st - 1)) as [E|E];
    cbn [seed mode sideKey security start count nextCount index nextRoot];
    (repeat split; try reflexivity; try lia);
    exists nextRootTree; now split.
Qed.

End CreateMessage.

Section ExampleRun.

Lemma hello_channel_created :
  Channel.createChannel hello_seed 1 public None = Some hello_channel.
Proof. vm_compute. reflexivity. Qed.


(** The first message of the channel. *)
Lemma hello_created :
  Channel.createMessage 1 hello_channel "HELLO"
  = Some (hello_message, hello_next_channel).
Proof. vm_compute. reflexivity. Qed.

End ExampleRun.

Section SingleLeaf.


(** The tree over a single leaf: a root of size 1 that has the leaf's
    address, for which [getSubtree] returns no sibling. *)
Lemma single_leaf_tree (seed : string) (seedTrits : list Z)
  (start security : Z) (T : MerkleNode) :
  TrytesHelper.toTrits seed = Some seedTrits ->
  MerkleTree.new seed start 1 security = Some T ->
  MerkleNode.addressTrits T = leaf_address seedTrits start security 0
  /\ MerkleTree.leaves (MerkleTree.getSubtree T 0) = [].
Proof.
  intros Hseed. unfold MerkleTree.new. rewrite Hseed.
  change (Z.to_nat 1) with 1%nat.
  cbn [MerkleTree.make_leaves]. unfold MerkleTree.buildTree.
  cbn [List.length MerkleTree.buildTree_fuel MerkleTree.pair_up].
  intros [= <-]. split; reflexivity.
Qed.

End SingleLeaf.

Section ParseChecks.

Lemma unmask_loop_rounds (n : nat) :
  forall (q : nat) (unmasked : list Z) (sponge : Curl.t),
  Curl._rounds (snd (Mask.unmask_loop n q unmasked sponge))
  = Curl._rounds sponge.
Proof.
  induction n as [|n IH]; intros q unmasked sponge; [reflexivity|].
  cbn [Mask.unmask_loop]. rewrite IH. apply absorb_rounds.
Qed.

Lemma unmask_rounds (payload : list Z) (sponge : Curl.t) :
  Curl._rounds (snd (Mask.unmask payload sponge)) = Curl._rounds sponge.
Proof. apply unmask_loop_rounds. Qed.


End ParseChecks.

Section ExampleChecks.

(** The message of the example is parsed back. *)
Lemma hello_parsed :
  Parser.parseMessage hello_payload hello_root None
  = Some (Parser.mkParsed hello_next_root "HELLO").
Proof. vm_compute. reflexivity. Qed.



End ExampleChecks.

Section Settled.




Lemma createMessage_frame_witness :
  seed hello_next_channel = seed hello_channel
  /\ mode hello_next_channel = mode hello_channel
  /\ sideKey hello_next_channel = sideKey hello_channel
  /\ security hello_next_channel = security hello_channel
  /\ count hello_next_channel = count hello_channel
  /\ nextCount hello_next_channel = nextCount hello_channel
  /\ (if index hello_channel =? count hello_channel - 1
      then start hello_next_channel
           = start hello_channel + nextCount hello_channel
           /\ index hello_next_channel = 0
      else start hello_next_channel = start hello_channel
           /\ index hello_next_channel = index hello_channel + 1)
  /\ (exists nextRootTree,
        MerkleTree.new (seed hello_channel)
          (start hello_channel + count hello_channel)
          (nextCount hello_channel) (security hello_channel)
        = Some nextRootTree
        /\ nextRoot hello_next_channel
           = Some (TrytesHelper.fromTrits
                     (MerkleNode.addressTrits nextRootTree)))
  /\ (0 <= index hello_channel < count hello_channel ->
      0 <= index hello_next_channel < count hello_next_channel).
Proof.
  apply (createMessage_frame 1 hello_channel "HELLO" hello_message
           hello_next_channel).
  exact hello_created.
Defined.

(** The next root a call of [createMessage] records is the root of the tree
    that the following call builds, when the channel is at the last leaf of
    its tree and the next tree has as many leaves. *)
Theorem createMessage_next_tree (fuel : nat) (st : IMamChannelState)
  (msg : string) (m : IMamMessage) (st' : IMamChannelState) :
  Channel.createMessage fuel st msg = Some (m, st') ->
  index st = count st - 1 -> nextCount st = count st ->
  exists tree,
    MerkleTree.new (seed st') (start st') (count st') (security st')
    = Some tree
    /\ nextRoot st'
       = Some (TrytesHelper.fromTrits (MerkleNode.addressTrits tree)).
Proof.
  intros H Hindex Hcount.
  destruct (createMessage_inv fuel st msg m st' H)
    as (tree & nextRootTree & _ & Hnext & _ & ->).
  exists nextRootTree. unfold Channel.advance.
  rewrite Hindex, Z.eqb_refl.
  cbn [seed start count security nextRoot].
  rewrite Hcount in *. rewrite Z.add_comm. now split.
Qed.

Lemma createMessage_next_tree_witness :
  exists tree,
    MerkleTree.new (seed hello_next_channel) (start hello_next_channel)
      (count hello_next_channel) (security hello_next_channel)
    = Some tree
    /\ nextRoot hello_next_channel
       = Some (TrytesHelper.fromTrits (MerkleNode.addressTrits tree)).
Proof.
  apply (createMessage_next_tree 1 hello_channel "HELLO" hello_message
           hello_next_channel).
  - exact hello_created.
  - reflexivity.
  - reflexivity.
Defined.

(** The round trip on the example: the channel is created, its first message
    is made and parsed back with the root of the message, and the parser
    returns the message and the next root that the channel recorded. *)
Lemma hello_round_trip :
  Channel.createChannel hello_seed 1 public None = Some hello_channel
  /\ Channel.createMessage 1 hello_channel "HELLO"
     = Some (hello_message, hello_next_channel)
  /\ Parser.parseMessage (payload hello_message) (root hello_message) None
     = Some (Parser.mkParsed hello_next_root "HELLO")
  /\ nextRoot hello_next_channel = Some hello_next_root.
Proof.
  split; [exact hello_channel_created|].
  split; [exact hello_created|].
  split; [exact hello_parsed|reflexivity].
Qed.

End Settled.

Section Trytes.

(** Where [indexOf] finds a character, the string has it. *)
Lemma indexOf_get (s : string) (c : ascii) :
  forall idx, TrytesHelper.indexOf s c = Some idx -> String.get idx s = Some c.
Proof.
  induction s as [|x rest IH]; intros idx; cbn [TrytesHelper.indexOf];
    [discriminate|].
  destruct (Ascii.eqb_spec x c) as [->|Hne].
  - now intros [= <-].
  - destruct (TrytesHelper.indexOf rest c) as [j|]; [|discriminate].
    intros [= <-]. cbn [String.get]. now apply IH.
Qed.

Lemma indexOf_lt (s : string) (c : ascii) :
  forall idx, TrytesHelper.indexOf s c = Some idx ->
  (idx < String.length s)%nat.
Proof.
  induction s as [|x rest IH]; intros idx; cbn [TrytesHelper.indexOf];
    [discriminate|].
  destruct (Ascii.eqb x c).
  - intros [= <-]. cbn [String.length]. lia.
  - destruct (TrytesHelper.indexOf rest c) as [j|]; [|discriminate].
    intros [= <-]. cbn [String.length]. specialize (IH j eq_refl). lia.
Qed.

(** Every row of the table is found at its own position, and it holds
    trits. *)
Lemma row_found (idx : nat) :
  (idx < 27)%nat ->
  let '(a, b, d) := nth idx TrytesHelper.TRYTES_TRITS (0, 0, 0) in
  TrytesHelper.find_tryte TrytesHelper.TRYTES_TRITS 0 (Some a) (Some b) (Some d)
  = Some idx
  /\ is_trit a /\ is_trit b /\ is_trit d.
Proof.
  intros H. unfold is_trit.
  do 27 (destruct idx as [|idx]; [cbn; repeat split; auto|]).
  lia.
Qed.

(** Every triple of trits is a row of the table, at the position of a
    character of the alphabet that [indexOf] finds there. *)
Lemma triple_found (a b d : Z) :
  is_trit a -> is_trit b -> is_trit d ->
  exists idx c,
    TrytesHelper.find_tryte TrytesHelper.TRYTES_TRITS 0 (Some a) (Some b)
      (Some d) = Some idx
    /\ TrytesHelper.charAt TrytesHelper.ALPHABET idx = String c EmptyString
    /\ TrytesHelper.indexOf TrytesHelper.ALPHABET c = Some idx
    /\ nth idx TrytesHelper.TRYTES_TRITS (0, 0, 0) = (a, b, d).
Proof.
  intros [->|[->| ->]] [->|[->| ->]] [->|[->| ->]];
    cbn; eexists; eexists; repeat split.
Qed.

(** [toTrits] goes through exactly on the strings over the alphabet. *)
Lemma toTrits_some (s : string) :
  TrytesHelper.all_tryte_chars s = true ->
  exists t, TrytesHelper.toTrits s = Some t.
Proof.
  induction s as [|c rest IH]; [now exists []|].
  cbn [TrytesHelper.all_tryte_chars TrytesHelper.toTrits].
  unfold TrytesHelper.is_tryte_char.
  destruct (TrytesHelper.indexOf TrytesHelper.ALPHABET c) as [idx|];
    [|discriminate].
  cbn [andb]. intros H. destruct (IH H) as [t ->].
  destruct (nth idx TrytesHelper.TRYTES_TRITS (0, 0, 0)) as [[a b] d].
  now eexists.
Qed.

Lemma toTrits_none (s : string) :
  TrytesHelper.all_tryte_chars s = false -> TrytesHelper.toTrits s = None.
Proof.
  induction s as [|c rest IH]; [discriminate|].
  cbn [TrytesHelper.all_tryte_chars TrytesHelper.toTrits].
  unfold TrytesHelper.is_tryte_char.
  destruct (TrytesHelper.indexOf TrytesHelper.ALPHABET c) as [idx|];
    [|reflexivity].
  cbn [andb]. intros H. now rewrite (IH H).
Qed.

(** What [toTrits] returns: three trits for every character, which
    [fromTrits] reads back, whatever the fuel of its loop beyond the number
    of characters. *)
Lemma toTrits_inv (s : string) :
  forall t, TrytesHelper.toTrits s = Some t ->
  List.length t = (3 * String.length s)%nat /\ trits t
  /\ forall fuel, (String.length s <= fuel)%nat ->
       TrytesHelper.fromTrits_fuel fuel t = s.
Proof.
  induction s as [|c rest IH]; intros t; cbn [TrytesHelper.toTrits].
  - intros [= <-]. split; [reflexivity|]. split; [constructor|].
    intros [|fuel] _; reflexivity.
  - destruct (TrytesHelper.indexOf TrytesHelper.ALPHABET c) as [idx|] eqn:Hidx;
      [|discriminate].
    destruct (TrytesHelper.toTrits rest) as [ts|]; [|discriminate].
    destruct (IH ts eq_refl) as (Hlen & Ht & Hback).
    pose proof (row_found idx (indexOf_lt _ _ _ Hidx)) as Hrow.
    destruct (nth idx TrytesHelper.TRYTES_TRITS (0, 0, 0)) as [[a b] d].
    destruct Hrow as (Hfind & Ha & Hb & Hd).
    intros [= <-]. split; [cbn [List.length String.length]; lia|].
    split; [repeat (constructor; [assumption|]); exact Ht|].
    intros [|fuel] Hfuel; cbn [String.length] in Hfuel; [lia|].
    cbn [TrytesHelper.fromTrits_fuel nth_error skipn]. rewrite Hfind.
    unfold TrytesHelper.charAt. rewrite (indexOf_get _ _ _ Hidx).
    cbn [String.append]. f_equal. apply Hback. lia.
Qed.

(** A list of trits splits into its triples and a rest of fewer than three
    trits. *)
Lemma triples_ind (P : list Z -> Prop) :
  P [] -> (forall a, P [a]) -> (forall a b, P [a; b]) ->
  (forall a b d rest, P rest -> P (a :: b :: d :: rest)) ->
  forall l, P l.
Proof.
  intros H0 H1 H2 H3.
  assert (H : forall n l, (List.length l <= n)%nat -> P l).
  { induction n as [|n IH]; intros l Hl.
    - destruct l; [exact H0|cbn in Hl; lia].
    - destruct l as [|a [|b [|d rest]]]; auto.
      apply H3, IH. cbn in Hl. lia. }
  intros l. now apply (H (List.length l)).
Qed.

(** What [fromTrits] returns on trits: one character of the alphabet for
    every whole triple, which [toTrits] turns back into the triples; a last
    trit or two are dropped. *)
Lemma fromTrits_inv (t : list Z) :
  trits t ->
  forall fuel, (List.length t <= 3 * fuel)%nat ->
  String.length (TrytesHelper.fromTrits_fuel fuel t)
  = (List.length t / 3)%nat
  /\ TrytesHelper.toTrits (TrytesHelper.fromTrits_fuel fuel t)
     = Some (firstn (3 * (List.length t / 3)) t).
Proof.
  induction t as [|a|a b|a b d rest IH] using triples_ind; intros Ht fuel Hfuel.
  - destruct fuel; split; reflexivity.
  - destruct fuel as [|fuel]; [cbn in Hfuel; lia|].
    cbn [TrytesHelper.fromTrits_fuel nth_error skipn].
    change (TrytesHelper.find_tryte _ _ _ _ _) with (@None nat).
    destruct fuel; split; reflexivity.
  - destruct fuel as [|fuel]; [cbn in Hfuel; lia|].
    cbn [TrytesHelper.fromTrits_fuel nth_error skipn].
    change (TrytesHelper.find_tryte _ _ _ _ _) with (@None nat).
    destruct fuel; split; reflexivity.
  - destruct fuel as [|fuel]; [cbn in Hfuel; lia|].
    inversion Ht as [|? ? Ha Ht1]; subst.
    inversion Ht1 as [|? ? Hb Ht2]; subst.
    inversion Ht2 as [|? ? Hd Ht3]; subst.
    destruct (IH Ht3 fuel) as [Hlen Hback];
      [cbn [List.length] in Hfuel; lia|].
    destruct (triple_found a b d Ha Hb Hd) as (idx & c & Hf & Hc & Hi & Hrow).
    cbn [TrytesHelper.fromTrits_fuel nth_error skipn]. rewrite Hf, Hc.
    cbn [String.append String.length TrytesHelper.toTrits].
    rewrite Hi, Hback, Hrow, Hlen.
    assert (Hdiv : (List.length (a :: b :: d :: rest) / 3
                    = S (List.length rest / 3))%nat).
    { cbn [List.length].
      replace (S (S (S (List.length rest))))
        with (1 * 3 + List.length rest)%nat by lia.
      rewrite Nat.div_add_l by lia. lia. }
    rewrite Hdiv. split; [reflexivity|].
    replace (3 * S (List.length rest / 3))%nat
      with (S (S (S (3 * (List.length rest / 3))))) by lia.
    reflexivity.
Qed.

(** [toTrits] and [fromTrits]: a string that [toTrits] takes has all its
    characters in the alphabet, and its trits, three for every character, are
    read back by [fromTrits] as the string. *)
Theorem fromTrits_toTrits (s : string) (t : list Z) :
  TrytesHelper.toTrits s = Some t ->
  TrytesHelper.all_tryte_chars s = true
  /\ List.length t = (3 * String.length s)%nat
  /\ trits t
  /\ TrytesHelper.fromTrits t = s.
Proof.
  intros H. destruct (toTrits_inv s t H) as (Hlen & Ht & Hback).
  split.
  - destruct (TrytesHelper.all_tryte_chars s) eqn:E; [reflexivity|].
    rewrite (toTrits_none s E) in H. discriminate.
  - split; [exact Hlen|]. split; [exact Ht|].
    unfold TrytesHelper.fromTrits. apply Hback. lia.
Qed.

Lemma fromTrits_toTrits_witness :
  TrytesHelper.all_tryte_chars "MAM9" = true
  /\ List.length [1; 1; 1; 1; 0; 0; 1; 1; 1; 0; 0; 0]
     = (3 * String.length "MAM9")%nat
  /\ trits [1; 1; 1; 1; 0; 0; 1; 1; 1; 0; 0; 0]
  /\ TrytesHelper.fromTrits [1; 1; 1; 1; 0; 0; 1; 1; 1; 0; 0; 0] = "MAM9"%string.
Proof.
  apply (fromTrits_toTrits "MAM9" [1; 1; 1; 1; 0; 0; 1; 1; 1; 0; 0; 0]).
  reflexivity.
Defined.

(** [fromTrits] and [toTrits], the other way round: on trits, [fromTrits]
    returns one character for every whole triple and drops a last trit or
    two, and [toTrits] turns its result back into the trits of the whole
    triples, which are all the trits when their number is a multiple of
    three. *)
Theorem toTrits_fromTrits (t : list Z) :
  trits t ->
  String.length (TrytesHelper.fromTrits t) = (List.length t / 3)%nat
  /\ TrytesHelper.toTrits (TrytesHelper.fromTrits t)
     = Some (firstn (3 * (List.length t / 3)) t)
  /\ ((List.length t mod 3 = 0)%nat ->
      TrytesHelper.toTrits (TrytesHelper.fromTrits t) = Some t).
Proof.
  intros Ht. unfold TrytesHelper.fromTrits.
  destruct (fromTrits_inv t Ht (List.length t)) as [Hlen Hback]; [lia|].
  split; [exact Hlen|]. split; [exact Hback|].
  intros Hmod. rewrite Hback. f_equal.
  apply firstn_all2.
  pose proof (Nat.div_mod_eq (List.length t) 3). lia.
Qed.

Lemma toTrits_fromTrits_witness :
  String.length (TrytesHelper.fromTrits [1; 0; -1; 0; 1; 1; -1])
  = (List.length [1; 0; -1; 0; 1; 1; -1]%Z / 3)%nat
  /\ TrytesHelper.toTrits (TrytesHelper.fromTrits [1; 0; -1; 0; 1; 1; -1])
     = Some (firstn (3 * (List.length [1; 0; -1; 0; 1; 1; -1]%Z / 3))
               [1; 0; -1; 0; 1; 1; -1])
  /\ ((List.length [1; 0; -1; 0; 1; 1; -1]%Z mod 3 = 0)%nat ->
      TrytesHelper.toTrits (TrytesHelper.fromTrits [1; 0; -1; 0; 1; 1; -1])
      = Some [1; 0; -1; 0; 1; 1; -1]).
Proof.
  apply (toTrits_fromTrits [1; 0; -1; 0; 1; 1; -1]).
  repeat (apply Forall_cons; [unfold is_trit; lia|]). apply Forall_nil.
Defined.

End Trytes.

Section AsciiTrytes.

Lemma all_tryte_chars_append (a b : string) :
  TrytesHelper.all_tryte_chars (String.append a b)
  = TrytesHelper.all_tryte_chars a && TrytesHelper.all_tryte_chars b.
Proof.
  induction a as [|c a IH]; [reflexivity|].
  cbn [String.append TrytesHelper.all_tryte_chars].
  now rewrite IH, andb_assoc.
Qed.

Lemma length_append (a b : string) :
  String.length (String.append a b) = (String.length a + String.length b)%nat.
Proof.
  induction a as [|c a IH]; [reflexivity|].
  cbn [String.append String.length]. now rewrite IH.
Qed.

(** A number from 0 to 26 reads one character of the alphabet, which
    [indexOf] finds at that number. *)
Lemma alphabet_at_tryte (k : Z) :
  0 <= k < 27 ->
  exists ch,
    TrytesHelper.alphabet_at k = String ch EmptyString
    /\ TrytesHelper.indexOfZ TrytesHelper.ALPHABET ch = k
    /\ TrytesHelper.is_tryte_char ch = true.
Proof.
  intros H. unfold TrytesHelper.alphabet_at.
  destruct (Z.ltb_spec k 0) as [|_]; [lia|].
  assert (Hk : k = Z.of_nat (Z.to_nat k)) by lia.
  assert (Hn : (Z.to_nat k < 27)%nat) by lia.
  revert Hk Hn. generalize (Z.to_nat k). intros n -> Hn.
  do 27 (destruct n as [|n]; [eexists; repeat split|]).
  lia.
Qed.

(** A number from 27 on reads past the alphabet. *)
Lemma alphabet_at_undefined (k : Z) :
  27 <= k -> TrytesHelper.alphabet_at k = "undefined"%string.
Proof.
  intros H. unfold TrytesHelper.alphabet_at.
  destruct (Z.ltb_spec k 0) as [|_]; [lia|].
  assert (Hn : (27 <= Z.to_nat k)%nat) by lia.
  revert Hn. generalize (Z.to_nat k). intros n Hn.
  do 27 (destruct n as [|n]; [lia|]). reflexivity.
Qed.

(** The two numbers [fromAscii] splits a character code into. *)
Lemma code_split (c : Z) :
  0 <= c ->
  0 <= Z.rem c 27 < 27
  /\ (c - Z.rem c 27) / 27 = c / 27
  /\ Z.rem c 27 + c / 27 * 27 = c.
Proof.
  intros H. rewrite Z.rem_mod_nonneg by lia.
  repeat split; Z.div_mod_to_equations; lia.
Qed.

(** [toAscii] after [fromAscii]: on character codes below 729 [fromAscii]
    writes two characters of the alphabet for every code, and [toAscii]
    reads the codes back. *)
Theorem toAscii_fromAscii (value : list Z) :
  Forall (fun c => 0 <= c < 729) value ->
  String.length (TrytesHelper.fromAscii value) = (2 * List.length value)%nat
  /\ TrytesHelper.all_tryte_chars (TrytesHelper.fromAscii value) = true
  /\ TrytesHelper.toAscii (TrytesHelper.fromAscii value) = Some value.
Proof.
  intros H.
  assert (Hloop :
    String.length (TrytesHelper.fromAscii value) = (2 * List.length value)%nat
    /\ TrytesHelper.all_tryte_chars (TrytesHelper.fromAscii value) = true
    /\ TrytesHelper.toAscii_loop (TrytesHelper.fromAscii value) = value).
  { induction H as [|c rest Hc Hrest (IH1 & IH2 & IH3)];
      [repeat split; reflexivity|].
    destruct (code_split c ltac:(lia)) as (Hfirst & Hsecond & Hsum).
    cbn [TrytesHelper.fromAscii]. cbv zeta. rewrite Hsecond.
    destruct (alphabet_at_tryte (Z.rem c 27) Hfirst) as (a & -> & Ha & Ta).
    destruct (alphabet_at_tryte (c / 27)) as (b & -> & Hb & Tb);
      [Z.div_mod_to_equations; lia|].
    cbn [String.append String.length TrytesHelper.all_tryte_chars
         TrytesHelper.toAscii_loop List.length].
    rewrite IH1, IH2, IH3, Ta, Tb, Ha, Hb, Hsum.
    unfold TrytesHelper.fromCharCode. rewrite Z.mod_small by lia.
    repeat split; lia. }
  destruct Hloop as (H1 & H2 & H3).
  split; [exact H1|]. split; [exact H2|].
  unfold TrytesHelper.toAscii. rewrite H1.
  replace (2 * List.length value)%nat with (List.length value * 2)%nat by lia.
  rewrite Nat.Div0.mod_mul. cbn [Nat.eqb]. now rewrite H3.
Qed.

Lemma toAscii_fromAscii_witness :
  String.length (TrytesHelper.fromAscii [77; 97; 109; 728])
  = (2 * List.length [77; 97; 109; 728]%Z)%nat
  /\ TrytesHelper.all_tryte_chars (TrytesHelper.fromAscii [77; 97; 109; 728])
     = true
  /\ TrytesHelper.toAscii (TrytesHelper.fromAscii [77; 97; 109; 728])
     = Some [77; 97; 109; 728].
Proof.
  apply (toAscii_fromAscii [77; 97; 109; 728]).
  repeat (apply Forall_cons; [lia|]). apply Forall_nil.
Defined.

(** [fromAscii] beyond its range: for a character code of 729 or more the
    second read of the alphabet is past its end, the word [undefined] gets
    into the result, and the result is no tryte string. *)
Theorem fromAscii_out_of_range (c : Z) (before after : list Z) :
  729 <= c ->
  TrytesHelper.all_tryte_chars
    (TrytesHelper.fromAscii (before ++ c :: after)) = false
  /\ TrytesHelper.isTrytes (TrytesHelper.fromAscii (before ++ c :: after))
     = false.
Proof.
  intros H.
  assert (Hall : TrytesHelper.all_tryte_chars
                   (TrytesHelper.fromAscii (before ++ c :: after)) = false).
  { induction before as [|x before IH].
    - cbn [app TrytesHelper.fromAscii]. cbv zeta.
      destruct (code_split c ltac:(lia)) as (_ & -> & _).
      rewrite (alphabet_at_undefined (c / 27))
        by (Z.div_mod_to_equations; lia).
      rewrite !all_tryte_chars_append.
      change (TrytesHelper.all_tryte_chars "undefined") with false.
      now rewrite andb_false_r.
    - cbn [app TrytesHelper.fromAscii]. cbv zeta.
      now rewrite all_tryte_chars_append, IH, andb_false_r. }
  split; [exact Hall|].
  unfold TrytesHelper.isTrytes. now rewrite Hall, andb_false_r.
Qed.

Lemma fromAscii_out_of_range_witness :
  TrytesHelper.all_tryte_chars
    (TrytesHelper.fromAscii ([77] ++ 8364 :: [109])) = false
  /\ TrytesHelper.isTrytes (TrytesHelper.fromAscii ([77] ++ 8364 :: [109]))
     = false.
Proof. apply (fromAscii_out_of_range 8364 [77] [109]). lia. Defined.

End AsciiTrytes.

Section TritValues.

Lemma max_bt_pow (k : nat) : 2 * max_bt k + 1 = 3 ^ Z.of_nat k.
Proof.
  induction k as [|k IH]; [reflexivity|].
  rewrite Nat2Z.inj_succ, Z.pow_succ_r by lia. cbn [max_bt]. lia.
Qed.

Lemma max_bt_nonneg (k : nat) : 0 <= max_bt k.
Proof. induction k; cbn [max_bt]; lia. Qed.

Lemma max_bt_le (j k : nat) : (j <= k)%nat -> max_bt j <= max_bt k.
Proof.
  induction 1 as [|k H IH]; [lia|].
  cbn [max_bt]. pose proof (max_bt_nonneg k). lia.
Qed.

Lemma pow2_le_max_bt (n : nat) : 2 ^ Z.of_nat n <= max_bt (S n).
Proof.
  induction n as [|n IH]; [cbn; lia|].
  rewrite Nat2Z.inj_succ, Z.pow_succ_r by lia.
  change (max_bt (S (S n))) with (1 + 3 * max_bt (S n)).
  pose proof (max_bt_nonneg (S n)). lia.
Qed.

Lemma tritsValue_cons (x : Z) (l : list Z) :
  TrytesHelper.tritsValue (x :: l) = TrytesHelper.tritsValue l * 3 + x.
Proof. reflexivity. Qed.

Lemma tritsValue_app (a b : list Z) :
  TrytesHelper.tritsValue (a ++ b)
  = TrytesHelper.tritsValue a
    + 3 ^ Z.of_nat (List.length a) * TrytesHelper.tritsValue b.
Proof.
  induction a as [|x a IH].
  { cbn [app List.length]. change (TrytesHelper.tritsValue []) with 0.
    change (3 ^ Z.of_nat 0) with 1. lia. }
  cbn [app List.length]. rewrite !tritsValue_cons, IH.
  rewrite Nat2Z.inj_succ, Z.pow_succ_r by lia. lia.
Qed.

Lemma tritsValue_zeros (n : nat) : TrytesHelper.tritsValue (repeat 0 n) = 0.
Proof.
  induction n as [|n IH]; [reflexivity|].
  cbn [repeat]. rewrite tritsValue_cons, IH. reflexivity.
Qed.

Lemma tritsValue_opp (l : list Z) :
  TrytesHelper.tritsValue (map Z.opp l) = - TrytesHelper.tritsValue l.
Proof.
  induction l as [|x l IH]; [reflexivity|].
  cbn [map]. rewrite !tritsValue_cons, IH. lia.
Qed.

(** Trits hold a number between [- max_bt] and [max_bt] of their count. *)
Lemma tritsValue_bound (l : list Z) :
  trits l ->
  - max_bt (List.length l) <= TrytesHelper.tritsValue l
  <= max_bt (List.length l).
Proof.
  induction 1 as [|x l Hx Hl IH]; [cbn; lia|].
  cbn [List.length max_bt]. rewrite tritsValue_cons.
  unfold is_trit in Hx. lia.
Qed.

Lemma trits_map_opp (l : list Z) : trits l -> trits (map Z.opp l).
Proof.
  induction 1 as [|x l Hx Hl IH]; [constructor|].
  cbn [map]. constructor; [unfold is_trit in *; lia|exact IH].
Qed.

End TritValues.

Section PascalSizes.

(** [minTrits] from the basis of [j + 1] trits on, for an input that [j]
    trits do not hold: the least number of trits that hold the input, less
    [j]. *)
Lemma minTrits_fuel_spec (fuel : nat) :
  forall (j : nat) (input : Z),
  max_bt j < input -> input <= max_bt (S j + fuel) ->
  exists k : nat,
    Pascal.minTrits_fuel fuel input (max_bt (S j)) = Z.of_nat k - Z.of_nat j
    /\ (S j <= k)%nat
    /\ max_bt (k - 1) < input <= max_bt k.
Proof.
  induction fuel as [|fuel IH]; intros j input Hlow Hhigh.
  - rewrite Nat.add_0_r in Hhigh. exists (S j). cbn [Pascal.minTrits_fuel].
    destruct (Z.leb_spec input (max_bt (S j))); [|lia].
    replace (S j - 1)%nat with j by lia. repeat split; lia.
  - cbn [Pascal.minTrits_fuel].
    destruct (Z.leb_spec input (max_bt (S j))) as [Hle|Hgt].
    + exists (S j). replace (S j - 1)%nat with j by lia. repeat split; lia.
    + change Pascal.RADIX with 3.
      replace (1 + max_bt (S j) * 3) with (max_bt (S (S j)))
        by (change (max_bt (S (S j))) with (1 + 3 * max_bt (S j)); lia).
      destruct (IH (S j) input Hgt) as (k & Hk & Hjk & Hbounds).
      { replace (S (S j) + fuel)%nat with (S j + S fuel)%nat by lia.
        exact Hhigh. }
      exists k. rewrite Hk. repeat split; lia.
Qed.

(** [minTrits] of a positive input, from the basis 1: the least number of
    trits that hold it. *)
Lemma minTrits_spec (input : Z) :
  0 < input ->
  exists k : nat,
    Pascal.minTrits input 1 = Z.of_nat k /\ (1 <= k)%nat
    /\ max_bt (k - 1) < input <= max_bt k.
Proof.
  intros Hpos. unfold Pascal.minTrits.
  destruct (minTrits_fuel_spec (Z.to_nat (Z.log2_up input)) 0 input)
    as (k & Hk & Hjk & Hbounds).
  - exact Hpos.
  - pose proof (Z.log2_up_spec input) as Hlog.
    pose proof (Z.log2_up_nonneg input) as Hnn.
    destruct (Z.eq_dec input 1) as [->|Hne].
    + cbn. lia.
    + pose proof (pow2_le_max_bt (Z.to_nat (Z.log2_up input))) as Hp.
      rewrite Z2Nat.id in Hp by lia.
      cbn [Nat.add]. lia.
  - exists k. change (max_bt 1) with 1 in Hk. rewrite Hk.
    repeat split; lia.
Qed.

(** [roundThird] of a number that is not negative: the next multiple of
    three. *)
Lemma roundThird_spec (value : Z) :
  0 <= value ->
  exists m : Z,
    Pascal.roundThird value = 3 * m
    /\ value <= 3 * m < value + 3.
Proof.
  intros H. unfold Pascal.roundThird. change Pascal.RADIX with 3.
  rewrite Z.rem_mod_nonneg by lia.
  destruct (Z.eqb_spec (value mod 3) 0) as [E|E].
  - exists (value / 3). Z.div_mod_to_equations. lia.
  - exists (value / 3 + 1). Z.div_mod_to_equations. lia.
Qed.

End PascalSizes.

Section WriteTrits.

Lemma store_app_here (pre rest : list Z) (x v : Z) :
  Int8Array.store (pre ++ x :: rest) (List.length pre) v = pre ++ v :: rest.
Proof.
  induction pre as [|p pre IH]; [reflexivity|].
  cbn [app List.length Int8Array.store]. now rewrite IH.
Qed.

(** [writeTrits] of a number that [k] trits hold, into [k] zeros of an
    array: it writes the trits of the number in their place. *)
Lemma writeTrits_spec (k : nat) :
  forall (fuel : nat) (input : Z) (pre post : list Z),
  0 <= input <= max_bt k -> (k <= fuel)%nat ->
  exists n ds,
    Pascal.writeTrits_fuel fuel input (pre ++ repeat 0 k ++ post)
      (Z.of_nat (List.length pre))
    = Some (n, pre ++ ds ++ post)
    /\ List.length ds = k /\ trits ds
    /\ TrytesHelper.tritsValue ds = input.
Proof.
  induction k as [|k IH]; intros fuel input pre post Hin Hfuel.
  - cbn [max_bt] in Hin. assert (input = 0) by lia. subst input.
    exists 0, []. destruct fuel; cbn [Pascal.writeTrits_fuel Z.eqb repeat app];
      repeat split; constructor.
  - destruct (Z.eq_dec input 0) as [->|Hne].
    + exists 0, (repeat 0 (S k)).
      destruct fuel; cbn [Pascal.writeTrits_fuel Z.eqb];
        (split; [reflexivity|]); (split; [apply repeat_length|]);
        (split; [apply trits_repeat_0|apply tritsValue_zeros]).
    + destruct fuel as [|fuel]; [lia|].
      cbn [Pascal.writeTrits_fuel].
      destruct (Z.eqb_spec input 0) as [|_]; [contradiction|].
      change Pascal.RADIX with 3. rewrite Z.rem_mod_nonneg by lia.
      cbn [max_bt] in Hin. rewrite Nat2Z.id. cbn [repeat app].
      destruct (Z.ltb_spec 1 (input mod 3)) as [Hr|Hr];
        rewrite store_app_here.
      * destruct (IH fuel (input / 3 + 1) (pre ++ [-1]) post)
          as (n & ds & Hw & Hlen & Ht & Hv);
          [Z.div_mod_to_equations; lia|lia|].
        rewrite length_app, Nat2Z.inj_add in Hw. cbn [List.length] in Hw.
        rewrite <- app_assoc in Hw. cbn [app] in Hw.
        change (Z.of_nat 1) with 1 in Hw. rewrite Hw.
        exists (1 + n), (-1 :: ds). rewrite <- app_assoc. cbn [app].
        split; [reflexivity|]. split; [cbn [List.length]; lia|].
        split; [constructor; [unfold is_trit; lia|exact Ht]|].
        rewrite tritsValue_cons, Hv. Z.div_mod_to_equations. lia.
      * destruct (IH fuel (input / 3) (pre ++ [input mod 3]) post)
          as (n & ds & Hw & Hlen & Ht & Hv);
          [Z.div_mod_to_equations; lia|lia|].
        rewrite length_app, Nat2Z.inj_add in Hw. cbn [List.length] in Hw.
        rewrite <- app_assoc in Hw. cbn [app] in Hw.
        change (Z.of_nat 1) with 1 in Hw. rewrite Hw.
        exists (1 + n), (input mod 3 :: ds). rewrite <- app_assoc. cbn [app].
        split; [reflexivity|]. split; [cbn [List.length]; lia|].
        split; [constructor;
                [unfold is_trit; Z.div_mod_to_equations; lia|exact Ht]|].
        rewrite tritsValue_cons, Hv. Z.div_mod_to_equations. lia.
Qed.

(** [valueToTrits] of a number that is not negative, into an array of [k]
    zeros. *)
Lemma valueToTrits_spec (k fuel : nat) (input : Z) (post : list Z) :
  0 <= input <= max_bt k -> (k <= fuel)%nat ->
  exists n ds,
    Pascal.valueToTrits_fuel fuel input (repeat 0 k ++ post)
    = Some (n, ds ++ post)
    /\ List.length ds = k /\ trits ds
    /\ TrytesHelper.tritsValue ds = input.
Proof.
  intros Hin Hfuel. unfold Pascal.valueToTrits_fuel.
  destruct (writeTrits_spec k fuel input [] post Hin Hfuel)
    as (n & ds & Hw & Hrest).
  cbn [app List.length] in Hw. change (Z.of_nat 0) with 0 in Hw. rewrite Hw.
  destruct (Z.leb_spec 0 input); [|lia].
  now exists n, ds.
Qed.

End WriteTrits.

Section Bits.

Lemma bits_value_bound (bs : list bool) :
  0 <= bits_value bs < 2 ^ Z.of_nat (List.length bs).
Proof.
  induction bs as [|b bs IH]; [cbn; lia|].
  cbn [bits_value List.length].
  rewrite Nat2Z.inj_succ, Z.pow_succ_r by lia.
  destruct b; cbn [Z.b2z]; lia.
Qed.

Lemma testbit_bits_value (bs : list bool) :
  forall i : nat,
  Z.testbit (bits_value bs) (Z.of_nat i) = nth i bs false.
Proof.
  induction bs as [|b bs IH]; intros i.
  - cbn [bits_value]. rewrite Z.testbit_0_l. now destruct i.
  - cbn [bits_value]. rewrite Z.add_comm. destruct i as [|i].
    + cbn [Z.of_nat nth]. apply Z.testbit_0_r.
    + rewrite Nat2Z.inj_succ, Z.testbit_succ_r by lia. cbn [nth]. apply IH.
Qed.

Lemma pascal_int32_small (x : Z) :
  - 2 ^ 31 <= x < 2 ^ 31 -> Pascal.int32 x = x.
Proof.
  intros H. unfold Pascal.int32.
  rewrite Z.mod_small by lia. lia.
Qed.

(** [(encoder >> i) & 1] on a number of at most 31 bits. *)
Lemma bit_bits_value (bs : list bool) (i : nat) :
  (List.length bs <= 31)%nat -> (i < 32)%nat ->
  Pascal.bit (bits_value bs) (Z.of_nat i) = Z.b2z (nth i bs false).
Proof.
  intros Hlen Hi. unfold Pascal.bit.
  pose proof (bits_value_bound bs) as Hb.
  assert (Hp : 2 ^ Z.of_nat (List.length bs) <= 2 ^ 31)
    by (apply Z.pow_le_mono_r; lia).
  rewrite pascal_int32_small by lia.
  rewrite Z.mod_small by lia.
  rewrite <- testbit_bits_value.
  change 1 with (Z.ones 1). rewrite Z.land_ones by lia.
  change (2 ^ 1) with 2. rewrite <- Z.bit0_mod, Z.shiftr_spec by lia.
  now rewrite Z.add_0_l.
Qed.

(** [encoding |= 1 << index] on a number below that bit. *)
Lemma set_bit_add (encoding index : Z) :
  0 <= index < 31 -> 0 <= encoding < 2 ^ index ->
  Pascal.set_bit encoding index = encoding + 2 ^ index.
Proof.
  intros Hi He. unfold Pascal.set_bit.
  assert (Hp : 2 ^ index <= 2 ^ 30) by (apply Z.pow_le_mono_r; lia).
  assert (Hq : 2 ^ (index + 1) <= 2 ^ 31) by (apply Z.pow_le_mono_r; lia).
  rewrite Z.pow_add_r in Hq by lia. change (2 ^ 1) with 2 in Hq.
  change (2 ^ 30) with 1073741824 in Hp.
  change (2 ^ 31) with 2147483648 in Hq.
  rewrite Z.mod_small by lia. rewrite Z.shiftl_1_l.
  rewrite (pascal_int32_small encoding) by (change (2 ^ 31) with 2147483648; lia).
  rewrite (pascal_int32_small (2 ^ index))
    by (change (2 ^ 31) with 2147483648; lia).
  assert (Hland : Z.land encoding (2 ^ index) = 0).
  { apply Z.bits_inj'. intros n Hn. rewrite Z.land_spec, Z.bits_0.
    rewrite Z.pow2_bits_eqb by lia.
    destruct (Z.eqb_spec index n) as [<-|_]; [|apply andb_false_r].
    rewrite andb_true_r.
    destruct (Z.eq_dec encoding 0) as [->|Hne]; [apply Z.bits_0|].
    apply Z.bits_above_log2; [lia|].
    apply Z.log2_lt_pow2; lia. }
  rewrite <- Z.lxor_lor by exact Hland.
  rewrite <- Z.add_nocarry_lxor by exact Hland.
  apply pascal_int32_small. change (2 ^ 31) with 2147483648. lia.
Qed.

End Bits.

Section EncodeChunks.

Lemma get_app_here (pre rest : list Z) (x : Z) :
  Int8Array.get (pre ++ x :: rest) (Z.of_nat (List.length pre)) = x.
Proof.
  unfold Int8Array.get.
  destruct (Z.ltb_spec (Z.of_nat (List.length pre)) 0); [lia|].
  rewrite Nat2Z.id. apply nth_middle.
Qed.

Lemma negate_at_app (c : list Z) :
  forall pre post,
  Pascal.negate_at (pre ++ c ++ post) (List.length pre) (List.length c)
  = pre ++ map Z.opp c ++ post.
Proof.
  induction c as [|x c IH]; intros pre post; [reflexivity|].
  cbn [List.length Pascal.negate_at app map].
  rewrite get_app_here, store_app_here.
  specialize (IH (pre ++ [- x]) post).
  rewrite length_app, <- !app_assoc in IH. cbn [List.length app] in IH.
  replace (List.length pre + 1)%nat with (S (List.length pre)) in IH by lia.
  exact IH.
Qed.

Lemma chunks3_concat_length (cs : list (list Z)) :
  chunks3 cs -> List.length (List.concat cs) = (3 * List.length cs)%nat.
Proof.
  induction 1 as [|c cs Hc Hcs IH]; [reflexivity|].
  cbn [List.concat List.length]. rewrite length_app, Hc, IH. lia.
Qed.

Lemma flip_chunk_length (c : list Z) :
  List.length (flip_chunk c) = List.length c.
Proof.
  unfold flip_chunk. destruct (0 <=? _); [apply length_map|reflexivity].
Qed.

Lemma chunks3_flip (cs : list (list Z)) :
  chunks3 cs -> chunks3 (map flip_chunk cs).
Proof.
  induction 1 as [|c cs Hc Hcs IH]; [constructor|].
  cbn [map]. constructor; [now rewrite flip_chunk_length|exact IH].
Qed.

(** A list of [3 * m] trits is [m] chunks of three. *)
Lemma chunks3_exist (m : nat) :
  forall l : list Z,
  List.length l = (3 * m)%nat ->
  exists cs, List.concat cs = l /\ List.length cs = m /\ chunks3 cs.
Proof.
  induction m as [|m IH]; intros l Hl.
  - destruct l; [|discriminate]. exists []. repeat split. constructor.
  - destruct l as [|a [|b [|d rest]]]; cbn [List.length] in Hl; try lia.
    destruct (IH rest ltac:(lia)) as (cs & Hcat & Hlen & Hcs).
    exists ([a; b; d] :: cs). cbn [List.concat app List.length].
    rewrite Hcat, Hlen. repeat split. constructor; [reflexivity|exact Hcs].
Qed.

(** The first loop of [pascalEncode] over chunks of three: each chunk of a
    value that is not negative is negated, and its bit is set. *)
Lemma encode_chunks_spec (cs : list (list Z)) :
  forall (pre post : list Z) (encoding index : Z),
  chunks3 cs -> 0 <= index -> index + Z.of_nat (List.length cs) <= 31 ->
  0 <= encoding < 2 ^ index ->
  Pascal.encode_chunks (List.length cs) (List.length pre)
    (pre ++ List.concat cs ++ post) encoding index
  = (pre ++ List.concat (map flip_chunk cs) ++ post,
     encoding + 2 ^ index * bits_value (map flipped cs),
     index + Z.of_nat (List.length cs)).
Proof.
  induction cs as [|c cs IH]; intros pre post encoding index Hcs Hi Hn He.
  - cbn [List.length Pascal.encode_chunks map List.concat bits_value].
    repeat f_equal; lia.
  - inversion Hcs as [|? ? Hc Hcs']; subst.
    cbn [List.length Pascal.encode_chunks map List.concat bits_value].
    change Pascal.TRITS_PER_TRYTE with 3%nat.
    rewrite <- !app_assoc.
    rewrite slice_app_exact, firstn_app_exact by exact Hc.
    cbn [List.length] in Hn.
    assert (Hp : 2 ^ (index + 1) = 2 * 2 ^ index)
      by (rewrite Z.pow_add_r by lia; change (2 ^ 1) with 2; lia).
    unfold flip_chunk at 1, flipped at 1.
    destruct (Z.leb_spec 0 (TrytesHelper.tritsValue c)) as [Hv|Hv].
    + rewrite negate_at_app, set_bit_add by lia.
      specialize (IH (pre ++ map Z.opp c) post (encoding + 2 ^ index)
                    (index + 1) Hcs' ltac:(lia) ltac:(lia) ltac:(lia)).
      rewrite length_app, length_map, Hc, <- !app_assoc in IH.
      rewrite IH, Hp. cbn [Z.b2z]. f_equal; [f_equal; ring|lia].
    + specialize (IH (pre ++ c) post encoding (index + 1) Hcs'
                    ltac:(lia) ltac:(lia) ltac:(lia)).
      rewrite length_app, Hc, <- !app_assoc in IH.
      rewrite IH, Hp. cbn [Z.b2z]. f_equal; [f_equal; ring|lia].
Qed.

End EncodeChunks.

Section DecodeChunks.

Lemma tritsValue_all_zero (l : list Z) :
  Forall (fun x => x = 0) l -> TrytesHelper.tritsValue l = 0.
Proof.
  induction 1 as [|x l Hx Hl IH]; [reflexivity|].
  rewrite tritsValue_cons, IH, Hx. reflexivity.
Qed.

Lemma tritsValue_zeros_firstn (n k : nat) :
  TrytesHelper.tritsValue (firstn n (repeat 0 k)) = 0.
Proof.
  revert k. induction n as [|n IH]; intros [|k]; cbn [firstn repeat];
    try reflexivity.
  rewrite tritsValue_cons, IH. reflexivity.
Qed.

Lemma tritsValue_chunk (c rest : list Z) :
  List.length c = 3%nat ->
  TrytesHelper.tritsValue (c ++ rest)
  = TrytesHelper.tritsValue c + 27 * TrytesHelper.tritsValue rest.
Proof. intros H. rewrite tritsValue_app, H. reflexivity. Qed.

Lemma flip_chunk_value (c : list Z) :
  TrytesHelper.tritsValue (flip_chunk c) <= 0
  /\ (if flipped c then - TrytesHelper.tritsValue (flip_chunk c)
      else TrytesHelper.tritsValue (flip_chunk c))
     = TrytesHelper.tritsValue c.
Proof.
  unfold flip_chunk, flipped.
  destruct (Z.leb_spec 0 (TrytesHelper.tritsValue c));
    rewrite ?tritsValue_opp; lia.
Qed.

Lemma trits_flip_chunk (c : list Z) : trits c -> trits (flip_chunk c).
Proof.
  intros H. unfold flip_chunk.
  destruct (0 <=? _); [now apply trits_map_opp|exact H].
Qed.

Lemma trits_concat_flip (cs : list (list Z)) :
  trits (List.concat cs) -> trits (List.concat (map flip_chunk cs)).
Proof.
  induction cs as [|c cs IH]; [easy|].
  cbn [List.concat map]. unfold trits. rewrite !Forall_app.
  intros [Hc Hcs]. split; [now apply trits_flip_chunk|now apply IH].
Qed.

(** [end] on chunks of three of which the last is the first with a positive
    value: the position after it. *)
Lemma end_fuel_spec (init : list (list Z)) :
  forall (last post : list Z) (fuel : nat),
  chunks3 init -> List.length last = 3%nat ->
  Forall (fun c => TrytesHelper.tritsValue c <= 0) init ->
  0 < TrytesHelper.tritsValue last ->
  (List.length init < fuel)%nat ->
  Pascal.end_fuel fuel (List.concat init ++ last ++ post)
  = Some (3 * S (List.length init))%nat.
Proof.
  induction init as [|c init IH]; intros last post fuel Hcs Hlast Hneg Hpos Hf;
    (destruct fuel as [|fuel]; [cbn [List.length] in Hf; lia|]);
    cbn [Pascal.end_fuel List.concat app List.length];
    change Pascal.TRITS_PER_TRYTE with 3%nat; unfold Int8Array.slice;
    rewrite skipn_O; cbn [Nat.sub].
  - rewrite firstn_app_exact by exact Hlast.
    destruct (Z.ltb_spec 0 (TrytesHelper.tritsValue last)); [reflexivity|lia].
  - inversion Hcs as [|? ? Hc Hcs']; subst.
    inversion Hneg as [|? ? Hn Hneg']; subst.
    rewrite <- app_assoc. rewrite firstn_app_exact by exact Hc.
    destruct (Z.ltb_spec 0 (TrytesHelper.tritsValue c)); [lia|].
    change (skipn 3 (c ++ List.concat init ++ last ++ post))
      with (skipn 3 (c ++ (List.concat init ++ last ++ post))).
    rewrite skipn_app_exact by exact Hc.
    rewrite (IH last post fuel Hcs' Hlast Hneg' Hpos) by (cbn in Hf; lia).
    f_equal. lia.
Qed.

(** The loop of [pascalDecode] over what [pascalEncode] made of chunks of
    three: with the bits of the encoder it adds up the value the chunks had
    before. *)
Lemma decode_chunks_S (n i : nat) (value : list Z) (encoder result : Z) :
  Pascal.decode_chunks (S n) i value encoder result
  = Pascal.decode_chunks n (S i) value encoder
      (result
       + 27 ^ Z.of_nat i
         * (if negb (Pascal.bit encoder (Z.of_nat i) =? 0)
            then - TrytesHelper.tritsValue
                     (Int8Array.slice value (i * 3) ((i + 1) * 3))
            else TrytesHelper.tritsValue
                   (Int8Array.slice value (i * 3) ((i + 1) * 3)))).
Proof. reflexivity. Qed.

Lemma decode_chunks_spec (init : list (list Z)) :
  forall (i : nat) (bits : list bool) (pre last post : list Z) (acc : Z),
  chunks3 init -> List.length last = 3%nat ->
  List.length bits = i -> List.length pre = (i * 3)%nat ->
  (i + List.length init < 31)%nat ->
  Pascal.decode_chunks (S (List.length init)) i
    (pre ++ List.concat (map flip_chunk init) ++ last ++ post)
    (bits_value (bits ++ map flipped init)) acc
  = acc + 27 ^ Z.of_nat i
          * TrytesHelper.tritsValue (List.concat init ++ last).
Proof.
  induction init as [|c init IH];
    intros i bits pre last post acc Hcs Hlast Hbits Hpre Hi;
    cbn [List.length map List.concat app];
    rewrite decode_chunks_S;
    replace ((i + 1) * 3)%nat with (List.length pre + 3)%nat by lia;
    rewrite <- Hpre, slice_app_exact.
  - rewrite firstn_app_exact by exact Hlast.
    rewrite bit_bits_value
      by (rewrite ?app_nil_r; cbn [List.length] in Hi; lia).
    rewrite app_nil_r, nth_overflow by lia.
    cbn [Z.b2z Z.eqb negb]. reflexivity.
  - inversion Hcs as [|? ? Hc Hcs']; subst.
    cbn [List.length] in Hi.
    rewrite <- app_assoc,
      firstn_app_exact by (now rewrite flip_chunk_length).
    rewrite bit_bits_value
      by (rewrite ?length_app; cbn [List.length]; rewrite ?length_map; lia).
    rewrite nth_middle.
    destruct (flip_chunk_value c) as [_ Hval].
    assert (Hsigned :
      (if negb (Z.b2z (flipped c) =? 0)
       then - TrytesHelper.tritsValue (flip_chunk c)
       else TrytesHelper.tritsValue (flip_chunk c))
      = TrytesHelper.tritsValue c)
      by (destruct (flipped c); exact Hval).
    rewrite Hsigned.
    specialize (IH (S (List.length bits)) (bits ++ [flipped c])
                  (pre ++ flip_chunk c) last post
                  (acc + 27 ^ Z.of_nat (List.length bits)
                         * TrytesHelper.tritsValue c)
                  Hcs' Hlast).
    rewrite !length_app, flip_chunk_length, Hc, <- !app_assoc in IH.
    cbn [List.length app] in IH.
    rewrite IH by lia.
    rewrite <- app_assoc, (tritsValue_chunk c) by exact Hc.
    rewrite Nat2Z.inj_succ, Z.pow_succ_r by lia. ring.
Qed.

End DecodeChunks.

Section PascalRoundTrip.

(** The depth [pascalEncode] allows [writeTrits] is enough for the trits of
    the value. *)
Lemma digits_le_depth (value : Z) (k : nat) :
  0 < value -> max_bt (k - 1) < value ->
  (k <= Z.to_nat (Z.log2_up (value + 1)) + 1)%nat.
Proof.
  intros Hv Hk.
  destruct (Nat.le_gt_cases k 1) as [|Hk2]; [lia|].
  pose proof (pow2_le_max_bt (k - 2)) as Hp.
  replace (S (k - 2)) with (k - 1)%nat in Hp by lia.
  pose proof (Z.log2_up_spec (value + 1) ltac:(lia)) as [_ Hlog].
  pose proof (Z.log2_up_nonneg (value + 1)) as Hnn.
  assert (Hlt : 2 ^ Z.of_nat (k - 2) < 2 ^ Z.log2_up (value + 1)) by lia.
  apply Z.pow_lt_mono_r_iff in Hlt; lia.
Qed.

(** A value below 2^53 has at most 35 trits. *)
Lemma digits_le_35 (value : Z) (k : nat) :
  value < 2 ^ 53 -> max_bt (k - 1) < value -> (k <= 35)%nat.
Proof.
  intros Hv Hk.
  destruct (Nat.le_gt_cases k 35) as [|Hgt]; [assumption|].
  pose proof (max_bt_le 35 (k - 1) ltac:(lia)) as Hle.
  assert (H53 : 2 ^ 53 <= max_bt 35) by (vm_compute; discriminate).
  lia.
Qed.

(** The test of [pascalDecode] for the encoding of zero fails on an array
    that begins with a chunk of a value that is not positive, or has 0 as its
    fourth trit. *)
Lemma not_zero_encoding (a b d e : Z) (rest : list Z) :
  TrytesHelper.tritsValue [a; b; d] <= 0 \/ e = 0 ->
  (4 <=? List.length (a :: b :: d :: e :: rest))%nat
  && (Int8Array.get (a :: b :: d :: e :: rest) 0 =? Int8Array.get Pascal.ZERO 0)
  && (Int8Array.get (a :: b :: d :: e :: rest) 1 =? Int8Array.get Pascal.ZERO 1)
  && (Int8Array.get (a :: b :: d :: e :: rest) 2 =? Int8Array.get Pascal.ZERO 2)
  && (Int8Array.get (a :: b :: d :: e :: rest) 3 =? Int8Array.get Pascal.ZERO 3)
  = false.
Proof.
  intros H.
  change (Int8Array.get (a :: b :: d :: e :: rest) 0) with a.
  change (Int8Array.get (a :: b :: d :: e :: rest) 1) with b.
  change (Int8Array.get (a :: b :: d :: e :: rest) 2) with d.
  change (Int8Array.get (a :: b :: d :: e :: rest) 3) with e.
  change (Int8Array.get Pascal.ZERO 0) with 1.
  change (Int8Array.get Pascal.ZERO 1) with 0.
  change (Int8Array.get Pascal.ZERO 2) with 0.
  change (Int8Array.get Pascal.ZERO 3) with (-1).
  cbn [TrytesHelper.tritsValue fold_right] in H.
  destruct (Z.eqb_spec a 1), (Z.eqb_spec b 0), (Z.eqb_spec d 0),
    (Z.eqb_spec e (-1)); rewrite ?andb_false_r; try reflexivity.
  lia.
Qed.

(** What [pascalEncode] returns for a positive value below 2^53: the chunks
    of three of the trits of the value, all but the last one with a value
    that is not positive, then as many trits as there are chunks, which hold
    the bits of the chunks that were negated. *)
Lemma pascalEncode_positive (value : Z) :
  0 < value < 2 ^ 53 ->
  exists (init : list (list Z)) (last es : list Z),
    Pascal.pascalEncode value
    = Some ((List.concat (map flip_chunk init) ++ last) ++ es)
    /\ Pascal.encodedLength value = Z.of_nat (4 * S (List.length init))
    /\ (List.length init < 12)%nat
    /\ chunks3 init /\ List.length last = 3%nat
    /\ List.length es = S (List.length init)
    /\ trits (List.concat init) /\ trits last /\ trits es
    /\ TrytesHelper.tritsValue es = bits_value (map flipped init)
    /\ TrytesHelper.tritsValue (List.concat init ++ last) = value
    /\ 0 < TrytesHelper.tritsValue last.
Proof.
  intros Hv.
  destruct (minTrits_spec value ltac:(lia)) as (k & Hk & Hk1 & Hlow & Hhigh).
  pose proof (digits_le_35 value k ltac:(lia) Hlow) as Hk35.
  pose proof (digits_le_depth value k ltac:(lia) Hlow) as Hkd.
  destruct (roundThird_spec (Z.of_nat k) ltac:(lia)) as (mz & HL & HLb).
  assert (Hm : exists m : nat, mz = Z.of_nat (S m))
    by (exists (Z.to_nat mz - 1)%nat; lia).
  destruct Hm as [m ->].
  assert (Hm12 : (m < 12)%nat) by lia.
  set (fuel := (Pascal.depth value + 32)%nat).
  assert (Hfuel : (3 * S m <= fuel)%nat).
  { unfold fuel, Pascal.depth. rewrite Z.abs_eq by lia. lia. }
  (* the trits of the value *)
  destruct (valueToTrits_spec (3 * S m) fuel value (repeat 0 (S m)))
    as (n & ds & Hwrite & Hds & Htds & Hvds); [|exact Hfuel|].
  { split; [lia|]. pose proof (max_bt_le k (3 * S m) ltac:(lia)). lia. }
  destruct (chunks3_exist (S m) ds Hds) as (cs & Hcat & Hlen & Hcs).
  destruct (exists_last (l := cs)) as (init & last & ->);
    [now destruct cs|].
  rewrite length_app in Hlen. cbn [List.length] in Hlen.
  assert (Hinit : List.length init = m) by lia.
  apply Forall_app in Hcs. destruct Hcs as [Hcs Hlast].
  inversion Hlast as [|? ? Hlast3 _]; subst ds.
  rewrite concat_app in *. cbn [List.concat] in *.
  rewrite app_nil_r in *.
  unfold trits in Htds. rewrite Forall_app in Htds.
  destruct Htds as [Htinit Htlast].
  pose proof (chunks3_concat_length init Hcs) as Hclen.
  (* the last chunk is positive *)
  assert (Hpos : 0 < TrytesHelper.tritsValue last).
  { rewrite tritsValue_app in Hvds.
    pose proof (tritsValue_bound _ Htinit) as Hb.
    pose proof (max_bt_le (List.length (List.concat init)) (k - 1)
                  ltac:(lia)) as Hle.
    assert (Hp : 0 < 3 ^ Z.of_nat (List.length (List.concat init)))
      by (apply Z.pow_pos_nonneg; lia).
    nia. }
  exists init, last.
  (* the encoder *)
  pose proof (bits_value_bound (map flipped init)) as Hbits.
  rewrite length_map, Hinit in Hbits.
  destruct (valueToTrits_spec (S m) fuel (bits_value (map flipped init)) [])
    as (n' & es & Hwrite' & Hes & Htes & Hves); [|lia|].
  { pose proof (pow2_le_max_bt m). lia. }
  exists es.
  split.
  - unfold Pascal.pascalEncode, Pascal.pascalEncode_fuel. fold fuel.
    destruct (Z.eqb_spec value 0) as [|_]; [lia|].
    unfold Pascal.encodedLength. rewrite (Z.abs_eq value) by lia.
    rewrite Hk, HL. change Pascal.RADIX with 3.
    change Pascal.TRITS_PER_TRYTE with 3%nat.
    replace (3 * Z.of_nat (S m) / 3) with (Z.of_nat (S m))
      by (Z.div_mod_to_equations; lia).
    replace (Z.to_nat (3 * Z.of_nat (S m) + Z.of_nat (S m)))
      with (3 * S m + S m)%nat by lia.
    replace (Z.to_nat (3 * Z.of_nat (S m))) with (3 * S m)%nat by lia.
    unfold Int8Array.new at 1. rewrite repeat_app, Hwrite.
    replace ((3 * S m - 3 + 2) / 3)%nat with (List.length init).
    2:{ rewrite Hinit.
        replace (3 * S m - 3 + 2)%nat with (2 + m * 3)%nat by lia.
        rewrite Nat.div_add by lia. reflexivity. }
    rewrite <- app_assoc.
    pose proof (encode_chunks_spec init [] (last ++ repeat 0 (S m)) 0 0 Hcs
                  ltac:(lia) ltac:(lia) ltac:(cbn; lia)) as Henc.
    cbn [app List.length] in Henc. rewrite Henc.
    replace (3 * S m - 3)%nat
      with (List.length (List.concat (map flip_chunk init)))
      by (rewrite (chunks3_concat_length _ (chunks3_flip _ Hcs)), length_map;
          lia).
    rewrite slice_app_exact.
    assert (Hslice :
      TrytesHelper.tritsValue (firstn (3 * S m) (last ++ repeat 0 (S m)))
      = TrytesHelper.tritsValue last).
    { rewrite firstn_app, firstn_all2 by lia.
      rewrite tritsValue_chunk by exact Hlast3.
      rewrite tritsValue_zeros_firstn. lia. }
    rewrite Hslice.
    destruct (Z.ltb_spec (TrytesHelper.tritsValue last) 0) as [|_]; [lia|].
    rewrite !length_app, repeat_length, Hlast3.
    rewrite (chunks3_concat_length _ (chunks3_flip _ Hcs)), length_map, Hinit.
    unfold Int8Array.new.
    replace (3 * m + (3 + S m) - 3 * S m)%nat with (S m) by lia.
    replace (0 + 2 ^ 0 * bits_value (map flipped init))
      with (bits_value (map flipped init)) by lia.
    rewrite app_nil_r in Hwrite'. rewrite Hwrite', app_nil_r.
    f_equal.
    rewrite app_assoc.
    replace (3 * S m)%nat
      with (List.length (List.concat (map flip_chunk init) ++ last))
      by (rewrite length_app,
            (chunks3_concat_length _ (chunks3_flip _ Hcs)),
            length_map, Hinit, Hlast3; lia).
    rewrite set_app_exact, Hes.
    rewrite skipn_all2 by (rewrite repeat_length; lia).
    now rewrite app_nil_r.
  - split.
    { unfold Pascal.encodedLength. rewrite (Z.abs_eq value) by lia.
      rewrite Hk, HL. change Pascal.RADIX with 3. rewrite Hinit.
      Z.div_mod_to_equations. lia. }
    rewrite Hinit. repeat split; try assumption; try lia.
Qed.

End PascalRoundTrip.

Section PascalDecode.

Lemma flip_chunks_nonpos (cs : list (list Z)) :
  Forall (fun c => TrytesHelper.tritsValue c <= 0) (map flip_chunk cs).
Proof.
  induction cs as [|c cs IH]; [constructor|].
  cbn [map]. constructor; [apply flip_chunk_value|exact IH].
Qed.

(** What [pascalEncode] returns for a positive value begins with four trits
    that are not the encoding of zero. *)
Lemma encoded_shape (init : list (list Z)) (last es rest : list Z) :
  chunks3 init -> List.length last = 3%nat ->
  List.length es = S (List.length init) ->
  TrytesHelper.tritsValue es = bits_value (map flipped init) ->
  exists a b d e tl,
    ((List.concat (map flip_chunk init) ++ last) ++ es) ++ rest
    = a :: b :: d :: e :: tl
    /\ (TrytesHelper.tritsValue [a; b; d] <= 0 \/ e = 0).
Proof.
  intros Hcs Hlast Hes Hves.
  destruct init as [|c init].
  - destruct last as [|a [|b [|d [|? ?]]]]; try discriminate.
    destruct es as [|e [|? ?]]; try discriminate.
    exists a, b, d, e, rest. split; [reflexivity|right].
    cbn in Hves. lia.
  - inversion Hcs as [|? ? Hc Hcs']; subst.
    pose proof (flip_chunk_length c) as Hfl. rewrite Hc in Hfl.
    destruct (flip_chunk_value c) as [Hneg _].
    cbn [map List.concat].
    destruct (flip_chunk c) as [|a [|b [|d [|? ?]]]]; try discriminate.
    destruct last as [|e0 last']; [discriminate|].
    destruct (List.concat (map flip_chunk init)) as [|e tl].
    + exists a, b, d, e0. eexists. split; [reflexivity|now left].
    + exists a, b, d, e. eexists. split; [reflexivity|now left].
Qed.

(** [pascalDecode] on what [pascalEncode] returns for a positive value,
    whatever follows it: the value, and the length of the encoding. *)
Lemma pascalDecode_encoded (init : list (list Z)) (last es rest : list Z) :
  chunks3 init -> List.length last = 3%nat ->
  List.length es = S (List.length init) ->
  (List.length init < 12)%nat ->
  TrytesHelper.tritsValue es = bits_value (map flipped init) ->
  0 < TrytesHelper.tritsValue last ->
  Pascal.pascalDecode
    (((List.concat (map flip_chunk init) ++ last) ++ es) ++ rest)
  = Some (Pascal.mkDecoded
            (TrytesHelper.tritsValue (List.concat init ++ last))
            (4 * S (List.length init))).
Proof.
  intros Hcs Hlast Hes Hm Hves Hpos.
  unfold Pascal.pascalDecode.
  destruct (encoded_shape init last es rest Hcs Hlast Hes Hves)
    as (a & b & d & e & tl & Hshape & Hnz).
  match goal with
  | |- (if ?c then _ else _) = _ =>
      assert (Htest : c = false)
        by (rewrite Hshape; now apply not_zero_encoding)
  end.
  rewrite Htest. clear Htest Hshape Hnz a b d e tl.
  pose proof (chunks3_flip init Hcs) as Hfcs.
  pose proof (chunks3_concat_length _ Hfcs) as Hflen.
  rewrite length_map in Hflen.
  unfold Pascal.end_.
  rewrite <- !app_assoc.
  rewrite (end_fuel_spec (map flip_chunk init) last (es ++ rest) _ Hfcs Hlast
             (flip_chunks_nonpos init) Hpos)
    by (rewrite length_map, !length_app; lia).
  rewrite length_map.
  change Pascal.TRITS_PER_TRYTE with 3%nat.
  replace (3 * S (List.length init) / 3)%nat with (S (List.length init))
    by (rewrite Nat.mul_comm, Nat.div_mul; lia).
  f_equal. f_equal.
  - pose proof (decode_chunks_spec init 0 [] [] last (es ++ rest) 0 Hcs Hlast
                  eq_refl eq_refl ltac:(lia)) as Hdec.
    cbn [app] in Hdec.
    replace (TrytesHelper.tritsValue
               (Int8Array.slice
                  (List.concat (map flip_chunk init) ++ last ++ es ++ rest)
                  (3 * S (List.length init))
                  (3 * S (List.length init) + S (List.length init))))
      with (bits_value (map flipped init)).
    + rewrite Hdec. change (27 ^ Z.of_nat 0) with 1. lia.
    + rewrite <- Hves.
      rewrite (app_assoc (List.concat (map flip_chunk init)) last).
      replace (3 * S (List.length init))%nat
        with (List.length (List.concat (map flip_chunk init) ++ last))
        by (rewrite length_app, Hflen, Hlast; lia).
      rewrite slice_app_exact, firstn_app_exact by exact Hes.
      reflexivity.
  - lia.
Qed.

(** The round trip of the pascal codec on a value from 0 to 2^53 - 1:
    [pascalEncode] returns trits, from which [pascalDecode] reads the value
    and the number of trits, whatever follows them. *)
Lemma pascal_round_trip (value : Z) :
  0 <= value < 2 ^ 53 ->
  exists encoded,
    Pascal.pascalEncode value = Some encoded
    /\ trits encoded
    /\ forall rest,
         Pascal.pascalDecode (encoded ++ rest)
         = Some (Pascal.mkDecoded value (List.length encoded)).
Proof.
  intros Hv. destruct (Z.eq_dec value 0) as [->|Hne].
  - exists Pascal.ZERO. split; [reflexivity|]. split.
    + repeat (apply Forall_cons; [unfold is_trit; lia|]). apply Forall_nil.
    + intros rest. reflexivity.
  - destruct (pascalEncode_positive value ltac:(lia))
      as (init & last & es & Henc & _ & Hm & Hcs & Hlast & Hes & Hti & Htl
          & Hte & Hves & Hval & Hpos).
    eexists. split; [exact Henc|]. split.
    + unfold trits. rewrite !Forall_app. repeat split; try assumption.
      now apply trits_concat_flip.
    + intros rest.
      rewrite (pascalDecode_encoded init last es rest Hcs Hlast Hes Hm Hves
                 Hpos), Hval.
      f_equal. f_equal. rewrite !length_app, Hlast, Hes.
      rewrite (chunks3_concat_length _ (chunks3_flip _ Hcs)), length_map.
      lia.
Qed.

(** [pascalDecode] after [pascalEncode].  For every value from 0 to
    2^53 - 1 [pascalEncode] returns trits: four for 0, and otherwise as many
    as [encodedLength] says, a multiple of four up to 48.  Whatever follows
    them in an array, [pascalDecode] reads the value back from it, and
    reports the number of trits of the encoding as the end. *)
Theorem pascalDecode_pascalEncode (value : Z) (rest : list Z) :
  0 <= value < 2 ^ 53 ->
  exists encoded,
    Pascal.pascalEncode value = Some encoded
    /\ trits encoded
    /\ Z.of_nat (List.length encoded)
       = (if value =? 0 then 4 else Pascal.encodedLength value)
    /\ (List.length encoded mod 4 = 0)%nat
    /\ (4 <= List.length encoded <= 48)%nat
    /\ Pascal.pascalDecode (encoded ++ rest)
       = Some (Pascal.mkDecoded value (List.length encoded)).
Proof.
  intros Hv.
  destruct (pascal_round_trip value Hv) as (encoded & Henc & Ht & Hdec).
  exists encoded. split; [exact Henc|]. split; [exact Ht|].
  assert (Hlen :
    Z.of_nat (List.length encoded)
    = (if value =? 0 then 4 else Pascal.encodedLength value)
    /\ exists m : nat,
         List.length encoded = (4 * S m)%nat /\ (m < 12)%nat).
  { destruct (Z.eqb_spec value 0) as [->|Hne].
    - change (Pascal.pascalEncode 0) with (Some Pascal.ZERO) in Henc.
      injection Henc as <-. split; [reflexivity|].
      exists 0%nat. split; [reflexivity|lia].
    - destruct (pascalEncode_positive value ltac:(lia))
        as (init & last & es & Henc' & Hel & Hm & Hcs & Hlast & Hes & _).
      rewrite Henc' in Henc. injection Henc as <-.
      assert (Hl : List.length
                     ((List.concat (map flip_chunk init) ++ last) ++ es)
                   = (4 * S (List.length init))%nat).
      { rewrite !length_app, Hlast, Hes.
        rewrite (chunks3_concat_length _ (chunks3_flip _ Hcs)), length_map.
        lia. }
      split; [now rewrite Hel, Hl|]. now exists (List.length init). }
  destruct Hlen as (Hlen & m & Hm & Hm12).
  split; [exact Hlen|]. split.
  - rewrite Hm, Nat.mul_comm. apply Nat.Div0.mod_mul.
  - split; [lia|apply Hdec].
Qed.

Lemma pascalDecode_pascalEncode_witness :
  exists encoded,
    Pascal.pascalEncode 2021 = Some encoded
    /\ trits encoded
    /\ Z.of_nat (List.length encoded)
       = (if 2021 =? 0 then 4 else Pascal.encodedLength 2021)
    /\ (List.length encoded mod 4 = 0)%nat
    /\ (4 <= List.length encoded <= 48)%nat
    /\ Pascal.pascalDecode (encoded ++ [1; -1; 0; 1])
       = Some (Pascal.mkDecoded 2021 (List.length encoded)).
Proof. apply (pascalDecode_pascalEncode 2021 [1; -1; 0; 1]). lia. Defined.

End PascalDecode.

Section MaskSizes.

Lemma mask_chunks_length (n : nat) :
  forall (p key : list Z) (S : Curl.t),
  List.length (fst (mask_chunks n p key S)) = List.length p.
Proof.
  induction n as [|n IH]; intros p key S; [reflexivity|].
  cbn [mask_chunks].
  match goal with
  | |- context [mask_chunks n ?r ?k ?s] =>
      pose proof (IH r k s) as H; destruct (mask_chunks n r k s) as [out last]
  end.
  cbn [fst] in *.
  rewrite length_app, mask_chunk_length, H, <- length_app.
  now rewrite firstn_skipn.
Qed.

Lemma unmask_chunks_length (n : nat) :
  forall (p : list Z) (S : Curl.t),
  List.length (fst (unmask_chunks n p S)) = List.length p.
Proof.
  induction n as [|n IH]; intros p S; [reflexivity|].
  cbn [unmask_chunks].
  match goal with
  | |- context [unmask_chunks n ?r ?s] =>
      pose proof (IH r s) as H; destruct (unmask_chunks n r s) as [out last]
  end.
  cbn [fst] in *.
  rewrite length_app, unmask_chunk_length, H, <- length_app.
  now rewrite firstn_skipn.
Qed.

Lemma mask_length (p : list Z) (S : Curl.t) :
  List.length (fst (Mask.mask p S)) = List.length p.
Proof. rewrite mask_as_chunks. apply mask_chunks_length. Qed.

Lemma unmask_length (p : list Z) (S : Curl.t) :
  List.length (fst (Mask.unmask p S)) = List.length p.
Proof. rewrite unmask_as_chunks. apply unmask_chunks_length. Qed.

Lemma unmask_chunk_trits (chunk state : list Z) (i : Z) :
  trits chunk -> trits state -> trits (Mask.unmask_chunk chunk state i).
Proof.
  intros Hc Hs. revert i.
  induction Hc as [|x chunk Hx Hc IH]; intros i; cbn; constructor.
  - apply tritSum_trit; [exact Hx|].
    pose proof (trits_get state i Hs) as Hg. unfold is_trit in *. lia.
  - apply IH.
Qed.

(** The key chunk after a whole chunk is the rate of the sponge. *)
Lemma key_after_chunk (key : list Z) (S : Curl.t) :
  sponge_len S -> List.length key = 243%nat ->
  Int8Array.set key (firstn 243 (Curl.rate S Curl.HASH_LENGTH)) 0
  = Curl.rate S Curl.HASH_LENGTH.
Proof.
  intros HS Hkey. pose proof (rate_len S HS) as Hr.
  rewrite <- Hr at 1. rewrite firstn_all.
  apply set_whole. now rewrite Hr.
Qed.

Lemma mask_chunks_ok (n : nat) :
  forall (p key : list Z) (S : Curl.t),
  sponge_ok S -> trits p -> trits key ->
  trits (fst (mask_chunks n p key S))
  /\ sponge_ok (snd (mask_chunks n p key S)).
Proof.
  induction n as [|n IH]; intros p key S HS Hp Hkey; [now split|].
  cbn [mask_chunks].
  assert (HS' : sponge_ok (absorb_chunk S (firstn 243 p)))
    by (apply absorb_chunk_ok;
        [exact HS|now apply trits_firstn|apply firstn_le_length]).
  match goal with
  | |- context [mask_chunks n ?r ?k ?s] =>
      destruct (IH r k s) as [H1 H2];
        [exact HS'|now apply trits_skipn| |
         destruct (mask_chunks n r k s) as [out last]]
  end.
  - apply trits_set; [exact Hkey|]. apply trits_firstn.
    now apply rate_trits.
  - cbn [fst snd] in *. split; [|exact H2].
    apply trits_app; [|exact H1].
    apply mask_chunk_trits; [now apply trits_firstn|exact Hkey].
Qed.

Lemma mask_ok (p : list Z) (S : Curl.t) :
  sponge_ok S -> trits p ->
  trits (fst (Mask.mask p S)) /\ sponge_ok (snd (Mask.mask p S)).
Proof.
  intros HS Hp. rewrite mask_as_chunks.
  apply mask_chunks_ok; [exact HS|exact Hp|now apply rate_trits].
Qed.

Lemma unmask_chunks_ok (n : nat) :
  forall (p : list Z) (S : Curl.t),
  sponge_ok S -> trits p ->
  trits (fst (unmask_chunks n p S))
  /\ sponge_ok (snd (unmask_chunks n p S)).
Proof.
  induction n as [|n IH]; intros p S HS Hp; [now split|].
  cbn [unmask_chunks].
  assert (Hplain :
    trits (Mask.unmask_chunk (firstn 243 p) (Curl.rate S Curl.HASH_LENGTH) 0))
    by (apply unmask_chunk_trits;
        [now apply trits_firstn|now apply rate_trits]).
  match goal with
  | |- context [unmask_chunks n ?r ?s] =>
      destruct (IH r s) as [H1 H2];
        [|now apply trits_skipn|destruct (unmask_chunks n r s) as [out last]]
  end.
  - apply absorb_chunk_ok; [exact HS|exact Hplain|].
    rewrite unmask_chunk_length. apply firstn_le_length.
  - cbn [fst snd] in *. split; [|exact H2]. now apply trits_app.
Qed.

Lemma unmask_ok (p : list Z) (S : Curl.t) :
  sponge_ok S -> trits p ->
  trits (fst (Mask.unmask p S)) /\ sponge_ok (snd (Mask.unmask p S)).
Proof.
  intros HS Hp. rewrite unmask_as_chunks. now apply unmask_chunks_ok.
Qed.

End MaskSizes.

Section MaskInverse.

(** [unmask] undoes [mask], with the sponge in the same state. *)
Lemma unmask_mask_id (p : list Z) (S : Curl.t) :
  sponge_ok S -> trits p ->
  Mask.unmask (fst (Mask.mask p S)) S = (p, snd (Mask.mask p S)).
Proof.
  intros HS Hp. rewrite unmask_as_chunks, mask_length, mask_as_chunks.
  now apply unmask_mask_chunks.
Qed.

Lemma tritSum_cancel_opp (a k : Z) :
  is_trit a -> is_trit k -> Mask.tritSum (Mask.tritSum a (- k)) k = a.
Proof.
  unfold is_trit. intros [-> | [-> | ->]] [-> | [-> | ->]]; reflexivity.
Qed.

Lemma mask_unmask_chunk (chunk key : list Z) (i : Z) :
  trits chunk -> trits key ->
  Mask.mask_chunk (Mask.unmask_chunk chunk key i) key i = chunk.
Proof.
  intros Hc Hk. revert i.
  induction Hc as [|x chunk Hx Hc IH]; intros i; cbn; [reflexivity|].
  rewrite IH. f_equal. apply tritSum_cancel_opp; [exact Hx|now apply trits_get].
Qed.

Lemma mask_unmask_chunks (n : nat) :
  forall (rest : list Z) (S : Curl.t),
  sponge_ok S -> trits rest ->
  n = IssP27.fragments (List.length rest) ->
  mask_chunks n (fst (unmask_chunks n rest S))
    (Curl.rate S Curl.HASH_LENGTH) S
  = (rest, snd (unmask_chunks n rest S)).
Proof.
  induction n as [|n IH]; intros rest S HS Hrest Hn; [reflexivity|].
  cbn [unmask_chunks].
  set (key := Curl.rate S Curl.HASH_LENGTH).
  set (chunk := firstn 243 rest).
  set (plain := Mask.unmask_chunk chunk key 0).
  set (S' := absorb_chunk S plain).
  assert (Hpos : (0 < List.length rest)%nat).
  { destruct rest; [discriminate Hn|cbn; lia]. }
  rewrite (fragments_step _ Hpos) in Hn. injection Hn as Hn.
  rewrite <- length_skipn in Hn.
  assert (Hchunk : trits chunk) by now apply trits_firstn.
  assert (Hkey : trits key) by now apply rate_trits.
  assert (Hlen : (List.length chunk <= 243)%nat) by apply firstn_le_length.
  assert (Hplain : trits plain) by now apply unmask_chunk_trits.
  assert (Hpl : List.length plain = List.length chunk)
    by apply unmask_chunk_length.
  assert (HS' : sponge_ok S')
    by (apply absorb_chunk_ok; [exact HS|exact Hplain|lia]).
  specialize (IH (skipn 243 rest) S' HS' (trits_skipn _ _ Hrest) Hn).
  pose proof (unmask_chunks_length n (skipn 243 rest) S') as Hout.
  destruct (unmask_chunks n (skipn 243 rest) S') as [out last].
  cbn [fst snd] in *. cbn [mask_chunks].
  destruct (Nat.le_gt_cases 243 (List.length rest)) as [Hfull|Hpart].
  - assert (Hc243 : List.length chunk = 243%nat).
    { unfold chunk. rewrite length_firstn. lia. }
    rewrite firstn_app_exact, skipn_app_exact by lia.
    fold S'. rewrite Hpl, Hc243.
    rewrite key_after_chunk;
      [|apply sponge_ok_len, HS'|apply rate_len, sponge_ok_len, HS].
    rewrite IH. unfold plain. rewrite mask_unmask_chunk by assumption.
    f_equal. apply firstn_skipn.
  - assert (Hskip : skipn 243 rest = []) by (apply skipn_all2; lia).
    rewrite Hskip in *.
    change (IssP27.fragments (List.length [])) with 0%nat in Hn. subst n.
    cbn [unmask_chunks] in IH. cbn [mask_chunks fst snd] in *.
    injection IH as -> <-.
    rewrite app_nil_r.
    assert (Hall : chunk = rest) by (apply firstn_all2; lia).
    rewrite firstn_all2 by lia.
    rewrite skipn_all2 by lia.
    fold S'. unfold plain. rewrite mask_unmask_chunk by assumption.
    rewrite app_nil_r. now rewrite Hall.
Qed.

(** [mask] after [unmask]: unmasking trits with a sponge and masking the
    result with a sponge in the same state gives the trits back, and the two
    sponges end in the same state.  With [unmask] after [mask] this makes the
    two inverse to each other. *)
Theorem mask_unmask (p : list Z) (S : Curl.t) :
  sponge_ok S -> trits p ->
  Mask.mask (fst (Mask.unmask p S)) S = (p, snd (Mask.unmask p S))
  /\ List.length (fst (Mask.unmask p S)) = List.length p
  /\ trits (fst (Mask.unmask p S))
  /\ sponge_ok (snd (Mask.unmask p S)).
Proof.
  intros HS Hp. split.
  - rewrite mask_as_chunks, unmask_length, unmask_as_chunks.
    now apply mask_unmask_chunks.
  - split; [apply unmask_length|now apply unmask_ok].
Qed.

Lemma mask_unmask_witness :
  Mask.mask (fst (Mask.unmask [1; 0; -1; 1] (Curl.new 27))) (Curl.new 27)
  = ([1; 0; -1; 1], snd (Mask.unmask [1; 0; -1; 1] (Curl.new 27)))
  /\ List.length (fst (Mask.unmask [1; 0; -1; 1] (Curl.new 27)))
     = List.length [1; 0; -1; 1]
  /\ trits (fst (Mask.unmask [1; 0; -1; 1] (Curl.new 27)))
  /\ sponge_ok (snd (Mask.unmask [1; 0; -1; 1] (Curl.new 27))).
Proof.
  apply (mask_unmask [1; 0; -1; 1] (Curl.new 27) (new_ok 27)).
  repeat (apply Forall_cons; [unfold is_trit; lia|]). apply Forall_nil.
Defined.

End MaskInverse.

Section MaskAppend.

Lemma fragments_add (k m : nat) :
  IssP27.fragments (k * 243 + m) = (k + IssP27.fragments m)%nat.
Proof.
  induction k as [|k IH]; [reflexivity|].
  rewrite fragments_step by lia.
  replace (S k * 243 + m - 243)%nat with (k * 243 + m)%nat by lia.
  now rewrite IH.
Qed.

Lemma firstn_skipn_app_block (a b : list Z) :
  (243 <= List.length a)%nat ->
  firstn 243 (a ++ b) = firstn 243 a
  /\ skipn 243 (a ++ b) = skipn 243 a ++ b.
Proof.
  intros H. rewrite firstn_app, skipn_app.
  replace (243 - List.length a)%nat with 0%nat by lia.
  cbn [firstn skipn]. now rewrite app_nil_r.
Qed.

(** [mask] chunk by chunk over a payload whose first part is whole
    chunks. *)
Lemma mask_chunks_app (k : nat) :
  forall (a b : list Z) (S : Curl.t) (n : nat),
  sponge_len S -> List.length a = (k * 243)%nat ->
  mask_chunks (k + n) (a ++ b) (Curl.rate S Curl.HASH_LENGTH) S
  = (fst (mask_chunks k a (Curl.rate S Curl.HASH_LENGTH) S)
     ++ fst (mask_chunks n b
               (Curl.rate
                  (snd (mask_chunks k a (Curl.rate S Curl.HASH_LENGTH) S))
                  Curl.HASH_LENGTH)
               (snd (mask_chunks k a (Curl.rate S Curl.HASH_LENGTH) S))),
     snd (mask_chunks n b
            (Curl.rate
               (snd (mask_chunks k a (Curl.rate S Curl.HASH_LENGTH) S))
               Curl.HASH_LENGTH)
            (snd (mask_chunks k a (Curl.rate S Curl.HASH_LENGTH) S)))).
Proof.
  induction k as [|k IH]; intros a b S n HS Ha.
  - destruct a; [|discriminate]. cbn [Nat.add app mask_chunks fst snd].
    now destruct (mask_chunks n b _ S).
  - cbn [Nat.add mask_chunks].
    destruct (firstn_skipn_app_block a b ltac:(lia)) as [-> ->].
    assert (Hc : List.length (firstn 243 a) = 243%nat)
      by (rewrite length_firstn; lia).
    set (S' := absorb_chunk S (firstn 243 a)).
    assert (HS' : sponge_len S')
      by (apply absorb_chunk_len; [exact HS|lia]).
    rewrite Hc, key_after_chunk by (try exact HS'; now apply rate_len).
    rewrite (IH (skipn 243 a) b S' n HS')
      by (rewrite length_skipn; lia).
    destruct (mask_chunks k (skipn 243 a) _ S') as [out last].
    cbn [fst snd].
    destruct (mask_chunks n b _ last) as [out' last'].
    cbn [fst snd]. now rewrite app_assoc.
Qed.

(** [unmask] chunk by chunk over a payload whose first part is whole
    chunks. *)
Lemma unmask_chunks_app (k : nat) :
  forall (a b : list Z) (S : Curl.t) (n : nat),
  List.length a = (k * 243)%nat ->
  unmask_chunks (k + n) (a ++ b) S
  = (fst (unmask_chunks k a S)
     ++ fst (unmask_chunks n b (snd (unmask_chunks k a S))),
     snd (unmask_chunks n b (snd (unmask_chunks k a S)))).
Proof.
  induction k as [|k IH]; intros a b S n Ha.
  - destruct a; [|discriminate]. cbn [Nat.add app unmask_chunks fst snd].
    now destruct (unmask_chunks n b S).
  - cbn [Nat.add unmask_chunks].
    destruct (firstn_skipn_app_block a b ltac:(lia)) as [-> ->].
    match goal with
    | |- context [absorb_chunk S ?p] => set (S' := absorb_chunk S p)
    end.
    rewrite (IH (skipn 243 a) b S' n) by (rewrite length_skipn; lia).
    destruct (unmask_chunks k (skipn 243 a) S') as [out last].
    cbn [fst snd].
    destruct (unmask_chunks n b last) as [out' last'].
    cbn [fst snd]. now rewrite app_assoc.
Qed.

Lemma mask_app (k : nat) (a b : list Z) (S : Curl.t) :
  sponge_len S -> List.length a = (k * 243)%nat ->
  Mask.mask (a ++ b) S
  = (fst (Mask.mask a S) ++ fst (Mask.mask b (snd (Mask.mask a S))),
     snd (Mask.mask b (snd (Mask.mask a S)))).
Proof.
  intros HS Ha. rewrite !mask_as_chunks.
  rewrite length_app, Ha, fragments_add, fragments_exact.
  now apply mask_chunks_app.
Qed.

Lemma unmask_app (k : nat) (a b : list Z) (S : Curl.t) :
  List.length a = (k * 243)%nat ->
  Mask.unmask (a ++ b) S
  = (fst (Mask.unmask a S) ++ fst (Mask.unmask b (snd (Mask.unmask a S))),
     snd (Mask.unmask b (snd (Mask.unmask a S)))).
Proof.
  intros Ha. rewrite !unmask_as_chunks.
  rewrite length_app, Ha, fragments_add, fragments_exact.
  now apply unmask_chunks_app.
Qed.

(** [mask] and [unmask] of a payload in two parts.  When the first part is
    whole chunks of 243 trits, masking the payload is masking the first part
    and then the second with the sponge the first left, and so is
    unmasking. *)
Theorem mask_append (k : nat) (a b : list Z) (S : Curl.t) :
  List.length (Curl._state S) = Curl.STATE_LENGTH ->
  List.length a = (k * 243)%nat ->
  Mask.mask (a ++ b) S
  = (fst (Mask.mask a S) ++ fst (Mask.mask b (snd (Mask.mask a S))),
     snd (Mask.mask b (snd (Mask.mask a S))))
  /\ Mask.unmask (a ++ b) S
     = (fst (Mask.unmask a S)
        ++ fst (Mask.unmask b (snd (Mask.unmask a S))),
        snd (Mask.unmask b (snd (Mask.unmask a S))))
  /\ List.length (fst (Mask.mask a S)) = List.length a
  /\ List.length (fst (Mask.unmask a S)) = List.length a.
Proof.
  intros HS Ha. split; [now apply (mask_app k)|].
  split; [now apply (unmask_app k)|].
  split; [apply mask_length|apply unmask_length].
Qed.

Lemma mask_append_witness :
  Mask.mask (repeat 1 243 ++ [1; 0; -1]) (Curl.new 27)
  = (fst (Mask.mask (repeat 1 243) (Curl.new 27))
     ++ fst (Mask.mask [1; 0; -1]
               (snd (Mask.mask (repeat 1 243) (Curl.new 27)))),
     snd (Mask.mask [1; 0; -1]
            (snd (Mask.mask (repeat 1 243) (Curl.new 27)))))
  /\ Mask.unmask (repeat 1 243 ++ [1; 0; -1]) (Curl.new 27)
     = (fst (Mask.unmask (repeat 1 243) (Curl.new 27))
        ++ fst (Mask.unmask [1; 0; -1]
                  (snd (Mask.unmask (repeat 1 243) (Curl.new 27)))),
        snd (Mask.unmask [1; 0; -1]
               (snd (Mask.unmask (repeat 1 243) (Curl.new 27)))))
  /\ List.length (fst (Mask.mask (repeat 1 243) (Curl.new 27)))
     = List.length (repeat 1 243)
  /\ List.length (fst (Mask.unmask (repeat 1 243) (Curl.new 27)))
     = List.length (repeat 1 243).
Proof.
  apply (mask_append 1 (repeat 1 243) [1; 0; -1] (Curl.new 27)).
  - apply repeat_length.
  - apply repeat_length.
Defined.

End MaskAppend.

Section MaskPadding.

Lemma unmask_chunks_nil (n : nat) :
  forall S : Curl.t, fst (unmask_chunks n [] S) = [].
Proof.
  induction n as [|n IH]; intros S; [reflexivity|].
  cbn [unmask_chunks firstn skipn Mask.unmask_chunk].
  specialize (IH (absorb_chunk S [])).
  destruct (unmask_chunks n [] (absorb_chunk S [])) as [out last].
  cbn [fst] in *. now rewrite IH.
Qed.

Lemma unmask_chunk_app (x y state : list Z) :
  forall i : Z,
  Mask.unmask_chunk (x ++ y) state i
  = Mask.unmask_chunk x state i
    ++ Mask.unmask_chunk y state (i + Z.of_nat (List.length x)).
Proof.
  induction x as [|a x IH]; intros i.
  - cbn [app List.length Mask.unmask_chunk]. now rewrite Z.add_0_r.
  - cbn [app List.length Mask.unmask_chunk]. rewrite IH.
    do 3 f_equal. lia.
Qed.

Lemma fragments_pos (m : nat) : (0 < m)%nat -> (0 < IssP27.fragments m)%nat.
Proof. intros H. rewrite fragments_step by exact H. lia. Qed.

(** What [unmask] returns for the trits of a payload does not depend on what
    follows them. *)
Lemma unmask_chunks_prefix (n : nat) :
  forall (m : nat) (x pad : list Z) (S : Curl.t),
  (IssP27.fragments (List.length x) <= n)%nat ->
  (IssP27.fragments (List.length (x ++ pad)) <= m)%nat ->
  firstn (List.length x) (fst (unmask_chunks m (x ++ pad) S))
  = fst (unmask_chunks n x S).
Proof.
  induction n as [|n IH]; intros m x pad S Hn Hm.
  - destruct x as [|a x]; [reflexivity|].
    pose proof (fragments_pos (List.length (a :: x)) ltac:(cbn; lia)). lia.
  - destruct x as [|a x].
    { now rewrite unmask_chunks_nil. }
    set (y := a :: x) in *.
    assert (Hy : (0 < List.length y)%nat) by (unfold y; cbn; lia).
    destruct m as [|m].
    { pose proof (fragments_pos (List.length (y ++ pad))
                    ltac:(rewrite length_app; lia)). lia. }
    rewrite fragments_step in Hn by exact Hy.
    rewrite fragments_step in Hm by (rewrite length_app; lia).
    cbn [unmask_chunks].
    destruct (Nat.le_gt_cases 243 (List.length y)) as [Hfull|Hpart].
    + destruct (firstn_skipn_app_block y pad Hfull) as [-> ->].
      match goal with
      | |- context [absorb_chunk S ?p] => set (plain := p)
      end.
      set (S' := absorb_chunk S plain).
      assert (Hpl : List.length plain = 243%nat)
        by (unfold plain; rewrite unmask_chunk_length, length_firstn; lia).
      specialize (IH m (skipn 243 y) pad S').
      rewrite length_skipn in IH.
      destruct (unmask_chunks m (skipn 243 y ++ pad) S') as [out last].
      destruct (unmask_chunks n (skipn 243 y) S') as [out' last'].
      cbn [fst] in *.
      rewrite firstn_app, Hpl, firstn_all2 by lia.
      f_equal. apply IH; [lia|].
      rewrite length_app, length_skipn in *.
      replace (List.length y - 243 + List.length pad)%nat
        with (List.length y + List.length pad - 243)%nat by lia.
      lia.
    + rewrite (firstn_all2 (n := 243) y) by lia.
      rewrite (skipn_all2 (n := 243) y) by lia.
      pose proof (unmask_chunks_nil n
                    (absorb_chunk S
                       (Mask.unmask_chunk y
                          (Curl.rate S Curl.HASH_LENGTH) 0))) as Hnil.
      destruct (unmask_chunks n [] _) as [out' last'].
      cbn [fst] in Hnil. subst out'.
      rewrite firstn_app.
      replace (243 - List.length y)%nat with (243 - List.length y)%nat
        by reflexivity.
      rewrite (firstn_all2 (n := 243) y) by lia.
      rewrite unmask_chunk_app.
      match goal with
      | |- context [unmask_chunks m ?r ?s] =>
          destruct (unmask_chunks m r s) as [out last]
      end.
      cbn [fst]. rewrite app_nil_r.
      rewrite <- app_assoc.
      rewrite firstn_app_exact by apply unmask_chunk_length.
      reflexivity.
Qed.

Lemma unmask_prefix (x pad : list Z) (S : Curl.t) :
  exists junk,
    fst (Mask.unmask (x ++ pad) S) = fst (Mask.unmask x S) ++ junk
    /\ List.length junk = List.length pad.
Proof.
  exists (skipn (List.length x) (fst (Mask.unmask (x ++ pad) S))).
  split.
  - rewrite <- (firstn_skipn (List.length x) (fst (Mask.unmask (x ++ pad) S)))
      at 1.
    f_equal. rewrite !unmask_as_chunks.
    now apply unmask_chunks_prefix.
  - rewrite length_skipn, unmask_length, length_app. lia.
Qed.

(** [unmask] and what follows a payload: the trits it returns for a payload
    are the same whatever trits are added after the payload; only the trits
    returned for the added ones, and the sponge, depend on them. *)
Theorem unmask_ignores_suffix (x pad : list Z) (S : Curl.t) :
  firstn (List.length x) (fst (Mask.unmask (x ++ pad) S))
  = fst (Mask.unmask x S)
  /\ List.length (fst (Mask.unmask (x ++ pad) S))
     = (List.length x + List.length pad)%nat.
Proof.
  split.
  - rewrite !unmask_as_chunks. now apply unmask_chunks_prefix.
  - now rewrite unmask_length, length_app.
Qed.

End MaskPadding.

Section KeyPadding.

Lemma toTrits_append (a b : string) :
  TrytesHelper.toTrits (String.append a b)
  = match TrytesHelper.toTrits a, TrytesHelper.toTrits b with
    | Some x, Some y => Some (x ++ y)
    | _, _ => None
    end.
Proof.
  induction a as [|c a IH].
  - cbn [String.append TrytesHelper.toTrits app].
    now destruct (TrytesHelper.toTrits b).
  - cbn [String.append TrytesHelper.toTrits]. rewrite IH.
    destruct (TrytesHelper.indexOf TrytesHelper.ALPHABET c) as [idx|];
      [|reflexivity].
    destruct (TrytesHelper.toTrits a) as [x|]; [|reflexivity].
    destruct (nth idx TrytesHelper.TRYTES_TRITS (0, 0, 0)) as [[p q] r].
    now destruct (TrytesHelper.toTrits b) as [y|].
Qed.

Lemma toTrits_nines (n : nat) :
  TrytesHelper.toTrits (Channel.nines n) = Some (repeat 0 (3 * n)).
Proof.
  induction n as [|n IH]; [reflexivity|].
  cbn [Channel.nines TrytesHelper.toTrits]. rewrite IH.
  replace (3 * S n)%nat with (S (S (S (3 * n)))) by lia. reflexivity.
Qed.

Lemma nines_length (n : nat) : String.length (Channel.nines n) = n.
Proof. induction n as [|n IH]; [reflexivity|]. cbn. now rewrite IH. Qed.

Lemma skipn_repeat (x : Z) (k m : nat) :
  skipn k (repeat x m) = repeat x (m - k).
Proof.
  revert m. induction k as [|k IH]; intros m.
  - now rewrite Nat.sub_0_r.
  - destruct m as [|m]; [reflexivity|]. cbn [repeat skipn Nat.sub]. apply IH.
Qed.

(** A fresh sponge absorbs a short chunk as it absorbs the chunk with zeros
    after it: the state it is written over holds zeros. *)
Lemma absorb_chunk_new_zeros (rounds : nat) (t : list Z) (n : nat) :
  (List.length t + n <= 729)%nat ->
  absorb_chunk (Curl.new rounds) (t ++ repeat 0 n)
  = absorb_chunk (Curl.new rounds) t.
Proof.
  intros H. unfold absorb_chunk, Curl.new, Int8Array.new, Int8Array.set.
  cbn [Curl._state Curl._rounds firstn app Nat.add].
  change Curl.STATE_LENGTH with 729%nat.
  rewrite !skipn_repeat, length_app, repeat_length, <- app_assoc.
  rewrite <- repeat_app. do 4 f_equal. lia.
Qed.

(** [absorb] of the first trits of an array reads nothing else of it. *)
Lemma absorb_prefix (c : Curl.t) (a b : list Z) :
  (List.length a <= 243)%nat ->
  Curl.absorb c (a ++ b) 0 (Z.of_nat (List.length a))
  = Curl.absorb c a 0 (Z.of_nat (List.length a)).
Proof.
  intros H. rewrite !absorb_short by lia.
  unfold Int8Array.subarray. cbn [Z.to_nat Z.add]. rewrite Nat2Z.id.
  replace (List.length a) with (0 + List.length a)%nat at 1 by reflexivity.
  change 0%nat with (@List.length Z []) at 1 2.
  rewrite (slice_app_exact [] (a ++ b)), firstn_app_exact by reflexivity.
  now rewrite slice_all.
Qed.

(** The side key and its padding.  [parseMessage] with a side key of at most
    81 characters returns what it returns with the key padded to 81
    characters with 9s, which is the key [createChannel] keeps: the trits of
    the padding are zeros, and the key is absorbed by a fresh sponge. *)
Theorem parseMessage_key_padding (payload root k : string) :
  (String.length k <= 81)%nat ->
  Parser.parseMessage payload root (Some k)
  = Parser.parseMessage payload root (Some (Channel.padEnd81 k)).
Proof.
  intros Hk. unfold Parser.parseMessage, Channel.padEnd81.
  rewrite toTrits_append, toTrits_nines.
  destruct (TrytesHelper.toTrits payload) as [payloadTrits|]; [|reflexivity].
  destruct (TrytesHelper.toTrits root) as [rootTrits|]; [|reflexivity].
  destruct (TrytesHelper.toTrits k) as [kt|] eqn:Hkt; [|reflexivity].
  destruct (toTrits_inv k kt Hkt) as (Hlen & _ & _).
  assert (Habs :
    Curl.absorb (Curl.new 27) (kt ++ repeat 0 (3 * (81 - String.length k))) 0
      (Z.of_nat (List.length (kt ++ repeat 0 (3 * (81 - String.length k)))))
    = Curl.absorb (Curl.new 27) kt 0 (Z.of_nat (List.length kt))).
  { rewrite !absorb_whole_short
      by (rewrite ?length_app, ?repeat_length; lia).
    apply absorb_chunk_new_zeros. lia. }
  now rewrite Habs.
Qed.

Lemma parseMessage_key_padding_witness :
  Parser.parseMessage "MAM" "ROOT" (Some "KEY"%string)
  = Parser.parseMessage "MAM" "ROOT" (Some (Channel.padEnd81 "KEY")).
Proof.
  apply (parseMessage_key_padding "MAM" "ROOT" "KEY"). cbn. lia.
Defined.

End KeyPadding.

Section SignatureBlocks.

(** The tryte values of a hash of trits lie between -13 and 13, also where
    the hash has ended. *)
Lemma tryte_at_range (h : list Z) (i : nat) :
  trits h -> -13 <= IssP27.tryte_at h i <= 13.
Proof.
  intros Hh. unfold IssP27.tryte_at.
  pose proof (trits_get h (Z.of_nat (i * 3)) Hh) as H0.
  pose proof (trits_get h (Z.of_nat (i * 3 + 1)) Hh) as H1.
  pose proof (trits_get h (Z.of_nat (i * 3 + 2)) Hh) as H2.
  unfold is_trit in *. lia.
Qed.

(** [signature] block by block. *)
Lemma signature_blocks (h : list Z) (kblocks : list (list Z)) :
  blocks_ok kblocks ->
  IssP27.signature h (List.concat kblocks)
  = List.concat
      (map (signed_block h kblocks) (seq 0 (List.length kblocks))).
Proof.
  intros Hk. unfold IssP27.signature.
  rewrite (blocks_length kblocks Hk), fragments_exact.
  pose proof (signature_loop_blocks (List.length kblocks) (Curl.new 27) h
                kblocks [] eq_refl Hk (Forall_nil _) eq_refl eq_refl) as Hsig.
  cbn [List.length List.concat app] in Hsig. exact Hsig.
Qed.

Lemma signed_blocks_ok (h : list Z) (kblocks : list (list Z)) :
  blocks_ok kblocks ->
  blocks_ok (map (signed_block h kblocks) (seq 0 (List.length kblocks))).
Proof.
  intros Hk. apply blocks_ok_map. intros j Hj. apply in_seq in Hj.
  apply iter_chain_hash_length, (blocks_ok_nth kblocks j Hk). lia.
Qed.

(** [digestFromSignature] block by block. *)
Lemma digestFromSignature_blocks (h : list Z) (sblocks : list (list Z)) :
  blocks_ok sblocks -> sblocks <> [] ->
  IssP27.digestFromSignature h (List.concat sblocks)
  = Curl.rate
      (fold_left absorb_chunk
         (map (verified_block h sblocks) (seq 0 (List.length sblocks)))
         (Curl.new 27))
      Curl.HASH_LENGTH.
Proof.
  intros Hs Hne. unfold IssP27.digestFromSignature.
  rewrite (blocks_length sblocks Hs), fragments_exact.
  destruct (digest_loop_blocks (List.length sblocks) (Curl.new 27) h sblocks
              [] eq_refl Hs (Forall_nil _) eq_refl eq_refl)
    as [Hbytes Hrounds].
  cbn [List.length List.concat app] in Hbytes, Hrounds.
  destruct (IssP27.digest_loop (List.length sblocks) 0 (Curl.new 27) h
              (List.concat sblocks)
              (Int8Array.new (List.length sblocks * 243)))
    as [sponge' bytes].
  cbn [fst snd] in Hbytes, Hrounds. subst bytes.
  rewrite (reset_27 sponge' Hrounds).
  set (vblocks := map (verified_block h sblocks)
                    (seq 0 (List.length sblocks))).
  assert (Hv : blocks_ok vblocks).
  { apply blocks_ok_map. intros j Hj. apply in_seq in Hj.
    apply iter_chain_hash_length, (blocks_ok_nth sblocks j Hs). lia. }
  pose proof (absorb_block_list (Curl.new 27) [] vblocks Hv) as Habs.
  change ([] ++ List.concat vblocks) with (List.concat vblocks) in Habs.
  change (Z.of_nat (@List.length Z [])) with 0 in Habs.
  rewrite Habs; [reflexivity|].
  unfold vblocks. destruct sblocks; [congruence|discriminate].
Qed.

(** The private key of a subseed, as blocks. *)
Lemma privateKey_as_blocks (ss : list Z) (L : Z) :
  1 <= L ->
  exists kblocks,
    IssP27.privateKeyFromSubseed ss L = List.concat kblocks
    /\ blocks_ok kblocks
    /\ List.length kblocks = (Z.to_nat L * 27)%nat
    /\ kblocks
       = map chain_hash
           (map (squeezed (subseed_sponge ss)) (seq 0 (Z.to_nat L * 27))).
Proof.
  intros HL. eexists. split; [now apply privateKey_blocks|].
  split; [|split; [now rewrite !length_map, length_seq|reflexivity]].
  apply blocks_ok_map. intros b Hin. apply chain_hash_length.
  apply in_map_iff in Hin. destruct Hin as (j & <- & _).
  rewrite squeezed_length by apply subseed_sponge_len. lia.
Qed.

(** The digest recovered from a signature over a hash of trits, made with
    the private key of a subseed, is the digest of the subseed. *)
Lemma signature_verifies (h ss : list Z) (L : Z) :
  trits h -> 1 <= L ->
  IssP27.digestFromSignature h
    (IssP27.signature h (IssP27.privateKeyFromSubseed ss L))
  = IssP27.digestFromSubseed ss L.
Proof.
  intros Hh HL.
  destruct (privateKey_as_blocks ss L HL) as (kblocks & -> & Hk & Hklen & Hkb).
  rewrite signature_blocks by exact Hk.
  rewrite digestFromSignature_blocks;
    [|now apply signed_blocks_ok
     |rewrite Hklen; destruct (Z.to_nat L * 27)%nat eqn:E; [lia|discriminate]].
  rewrite digestFromSubseed_blocks by exact HL.
  rewrite length_map, length_seq, Hklen.
  f_equal. f_equal. unfold committed_blocks.
  apply map_ext_in. intros j Hj. apply in_seq in Hj.
  unfold verified_block.
  rewrite nth_map_seq by lia. unfold signed_block. rewrite Hkb.
  rewrite map_map, nth_map_seq by lia.
  rewrite iter_add.
  pose proof (tryte_at_range h j Hh) as Hrange.
  unfold IssP27.MAX_TRYTE_VALUE, IssP27.MIN_TRYTE_VALUE.
  replace (Z.to_nat (13 - IssP27.tryte_at h j)
           + Z.to_nat (IssP27.tryte_at h j - -13))%nat with 26%nat by lia.
  symmetry. apply (iter_S 26 chain_hash).
Qed.

End SignatureBlocks.

Section SignatureTrits.

Lemma trits_concat (blocks : list (list Z)) :
  Forall trits blocks -> trits (List.concat blocks).
Proof.
  induction 1 as [|b blocks Hb _ IH]; [constructor|].
  cbn [List.concat]. now apply trits_app.
Qed.

Lemma chain_hash_trits (block : list Z) :
  trits block -> (List.length block <= 243)%nat -> trits (chain_hash block).
Proof.
  intros Ht Hl. apply rate_trits, absorb_chunk_ok; [apply new_ok|exact Ht|exact Hl].
Qed.

Lemma iter_chain_hash_trits (n : nat) :
  forall block : list Z,
  trits block -> List.length block = 243%nat ->
  trits (Curl.iter n chain_hash block).
Proof.
  induction n as [|n IH]; intros block Ht Hl; [exact Ht|].
  cbn [Curl.iter]. apply IH.
  - apply chain_hash_trits; [exact Ht|lia].
  - apply chain_hash_length. lia.
Qed.

Lemma iter_transform_ok (n : nat) :
  forall c : Curl.t, sponge_ok c -> sponge_ok (Curl.iter n Curl.transform c).
Proof.
  induction n as [|n IH]; intros c Hc; [exact Hc|].
  cbn [Curl.iter]. now apply IH, transform_ok.
Qed.

Lemma squeezed_trits (c : Curl.t) (j : nat) :
  sponge_ok c -> trits (squeezed c j).
Proof. intros Hc. now apply rate_trits, iter_transform_ok. Qed.

Lemma subseed_sponge_ok (ss : list Z) :
  trits ss -> sponge_ok (subseed_sponge ss).
Proof. intros H. apply absorb_ok; [apply new_ok|exact H]. Qed.

Lemma privateKey_trits (ss : list Z) (L : Z) :
  trits ss -> 1 <= L -> trits (IssP27.privateKeyFromSubseed ss L).
Proof.
  intros Hss HL. rewrite privateKey_blocks by exact HL.
  apply trits_concat, Forall_forall. intros b Hin.
  apply in_map_iff in Hin. destruct Hin as (x & <- & Hin).
  apply in_map_iff in Hin. destruct Hin as (j & <- & _).
  apply chain_hash_trits.
  - now apply squeezed_trits, subseed_sponge_ok.
  - rewrite squeezed_length by apply subseed_sponge_len. lia.
Qed.

Lemma privateKey_length (ss : list Z) (L : Z) :
  1 <= L ->
  List.length (IssP27.privateKeyFromSubseed ss L)
  = (Z.to_nat L * IssP27.PRIVATE_KEY_FRAGMENT_LENGTH)%nat.
Proof.
  intros HL.
  destruct (privateKey_as_blocks ss L HL) as (kblocks & -> & Hk & Hklen & _).
  rewrite (blocks_length _ Hk), Hklen.
  change IssP27.PRIVATE_KEY_FRAGMENT_LENGTH with (27 * 243)%nat. lia.
Qed.

Lemma chunks_exist (F : nat) :
  forall l : list Z,
  List.length l = (F * 243)%nat ->
  exists blocks,
    List.concat blocks = l /\ blocks_ok blocks /\ List.length blocks = F.
Proof.
  induction F as [|F IH]; intros l Hl.
  - destruct l; [|discriminate]. exists []. repeat split. constructor.
  - destruct (IH (skipn 243 l)) as (blocks & Hcat & Hok & Hlen);
      [rewrite length_skipn; lia|].
    exists (firstn 243 l :: blocks). cbn [List.concat List.length].
    rewrite Hcat, firstn_skipn, Hlen. repeat split.
    constructor; [rewrite length_firstn; lia|exact Hok].
Qed.

Lemma trits_block (blocks : list (list Z)) :
  forall j : nat, trits (List.concat blocks) -> trits (nth j blocks []).
Proof.
  induction blocks as [|b blocks IH]; intros j Ht.
  - destruct j; constructor.
  - cbn [List.concat] in Ht. unfold trits in Ht. rewrite Forall_app in Ht.
    destruct Ht as [Hb Hrest]. destruct j as [|j]; [exact Hb|].
    cbn [nth]. now apply IH.
Qed.

(** A signature has the length of a key of whole blocks, and is made of
    trits when the key is. *)
Lemma signature_length (h key : list Z) (F : nat) :
  List.length key = (F * 243)%nat ->
  List.length (IssP27.signature h key) = List.length key.
Proof.
  intros Hlen.
  destruct (chunks_exist F key Hlen) as (kblocks & <- & Hk & HF).
  rewrite signature_blocks by exact Hk.
  rewrite !blocks_length; [|exact Hk|now apply signed_blocks_ok].
  now rewrite length_map, length_seq.
Qed.

Lemma signature_trits (h key : list Z) (F : nat) :
  List.length key = (F * 243)%nat -> trits key ->
  trits (IssP27.signature h key).
Proof.
  intros Hlen Ht.
  destruct (chunks_exist F key Hlen) as (kblocks & <- & Hk & HF).
  rewrite signature_blocks by exact Hk.
  apply trits_concat, Forall_forall. intros b Hin.
  apply in_map_iff in Hin. destruct Hin as (j & <- & Hj).
  apply in_seq in Hj. unfold signed_block.
  apply iter_chain_hash_trits.
  - apply (trits_block kblocks j Ht).
  - apply (blocks_ok_nth kblocks j Hk). lia.
Qed.

End SignatureTrits.

Section Subseed.

Lemma increment_preimage_ok (t : list Z) :
  trits t ->
  trits (IssP27.increment_preimage t)
  /\ List.length (IssP27.increment_preimage t) = List.length t
  /\ exists c : Z,
       TrytesHelper.tritsValue (IssP27.increment_preimage t)
       = TrytesHelper.tritsValue t + 1 - c * 3 ^ Z.of_nat (List.length t).
Proof.
  induction 1 as [|x t Hx Ht (IH1 & IH2 & c & IH3)].
  - split; [constructor|]. split; [reflexivity|]. now exists 1.
  - cbn [IssP27.increment_preimage List.length].
    change IssP27.MAX_TRIT_VALUE with 1. change IssP27.MIN_TRIT_VALUE with (-1).
    rewrite Nat2Z.inj_succ, Z.pow_succ_r by lia.
    unfold is_trit in Hx.
    destruct (Z.leb_spec 1 x) as [H1|H1].
    + split; [constructor; [unfold is_trit; lia|exact IH1]|].
      split; [cbn [List.length]; now rewrite IH2|].
      exists c. rewrite !tritsValue_cons, IH3. lia.
    + split; [constructor; [unfold is_trit; lia|exact Ht]|].
      split; [reflexivity|].
      exists 0. rewrite !tritsValue_cons. lia.
Qed.

Lemma iter_increment_ok (n : nat) :
  forall t : list Z,
  trits t ->
  trits (Curl.iter n IssP27.increment_preimage t)
  /\ List.length (Curl.iter n IssP27.increment_preimage t) = List.length t
  /\ exists c : Z,
       TrytesHelper.tritsValue (Curl.iter n IssP27.increment_preimage t)
       = TrytesHelper.tritsValue t + Z.of_nat n
         - c * 3 ^ Z.of_nat (List.length t).
Proof.
  induction n as [|n IH]; intros t Ht.
  - split; [exact Ht|]. split; [reflexivity|]. exists 0.
    cbn [Curl.iter]. change (Z.of_nat 0) with 0. lia.
  - cbn [Curl.iter].
    destruct (increment_preimage_ok t Ht) as (H1 & H2 & c1 & H3).
    destruct (IH _ H1) as (I1 & I2 & c2 & I3).
    split; [exact I1|]. split; [congruence|].
    exists (c1 + c2). rewrite I3, H3, H2. lia.
Qed.

(** Trits of the same number are the same, when two lists of as many trits
    hold numbers that differ by a multiple of the power of three of their
    count. *)
Lemma tritsValue_inj (a : list Z) :
  forall b : list Z,
  trits a -> trits b -> List.length a = List.length b ->
  (3 ^ Z.of_nat (List.length a)
   | TrytesHelper.tritsValue a - TrytesHelper.tritsValue b) ->
  a = b.
Proof.
  induction a as [|x a IH]; intros b Ha Hb Hlen Hdiv.
  - now destruct b.
  - destruct b as [|y b]; [discriminate|].
    inversion Ha as [|? ? Hx Ha']; inversion Hb as [|? ? Hy Hb']; subst.
    cbn [List.length] in Hlen, Hdiv.
    rewrite Nat2Z.inj_succ, Z.pow_succ_r in Hdiv by lia.
    rewrite !tritsValue_cons in Hdiv. destruct Hdiv as [q Hq].
    unfold is_trit in Hx, Hy.
    assert (Hxy : x = y) by lia. subst y.
    f_equal. apply IH; [exact Ha'|exact Hb'|lia|].
    exists q. lia.
Qed.

Lemma subseed_length (seed : list Z) (index : Z) :
  List.length (IssP27.subseed seed index) = 243%nat.
Proof.
  unfold IssP27.subseed.
  rewrite squeeze_block_len;
    [|apply absorb_len, new_len|apply repeat_length].
  apply rate_len, absorb_len, new_len.
Qed.

Lemma subseed_trits (seed : list Z) (index : Z) :
  trits seed -> trits (IssP27.subseed seed index).
Proof.
  intros Hs. unfold IssP27.subseed.
  rewrite squeeze_block_len;
    [|apply absorb_len, new_len|apply repeat_length].
  apply rate_trits, absorb_ok; [apply new_ok|].
  now apply iter_increment_ok.
Qed.

(** The subseed counts from the seed.  When the trits of one seed hold the
    number of another seed plus [d], its subseed of index [i] is the subseed
    of index [i + d] of the other: the leaves of two channels whose seeds are
    that close are the same leaves, [d] places apart. *)
Theorem subseed_shift (seed seed' : list Z) (i d : Z) :
  trits seed -> trits seed' -> List.length seed' = List.length seed ->
  0 <= i -> 0 <= d ->
  TrytesHelper.tritsValue seed' = TrytesHelper.tritsValue seed + d ->
  IssP27.subseed seed' i = IssP27.subseed seed (i + d).
Proof.
  intros Hs Hs' Hlen Hi Hd Hval.
  destruct (iter_increment_ok (Z.to_nat i) seed' Hs') as (A1 & A2 & c1 & A3).
  destruct (iter_increment_ok (Z.to_nat (i + d)) seed Hs)
    as (B1 & B2 & c2 & B3).
  assert (Heq : Curl.iter (Z.to_nat i) IssP27.increment_preimage seed'
                = Curl.iter (Z.to_nat (i + d)) IssP27.increment_preimage seed).
  { apply tritsValue_inj; [exact A1|exact B1|congruence|].
    rewrite A2, A3, B3, Hval, Hlen. exists (c2 - c1). lia. }
  unfold IssP27.subseed. now rewrite Heq.
Qed.

Lemma subseed_shift_witness :
  IssP27.subseed [1; 1; 0] 2 = IssP27.subseed [-1; 0; 0] (2 + 5).
Proof.
  apply (subseed_shift [-1; 0; 0] [1; 1; 0] 2 5); try reflexivity; try lia.
  - repeat (apply Forall_cons; [unfold is_trit; lia|]). apply Forall_nil.
  - repeat (apply Forall_cons; [unfold is_trit; lia|]). apply Forall_nil.
Defined.

End Subseed.

Section Addresses.

Lemma fold_absorb_chunk_ok (blocks : list (list Z)) :
  forall c : Curl.t,
  blocks_ok blocks -> Forall trits blocks -> sponge_ok c ->
  sponge_ok (fold_left absorb_chunk blocks c).
Proof.
  induction blocks as [|b blocks IH]; intros c Hb Ht Hc; [exact Hc|].
  inversion Hb as [|? ? Hl Hb']; inversion Ht as [|? ? Htb Ht']; subst.
  cbn [fold_left]. apply IH; [exact Hb'|exact Ht'|].
  apply absorb_chunk_ok; [exact Hc|exact Htb|lia].
Qed.

Lemma digestFromSubseed_ok (ss : list Z) (L : Z) :
  1 <= L ->
  List.length (IssP27.digestFromSubseed ss L) = 243%nat
  /\ (trits ss -> trits (IssP27.digestFromSubseed ss L)).
Proof.
  intros HL. rewrite digestFromSubseed_blocks by exact HL.
  pose proof (committed_blocks_ok (subseed_sponge ss) (Z.to_nat L * 27)
                (subseed_sponge_len ss)) as Hb.
  split.
  - apply rate_len, fold_absorb_chunk_len; [exact Hb|apply new_len].
  - intros Hss. apply rate_trits, fold_absorb_chunk_ok;
      [exact Hb| |apply new_ok].
    unfold committed_blocks. apply Forall_forall. intros b Hin.
    apply in_map_iff in Hin. destruct Hin as (j & <- & _).
    apply iter_chain_hash_trits.
    + now apply squeezed_trits, subseed_sponge_ok.
    + apply squeezed_length, subseed_sponge_len.
Qed.

(** The address of a digest is the hash of the digest. *)
Lemma address_hash (digest : list Z) :
  List.length digest = 243%nat -> IssP27.address digest = chain_hash digest.
Proof.
  intros Hl. unfold IssP27.address.
  rewrite squeeze_block_len;
    [|apply absorb_len, new_len|apply repeat_length].
  rewrite absorb_whole_short by lia. reflexivity.
Qed.

Lemma generateAddress_ok (seedTrits : list Z) (index L : Z) :
  1 <= L ->
  List.length
    (MerkleHashGenerator.address
       (MerkleHashGenerator.generateAddress seedTrits index L)) = 243%nat
  /\ List.length
       (MerkleHashGenerator.privateKey
          (MerkleHashGenerator.generateAddress seedTrits index L))
     = (Z.to_nat L * IssP27.PRIVATE_KEY_FRAGMENT_LENGTH)%nat
  /\ (trits seedTrits ->
      trits (MerkleHashGenerator.address
               (MerkleHashGenerator.generateAddress seedTrits index L))
      /\ trits (MerkleHashGenerator.privateKey
                  (MerkleHashGenerator.generateAddress seedTrits index L))).
Proof.
  intros HL. unfold MerkleHashGenerator.generateAddress.
  cbn [MerkleHashGenerator.address MerkleHashGenerator.privateKey].
  destruct (digestFromSubseed_ok (IssP27.subseed seedTrits index) L HL)
    as [Hdl Hdt].
  rewrite address_hash by exact Hdl.
  split; [apply chain_hash_length; lia|].
  split; [now apply privateKey_length|].
  intros Hs. pose proof (subseed_trits seedTrits index Hs) as Hss.
  split.
  - apply chain_hash_trits; [now apply Hdt|lia].
  - now apply privateKey_trits.
Qed.



End Addresses.

Section AnyTree.

Lemma pairs_ind (P : list MerkleNode -> Prop) :
  P [] -> (forall a, P [a]) ->
  (forall a b rest, P rest -> P (a :: b :: rest)) ->
  forall l, P l.
Proof.
  intros H0 H1 H2.
  assert (H : forall n l, (List.length l <= n)%nat -> P l).
  { induction n as [|n IH]; intros l Hl.
    - destruct l; [exact H0|cbn in Hl; lia].
    - destruct l as [|a [|b rest]]; auto.
      apply H2, IH. cbn in Hl. lia. }
  intros l. now apply (H (List.length l)).
Qed.

Lemma parent_address_squeeze (l r : list Z) :
  snd (Curl.squeeze
         (Curl.absorb
            (Curl.absorb (Curl.new 27) l 0 (Z.of_nat (List.length l)))
            r 0 (Z.of_nat (List.length r)))
         (Int8Array.new Curl.HASH_LENGTH) 0
         (Z.of_nat (List.length (Int8Array.new Curl.HASH_LENGTH))))
  = parent_address l r.
Proof.
  rewrite squeeze_block_len
    by (try apply repeat_length; do 2 apply absorb_len; apply new_len).
  reflexivity.
Qed.

Lemma parent_address_trits (l r : list Z) :
  trits l -> trits r -> trits (parent_address l r).
Proof.
  intros Hl Hr. unfold parent_address.
  apply rate_trits. do 2 (apply absorb_ok; [|assumption]). apply new_ok.
Qed.

(** One level of [buildTree]: half as many nodes, rounded up, of the same
    sizes in all, and with addresses as good as before. *)
Lemma pair_up_inv (T : Prop) (ns : list MerkleNode) :
  Forall (address_ok T) ns ->
  Forall (address_ok T) (MerkleTree.pair_up ns)
  /\ total_size (MerkleTree.pair_up ns) = total_size ns
  /\ List.length (MerkleTree.pair_up ns) = ((List.length ns + 1) / 2)%nat.
Proof.
  induction ns as [|a|a b rest IH] using pairs_ind; intros Hok.
  - repeat split. constructor.
  - inversion Hok as [|? ? Ha _]; subst.
    cbn [MerkleTree.pair_up]. unfold total_size, MerkleNode.new.
    cbn [map fold_right MerkleNode.size List.length].
    repeat split; [|lia].
    constructor; [exact Ha|constructor].
  - inversion Hok as [|? ? Ha Hok1]; subst.
    inversion Hok1 as [|? ? Hb Hok2]; subst.
    destruct (IH Hok2) as (I1 & I2 & I3).
    cbn [MerkleTree.pair_up]. rewrite parent_address_squeeze.
    unfold total_size in *. unfold MerkleNode.new at 2.
    cbn [map fold_right MerkleNode.size List.length].
    repeat split.
    + constructor; [|exact I1]. unfold MerkleNode.new, address_ok.
      cbn [MerkleNode.addressTrits].
      split; [apply parent_address_length|].
      intros HT. apply parent_address_trits; [now apply Ha|now apply Hb].
    + rewrite I2. lia.
    + rewrite I3.
      replace (S (S (List.length rest)) + 1)%nat
        with (List.length rest + 1 + 1 * 2)%nat by lia.
      rewrite Nat.div_add by lia. lia.
Qed.

(** [buildTree] returns, with as much fuel as there are nodes: a tree of the
    size of all the nodes. *)
Lemma buildTree_inv (T : Prop) (fuel : nat) :
  forall ns : list MerkleNode,
  (1 <= List.length ns <= fuel)%nat -> Forall (address_ok T) ns ->
  exists root,
    MerkleTree.buildTree_fuel fuel ns = Some root
    /\ MerkleNode.size root = total_size ns
    /\ address_ok T root.
Proof.
  induction fuel as [|fuel IH]; intros ns Hlen Hok; [lia|].
  cbn [MerkleTree.buildTree_fuel].
  destruct (pair_up_inv T ns Hok) as (P1 & P2 & P3).
  assert (Hhalf : (1 <= (List.length ns + 1) / 2)%nat
                  /\ (List.length ns <= 2 \/
                      (List.length ns + 1) / 2 <= fuel)%nat).
  { pose proof (Nat.div_mod_eq (List.length ns + 1) 2) as Hd.
    pose proof (Nat.mod_upper_bound (List.length ns + 1) 2 ltac:(lia)).
    lia. }
  destruct (MerkleTree.pair_up ns) as [|root [|n2 rest]] eqn:E.
  - cbn [List.length] in P3. lia.
  - exists root. split; [reflexivity|]. split.
    + rewrite <- P2. unfold total_size. cbn [map fold_right]. lia.
    + now inversion P1.
  - destruct (IH (root :: n2 :: rest)) as (r & Hr & Hsize & Haddr).
    + cbn [List.length] in *.
      pose proof (Nat.div_mod_eq (List.length ns + 1) 2) as Hd.
      pose proof (Nat.mod_upper_bound (List.length ns + 1) 2 ltac:(lia)).
      lia.
    + exact P1.
    + exists r. split; [exact Hr|]. split; [congruence|exact Haddr].
Qed.

Lemma make_leaves_inv (n : nat) (seedTrits : list Z) (index security : Z) :
  forall i : Z,
  Forall (address_ok (trits seedTrits /\ 1 <= security))
    (MerkleTree.make_leaves n seedTrits index i security)
  /\ total_size (MerkleTree.make_leaves n seedTrits index i security)
     = Z.of_nat n
  /\ List.length (MerkleTree.make_leaves n seedTrits index i security) = n.
Proof.
  induction n as [|n IH]; intros i.
  - repeat split. constructor.
  - destruct (IH (i + 1)) as (I1 & I2 & I3).
    cbn [MerkleTree.make_leaves]. unfold total_size in *.
    cbn [map fold_right List.length MerkleNode.size MerkleNode.set_size
         MerkleNode.new].
    repeat split.
    + constructor; [|exact I1]. unfold address_ok.
      cbn [MerkleNode.addressTrits].
      split; [apply (leaf_address_length seedTrits index security i)|].
      intros [Hs HL].
      now apply (generateAddress_ok seedTrits (index + i) security HL).
    + rewrite I2. lia.
    + now rewrite I3.
Qed.


End AnyTree.

Section TreeKeys.

Variable K : Z -> list Z.

Lemma pair_up_keys (h m : nat) :
  forall (ns : list MerkleNode) (j0 : Z),
  List.length ns = (2 * m)%nat -> level_keys K h ns j0 ->
  level_keys K (S h) (MerkleTree.pair_up ns) j0.
Proof.
  induction m as [|m IH]; intros ns j0 Hlen Hlev.
  - destruct ns; [exact I|discriminate].
  - destruct ns as [|a [|b rest]]; try (cbn in Hlen; lia).
    cbn [level_keys] in Hlev. destruct Hlev as (Ka & Kb & Hrest).
    cbn [MerkleTree.pair_up level_keys]. split.
    + cbn [holds_keys]. exists a, b. now repeat split.
    + apply IH; [cbn [List.length] in Hlen; lia|].
      rewrite pow2_S.
      replace (j0 + 2 * 2 ^ Z.of_nat h)
        with (j0 + 2 ^ Z.of_nat h + 2 ^ Z.of_nat h) by lia.
      exact Hrest.
Qed.

Lemma pair_up_length (m : nat) :
  forall ns : list MerkleNode,
  List.length ns = (2 * m)%nat -> List.length (MerkleTree.pair_up ns) = m.
Proof.
  induction m as [|m IH]; intros ns Hlen.
  - now destruct ns.
  - destruct ns as [|a [|b rest]]; try (cbn in Hlen; lia).
    cbn [MerkleTree.pair_up List.length]. f_equal. apply IH.
    cbn [List.length] in Hlen. lia.
Qed.

Lemma buildTree_keys (k : nat) :
  forall (h fuel : nat) (ns : list MerkleNode) (j0 : Z) (T : MerkleNode),
  List.length ns = (2 ^ S k)%nat -> level_keys K h ns j0 ->
  MerkleTree.buildTree_fuel fuel ns = Some T ->
  holds_keys K (h + S k) T j0.
Proof.
  induction k as [|k IH]; intros h fuel ns j0 T Hlen Hlev;
    (destruct fuel as [|fuel]; [discriminate|]);
    cbn [MerkleTree.buildTree_fuel].
  - pose proof (pair_up_keys h 1 ns j0 Hlen Hlev) as Hlev'.
    pose proof (pair_up_length 1 ns Hlen) as Hlen'.
    destruct (MerkleTree.pair_up ns) as [|t [|t2 rest]]; try discriminate.
    intros [= <-]. rewrite Nat.add_1_r. cbn [level_keys] in Hlev'. tauto.
  - assert (Hlen2 : List.length ns = (2 * 2 ^ S k)%nat)
      by (rewrite Hlen; reflexivity).
    pose proof (pair_up_keys h (2 ^ S k) ns j0 Hlen2 Hlev) as Hlev'.
    pose proof (pair_up_length (2 ^ S k) ns Hlen2) as Hlen'.
    assert (H2 : (2 <= 2 ^ S k)%nat).
    { cbn [Nat.pow]. pose proof (Nat.pow_nonzero 2 k). lia. }
    destruct (MerkleTree.pair_up ns) as [|t [|t2 rest]] eqn:E;
      try (cbn [List.length] in Hlen'; lia).
    intros HT. rewrite Nat.add_succ_r.
    exact (IH (S h) fuel (t :: t2 :: rest) j0 T Hlen' Hlev' HT).
Qed.

(** The walk of [getSubtree] down a full tree ends at the leaf asked for,
    and returns its key. *)
Lemma descend_key (A : Z -> list Z) (h : nat) :
  forall (T : MerkleNode) (j0 i : Z) (acc : list MerkleNode),
  spans A h T j0 -> holds_keys K h T j0 -> 0 <= i < 2 ^ Z.of_nat h ->
  fst (MerkleTree.descend T i acc) = Some (K (j0 + i)).
Proof.
  induction h as [|h IH]; intros T j0 i acc Hs Hk Hi;
    cbn [spans holds_keys] in Hs, Hk.
  - destruct Hs as (Hl & _ & _). destruct T as [lo ro sz ad pk].
    cbn [MerkleNode.left MerkleNode.privateKeyTrits] in Hl, Hk. subst lo pk.
    cbn [MerkleTree.descend fst]. change (2 ^ Z.of_nat 0) with 1 in Hi.
    do 2 f_equal. lia.
  - destruct Hs as (l & r & Hl & Hr & _ & _ & Sl & Sr).
    destruct Hk as (l' & r' & Hl' & Hr' & Kl & Kr).
    rewrite Hl in Hl'. rewrite Hr in Hr'.
    injection Hl' as <-. injection Hr' as <-.
    destruct T as [lo ro sz ad pk].
    cbn [MerkleNode.left MerkleNode.right] in Hl, Hr. subst lo ro.
    cbn [MerkleTree.descend]. rewrite (spans_size A h l j0 Sl).
    rewrite pow2_S in Hi.
    destruct (Z.ltb_spec i (2 ^ Z.of_nat h)).
    + apply (IH l j0 i _ Sl Kl). lia.
    + rewrite (IH r _ (i - 2 ^ Z.of_nat h) _ Sr Kr) by lia.
      do 2 f_equal. lia.
Qed.

End TreeKeys.

Section FullTreeFacts.

Lemma make_leaves_keys (n : nat) (seedTrits : list Z) (start security : Z) :
  forall i : Z,
  level_keys (leaf_key seedTrits start security) 0
    (MerkleTree.make_leaves n seedTrits start i security) i.
Proof.
  induction n as [|n IH]; intros i; [exact I|].
  cbn [MerkleTree.make_leaves level_keys]. split; [reflexivity|].
  apply IH.
Qed.

Lemma pow2_nat (k : nat) : Z.to_nat (2 ^ Z.of_nat k) = (2 ^ k)%nat.
Proof.
  change 2 with (Z.of_nat 2) at 1. rewrite <- Nat2Z.inj_pow.
  apply Nat2Z.id.
Qed.

(** The tree over [2^k] leaves, [k >= 1]: it is a full tree of height [k]
    over the addresses of the leaves, and its leaves hold their keys. *)
Lemma full_tree (seed : string) (seedTrits : list Z) (start security : Z)
  (k : nat) :
  TrytesHelper.toTrits seed = Some seedTrits ->
  exists T,
    MerkleTree.new seed start (2 ^ Z.of_nat (S k)) security = Some T
    /\ spans (leaf_address seedTrits start security) (S k) T 0
    /\ holds_keys (leaf_key seedTrits start security) (S k) T 0.
Proof.
  intros Hseed. unfold MerkleTree.new, MerkleTree.buildTree.
  rewrite Hseed, pow2_nat.
  destruct (make_leaves_level (2 ^ S k) seedTrits start 0 security)
    as [Hlev Hlen].
  pose proof (make_leaves_keys (2 ^ S k) seedTrits start security 0) as Hkeys.
  set (ls := MerkleTree.make_leaves (2 ^ S k) seedTrits start 0 security)
    in *.
  assert (Hfuel : (k < List.length ls)%nat).
  { rewrite Hlen. apply Nat.lt_trans with (S k); [lia|].
    apply Nat.pow_gt_lin_r. lia. }
  destruct (buildTree_level (leaf_address seedTrits start security)
              k 0 (List.length ls) ls 0 Hlen Hlev Hfuel)
    as (T & HT & Hspan).
  exists T. split; [exact HT|]. split; [exact Hspan|].
  exact (buildTree_keys (leaf_key seedTrits start security) k 0
           (List.length ls) ls 0 T Hlen Hkeys HT).
Qed.



End FullTreeFacts.

Section NonceShape.

Lemma trinaryGet_length (low high : list Z) (n : nat) (lane : Z) :
  List.length (HammingDiver.trinaryGet low high n lane) = n.
Proof. unfold HammingDiver.trinaryGet. now rewrite length_map, length_seq. Qed.

Lemma trinaryGet_trits (low high : list Z) (n : nat) (lane : Z) :
  trits (HammingDiver.trinaryGet low high n lane).
Proof.
  unfold HammingDiver.trinaryGet. apply Forall_forall. intros x Hx.
  apply in_map_iff in Hx. destruct Hx as (i & <- & _).
  unfold HammingDiver.trinary_digit, is_trit.
  destruct (_ && _); [lia|]. destruct (_ && _); lia.
Qed.

(** The nonce the loop of [search] returns has the size the search has
    grown to: a multiple of three, not below the size it started from and
    not above 243. *)
Lemma search_loop_size (fuel : nat) :
  forall (st : HammingDiver.states) (size sec : Z) (nonce : list Z),
  lanes_ok st -> 0 <= size <= 243 -> size mod 3 = 0 ->
  HammingDiver.search_loop fuel st size sec 0 = Some nonce ->
  size <= Z.of_nat (List.length nonce) <= 243
  /\ Z.of_nat (List.length nonce) mod 3 = 0.
Proof.
  induction fuel as [|fuel IH]; intros st size sec nonce Hok Hsize Hrem;
    [discriminate|].
  cbn [HammingDiver.search_loop].
  destruct (increment_ok st size Hok Hsize) as (A & _ & C).
  destruct (HammingDiver.increment st (0 + size * 2 / 3) (0 + size))
    as [st1 r].
  cbn [fst snd] in A, C.
  destruct (next_size size r Hsize Hrem C) as [Hs' Hrem'].
  set (size' := Z.min (Pascal.roundThird (0 + size * 2 / 3 + r))
                  (Z.of_nat Curl.HASH_LENGTH) - 0) in *.
  destruct st1 as [l1 h1]. cbn [HammingDiver.low HammingDiver.high].
  destruct (Z.eqb_spec
              (HammingDiver.check sec
                 (HammingDiver.low
                    (HammingDiver.transform (HammingDiver.mkStates l1 h1)))
                 (HammingDiver.high
                    (HammingDiver.transform (HammingDiver.mkStates l1 h1))))
              0) as [E|E].
  - intros H. destruct (IH _ size' sec nonce A ltac:(lia) Hrem' H). lia.
  - intros [= <-]. rewrite trinaryGet_length, Z2Nat.id by lia.
    split; [lia|exact Hrem'].
Qed.

(** The nonce [search] returns, absorbed into the sponge it was searched
    for, gives a rate of exactly the checksum security asked for. *)
Lemma search_nonce_level (fuel : nat) (state nonce : list Z) (sec : Z) :
  List.length state = Curl.STATE_LENGTH -> trits state -> 1 <= sec <= 3 ->
  HammingDiver.search fuel state sec 81 0 = Some nonce ->
  IssP27.checksumSecurity
    (Curl.rate
       (Curl.absorb (Curl.mk state 27) nonce 0 (Z.of_nat (List.length nonce)))
       Curl.HASH_LENGTH)
  = sec.
Proof.
  intros Hlen Ht Hsec. unfold HammingDiver.search.
  change (Z.to_nat 0) with 0%nat.
  change (Z.min 81 (Z.of_nat Curl.HASH_LENGTH) - 0) with 81.
  intros H.
  destruct (prepareTrits_ok state Hlen Ht) as [Pok Ptail].
  destruct (search_loop_found fuel _
              (HammingDiver.tritsToBigInt state Curl.STATE_LENGTH) 81 sec
              nonce Pok ltac:(lia) eq_refl
              (same_tail_le 4 (Z.to_nat 81) _ _ ltac:(lia) Ptail) H)
    as (st' & size' & lane & Hok' & Hsz & Htail & Hlane & Hchk & ->).
  assert (Hl : 0 <= lane < 64) by lia.
  pose proof (Hok' lane Hl) as Hok. pose proof Hok as (Hlow & Hhigh & _).
  rewrite trinaryGet_firstn
    by (rewrite Hlow; change Curl.STATE_LENGTH with 729%nat; lia).
  rewrite trinaryGet_lane by (try lia; congruence).
  replace (HammingDiver.mkStates (HammingDiver.low st') (HammingDiver.high st'))
    with st' by now destruct st'.
  assert (Hlane_len : List.length (lane_state lane st') = 729%nat)
    by now apply lane_state_length.
  set (n := Z.to_nat size').
  assert (Hn : List.length (firstn n (lane_state lane st')) = n)
    by (rewrite length_firstn; lia).
  rewrite absorb_whole_short by lia.
  unfold absorb_chunk, Curl.transform, Curl.rate, Int8Array.set.
  cbn [Curl._state Curl._rounds].
  rewrite Hn, firstn_O. cbn [app Nat.add].
  destruct (tritsToBigInt_lane lane state Hl Hlen Ht) as [Hst _].
  rewrite <- Hst at 1.
  rewrite <- (same_tail_lane lane n st' _ Htail).
  rewrite firstn_skipn.
  destruct (transform_lane lane st' Hl Hok) as [Hsim Hok2].
  rewrite <- Hsim.
  unfold Int8Array.slice. rewrite skipn_O.
  change (Curl.HASH_LENGTH - 0)%nat with 243%nat.
  exact (check_thirds_level sec lane _ Hsec Hl Hok2 Hchk).
Qed.

Lemma search_size (fuel : nat) (state nonce : list Z) (sec : Z) :
  List.length state = Curl.STATE_LENGTH -> trits state ->
  HammingDiver.search fuel state sec 81 0 = Some nonce ->
  81 <= Z.of_nat (List.length nonce) <= 243
  /\ Z.of_nat (List.length nonce) mod 3 = 0.
Proof.
  intros Hlen Ht. unfold HammingDiver.search.
  change (Z.to_nat 0) with 0%nat.
  change (Z.min 81 (Z.of_nat Curl.HASH_LENGTH) - 0) with 81.
  destruct (prepareTrits_ok state Hlen Ht) as [Pok _].
  apply search_loop_size; [exact Pok|lia|reflexivity].
Qed.

Lemma search_trits (fuel : nat) :
  forall (st : HammingDiver.states) (size sec offset : Z) (nonce : list Z),
  HammingDiver.search_loop fuel st size sec offset = Some nonce ->
  trits nonce.
Proof.
  induction fuel as [|fuel IH]; intros st size sec offset nonce;
    [discriminate|].
  cbn [HammingDiver.search_loop].
  destruct (HammingDiver.increment st _ _) as [st1 r].
  destruct (_ =? 0); [apply IH|].
  intros [= <-]. apply trinaryGet_trits.
Qed.

(** The nonce of [search].  On a state of 729 trits, at a security level of
    1, 2 or 3, with length 81 and offset 0, a nonce that [search] returns is
    made of trits, has a multiple of three of them, from 81 to 243, and the
    rate of a 27-round sponge that holds the state and absorbs the nonce has
    exactly the checksum security asked for, not a higher one. *)
Theorem search_nonce_shape (fuel : nat) (state nonce : list Z) (sec : Z) :
  List.length state = Curl.STATE_LENGTH -> trits state -> 1 <= sec <= 3 ->
  HammingDiver.search fuel state sec 81 0 = Some nonce ->
  trits nonce
  /\ 81 <= Z.of_nat (List.length nonce) <= 243
  /\ Z.of_nat (List.length nonce) mod 3 = 0
  /\ IssP27.checksumSecurity
       (Curl.rate
          (Curl.absorb (Curl.mk state 27) nonce 0
             (Z.of_nat (List.length nonce)))
          Curl.HASH_LENGTH)
     = sec.
Proof.
  intros Hlen Ht Hsec H.
  split; [exact (search_trits fuel _ _ _ _ _ H)|].
  destruct (search_size fuel state nonce sec Hlen Ht H) as [H1 H2].
  split; [exact H1|]. split; [exact H2|].
  now apply (search_nonce_level fuel).
Qed.

Lemma search_nonce_shape_witness :
  trits zero_state_nonce
  /\ 81 <= Z.of_nat (List.length zero_state_nonce) <= 243
  /\ Z.of_nat (List.length zero_state_nonce) mod 3 = 0
  /\ IssP27.checksumSecurity
       (Curl.rate
          (Curl.absorb (Curl.mk (repeat 0 729) 27) zero_state_nonce 0
             (Z.of_nat (List.length zero_state_nonce)))
          Curl.HASH_LENGTH)
     = 1.
Proof.
  apply (search_nonce_shape 1 (repeat 0 729) zero_state_nonce 1).
  - apply repeat_length.
  - apply trits_repeat_0.
  - lia.
  - vm_compute. reflexivity.
Defined.

End NonceShape.

Section ChannelParts.

(** What a call of [createMessage] that returns has computed on its way. *)
Lemma createMessage_parts (fuel : nat) (st : IMamChannelState) (msg : string)
  (m : IMamMessage) (st' : IMamChannelState) :
  Channel.createMessage fuel st msg = Some (m, st') ->
  exists tree nextRootTree messageTrits sideKeyTrits indexTrits
         messageLengthTrits masked1 sponge1 nonce masked2 sponge2 cnt
         masked3 sponge3,
    TrytesHelper.isTrytes msg = true
    /\ MerkleTree.new (seed st) (start st) (count st) (security st)
       = Some tree
    /\ MerkleTree.new (seed st) (start st + count st) (nextCount st)
         (security st) = Some nextRootTree
    /\ TrytesHelper.toTrits msg = Some messageTrits
    /\ TrytesHelper.toTrits (key_of (sideKey st)) = Some sideKeyTrits
    /\ Pascal.pascalEncode (index st) = Some indexTrits
    /\ Pascal.pascalEncode (Z.of_nat (List.length messageTrits))
       = Some messageLengthTrits
    /\ Mask.mask (MerkleNode.addressTrits nextRootTree ++ messageTrits)
         (header_sponge sideKeyTrits (MerkleNode.addressTrits tree)
            (indexTrits ++ messageLengthTrits))
       = (masked1, sponge1)
    /\ HammingDiver.search fuel (Curl.rate sponge1 Curl.STATE_LENGTH)
         (security st) 81 0 = Some nonce
    /\ Mask.mask nonce sponge1 = (masked2, sponge2)
    /\ Pascal.pascalEncode
         (Z.of_nat
            (List.length
               (List.concat
                  (map MerkleNode.addressTrits
                     (MerkleTree.leaves
                        (MerkleTree.getSubtree tree (index st))))))
          / 243) = Some cnt
    /\ Mask.mask
         (IssP27.signature (Curl.rate sponge2 Curl.HASH_LENGTH)
            (MerkleTree.key (MerkleTree.getSubtree tree (index st)))
          ++ cnt
          ++ List.concat
               (map MerkleNode.addressTrits
                  (MerkleTree.leaves (MerkleTree.getSubtree tree (index st)))))
         sponge2
       = (masked3, sponge3)
    /\ m = mkMessage
             (TrytesHelper.fromTrits
                (pad_third
                   ((((indexTrits ++ messageLengthTrits) ++ masked1)
                     ++ masked2) ++ masked3)))
             (TrytesHelper.fromTrits (MerkleNode.addressTrits tree))
             (TrytesHelper.fromTrits
                match mode st with
                | public => MerkleNode.addressTrits tree
                | _ => Mask.maskHash (MerkleNode.addressTrits tree)
                end)
    /\ st' = Channel.advance st (MerkleNode.addressTrits nextRootTree).
Proof.
  unfold Channel.createMessage. fold (key_of (sideKey st)).
  destruct (TrytesHelper.isTrytes msg) eqn:Hmsg; [|discriminate].
  cbn [negb].
  destruct (MerkleTree.new (seed st) (start st) (count st) (security st))
    as [tree|] eqn:E1; [|discriminate].
  destruct (MerkleTree.new (seed st) (start st + count st) (nextCount st)
              (security st)) as [nextRootTree|] eqn:E2; [|discriminate].
  destruct (TrytesHelper.toTrits msg) as [messageTrits|] eqn:E3;
    [|discriminate].
  destruct (TrytesHelper.toTrits (key_of (sideKey st))) as [sideKeyTrits|]
    eqn:E4; [|discriminate].
  destruct (Pascal.pascalEncode (index st)) as [indexTrits|] eqn:E5;
    [|discriminate].
  destruct (Pascal.pascalEncode (Z.of_nat (List.length messageTrits)))
    as [messageLengthTrits|] eqn:E6; [|discriminate].
  cbv zeta.
  fold (header_sponge sideKeyTrits (MerkleNode.addressTrits tree)
          (indexTrits ++ messageLengthTrits)).
  destruct (Mask.mask (MerkleNode.addressTrits nextRootTree ++ messageTrits)
              (header_sponge sideKeyTrits (MerkleNode.addressTrits tree)
                 (indexTrits ++ messageLengthTrits)))
    as [masked1 sponge1] eqn:E7.
  change (Z.of_nat Curl.HASH_LENGTH / 3) with 81.
  destruct (HammingDiver.search fuel (Curl.rate sponge1 Curl.STATE_LENGTH)
              (security st) 81 0) as [nonce|] eqn:E8; [|discriminate].
  destruct (Mask.mask nonce sponge1) as [masked2 sponge2] eqn:E9.
  change (Z.of_nat Curl.HASH_LENGTH) with 243.
  match goal with
  | |- context [match Pascal.pascalEncode ?x with _ => _ end] =>
      destruct (Pascal.pascalEncode x) as [cnt|] eqn:E10; [|discriminate]
  end.
  match goal with
  | |- context [Mask.mask ?x sponge2] =>
      destruct (Mask.mask x sponge2) as [masked3 sponge3] eqn:E11
  end.
  intros [= <- <-].
  exists tree, nextRootTree, messageTrits, sideKeyTrits, indexTrits,
    messageLengthTrits, masked1, sponge1, nonce, masked2, sponge2, cnt,
    masked3, sponge3.
  repeat (split; [first [reflexivity|assumption]|]).
  reflexivity.
Qed.

(** The nonce of a call of [createMessage] that returns. *)
Lemma message_nonce_parts (fuel : nat) (st : IMamChannelState) (msg : string)
  (tree nextRootTree : MerkleNode)
  (messageTrits sideKeyTrits indexTrits messageLengthTrits masked1 : list Z)
  (sponge1 : Curl.t) :
  MerkleTree.new (seed st) (start st) (count st) (security st) = Some tree ->
  MerkleTree.new (seed st) (start st + count st) (nextCount st) (security st)
  = Some nextRootTree ->
  TrytesHelper.toTrits msg = Some messageTrits ->
  TrytesHelper.toTrits (key_of (sideKey st)) = Some sideKeyTrits ->
  Pascal.pascalEncode (index st) = Some indexTrits ->
  Pascal.pascalEncode (Z.of_nat (List.length messageTrits))
  = Some messageLengthTrits ->
  Mask.mask (MerkleNode.addressTrits nextRootTree ++ messageTrits)
    (header_sponge sideKeyTrits (MerkleNode.addressTrits tree)
       (indexTrits ++ messageLengthTrits))
  = (masked1, sponge1) ->
  message_nonce fuel st msg
  = HammingDiver.search fuel (Curl.rate sponge1 Curl.STATE_LENGTH)
      (security st) 81 0.
Proof.
  intros H1 H2 H3 H4 H5 H6 H7. unfold message_nonce.
  rewrite H1, H2, H3, H4, H5, H6. cbv zeta. now rewrite H7.
Qed.

End ChannelParts.

Section ChannelBasics.

Lemma toTrits_fromTrits_whole (t : list Z) :
  trits t -> (List.length t mod 3 = 0)%nat ->
  TrytesHelper.toTrits (TrytesHelper.fromTrits t) = Some t.
Proof.
  intros Ht Hmod. unfold TrytesHelper.fromTrits.
  destruct (fromTrits_inv t Ht (List.length t)) as [_ Hback]; [lia|].
  rewrite Hback. f_equal. apply firstn_all2.
  pose proof (Nat.div_mod_eq (List.length t) 3). lia.
Qed.

Lemma fromTrits_length (t : list Z) :
  trits t ->
  String.length (TrytesHelper.fromTrits t) = (List.length t / 3)%nat.
Proof.
  intros Ht. unfold TrytesHelper.fromTrits.
  destruct (fromTrits_inv t Ht (List.length t)) as [Hlen _]; [lia|].
  exact Hlen.
Qed.

Lemma fromTrits_back (s : string) (t : list Z) :
  TrytesHelper.toTrits s = Some t -> TrytesHelper.fromTrits t = s.
Proof.
  intros H. destruct (toTrits_inv s t H) as (Hlen & _ & Hback).
  unfold TrytesHelper.fromTrits. apply Hback. lia.
Qed.

Lemma toTrits_chars (s : string) (t : list Z) :
  TrytesHelper.toTrits s = Some t -> TrytesHelper.all_tryte_chars s = true.
Proof.
  intros H. destruct (TrytesHelper.all_tryte_chars s) eqn:E; [reflexivity|].
  rewrite (toTrits_none s E) in H. discriminate.
Qed.

(** 243 trits make the 81 trytes of a hash, and these make the trits. *)
Lemma fromTrits_hash (t : list Z) :
  trits t -> List.length t = 243%nat ->
  TrytesHelper.isHash (TrytesHelper.fromTrits t) = true
  /\ TrytesHelper.toTrits (TrytesHelper.fromTrits t) = Some t.
Proof.
  intros Ht Hlen.
  assert (Hback : TrytesHelper.toTrits (TrytesHelper.fromTrits t) = Some t).
  { apply toTrits_fromTrits_whole; [exact Ht|]. now rewrite Hlen. }
  split; [|exact Hback].
  unfold TrytesHelper.isHash.
  rewrite (fromTrits_length t Ht), Hlen, (toTrits_chars _ _ Hback).
  reflexivity.
Qed.

Lemma maskHash_ok (k : list Z) :
  List.length (Mask.maskHash k) = 243%nat
  /\ (trits k -> trits (Mask.maskHash k)).
Proof.
  unfold Mask.maskHash.
  rewrite squeeze_block_len
    by (try apply repeat_length; apply absorb_len, new_len).
  cbn [snd]. split; [apply rate_len, absorb_len, new_len|].
  intros Hk. apply rate_trits, absorb_ok; [apply new_ok|exact Hk].
Qed.

Lemma nines_chars (n : nat) :
  TrytesHelper.all_tryte_chars (Channel.nines n) = true.
Proof. exact (toTrits_chars _ _ (toTrits_nines n)). Qed.

(** When [new MerkleTree] returns and what. *)
Lemma MerkleTree_new_cases (seed : string) (index count security : Z) :
  (MerkleTree.new seed index count security = None
   <-> TrytesHelper.all_tryte_chars seed = false \/ count <= 0)
  /\ forall T,
       MerkleTree.new seed index count security = Some T ->
       MerkleNode.size T = count
       /\ List.length (MerkleNode.addressTrits T) = 243%nat
       /\ (1 <= security -> trits (MerkleNode.addressTrits T)).
Proof.
  unfold MerkleTree.new, MerkleTree.buildTree.
  destruct (TrytesHelper.all_tryte_chars seed) eqn:Hchars.
  - destruct (toTrits_some seed Hchars) as [seedTrits Hseed].
    rewrite Hseed.
    destruct (toTrits_inv seed seedTrits Hseed) as (_ & Hst & _).
    destruct (make_leaves_inv (Z.to_nat count) seedTrits index security 0)
      as (L1 & L2 & L3).
    destruct (Z.le_gt_cases count 0) as [Hc|Hc].
    + replace (Z.to_nat count) with 0%nat by lia.
      cbn [MerkleTree.make_leaves List.length MerkleTree.buildTree_fuel].
      split; [split; [now right|reflexivity]|discriminate].
    + destruct (buildTree_inv (trits seedTrits /\ 1 <= security)
                  (List.length
                     (MerkleTree.make_leaves (Z.to_nat count) seedTrits index
                        0 security))
                  _ ltac:(rewrite L3; lia) L1)
        as (root & Hroot & Hsize & Hlen & Htr).
      rewrite Hroot. split.
      * split; [discriminate|]. intros [H|H]; [discriminate|lia].
      * intros T [= <-]. split; [rewrite Hsize, L2; lia|].
        split; [exact Hlen|]. intros HL. now apply Htr.
  - rewrite (toTrits_none seed Hchars).
    split; [split; [now left|reflexivity]|discriminate].
Qed.

Lemma MerkleTree_new_some (seed : string) (index count security : Z)
  (T : MerkleNode) :
  MerkleTree.new seed index count security = Some T ->
  TrytesHelper.all_tryte_chars seed = true /\ 1 <= count
  /\ List.length (MerkleNode.addressTrits T) = 243%nat
  /\ (1 <= security -> trits (MerkleNode.addressTrits T)).
Proof.
  intros H.
  destruct (MerkleTree_new_cases seed index count security) as [[_ Hn] Hs].
  destruct (Hs T H) as (_ & Hlen & Ht).
  split.
  - destruct (TrytesHelper.all_tryte_chars seed); [reflexivity|].
    rewrite Hn in H by now left. discriminate.
  - split; [|split; assumption].
    destruct (Z.le_gt_cases count 0) as [Hc|Hc]; [|lia].
    rewrite Hn in H by now right. discriminate.
Qed.

Lemma pascalEncode_some_nonneg (value : Z) (e : list Z) :
  Pascal.pascalEncode value = Some e -> 0 <= value.
Proof.
  unfold Pascal.pascalEncode, Pascal.pascalEncode_fuel.
  destruct (Z.eqb_spec value 0); [lia|].
  destruct (Z.le_gt_cases 0 value) as [H|H]; [intros _; exact H|].
  unfold Pascal.valueToTrits_fuel.
  rewrite writeTrits_negative by lia. discriminate.
Qed.

(** What [createChannel] returns.  The state it returns keeps the seed, which
    is a hash, the mode and the security level, which is 1, 2 or 3; it
    starts at leaf 0 of a tree of one leaf, with one leaf for the next tree
    and no next root yet; it holds a side key in restricted mode only, the
    given key filled up with 9s to the 81 trytes of a hash; and the root of
    the channel can be computed and is a hash. *)
Theorem createChannel_state (seed0 : string) (security0 : Z) (mode0 : MamMode)
  (sideKey0 : option string) (st : IMamChannelState) :
  Channel.createChannel seed0 security0 mode0 sideKey0 = Some st ->
  seed st = seed0 /\ TrytesHelper.isHash seed0 = true
  /\ mode st = mode0
  /\ security st = security0 /\ 1 <= security0 <= 3
  /\ start st = 0 /\ count st = 1 /\ nextCount st = 1 /\ index st = 0
  /\ nextRoot st = None
  /\ match mode0 with
     | restricted =>
         exists k, sideKey0 = Some k
                   /\ sideKey st = Some (Channel.padEnd81 k)
                   /\ TrytesHelper.isHash (Channel.padEnd81 k) = true
     | _ => sideKey st = None
     end
  /\ exists r, Channel.channelRoot st = Some r
               /\ TrytesHelper.isHash r = true.
Proof.
  unfold Channel.createChannel.
  destruct (TrytesHelper.isHash seed0) eqn:Hseed; [|discriminate].
  cbn [negb].
  destruct (Z.ltb_spec security0 1) as [|Hlo]; [discriminate|].
  destruct (Z.ltb_spec 3 security0) as [|Hhi]; [discriminate|].
  cbn [orb].
  destruct (Guards.validateModeKey mode0 sideKey0) eqn:Hkey; [|discriminate].
  cbn [negb]. intros [= <-].
  cbn [seed mode security start count nextCount index nextRoot sideKey].
  repeat (split; [first [reflexivity|lia]|]).
  split.
  - destruct mode0; try reflexivity.
    unfold Guards.validateModeKey in Hkey.
    destruct sideKey0 as [k|]; [|discriminate].
    apply andb_prop in Hkey. destruct Hkey as [Hkey Hle].
    apply andb_prop in Hkey. destruct Hkey as [_ Htr].
    apply Nat.leb_le in Hle.
    unfold TrytesHelper.isTrytes in Htr.
    apply andb_prop in Htr. destruct Htr as [_ Hchars].
    exists k. split; [reflexivity|]. split; [reflexivity|].
    unfold TrytesHelper.isHash, Channel.padEnd81.
    rewrite length_append, nines_length, all_tryte_chars_append, Hchars,
      nines_chars.
    replace (String.length k + (81 - String.length k))%nat with 81%nat by lia.
    reflexivity.
  - unfold Channel.channelRoot.
    cbn [seed mode security start count nextCount index nextRoot sideKey].
    change (0 <? 0) with false. change (1 <=? 0) with false.
    destruct (Z.ltb_spec security0 1) as [Hx|_]; [lia|].
    destruct (Z.ltb_spec 3 security0) as [Hx|_]; [lia|]. cbn [orb].
    unfold TrytesHelper.isHash in Hseed.
    apply andb_prop in Hseed. destruct Hseed as [_ Hchars].
    destruct (MerkleTree_new_cases seed0 0 1 security0) as [[Hn _] Hs].
    destruct (MerkleTree.new seed0 0 1 security0) as [T|].
    + destruct (Hs T eq_refl) as (_ & Hlen & Ht).
      eexists. split; [reflexivity|].
      apply fromTrits_hash; [apply Ht; lia|exact Hlen].
    + destruct (Hn eq_refl) as [Hbad|Hbad]; [congruence|lia].
Qed.

Lemma createChannel_state_witness :
  seed hello_channel = hello_seed /\ TrytesHelper.isHash hello_seed = true
  /\ mode hello_channel = public
  /\ security hello_channel = 1 /\ 1 <= 1 <= 3
  /\ start hello_channel = 0 /\ count hello_channel = 1
  /\ nextCount hello_channel = 1 /\ index hello_channel = 0
  /\ nextRoot hello_channel = None
  /\ sideKey hello_channel = None
  /\ exists r, Channel.channelRoot hello_channel = Some r
               /\ TrytesHelper.isHash r = true.
Proof.
  exact (createChannel_state hello_seed 1 public None hello_channel
           hello_channel_created).
Defined.

(** The root and the address of a message.  A message that [createMessage]
    returns, at a security level of 1 or more, names a root and an address
    that are hashes; the address is what [decodeAddress] computes from the
    root in the mode of the channel (the root itself in public mode); and
    the root is the root of the channel, as [channelRoot] returns it where
    it does not throw. *)
Theorem createMessage_root_address (fuel : nat) (st : IMamChannelState)
  (msg : string) (m : IMamMessage) (st' : IMamChannelState) :
  Channel.createMessage fuel st msg = Some (m, st') ->
  1 <= security st ->
  TrytesHelper.isHash (root m) = true
  /\ TrytesHelper.isHash (address m) = true
  /\ Client.decodeAddress (root m) (mode st) = Some (address m)
  /\ (mode st = public -> address m = root m)
  /\ (0 <= start st -> security st <= 3 ->
      Channel.channelRoot st = Some (root m)).
Proof.
  intros H Hsec.
  destruct (createMessage_parts fuel st msg m st' H)
    as (tree & nextRootTree & messageTrits & sideKeyTrits & indexTrits
        & messageLengthTrits & masked1 & sponge1 & nonce & masked2 & sponge2
        & cnt & masked3 & sponge3 & _ & Htree & _ & _ & _ & _ & _ & _ & _ & _
        & _ & _ & -> & _).
  cbn [root address].
  destruct (MerkleTree_new_some _ _ _ _ tree Htree)
    as (_ & Hcount & Hlen & Htr).
  specialize (Htr Hsec).
  destruct (fromTrits_hash _ Htr Hlen) as [Hhash Hback].
  destruct (maskHash_ok (MerkleNode.addressTrits tree)) as [Hml Hmt].
  destruct (fromTrits_hash _ (Hmt Htr) Hml) as [Hmhash _].
  split; [exact Hhash|]. split; [now destruct (mode st)|].
  split; [|split].
  - unfold Client.decodeAddress. rewrite Hback. now destruct (mode st).
  - now intros ->.
  - intros Hstart Hhi. unfold Channel.channelRoot. rewrite Htree.
    destruct (Z.ltb_spec (start st) 0); [lia|].
    destruct (Z.leb_spec (count st) 0); [lia|].
    destruct (Z.ltb_spec (security st) 1); [lia|].
    destruct (Z.ltb_spec 3 (security st)); [lia|]. reflexivity.
Qed.

Lemma createMessage_root_address_witness :
  TrytesHelper.isHash (root hello_message) = true
  /\ TrytesHelper.isHash (address hello_message) = true
  /\ Client.decodeAddress (root hello_message) (mode hello_channel)
     = Some (address hello_message)
  /\ (mode hello_channel = public -> address hello_message = root hello_message)
  /\ (0 <= start hello_channel -> security hello_channel <= 3 ->
      Channel.channelRoot hello_channel = Some (root hello_message)).
Proof.
  apply (createMessage_root_address 1 hello_channel "HELLO" hello_message
           hello_next_channel hello_created).
  cbn. lia.
Defined.

(** What [createMessage] refuses.  It returns no message, and leaves the
    channel as it is, when the message is empty or has a character that is
    no tryte, when the seed or the side key has such a character, when the
    tree of the channel or the next one has no leaf, or when the index is
    negative. *)
Theorem createMessage_rejects (fuel : nat) (st : IMamChannelState)
  (msg : string) :
  TrytesHelper.isTrytes msg = false
  \/ TrytesHelper.all_tryte_chars (seed st) = false
  \/ TrytesHelper.all_tryte_chars (key_of (sideKey st)) = false
  \/ count st <= 0 \/ nextCount st <= 0 \/ index st < 0 ->
  Channel.createMessage fuel st msg = None.
Proof.
  intros Hbad.
  destruct (Channel.createMessage fuel st msg) as [[m st']|] eqn:H;
    [exfalso|reflexivity].
  destruct (createMessage_parts fuel st msg m st' H)
    as (tree & nextRootTree & messageTrits & sideKeyTrits & indexTrits
        & messageLengthTrits & masked1 & sponge1 & nonce & masked2 & sponge2
        & cnt & masked3 & sponge3 & Hmsg & Htree & Hnext & _ & Hkey & Hidx
        & _).
  destruct (MerkleTree_new_some _ _ _ _ tree Htree) as (Hchars & Hcount & _).
  destruct (MerkleTree_new_some _ _ _ _ nextRootTree Hnext)
    as (_ & Hnc & _).
  pose proof (toTrits_chars _ _ Hkey) as Hk.
  pose proof (pascalEncode_some_nonneg _ _ Hidx) as Hi.
  destruct Hbad as [E|[E|[E|[E|[E|E]]]]]; try congruence; lia.
Qed.

Lemma createMessage_rejects_witness :
  Channel.createMessage 1 hello_channel "hello" = None.
Proof.
  apply (createMessage_rejects 1 hello_channel "hello").
  left. reflexivity.
Defined.

End ChannelBasics.

Section Slices.

Lemma clamp_nat (len n : nat) :
  (n <= len)%nat -> Int8Array.clamp len (Z.of_nat n) = n.
Proof.
  intros H. unfold Int8Array.clamp.
  destruct (Z.ltb_spec (Z.of_nat n) 0); [lia|].
  rewrite Nat2Z.id. lia.
Qed.

Lemma slice_mid (P pre x post : list Z) (b e : nat) :
  P = pre ++ x ++ post -> b = List.length pre ->
  e = (List.length pre + List.length x)%nat ->
  Int8Array.slice P b e = x.
Proof.
  intros -> -> ->. unfold Int8Array.slice.
  rewrite skipn_app, skipn_all, Nat.sub_diag, skipn_O.
  cbn [app].
  replace (List.length pre + List.length x - List.length pre)%nat
    with (List.length x) by lia.
  rewrite firstn_app, firstn_all, Nat.sub_diag, firstn_O.
  apply app_nil_r.
Qed.

Lemma sliceZ_mid (P pre x post : list Z) (b e : Z) :
  P = pre ++ x ++ post -> b = Z.of_nat (List.length pre) ->
  e = Z.of_nat (List.length pre) + Z.of_nat (List.length x) ->
  Int8Array.sliceZ P b e = x.
Proof.
  intros HP -> ->. unfold Int8Array.sliceZ. rewrite <- Nat2Z.inj_add.
  rewrite !clamp_nat by (rewrite HP, !length_app; lia).
  now apply (slice_mid P pre x post).
Qed.

Lemma skipn_pre (pre rest : list Z) (n : nat) :
  n = List.length pre -> skipn n (pre ++ rest) = rest.
Proof.
  intros ->. now rewrite skipn_app, skipn_all, Nat.sub_diag, skipn_O.
Qed.

(** [createMessage] ends the payload with up to two zeros, at a multiple of
    three trits. *)
Lemma pad_third_spec (p : list Z) :
  exists pad,
    pad_third p = p ++ pad /\ trits pad
    /\ (List.length (p ++ pad) mod 3 = 0)%nat.
Proof.
  unfold pad_third.
  pose proof (Nat.div_mod_eq (List.length p) 3) as Hd.
  pose proof (Nat.mod_upper_bound (List.length p) 3 ltac:(lia)) as Hm.
  destruct (Nat.eqb_spec (List.length p mod 3) 0) as [E|E]; cbn [negb].
  - exists []. rewrite app_nil_r. repeat split; [constructor|exact E].
  - exists (Int8Array.new (3 - List.length p mod 3)).
    split; [reflexivity|]. split; [apply trits_repeat_0|].
    rewrite length_app. unfold Int8Array.new. rewrite repeat_length.
    replace (List.length p + (3 - List.length p mod 3))%nat
      with (0 + (List.length p / 3 + 1) * 3)%nat by lia.
    now rewrite Nat.Div0.mod_add.
Qed.

End Slices.

Section MaskFacts.

Lemma mask_facts (p m : list Z) (S S' : Curl.t) :
  Mask.mask p S = (m, S') -> sponge_ok S -> trits p ->
  List.length m = List.length p /\ trits m /\ sponge_ok S'
  /\ Curl._rounds S' = Curl._rounds S
  /\ Mask.unmask m S = (p, S').
Proof.
  intros H HS Hp.
  pose proof (mask_length p S) as Hlen.
  destruct (mask_ok p S HS Hp) as [Ht Hok].
  pose proof (unmask_mask_id p S HS Hp) as Hun.
  rewrite H in Hlen, Ht, Hok, Hun. cbn [fst snd] in Hlen, Ht, Hok, Hun.
  repeat (split; [assumption|]). split; [|exact Hun].
  pose proof (unmask_rounds m S) as Hr. rewrite Hun in Hr. exact Hr.
Qed.

(** A payload of one chunk leaves the sponge as the chunk, absorbed, does. *)
Lemma mask_one (p m : list Z) (S S' : Curl.t) :
  Mask.mask p S = (m, S') -> (1 <= List.length p <= 243)%nat ->
  S' = Curl.absorb S p 0 (Z.of_nat (List.length p)).
Proof.
  intros H Hlen. rewrite mask_as_chunks in H.
  assert (Hf : IssP27.fragments (List.length p) = 1%nat).
  { unfold IssP27.fragments. change Curl.HASH_LENGTH with 243%nat.
    symmetry.
    apply (Nat.div_unique _ 243 1 (List.length p - 1)); lia. }
  rewrite Hf in H. cbn [mask_chunks] in H.
  rewrite firstn_all2 in H by lia.
  injection H as _ <-. now rewrite absorb_whole_short by lia.
Qed.

Lemma sponge_eta (S : Curl.t) :
  sponge_len S -> Curl._rounds S = 27%nat ->
  Curl.mk (Curl.rate S Curl.STATE_LENGTH) 27 = S.
Proof.
  unfold sponge_len, Curl.rate, Int8Array.slice. intros Hl Hr.
  rewrite skipn_O, firstn_all2 by lia.
  destruct S as [s r]. cbn [Curl._state Curl._rounds] in *. now subst r.
Qed.

Lemma header_sponge_ok (keyTrits rootTrits header : list Z) :
  trits keyTrits -> trits rootTrits -> trits header ->
  sponge_ok (header_sponge keyTrits rootTrits header)
  /\ Curl._rounds (header_sponge keyTrits rootTrits header) = 27%nat.
Proof.
  intros Hk Hr Hh. unfold header_sponge. split.
  - repeat (apply absorb_ok; [|assumption]). apply new_ok.
  - now rewrite !absorb_rounds.
Qed.

End MaskFacts.

Section PowerTrees.

Variable A : Z -> list Z.
Hypothesis A_trits : forall j, trits (A j).

Lemma spans_trits (h : nat) (n : MerkleNode) (j0 : Z) :
  spans A h n j0 -> trits (MerkleNode.addressTrits n).
Proof.
  revert n j0. induction h as [|h IH]; intros n j0; cbn [spans].
  - intros (_ & _ & ->). apply A_trits.
  - intros (l & r & _ & _ & _ & -> & Sl & Sr).
    apply parent_address_trits; [exact (IH _ _ Sl)|exact (IH _ _ Sr)].
Qed.

Lemma path_siblings_trits (h : nat) :
  forall (n : MerkleNode) (j0 i : Z),
  spans A h n j0 ->
  Forall (fun s => trits (MerkleNode.addressTrits s)) (path_siblings h n i).
Proof.
  induction h as [|h IH]; intros n j0 i; cbn [spans].
  - intros _. constructor.
  - intros (l & r & Hl & Hr & _ & _ & Sl & Sr).
    cbn [path_siblings]. rewrite Hl, Hr.
    destruct (i <? 2 ^ Z.of_nat h).
    + constructor; [exact (spans_trits _ _ _ Sr)|exact (IH _ _ _ Sl)].
    + constructor; [exact (spans_trits _ _ _ Sl)|exact (IH _ _ _ Sr)].
Qed.

End PowerTrees.

Section ChannelTrees.

Lemma trits_concat_map (ns : list MerkleNode) :
  Forall (fun s => trits (MerkleNode.addressTrits s)) ns ->
  trits (List.concat (map MerkleNode.addressTrits ns)).
Proof.
  induction 1 as [|n ns Hn _ IH]; cbn [map List.concat]; [constructor|].
  apply Forall_app. now split.
Qed.

Lemma concat_map_length (ns : list MerkleNode) :
  Forall (fun s => List.length (MerkleNode.addressTrits s) = 243%nat) ns ->
  List.length (List.concat (map MerkleNode.addressTrits ns))
  = (List.length ns * 243)%nat.
Proof.
  induction 1 as [|n ns Hn _ IH]; cbn [map List.concat List.length];
    [reflexivity|].
  rewrite length_app, Hn, IH. lia.
Qed.

(** The tree of a channel of [2^k] leaves, seen from leaf [i]: what
    [getSubtree] gives to [createMessage], and what [MerkleTree.root] makes
    of it in [parseMessage]. *)
Lemma power_tree (seed : string) (seedTrits : list Z) (start security : Z)
  (k : nat) (i : Z) (T : MerkleNode) :
  TrytesHelper.toTrits seed = Some seedTrits -> 1 <= security ->
  (k <= 30)%nat -> 0 <= i < 2 ^ Z.of_nat k ->
  MerkleTree.new seed start (2 ^ Z.of_nat k) security = Some T ->
  MerkleTree.key (MerkleTree.getSubtree T i)
  = leaf_key seedTrits start security i
  /\ List.length
       (List.concat
          (map MerkleNode.addressTrits
             (MerkleTree.leaves (MerkleTree.getSubtree T i))))
     = (k * 243)%nat
  /\ trits
       (List.concat
          (map MerkleNode.addressTrits
             (MerkleTree.leaves (MerkleTree.getSubtree T i))))
  /\ (if negb (Z.of_nat k =? 0)
      then MerkleTree.root (leaf_address seedTrits start security i)
             (List.concat
                (map MerkleNode.addressTrits
                   (MerkleTree.leaves (MerkleTree.getSubtree T i)))) i
      else leaf_address seedTrits start security i)
     = MerkleNode.addressTrits T.
Proof.
  intros Hseed Hsec Hk Hi HT.
  destruct (toTrits_inv seed seedTrits Hseed) as (_ & Hst & _).
  assert (HA : forall j, trits (leaf_address seedTrits start security j)).
  { intros j. unfold leaf_address.
    now apply (generateAddress_ok seedTrits (start + j) security Hsec). }
  destruct k as [|k].
  - change (2 ^ Z.of_nat 0) with 1 in *. assert (i = 0) by lia. subst i.
    destruct (single_leaf_tree seed seedTrits start security T Hseed HT)
      as [Haddr Hleaves].
    rewrite Hleaves. cbn [map List.concat List.length Nat.mul].
    change (negb (Z.of_nat 0 =? 0)) with false. cbv iota.
    split; [|split; [reflexivity|split; [constructor|now rewrite Haddr]]].
    revert HT. unfold MerkleTree.new. rewrite Hseed.
    change (Z.to_nat 1) with 1%nat.
    cbn [MerkleTree.make_leaves]. unfold MerkleTree.buildTree.
    cbn [List.length MerkleTree.buildTree_fuel MerkleTree.pair_up].
    intros [= <-]. reflexivity.
  - destruct (full_tree seed seedTrits start security k Hseed)
      as (T' & HT' & Hspan & Hkeys).
    assert (T' = T) by congruence. subst T'.
    pose proof (getSubtree_spans (leaf_address seedTrits start security)
                  k T 0 i Hspan Hi) as Hleaves.
    destruct (path_siblings_ok (leaf_address seedTrits start security)
                (leaf_address_length seedTrits start security)
                (S k) T 0 i Hspan) as [Hlen Hall].
    pose proof (path_siblings_trits (leaf_address seedTrits start security)
                  HA (S k) T 0 i Hspan) as Htr.
    split; [|split; [|split]].
    + pose proof (descend_key (leaf_key seedTrits start security)
                    (leaf_address seedTrits start security) (S k) T 0 i []
                    Hspan Hkeys Hi) as Hkey.
      unfold MerkleTree.getSubtree.
      rewrite (spans_size _ (S k) T 0 Hspan).
      pose proof (pow2_pos k) as Hpos. pose proof (pow2_S k) as HS.
      destruct (Z.eqb_spec (2 ^ Z.of_nat (S k)) 1); [lia|].
      destruct (Z.ltb_spec i (2 ^ Z.of_nat (S k))); [|lia].
      destruct (MerkleTree.descend T i []) as [pk lv].
      cbn [fst] in Hkey. subst pk. cbn [MerkleTree.key].
      now rewrite Z.add_0_l.
    + rewrite Hleaves, concat_map_length by now apply Forall_rev.
      now rewrite length_rev, Hlen.
    + rewrite Hleaves. apply trits_concat_map. now apply Forall_rev.
    + destruct (Z.eqb_spec (Z.of_nat (S k)) 0); [lia|]. cbn [negb].
      pose proof (root_spans (leaf_address seedTrits start security)
                    (leaf_address_length seedTrits start security)
                    k T 0 i Hspan Hk Hi) as Hroot.
      now rewrite Z.add_0_l in Hroot.
Qed.

(** The signature of a hash with the key of a leaf: its size, and the
    address the parser computes from it. *)
Lemma leaf_signature (seedTrits h : list Z) (start security i : Z) :
  trits seedTrits -> trits h -> 1 <= security ->
  List.length
    (IssP27.signature h (leaf_key seedTrits start security i))
  = (Z.to_nat security * IssP27.PRIVATE_KEY_FRAGMENT_LENGTH)%nat
  /\ trits (IssP27.signature h (leaf_key seedTrits start security i))
  /\ Curl.rate
       (Curl.absorb (Curl.new 27)
          (IssP27.digestFromSignature h
             (IssP27.signature h (leaf_key seedTrits start security i)))
          0
          (Z.of_nat
             (List.length
                (IssP27.digestFromSignature h
                   (IssP27.signature h
                      (leaf_key seedTrits start security i))))))
       Curl.HASH_LENGTH
     = leaf_address seedTrits start security i.
Proof.
  intros Hs Hh HL.
  destruct (generateAddress_ok seedTrits (start + i) security HL)
    as (_ & Hkl & Htr).
  destruct (Htr Hs) as [_ Hkt].
  fold (leaf_key seedTrits start security i) in Hkl, Hkt.
  assert (Hk : List.length (leaf_key seedTrits start security i)
               = (Z.to_nat security * 27 * 243)%nat).
  { rewrite Hkl.
    change IssP27.PRIVATE_KEY_FRAGMENT_LENGTH with (27 * 243)%nat. lia. }
  split; [now rewrite (signature_length h _ _ Hk)|].
  split; [exact (signature_trits h _ _ Hk Hkt)|].
  unfold leaf_key, leaf_address, MerkleHashGenerator.generateAddress.
  cbn [MerkleHashGenerator.address MerkleHashGenerator.privateKey].
  rewrite signature_verifies by assumption.
  destruct (digestFromSubseed_ok
              (IssP27.subseed seedTrits (start + i)) security HL)
    as [Hdl _].
  rewrite address_hash by exact Hdl.
  rewrite absorb_whole_short by lia. reflexivity.
Qed.

End ChannelTrees.

Section ReadingBack.

Ltac layout HP := rewrite HP, <- ?app_assoc, ?app_nil_r; reflexivity.

Ltac sizes :=
  match goal with
  | La : List.length _ = List.length ?NR, Lb : List.length _ = List.length ?M,
    L2 : List.length _ = List.length ?nonce,
    L3 : List.length _ = List.length (_ ++ _),
    HNRl : List.length ?NR = 243%nat, Hnl : List.length ?nonce = 81%nat,
    HP : _ = _ ++ _ |- _ =>
      rewrite ?HP, ?length_app, ?La, ?Lb, ?L2, ?L3, ?HNRl, ?Hnl,
        ?length_app;
      change Curl.HASH_LENGTH with 243%nat;
      change (Z.of_nat 243 / 3) with 81;
      cbn [List.length]; lia
  end.

(** What [pascalEncode] returns for a value from 0 to 2^53 - 1. *)
Lemma pascal_code (value : Z) (e : list Z) :
  0 <= value < 2 ^ 53 -> Pascal.pascalEncode value = Some e ->
  trits e /\ (4 <= List.length e <= 48)%nat
  /\ forall rest,
       Pascal.pascalDecode (e ++ rest)
       = Some (Pascal.mkDecoded value (List.length e)).
Proof.
  intros Hv Henc.
  destruct (pascal_round_trip value Hv) as (encoded & Henc' & Ht & Hdec).
  assert (encoded = e) by congruence. subst encoded.
  split; [exact Ht|]. split; [|exact Hdec].
  destruct (Z.eq_dec value 0) as [->|Hne].
  - change (Pascal.pascalEncode 0) with (Some Pascal.ZERO) in Henc.
    injection Henc as <-. cbn [List.length Pascal.ZERO]. lia.
  - destruct (pascalEncode_positive value ltac:(lia))
      as (init & last & es & Henc2 & _ & Hm & Hcs & Hlast & Hes & _).
    rewrite Henc2 in Henc. injection Henc as <-.
    rewrite !length_app, Hlast, Hes.
    rewrite (chunks3_concat_length _ (chunks3_flip _ Hcs)), length_map.
    lia.
Qed.

(** The parser on a payload laid out as [createMessage] lays it out. *)
Lemma parse_layout (K A I L NR M nonce sig cnt sub m1 m2 m3 leaf : list Z)
  (S1 S2 S3 : Curl.t) (idx sec : Z) (kn : nat) (rootStr : string)
  (key : option string) :
  TrytesHelper.toTrits (key_of key) = Some K ->
  TrytesHelper.toTrits rootStr = Some A ->
  trits I -> (List.length I <= 48)%nat ->
  (forall rest,
     Pascal.pascalDecode (I ++ rest)
     = Some (Pascal.mkDecoded idx (List.length I))) ->
  trits L -> (List.length L <= 48)%nat ->
  (forall rest,
     Pascal.pascalDecode (L ++ rest)
     = Some (Pascal.mkDecoded (Z.of_nat (List.length M)) (List.length L))) ->
  trits NR -> List.length NR = 243%nat -> trits M ->
  trits nonce -> List.length nonce = 81%nat ->
  Mask.mask (NR ++ M) (header_sponge K A (I ++ L)) = (m1, S1) ->
  Mask.mask nonce S1 = (m2, S2) ->
  Mask.mask (sig ++ cnt ++ sub) S2 = (m3, S3) ->
  IssP27.checksumSecurity (Curl.rate S2 Curl.HASH_LENGTH) = sec ->
  1 <= sec ->
  trits sig ->
  List.length sig = (Z.to_nat sec * IssP27.PRIVATE_KEY_FRAGMENT_LENGTH)%nat ->
  Curl.rate
    (Curl.absorb (Curl.new 27)
       (IssP27.digestFromSignature (Curl.rate S2 Curl.HASH_LENGTH) sig) 0
       (Z.of_nat
          (List.length
             (IssP27.digestFromSignature (Curl.rate S2 Curl.HASH_LENGTH)
                sig))))
    Curl.HASH_LENGTH
  = leaf ->
  trits cnt ->
  (forall rest,
     Pascal.pascalDecode (cnt ++ rest)
     = Some (Pascal.mkDecoded (Z.of_nat kn) (List.length cnt))) ->
  trits sub -> List.length sub = (kn * 243)%nat ->
  (if negb (Z.of_nat kn =? 0) then MerkleTree.root leaf sub idx else leaf)
  = A ->
  Parser.parseMessage
    (TrytesHelper.fromTrits
       (pad_third ((((I ++ L) ++ m1) ++ m2) ++ m3)))
    rootStr key
  = Some (Parser.mkParsed (TrytesHelper.fromTrits NR)
            (TrytesHelper.fromTrits M)).
Proof.
  intros HKs HAs HIt HIl HI HLt HLl HL HNR HNRl HM Hn Hnl Hm1 Hm2 Hm3 Hsec
    Hsec1 Hsig Hsigl Hleaf Hcnt Hcntd Hsub Hsubl Hroot.
  destruct (toTrits_inv _ _ HKs) as (_ & HK & _).
  destruct (toTrits_inv _ _ HAs) as (_ & HA & _).
  assert (HIL : trits (I ++ L)) by (apply Forall_app; now split).
  destruct (header_sponge_ok K A (I ++ L) HK HA HIL) as [HS0 HR0].
  set (S0 := header_sponge K A (I ++ L)) in *.
  pose proof (mask_app 1 NR M S0 (proj1 HS0) HNRl) as Happ.
  rewrite Hm1 in Happ.
  destruct (Mask.mask NR S0) as [m1a S1a] eqn:Ea.
  cbn [fst snd] in Happ.
  destruct (Mask.mask M S1a) as [m1b S1'] eqn:Eb.
  cbn [fst snd] in Happ. injection Happ as -> ->.
  assert (Hmeta : trits (sig ++ cnt ++ sub))
    by (unfold trits; rewrite !Forall_app; repeat split; assumption).
  destruct (mask_facts NR m1a S0 S1a Ea HS0 HNR) as (La & Ta & Oa & Ra & Ua).
  destruct (mask_facts M m1b S1a S1' Eb Oa HM) as (Lb & Tb & Ob & Rb & Ub).
  destruct (mask_facts nonce m2 S1' S2 Hm2 Ob Hn) as (L2 & T2 & O2 & R2 & U2).
  destruct (mask_facts _ m3 S2 S3 Hm3 O2 Hmeta) as (L3 & T3 & O3 & R3 & U3).
  destruct (pad_third_spec ((((I ++ L) ++ m1a ++ m1b) ++ m2) ++ m3))
    as (pad & -> & Tpad & Hmod).
  set (P := ((((I ++ L) ++ m1a ++ m1b) ++ m2) ++ m3) ++ pad) in *.
  assert (HP : P = I ++ L ++ m1a ++ m1b ++ m2 ++ m3 ++ pad)
    by (unfold P; now rewrite <- !app_assoc).
  assert (TP : trits P)
    by (unfold P, trits; rewrite !Forall_app; repeat split; assumption).
  unfold Parser.parseMessage. fold (key_of key).
  rewrite (toTrits_fromTrits_whole P TP Hmod), HAs, HKs.
  clearbody P.
  assert (E1 : Pascal.pascalDecode P
               = Some (Pascal.mkDecoded idx (List.length I)))
    by (rewrite HP; apply HI).
  rewrite E1. cbn [Pascal.value Pascal.end'].
  assert (E2 : Pascal.pascalDecode (skipn (List.length I) P)
               = Some (Pascal.mkDecoded (Z.of_nat (List.length M))
                         (List.length L)))
    by (rewrite HP, skipn_pre by reflexivity; apply HL).
  rewrite E2. cbn [Pascal.value Pascal.end'].
  match goal with
  | |- context [Curl.absorb ?c P 0 ?n] =>
      replace (Curl.absorb c P 0 n) with S0
  end.
  2:{ unfold S0, header_sponge. rewrite HP, app_assoc, <- length_app.
      symmetry. apply absorb_prefix. rewrite length_app. lia. }
  rewrite (slice_mid P (I ++ L) m1a (m1b ++ m2 ++ m3 ++ pad))
    by first [layout HP|sizes].
  rewrite Ua. cbv beta iota.
  match goal with
  | |- context [Mask.unmask (Int8Array.sliceZ P ?b ?e) S1a] =>
      rewrite (sliceZ_mid P (I ++ L ++ m1a) m1b (m2 ++ m3 ++ pad) b e)
        by first [layout HP|sizes]
  end.
  rewrite Ub. cbv beta iota.
  match goal with
  | |- context [Mask.unmask (Int8Array.sliceZ P ?b ?e) S1'] =>
      rewrite (sliceZ_mid P (I ++ L ++ m1a ++ m1b) m2 (m3 ++ pad) b e)
        by first [layout HP|sizes]
  end.
  rewrite U2. cbv beta iota. rewrite Hsec.
  destruct (Z.eqb_spec sec 0) as [|_]; [lia|].
  match goal with
  | |- context [Mask.unmask (Int8Array.sliceZ P ?b ?e) S2] =>
      rewrite (sliceZ_mid P (I ++ L ++ m1a ++ m1b ++ m2) (m3 ++ pad) [] b e)
        by first [layout HP|sizes]
  end.
  destruct (unmask_prefix m3 pad S2) as (junk & Hj & Hjl).
  rewrite U3 in Hj. cbn [fst] in Hj.
  pose proof (unmask_rounds (m3 ++ pad) S2) as Hr.
  destruct (Mask.unmask (m3 ++ pad) S2) as [dm sp].
  cbn [fst snd] in Hj, Hr. subst dm. cbv beta iota.
  rewrite (reset_27 sp) by (rewrite Hr, R2, Rb, Ra; exact HR0).
  replace ((sig ++ cnt ++ sub) ++ junk) with (sig ++ cnt ++ sub ++ junk)
    by (now rewrite <- !app_assoc).
  rewrite (slice_mid (sig ++ cnt ++ sub ++ junk) [] sig (cnt ++ sub ++ junk))
    by first [reflexivity|cbn [List.length]; rewrite Hsigl; lia].
  rewrite Hleaf.
  rewrite (skipn_pre sig) by (now rewrite Hsigl).
  rewrite Hcntd. cbn [Pascal.value Pascal.end'].
  rewrite (sliceZ_mid (sig ++ cnt ++ sub ++ junk) (sig ++ cnt) sub junk)
    by first [now rewrite <- !app_assoc
             |rewrite ?length_app, ?Hsigl, ?Hsubl;
              change Curl.HASH_LENGTH with 243%nat; lia].
  rewrite Hroot, (fromTrits_back rootStr A HAs), String.eqb_refl.
  reflexivity.
Qed.

End ReadingBack.

Section WritingAndReading.

(** The parts of a message made for leaf [index] of a tree of [2^k] leaves:
    what each of them is made of and how long it is. *)
Lemma created_facts (fuel : nat) (st : IMamChannelState) (msg : string)
  (k : nat) (tree nextRootTree : MerkleNode)
  (M K I L m1 nonce m2 cnt : list Z) (S1 S2 : Curl.t) :
  count st = 2 ^ Z.of_nat k -> (k <= 30)%nat ->
  0 <= index st < count st -> 1 <= security st <= 3 ->
  Z.of_nat (String.length msg) * 3 < 2 ^ 53 ->
  MerkleTree.new (seed st) (start st) (count st) (security st) = Some tree ->
  MerkleTree.new (seed st) (start st + count st) (nextCount st) (security st)
  = Some nextRootTree ->
  TrytesHelper.toTrits msg = Some M ->
  TrytesHelper.toTrits (key_of (sideKey st)) = Some K ->
  Pascal.pascalEncode (index st) = Some I ->
  Pascal.pascalEncode (Z.of_nat (List.length M)) = Some L ->
  Mask.mask (MerkleNode.addressTrits nextRootTree ++ M)
    (header_sponge K (MerkleNode.addressTrits tree) (I ++ L))
  = (m1, S1) ->
  HammingDiver.search fuel (Curl.rate S1 Curl.STATE_LENGTH) (security st)
    81 0 = Some nonce ->
  Mask.mask nonce S1 = (m2, S2) ->
  Pascal.pascalEncode
    (Z.of_nat
       (List.length
          (List.concat
             (map MerkleNode.addressTrits
                (MerkleTree.leaves (MerkleTree.getSubtree tree (index st))))))
     / 243) = Some cnt ->
  exists leaf,
    (trits I /\ (4 <= List.length I <= 48)%nat
     /\ forall rest,
          Pascal.pascalDecode (I ++ rest)
          = Some (Pascal.mkDecoded (index st) (List.length I)))
    /\ (trits L /\ (4 <= List.length L <= 48)%nat
        /\ forall rest,
             Pascal.pascalDecode (L ++ rest)
             = Some (Pascal.mkDecoded (Z.of_nat (List.length M))
                       (List.length L)))
    /\ (trits (MerkleNode.addressTrits tree)
        /\ List.length (MerkleNode.addressTrits tree) = 243%nat)
    /\ (trits (MerkleNode.addressTrits nextRootTree)
        /\ List.length (MerkleNode.addressTrits nextRootTree) = 243%nat)
    /\ (trits M /\ List.length M = (3 * String.length msg)%nat)
    /\ (trits nonce /\ 81 <= Z.of_nat (List.length nonce) <= 243
        /\ Z.of_nat (List.length nonce) mod 3 = 0)
    /\ IssP27.checksumSecurity (Curl.rate S2 Curl.HASH_LENGTH) = security st
    /\ (trits
          (IssP27.signature (Curl.rate S2 Curl.HASH_LENGTH)
             (MerkleTree.key (MerkleTree.getSubtree tree (index st))))
        /\ List.length
             (IssP27.signature (Curl.rate S2 Curl.HASH_LENGTH)
                (MerkleTree.key (MerkleTree.getSubtree tree (index st))))
           = (Z.to_nat (security st)
              * IssP27.PRIVATE_KEY_FRAGMENT_LENGTH)%nat
        /\ Curl.rate
             (Curl.absorb (Curl.new 27)
                (IssP27.digestFromSignature (Curl.rate S2 Curl.HASH_LENGTH)
                   (IssP27.signature (Curl.rate S2 Curl.HASH_LENGTH)
                      (MerkleTree.key
                         (MerkleTree.getSubtree tree (index st)))))
                0
                (Z.of_nat
                   (List.length
                      (IssP27.digestFromSignature
                         (Curl.rate S2 Curl.HASH_LENGTH)
                         (IssP27.signature (Curl.rate S2 Curl.HASH_LENGTH)
                            (MerkleTree.key
                               (MerkleTree.getSubtree tree (index st))))))))
             Curl.HASH_LENGTH
           = leaf)
    /\ (trits cnt /\ (4 <= List.length cnt <= 48)%nat
        /\ forall rest,
             Pascal.pascalDecode (cnt ++ rest)
             = Some (Pascal.mkDecoded (Z.of_nat k) (List.length cnt)))
    /\ (trits
          (List.concat
             (map MerkleNode.addressTrits
                (MerkleTree.leaves (MerkleTree.getSubtree tree (index st)))))
        /\ List.length
             (List.concat
                (map MerkleNode.addressTrits
                   (MerkleTree.leaves
                      (MerkleTree.getSubtree tree (index st)))))
           = (k * 243)%nat)
    /\ (if negb (Z.of_nat k =? 0)
        then MerkleTree.root leaf
               (List.concat
                  (map MerkleNode.addressTrits
                     (MerkleTree.leaves
                        (MerkleTree.getSubtree tree (index st)))))
               (index st)
        else leaf)
       = MerkleNode.addressTrits tree.
Proof.
  intros Hcount Hk Hidx Hsec Hmsg Htree Hnext HM HK HI HL Hm1 Hsearch Hm2
    Hcnt.
  destruct (MerkleTree_new_some _ _ _ _ tree Htree)
    as (Hchars & _ & HAl & HAt).
  specialize (HAt ltac:(lia)).
  destruct (MerkleTree_new_some _ _ _ _ nextRootTree Hnext)
    as (_ & _ & HNl & HNt).
  specialize (HNt ltac:(lia)).
  destruct (toTrits_some _ Hchars) as [seedTrits Hseed].
  destruct (toTrits_inv _ _ Hseed) as (_ & Hst & _).
  destruct (toTrits_inv _ _ HM) as (HMl & HMt & _).
  destruct (toTrits_inv _ _ HK) as (_ & HKt & _).
  pose proof (pow2_le_30 k Hk) as Hp30.
  destruct (pascal_code (index st) I ltac:(lia) HI) as (HIt & HIl & HId).
  destruct (pascal_code (Z.of_nat (List.length M)) L ltac:(lia) HL)
    as (HLt & HLl & HLd).
  assert (HIL : trits (I ++ L)) by (apply Forall_app; now split).
  destruct (header_sponge_ok K _ (I ++ L) HKt HAt HIL) as [HS0 HR0].
  assert (HNM : trits (MerkleNode.addressTrits nextRootTree ++ M))
    by (apply Forall_app; now split).
  destruct (mask_facts _ m1 _ S1 Hm1 HS0 HNM) as (_ & _ & HS1 & HR1 & _).
  rewrite HR0 in HR1.
  pose proof (search_trits fuel _ _ _ _ _ Hsearch) as Hnt.
  assert (Hrl : List.length (Curl.rate S1 Curl.STATE_LENGTH)
                = Curl.STATE_LENGTH)
    by (apply rate_length; [exact HS1|reflexivity]).
  pose proof (rate_trits S1 Curl.STATE_LENGTH HS1) as Hrt.
  destruct (search_size fuel _ nonce _ Hrl Hrt Hsearch) as [Hnl Hn3].
  pose proof (search_nonce_level fuel _ nonce _ Hrl Hrt Hsec Hsearch) as Hlev.
  rewrite (sponge_eta S1 (proj1 HS1) HR1) in Hlev.
  rewrite <- (mask_one nonce m2 S1 S2 Hm2 ltac:(lia)) in Hlev.
  destruct (mask_facts nonce m2 S1 S2 Hm2 HS1 Hnt) as (_ & _ & HS2 & _ & _).
  pose proof (rate_trits S2 Curl.HASH_LENGTH HS2) as Hht.
  rewrite Hcount in Htree, Hidx.
  destruct (power_tree (seed st) seedTrits (start st) (security st) k
              (index st) tree Hseed ltac:(lia) Hk Hidx Htree)
    as (Hkey & Hsl & Hstr & Hroot).
  destruct (leaf_signature seedTrits (Curl.rate S2 Curl.HASH_LENGTH)
              (start st) (security st) (index st) Hst Hht ltac:(lia))
    as (Hsigl & Hsigt & Hleaf).
  rewrite <- Hkey in Hsigl, Hsigt, Hleaf.
  rewrite Hsl, Nat2Z.inj_mul in Hcnt.
  change (Z.of_nat 243) with 243 in Hcnt.
  rewrite Z.div_mul in Hcnt by lia.
  destruct (pascal_code (Z.of_nat k) cnt ltac:(lia) Hcnt)
    as (Hct & Hcl & Hcd).
  exists (leaf_address seedTrits (start st) (security st) (index st)).
  repeat match goal with |- _ /\ _ => split end; try assumption; lia.
Qed.

End WritingAndReading.

Section RoundTrip.

(** [parseMessage] after [createMessage].  Take a channel whose tree has
    [2^k] leaves, [k <= 30], an index inside the tree, a security level of
    1, 2 or 3 and a message of fewer than 2^53 trits.  When [createMessage]
    returns a message for it, and the nonce it found has the 81 trits the
    parser reads (the search starts with 81 and grows the nonce only when
    its counter overflows), then [parseMessage], given the payload, the root
    and the side key of the channel, returns the message that was sent, and
    as next root the one the channel state now holds. *)
Theorem parseMessage_createMessage (fuel : nat) (st : IMamChannelState)
  (msg : string) (m : IMamMessage) (st' : IMamChannelState) (k : nat) :
  Channel.createMessage fuel st msg = Some (m, st') ->
  count st = 2 ^ Z.of_nat k -> (k <= 30)%nat ->
  0 <= index st < count st ->
  1 <= security st <= 3 ->
  Z.of_nat (String.length msg) * 3 < 2 ^ 53 ->
  (forall nonce,
     message_nonce fuel st msg = Some nonce -> List.length nonce = 81%nat) ->
  exists next,
    nextRoot st' = Some next
    /\ Parser.parseMessage (payload m) (root m) (sideKey st)
       = Some (Parser.mkParsed next msg).
Proof.
  intros H Hcount Hk Hidx Hsec Hmsg Hnonce.
  destruct (createMessage_parts fuel st msg m st' H)
    as (tree & nextRootTree & M & K & I & L & m1 & S1 & nonce & m2 & S2
        & cnt & m3 & S3 & _ & Htree & Hnext & HM & HK & HI & HL & Hm1
        & Hsearch & Hm2 & Hcnt & Hm3 & -> & ->).
  destruct (created_facts fuel st msg k tree nextRootTree M K I L m1 nonce m2
              cnt S1 S2 Hcount Hk Hidx Hsec Hmsg Htree Hnext HM HK HI HL Hm1
              Hsearch Hm2 Hcnt)
    as (leaf & (HIt & HIl & HId) & (HLt & HLl & HLd) & (HAt & HAl)
        & (HNt & HNl) & (HMt & HMl) & (Hnt & Hnl & Hn3) & Hlev
        & (Hsigt & Hsigl & Hleaf) & (Hct & Hcl & Hcd) & (Hst & Hsl) & Hroot).
  assert (Hn81 : List.length nonce = 81%nat).
  { apply Hnonce.
    rewrite (message_nonce_parts fuel st msg tree nextRootTree M K I L m1 S1
               Htree Hnext HM HK HI HL Hm1).
    exact Hsearch. }
  exists (TrytesHelper.fromTrits (MerkleNode.addressTrits nextRootTree)).
  split.
  - unfold Channel.advance.
    now destruct (index st =? count st - 1).
  - cbn [payload root].
    rewrite <- (fromTrits_back msg M HM) at 1.
    apply (parse_layout K (MerkleNode.addressTrits tree) I L
             (MerkleNode.addressTrits nextRootTree) M nonce
             (IssP27.signature (Curl.rate S2 Curl.HASH_LENGTH)
                (MerkleTree.key (MerkleTree.getSubtree tree (index st))))
             cnt
             (List.concat
                (map MerkleNode.addressTrits
                   (MerkleTree.leaves
                      (MerkleTree.getSubtree tree (index st)))))
             m1 m2 m3 leaf S1 S2 S3 (index st) (security st) k);
      try assumption; try lia.
    exact (proj2 (fromTrits_hash _ HAt HAl)).
Qed.

Lemma pad_third_length (p : list Z) :
  (List.length p <= List.length (pad_third p) <= List.length p + 2)%nat
  /\ (List.length (pad_third p) mod 3 = 0)%nat
  /\ (trits p -> trits (pad_third p)).
Proof.
  destruct (pad_third_spec p) as (pad & Hp & Ht & Hmod).
  rewrite Hp. split; [|split; [exact Hmod|]].
  - revert Hp. unfold pad_third.
    pose proof (Nat.mod_upper_bound (List.length p) 3 ltac:(lia)) as Hm.
    destruct (Nat.eqb_spec (List.length p mod 3) 0) as [E|E]; cbn [negb];
      intros Hp; apply (f_equal (@List.length Z)) in Hp;
      rewrite ?length_app in *; unfold Int8Array.new in Hp;
      rewrite ?repeat_length in Hp; lia.
  - intros Hpt. apply Forall_app. now split.
Qed.

(** The nonce of the example message has 81 trits: the payload leaves room
    for no more. *)
Lemma hello_nonce_length (nonce : list Z) :
  message_nonce 1 hello_channel "HELLO" = Some nonce ->
  List.length nonce = 81%nat.
Proof.
  intros Hn.
  destruct (createMessage_parts 1 hello_channel "HELLO" hello_message
              hello_next_channel hello_created)
    as (tree & nextRootTree & M & K & I & L & m1 & S1 & nonce' & m2 & S2
        & cnt & m3 & S3 & _ & Htree & Hnext & HM & HK & HI & HL & Hm1
        & Hsearch & Hm2 & Hcnt & Hm3 & Hmsg & _).
  rewrite (message_nonce_parts 1 hello_channel "HELLO" tree nextRootTree M K
             I L m1 S1 Htree Hnext HM HK HI HL Hm1) in Hn.
  assert (nonce' = nonce) by congruence. subst nonce'.
  destruct (created_facts 1 hello_channel "HELLO" 0 tree nextRootTree M K I L
              m1 nonce m2 cnt S1 S2 eq_refl ltac:(lia) ltac:(cbn; lia)
              ltac:(cbn; lia) ltac:(cbn; lia) Htree Hnext HM HK HI HL Hm1
              Hsearch Hm2 Hcnt)
    as (leaf & (HIt & _) & (HLt & _) & (HAt & HAl) & (HNt & HNl)
        & (HMt & HMl) & (Hnt & Hnl & Hn3) & _ & (Hsigt & Hsigl & _)
        & (Hct & _) & (Hst & Hsl) & _).
  destruct (toTrits_inv _ _ HK) as (_ & HKt & _).
  assert (HIL : trits (I ++ L)) by (apply Forall_app; now split).
  destruct (header_sponge_ok K _ (I ++ L) HKt HAt HIL) as [HS0 _].
  assert (HNM : trits (MerkleNode.addressTrits nextRootTree ++ M))
    by (apply Forall_app; now split).
  destruct (mask_facts _ m1 _ S1 Hm1 HS0 HNM) as (L1 & T1 & HS1 & _).
  destruct (mask_facts nonce m2 S1 S2 Hm2 HS1 Hnt) as (L2 & T2 & HS2 & _).
  assert (Hmeta :
    trits
      (IssP27.signature (Curl.rate S2 Curl.HASH_LENGTH)
         (MerkleTree.key
            (MerkleTree.getSubtree tree (index hello_channel)))
       ++ cnt
       ++ List.concat
            (map MerkleNode.addressTrits
               (MerkleTree.leaves
                  (MerkleTree.getSubtree tree (index hello_channel))))))
    by (unfold trits; rewrite !Forall_app; repeat split; assumption).
  destruct (mask_facts _ m3 S2 S3 Hm3 HS2 Hmeta) as (L3 & T3 & _).
  assert (LI : List.length I = 4%nat).
  { change (Pascal.pascalEncode (index hello_channel))
      with (Some Pascal.ZERO) in HI.
    now injection HI as <-. }
  assert (LL : List.length L = 8%nat).
  { rewrite HMl in HL. vm_compute in HL. now injection HL as <-. }
  assert (LC : List.length cnt = 4%nat).
  { rewrite Hsl in Hcnt. vm_compute in Hcnt. now injection Hcnt as <-. }
  apply (f_equal payload) in Hmsg.
  change (payload hello_message) with hello_payload in Hmsg.
  cbn [payload] in Hmsg.
  apply (f_equal String.length) in Hmsg.
  destruct (pad_third_length ((((I ++ L) ++ m1) ++ m2) ++ m3))
    as (Hpl & Hp3 & Hpt).
  rewrite fromTrits_length in Hmsg
    by (apply Hpt; unfold trits; rewrite !Forall_app; repeat split;
        assumption).
  assert (HT : Z.of_nat (String.length hello_payload) = 2306)
    by (vm_compute; reflexivity).
  assert (HF : Z.of_nat IssP27.PRIVATE_KEY_FRAGMENT_LENGTH = 6561)
    by reflexivity.
  change (Z.to_nat (security hello_channel)) with 1%nat in Hsigl.
  pose proof (Nat.div_mod_eq
                (List.length (pad_third ((((I ++ L) ++ m1) ++ m2) ++ m3))) 3)
    as Hd.
  rewrite !length_app in Hpl. rewrite !length_app in L1, L3.
  rewrite !length_app in L3.
  rewrite HMl in L1.
  change (String.length "HELLO") with 5%nat in L1.
  rewrite Hsigl, Hsl, LC in L3. rewrite HNl in L1.
  rewrite Hmsg in HT. rewrite Hp3 in Hd.
  rewrite L1, L2, L3, LI, LL in Hpl.
  pose proof (Z.div_mod (Z.of_nat (List.length nonce)) 3 ltac:(lia)) as Hq.
  rewrite Hn3 in Hq.
  lia.
Qed.

Lemma parseMessage_createMessage_witness :
  exists next,
    nextRoot hello_next_channel = Some next
    /\ Parser.parseMessage (payload hello_message) (root hello_message)
         (sideKey hello_channel)
       = Some (Parser.mkParsed next "HELLO").
Proof.
  apply (parseMessage_createMessage 1 hello_channel "HELLO" hello_message
           hello_next_channel 0 hello_created).
  - reflexivity.
  - lia.
  - cbn. lia.
  - cbn. lia.
  - cbn. lia.
  - exact hello_nonce_length.
Defined.

End RoundTrip.

Section SpongeInPieces.

Lemma subarray_shift (pre t : list Z) (b e : nat) :
  Int8Array.subarray (pre ++ t) (List.length pre + b) (List.length pre + e)
  = Int8Array.subarray t b e.
Proof.
  unfold Int8Array.subarray, Int8Array.slice.
  rewrite skipn_app, skipn_all2 by lia. cbn [app].
  f_equal; [lia|f_equal; lia].
Qed.

(** [absorb] reads its input from the offset on: what lies before the
    offset does not count. *)
Lemma absorb_shift (m : nat) :
  forall (c : Curl.t) (pre t : list Z) (off n : Z),
  0 <= off -> 0 <= n <= Z.of_nat m * 243 ->
  Curl.absorb c (pre ++ t) (Z.of_nat (List.length pre) + off) n
  = Curl.absorb c t off n.
Proof.
  induction m as [|m IH]; intros c pre t off n Hoff Hn.
  - rewrite !absorb_short by lia.
    replace (Z.to_nat (Z.of_nat (List.length pre) + off))
      with (List.length pre + Z.to_nat off)%nat by lia.
    replace (Z.to_nat (Z.of_nat (List.length pre) + off + n))
      with (List.length pre + Z.to_nat (off + n))%nat by lia.
    now rewrite subarray_shift.
  - destruct (Z.le_gt_cases n 243) as [Hs|Hl].
    + rewrite !absorb_short by lia.
      replace (Z.to_nat (Z.of_nat (List.length pre) + off))
        with (List.length pre + Z.to_nat off)%nat by lia.
      replace (Z.to_nat (Z.of_nat (List.length pre) + off + n))
        with (List.length pre + Z.to_nat (off + n))%nat by lia.
      now rewrite subarray_shift.
    + rewrite (absorb_long c (pre ++ t)), (absorb_long c t) by lia.
      replace (Z.to_nat (Z.of_nat (List.length pre) + off))
        with (List.length pre + Z.to_nat off)%nat by lia.
      replace (Z.to_nat (Z.of_nat (List.length pre) + off + 243))
        with (List.length pre + Z.to_nat (off + 243))%nat by lia.
      rewrite subarray_shift, <- Z.add_assoc.
      apply IH; lia.
Qed.

Lemma absorb_from (c : Curl.t) (pre t : list Z) (off : Z) :
  off = Z.of_nat (List.length pre) ->
  Curl.absorb c (pre ++ t) off (Z.of_nat (List.length t))
  = Curl.absorb c t 0 (Z.of_nat (List.length t)).
Proof.
  intros ->.
  rewrite <- (absorb_shift (List.length t) c pre t 0
                (Z.of_nat (List.length t)) ltac:(lia) ltac:(lia)).
  now rewrite Z.add_0_r.
Qed.

Lemma first_block (a b : list Z) :
  (243 <= List.length a)%nat ->
  Int8Array.subarray (a ++ b) (Z.to_nat 0) (Z.to_nat (0 + 243))
  = firstn 243 a.
Proof.
  intros Ha. unfold Int8Array.subarray, Int8Array.slice.
  change (Z.to_nat 0) with 0%nat. change (Z.to_nat (0 + 243)) with 243%nat.
  rewrite skipn_O, Nat.sub_0_r, firstn_app.
  replace (243 - List.length a)%nat with 0%nat by lia.
  rewrite firstn_O. apply app_nil_r.
Qed.

Lemma first_whole (a : list Z) :
  Int8Array.subarray a (Z.to_nat 0) (Z.to_nat (0 + 243)) = firstn 243 a.
Proof.
  unfold Int8Array.subarray, Int8Array.slice.
  change (Z.to_nat 0) with 0%nat. change (Z.to_nat (0 + 243)) with 243%nat.
  now rewrite skipn_O, Nat.sub_0_r.
Qed.

Lemma absorb_pieces (k : nat) :
  forall (c : Curl.t) (a b : list Z),
  List.length a = (S k * 243)%nat -> b <> [] ->
  Curl.absorb c (a ++ b) 0 (Z.of_nat (List.length (a ++ b)))
  = Curl.absorb (Curl.absorb c a 0 (Z.of_nat (List.length a))) b 0
      (Z.of_nat (List.length b)).
Proof.
  induction k as [|k IH]; intros c a b Ha Hb.
  - assert (Hbl : (1 <= List.length b)%nat)
      by (destruct b; [congruence|cbn [List.length]; lia]).
    rewrite absorb_long by (rewrite length_app; lia).
    rewrite first_block by lia.
    rewrite firstn_all2 by lia.
    rewrite (absorb_whole_short c a) by lia.
    replace (Z.of_nat (List.length (a ++ b)) - 243)
      with (Z.of_nat (List.length b)) by (rewrite length_app; lia).
    apply absorb_from. lia.
  - assert (Hsplit : a = firstn 243 a ++ skipn 243 a)
      by (symmetry; apply firstn_skipn).
    assert (H1 : List.length (firstn 243 a) = 243%nat)
      by (rewrite length_firstn; lia).
    assert (H2 : List.length (skipn 243 a) = (S k * 243)%nat)
      by (rewrite length_skipn; lia).
    rewrite absorb_long by (rewrite length_app; lia).
    rewrite first_block by lia.
    rewrite (absorb_long c a) by lia.
    rewrite (first_whole a) by lia.
    set (c1 := absorb_chunk c (firstn 243 a)).
    replace (Z.of_nat (List.length (a ++ b)) - 243)
      with (Z.of_nat (List.length (skipn 243 a ++ b)))
      by (rewrite !length_app; lia).
    replace (Z.of_nat (List.length a) - 243)
      with (Z.of_nat (List.length (skipn 243 a))) by lia.
    rewrite Hsplit at 1 3. rewrite <- app_assoc.
    rewrite (absorb_from c1 (firstn 243 a) (skipn 243 a ++ b)) by lia.
    rewrite (absorb_from c1 (firstn 243 a) (skipn 243 a)) by lia.
    now apply IH.
Qed.

(** [absorb] in pieces.  Absorbing two arrays one after the other, the first
    of one or more whole blocks of 243 trits and the second not empty,
    leaves the sponge as absorbing the two of them at once does.  (An empty
    array cannot be left out this way: the loop of [absorb] runs once on
    it.) *)
Theorem absorb_append (c : Curl.t) (a b : list Z) (k : nat) :
  (1 <= k)%nat -> List.length a = (k * 243)%nat -> b <> [] ->
  Curl.absorb c (a ++ b) 0 (Z.of_nat (List.length (a ++ b)))
  = Curl.absorb (Curl.absorb c a 0 (Z.of_nat (List.length a))) b 0
      (Z.of_nat (List.length b)).
Proof.
  intros Hk Ha Hb. destruct k as [|k]; [lia|].
  now apply (absorb_pieces k).
Qed.

Lemma absorb_append_witness :
  Curl.absorb (Curl.new 27) (repeat 0 243 ++ [1; -1]) 0
    (Z.of_nat (List.length (repeat 0 243 ++ [1; -1])))
  = Curl.absorb
      (Curl.absorb (Curl.new 27) (repeat 0 243) 0
         (Z.of_nat (List.length (repeat 0 243))))
      [1; -1] 0 (Z.of_nat (List.length [1; -1])).
Proof.
  apply (absorb_append (Curl.new 27) (repeat 0 243) [1; -1] 1).
  - lia.
  - reflexivity.
  - discriminate.
Defined.

Lemma squeeze_whole_blocks (n : nat) (c : Curl.t) :
  sponge_len c -> (1 <= n)%nat ->
  Curl.squeeze c (Int8Array.new (n * 243)) 0 (Z.of_nat (n * 243))
  = (Curl.iter n Curl.transform c, List.concat (map (squeezed c) (seq 0 n))).
Proof.
  intros Hc Hn. pose proof (squeeze_blocks n c Hc ltac:(lia)) as H.
  unfold Int8Array.new in H at 2. now rewrite repeat_length in H.
Qed.

Lemma squeezed_later (c : Curl.t) (n m : nat) :
  forall s : nat,
  map (squeezed (Curl.iter n Curl.transform c)) (seq s m)
  = map (squeezed c) (seq (n + s) m).
Proof.
  induction m as [|m IH]; intros s; [reflexivity|].
  cbn [seq map]. rewrite IH. f_equal; [|now rewrite Nat.add_succ_r].
  unfold squeezed. now rewrite iter_add.
Qed.

(** [squeeze] in pieces.  On a sponge with a state of 729 cells, squeezing
    [n] whole blocks of 243 trits into a fresh array and then [m] more into
    another gives, one after the other, the trits that squeezing [n + m]
    blocks at once gives, and leaves the sponge the same. *)
Theorem squeeze_append (c : Curl.t) (n m : nat) :
  List.length (Curl._state c) = Curl.STATE_LENGTH ->
  (1 <= n)%nat -> (1 <= m)%nat ->
  Curl.squeeze c (Int8Array.new ((n + m) * 243)) 0 (Z.of_nat ((n + m) * 243))
  = (fst (Curl.squeeze
            (fst (Curl.squeeze c (Int8Array.new (n * 243)) 0
                    (Z.of_nat (n * 243))))
            (Int8Array.new (m * 243)) 0 (Z.of_nat (m * 243))),
     snd (Curl.squeeze c (Int8Array.new (n * 243)) 0 (Z.of_nat (n * 243)))
     ++ snd (Curl.squeeze
               (fst (Curl.squeeze c (Int8Array.new (n * 243)) 0
                       (Z.of_nat (n * 243))))
               (Int8Array.new (m * 243)) 0 (Z.of_nat (m * 243)))).
Proof.
  intros Hc Hn Hm.
  rewrite (squeeze_whole_blocks (n + m) c Hc) by lia.
  rewrite (squeeze_whole_blocks n c Hc Hn). cbn [fst snd].
  rewrite (squeeze_whole_blocks m _ (iter_transform_len n c Hc) Hm).
  cbn [fst snd].
  rewrite iter_add, seq_app, map_app, concat_app, squeezed_later.
  now rewrite Nat.add_0_r.
Qed.

Lemma squeeze_append_witness :
  Curl.squeeze (Curl.new 27) (Int8Array.new ((1 + 2) * 243)) 0
    (Z.of_nat ((1 + 2) * 243))
  = (fst (Curl.squeeze
            (fst (Curl.squeeze (Curl.new 27) (Int8Array.new (1 * 243)) 0
                    (Z.of_nat (1 * 243))))
            (Int8Array.new (2 * 243)) 0 (Z.of_nat (2 * 243))),
     snd (Curl.squeeze (Curl.new 27) (Int8Array.new (1 * 243)) 0
            (Z.of_nat (1 * 243)))
     ++ snd (Curl.squeeze
               (fst (Curl.squeeze (Curl.new 27) (Int8Array.new (1 * 243)) 0
                       (Z.of_nat (1 * 243))))
               (Int8Array.new (2 * 243)) 0 (Z.of_nat (2 * 243)))).
Proof.
  apply (squeeze_append (Curl.new 27) 1 2).
  - reflexivity.
  - lia.
  - lia.
Defined.

End SpongeInPieces.

Section Escapes.

Lemma t16_lt (f : nat) (c : Z) :
  c < 16 -> TextHelper.toString16_fuel (S f) c = [TextHelper.hex_digit c].
Proof.
  intros H. cbn [TextHelper.toString16_fuel].
  destruct (Z.ltb_spec c 16); [reflexivity|lia].
Qed.

Lemma t16_ge (f : nat) (c : Z) :
  16 <= c ->
  TextHelper.toString16_fuel (S f) c
  = TextHelper.toString16_fuel f (c / 16) ++ [TextHelper.hex_digit (c mod 16)].
Proof.
  intros H. cbn [TextHelper.toString16_fuel].
  destruct (Z.ltb_spec c 16); [lia|reflexivity].
Qed.

(** What [encodeNonASCII] writes after the backslash and the [u]. *)
Lemma hex4_spec (c : Z) :
  127 <= c <= 65535 ->
  TextHelper.last4 ([48; 48; 48; 48] ++ TextHelper.toString16 c) = hex4 c.
Proof.
  intros Hc. unfold TextHelper.toString16.
  pose proof (Z.log2_le_mono 127 c ltac:(lia)) as Hlog.
  change (Z.log2 127) with 6 in Hlog.
  destruct (Z.to_nat (Z.log2 c)) as [|[|[|[|f]]]] eqn:E; try lia.
  unfold hex4.
  destruct (Z.lt_ge_cases c 256) as [H2|H2];
    [|destruct (Z.lt_ge_cases c 4096) as [H3|H3]].
  - rewrite t16_ge by lia.
    rewrite t16_lt by (Z.div_mod_to_equations; lia).
    cbn [app TextHelper.last4 List.length Nat.sub skipn].
    replace (c / 4096) with 0 by (Z.div_mod_to_equations; lia).
    replace (c / 256 mod 16) with 0 by (Z.div_mod_to_equations; lia).
    replace (c / 16 mod 16) with (c / 16) by (Z.div_mod_to_equations; lia).
    reflexivity.
  - rewrite t16_ge by lia.
    rewrite t16_ge by (Z.div_mod_to_equations; lia).
    rewrite t16_lt by (Z.div_mod_to_equations; lia).
    cbn [app TextHelper.last4 List.length Nat.sub skipn].
    replace (c / 4096) with 0 by (Z.div_mod_to_equations; lia).
    replace (c / 16 / 16) with (c / 256 mod 16)
      by (Z.div_mod_to_equations; lia).
    reflexivity.
  - rewrite t16_ge by lia.
    rewrite t16_ge by (Z.div_mod_to_equations; lia).
    rewrite t16_ge by (Z.div_mod_to_equations; lia).
    rewrite t16_lt by (Z.div_mod_to_equations; lia).
    cbn [app TextHelper.last4 List.length Nat.sub skipn].
    replace (c / 16 / 16 / 16) with (c / 4096)
      by (Z.div_mod_to_equations; lia).
    replace (c / 16 / 16 mod 16) with (c / 256 mod 16)
      by (Z.div_mod_to_equations; lia).
    reflexivity.
Qed.

Lemma hex_digit_facts (d : Z) :
  0 <= d < 16 ->
  TextHelper.is_word (TextHelper.hex_digit d) = true
  /\ TextHelper.hex_value (TextHelper.hex_digit d) = Some d
  /\ 48 <= TextHelper.hex_digit d < 127
  /\ TextHelper.hex_digit d <> 120 /\ TextHelper.hex_digit d <> 88.
Proof.
  intros H.
  assert (Hd : d = 0 \/ d = 1 \/ d = 2 \/ d = 3 \/ d = 4 \/ d = 5 \/ d = 6
               \/ d = 7 \/ d = 8 \/ d = 9 \/ d = 10 \/ d = 11 \/ d = 12
               \/ d = 13 \/ d = 14 \/ d = 15) by lia.
  repeat (destruct Hd as [->|Hd]; [cbn; repeat split; lia|]).
  subst d. cbn. repeat split; lia.
Qed.

Lemma is_word_not_backslash (c : Z) :
  TextHelper.is_word c = true -> c <> 92.
Proof. intros H ->. discriminate H. Qed.

(** [parseInt] reads the four digits back. *)
Lemma parseInt16_hex4 (c : Z) :
  0 <= c <= 65535 -> TextHelper.parseInt16 (hex4 c) = Some c.
Proof.
  intros Hc. unfold hex4.
  destruct (hex_digit_facts (c / 4096)) as (_ & V3 & _);
    [Z.div_mod_to_equations; lia|].
  destruct (hex_digit_facts (c / 256 mod 16)) as (_ & V2 & _ & X2 & Y2);
    [Z.div_mod_to_equations; lia|].
  destruct (hex_digit_facts (c / 16 mod 16)) as (_ & V1 & _);
    [Z.div_mod_to_equations; lia|].
  destruct (hex_digit_facts (c mod 16)) as (_ & V0 & _);
    [Z.div_mod_to_equations; lia|].
  unfold TextHelper.parseInt16.
  apply Z.eqb_neq in X2, Y2. rewrite X2, Y2. cbn [orb].
  rewrite andb_false_r.
  cbn [TextHelper.parse_hex]. rewrite V3, V2, V1, V0.
  f_equal. Z.div_mod_to_equations. lia.
Qed.

Lemma encode_cons (c : Z) (rest : list Z) :
  code_unit c ->
  TextHelper.encodeNonASCII (c :: rest)
  = (if 127 <=? c then 92 :: 117 :: hex4 c else [c])
    ++ TextHelper.encodeNonASCII rest.
Proof.
  intros Hc. unfold code_unit in Hc. cbn [TextHelper.encodeNonASCII].
  destruct (Z.leb_spec 127 c) as [H|H]; cbn [andb].
  - destruct (Z.leb_spec c 65535); [|lia].
    now rewrite hex4_spec by lia.
  - reflexivity.
Qed.

Lemma encode_app (a b : list Z) :
  TextHelper.encodeNonASCII (a ++ b)
  = TextHelper.encodeNonASCII a ++ TextHelper.encodeNonASCII b.
Proof.
  induction a as [|c a IH]; [reflexivity|].
  cbn [app TextHelper.encodeNonASCII]. now rewrite IH, app_assoc.
Qed.

Lemma encode_zeros (n : nat) :
  TextHelper.encodeNonASCII (repeat 0 n) = repeat 0 n.
Proof.
  induction n as [|n IH]; [reflexivity|].
  cbn [repeat TextHelper.encodeNonASCII]. now rewrite IH.
Qed.

Lemma hex4_ascii (c : Z) :
  0 <= c <= 65535 ->
  Forall (fun x => 0 <= x < 127) (hex4 c)
  /\ Forall (fun x => TextHelper.is_word x = true) (hex4 c).
Proof.
  intros Hc. unfold hex4.
  destruct (hex_digit_facts (c / 4096)) as (W3 & _ & R3 & _);
    [Z.div_mod_to_equations; lia|].
  destruct (hex_digit_facts (c / 256 mod 16)) as (W2 & _ & R2 & _);
    [Z.div_mod_to_equations; lia|].
  destruct (hex_digit_facts (c / 16 mod 16)) as (W1 & _ & R1 & _);
    [Z.div_mod_to_equations; lia|].
  destruct (hex_digit_facts (c mod 16)) as (W0 & _ & R0 & _);
    [Z.div_mod_to_equations; lia|].
  split; repeat (apply Forall_cons; [first [assumption|lia]|]);
    apply Forall_nil.
Qed.

(** [encodeNonASCII] leaves code units below 127 only. *)
Lemma encode_ascii (s : list Z) :
  Forall code_unit s ->
  Forall (fun x => 0 <= x < 127) (TextHelper.encodeNonASCII s).
Proof.
  induction 1 as [|c s Hc _ IH]; [constructor|].
  rewrite encode_cons by exact Hc. apply Forall_app. split; [|exact IH].
  unfold code_unit in Hc.
  destruct (Z.leb_spec 127 c).
  - repeat (apply Forall_cons; [lia|]). now apply hex4_ascii.
  - apply Forall_cons; [lia|apply Forall_nil].
Qed.

(** Where the encoding starts without a backslash, it starts as the string
    does. *)
Lemma encode_plain_prefix (n : nat) :
  forall s : list Z,
  Forall code_unit s ->
  List.length (firstn n (TextHelper.encodeNonASCII s)) = n ->
  Forall (fun x => x <> 92) (firstn n (TextHelper.encodeNonASCII s)) ->
  firstn n s = firstn n (TextHelper.encodeNonASCII s).
Proof.
  induction n as [|n IH]; intros s Hs Hlen Hno; [reflexivity|].
  destruct Hs as [|c s Hc Hs]; [discriminate Hlen|].
  rewrite encode_cons in * by exact Hc.
  destruct (Z.leb_spec 127 c).
  - cbn [app firstn] in Hno. inversion Hno. congruence.
  - cbn [app firstn List.length] in *. f_equal. inversion Hno.
    apply IH; [exact Hs|congruence|assumption].
Qed.

Lemma escape_at_inv (s : list Z) :
  escape_at s = true ->
  exists c u g1 g2 g3 g4 after,
    s = c :: u :: g1 :: g2 :: g3 :: g4 :: after
    /\ c = 92 /\ (u = 117 \/ u = 85)
    /\ TextHelper.is_word g1 = true /\ TextHelper.is_word g2 = true
    /\ TextHelper.is_word g3 = true /\ TextHelper.is_word g4 = true.
Proof.
  destruct s as [|c [|u [|g1 [|g2 [|g3 [|g4 after]]]]]]; try discriminate.
  cbn [escape_at]. intros H.
  repeat (apply andb_prop in H; destruct H as [H ?]).
  apply Z.eqb_eq in H.
  exists c, u, g1, g2, g3, g4, after. repeat split; try assumption.
  match goal with
  | Hu : (_ || _) = true |- _ =>
      apply orb_prop in Hu; destruct Hu as [Hu|Hu]; apply Z.eqb_eq in Hu;
      [now left|now right]
  end.
Qed.

Lemma decode_step (s : list Z) :
  TextHelper.decodeNonASCII s
  = match s with
    | [] => []
    | c :: rest =>
        if escape_at s
        then TextHelper.fromCharCode
               (TextHelper.parseInt16 (firstn 4 (skipn 1 rest)))
             :: TextHelper.decodeNonASCII (skipn 5 rest)
        else c :: TextHelper.decodeNonASCII rest
    end.
Proof.
  destruct s as [|c [|u [|g1 [|g2 [|g3 [|g4 after]]]]]]; reflexivity.
Qed.

Lemma decode_encode (s : list Z) :
  Forall code_unit s -> has_escape s = false ->
  TextHelper.decodeNonASCII (TextHelper.encodeNonASCII s) = s.
Proof.
  induction 1 as [|c s Hc Hs IH]; [reflexivity|].
  cbn [has_escape]. intros Hno.
  apply orb_false_elim in Hno. destruct Hno as [Hat Hrest].
  specialize (IH Hrest).
  rewrite encode_cons by exact Hc. unfold code_unit in Hc.
  destruct (Z.leb_spec 127 c) as [Hhi|Hlo].
  - destruct (hex4_ascii c Hc) as [_ Hw].
    unfold hex4 in *. cbn [app].
    inversion Hw as [|? ? W3 Hw2]; subst.
    inversion Hw2 as [|? ? W2 Hw1]; subst.
    inversion Hw1 as [|? ? W1 Hw0]; subst.
    inversion Hw0 as [|? ? W0 _]; subst.
    rewrite decode_step. cbn [escape_at].
    rewrite W3, W2, W1, W0. cbn [Z.eqb Pos.eqb orb andb skipn firstn].
    fold (hex4 c). rewrite parseInt16_hex4 by exact Hc.
    cbn [TextHelper.fromCharCode]. rewrite Z.mod_small by lia.
    now rewrite IH.
  - cbn [app]. rewrite decode_step.
    destruct (escape_at (c :: TextHelper.encodeNonASCII s)) eqn:E;
      [exfalso|now rewrite IH].
    destruct (escape_at_inv _ E)
      as (c' & u & g1 & g2 & g3 & g4 & after & Heq & Hc' & Hu & W1 & W2
          & W3 & W4).
    injection Heq as <- Henc.
    assert (Hpre : firstn 5 s = [u; g1; g2; g3; g4]).
    { rewrite (encode_plain_prefix 5 s Hs); rewrite Henc; [reflexivity..|].
      repeat (apply Forall_cons;
              [first [now apply is_word_not_backslash|destruct Hu; lia]|]).
      apply Forall_nil. }
    destruct s as [|x1 [|x2 [|x3 [|x4 [|x5 s']]]]]; try discriminate Hpre.
    injection Hpre as -> -> -> -> ->.
    cbn [escape_at] in Hat. rewrite W1, W2, W3, W4 in Hat.
    subst c. destruct Hu as [->| ->]; discriminate Hat.
Qed.

(** [decodeNonASCII] after [encodeNonASCII].  On a string of code units
    [encodeNonASCII] returns code units below 127 only; and when the string
    has no backslash followed by [u] or [U] and four word characters,
    [decodeNonASCII] turns the result back into the string. *)
Theorem decodeNonASCII_encodeNonASCII (s : list Z) :
  Forall (fun c => 0 <= c <= 65535) s ->
  Forall (fun x => 0 <= x < 127) (TextHelper.encodeNonASCII s)
  /\ (has_escape s = false ->
      TextHelper.decodeNonASCII (TextHelper.encodeNonASCII s) = s).
Proof.
  intros Hs. split; [now apply encode_ascii|].
  now apply decode_encode.
Qed.

Lemma decodeNonASCII_encodeNonASCII_witness :
  Forall (fun x => 0 <= x < 127)
    (TextHelper.encodeNonASCII [72; 233; 92; 117; 8364; 0])
  /\ (has_escape [72; 233; 92; 117; 8364; 0] = false ->
      TextHelper.decodeNonASCII
        (TextHelper.encodeNonASCII [72; 233; 92; 117; 8364; 0])
      = [72; 233; 92; 117; 8364; 0]).
Proof.
  apply (decodeNonASCII_encodeNonASCII [72; 233; 92; 117; 8364; 0]).
  repeat (apply Forall_cons; [lia|]). apply Forall_nil.
Defined.

End Escapes.

Section StringTrytes.

Lemma string_append_assoc (a b c : string) :
  String.append (String.append a b) c = String.append a (String.append b c).
Proof. induction a as [|x a IH]; cbn [String.append]; congruence. Qed.

Lemma fromAscii_app (a b : list Z) :
  TrytesHelper.fromAscii (a ++ b)
  = String.append (TrytesHelper.fromAscii a) (TrytesHelper.fromAscii b).
Proof.
  induction a as [|c a IH]; [reflexivity|].
  cbn [app TrytesHelper.fromAscii]. cbv zeta.
  now rewrite IH, !string_append_assoc.
Qed.

Lemma fromAscii_zeros (n : nat) :
  TrytesHelper.fromAscii (repeat 0 n) = Channel.nines (2 * n).
Proof.
  induction n as [|n IH]; [reflexivity|].
  replace (2 * S n)%nat with (S (S (2 * n))) by lia.
  cbn [repeat TrytesHelper.fromAscii Channel.nines]. cbv zeta.
  rewrite IH. reflexivity.
Qed.

Lemma trim9_nines (k : nat) :
  TrytesHelper.trim9 (Channel.nines k) = EmptyString.
Proof.
  induction k as [|k IH]; [reflexivity|].
  cbn [Channel.nines TrytesHelper.trim9]. now rewrite IH.
Qed.

(** The 9s at the end do not count. *)
Lemma trim9_append_nines (t : string) (k : nat) :
  TrytesHelper.trim9 (String.append t (Channel.nines k))
  = TrytesHelper.trim9 t.
Proof.
  induction t as [|x t IH]; cbn [String.append]; [apply trim9_nines|].
  cbn [TrytesHelper.trim9]. now rewrite IH.
Qed.

(** Nothing is removed from a string that does not end with a 9. *)
Lemma trim9_keep (t : string) (c : ascii) :
  Ascii.eqb c "9" = false ->
  TrytesHelper.trim9 (String.append t (String c EmptyString))
  = String.append t (String c EmptyString).
Proof.
  intros Hc. induction t as [|x t IH]; cbn [String.append].
  - cbn [TrytesHelper.trim9]. now rewrite Hc.
  - cbn [TrytesHelper.trim9]. rewrite IH.
    now destruct t.
Qed.

Lemma fromAscii_codes (value : list Z) :
  Forall (fun c => 0 <= c < 729) value ->
  String.length (TrytesHelper.fromAscii value) = (2 * List.length value)%nat
  /\ TrytesHelper.all_tryte_chars (TrytesHelper.fromAscii value) = true
  /\ TrytesHelper.toAscii (TrytesHelper.fromAscii value) = Some value.
Proof.
  intros H.
  assert (Hloop :
    String.length (TrytesHelper.fromAscii value) = (2 * List.length value)%nat
    /\ TrytesHelper.all_tryte_chars (TrytesHelper.fromAscii value) = true
    /\ TrytesHelper.toAscii_loop (TrytesHelper.fromAscii value) = value).
  { induction H as [|c rest Hc Hrest (IH1 & IH2 & IH3)];
      [repeat split; reflexivity|].
    destruct (code_split c ltac:(lia)) as (Hfirst & Hsecond & Hsum).
    cbn [TrytesHelper.fromAscii]. cbv zeta. rewrite Hsecond.
    destruct (alphabet_at_tryte (Z.rem c 27) Hfirst) as (a & -> & Ha & Ta).
    destruct (alphabet_at_tryte (c / 27)) as (b & -> & Hb & Tb);
      [Z.div_mod_to_equations; lia|].
    cbn [String.append String.length TrytesHelper.all_tryte_chars
         TrytesHelper.toAscii_loop List.length].
    rewrite IH1, IH2, IH3, Ta, Tb, Ha, Hb, Hsum.
    unfold TrytesHelper.fromCharCode. rewrite Z.mod_small by lia.
    repeat split; lia. }
  destruct Hloop as (H1 & H2 & H3).
  split; [exact H1|]. split; [exact H2|].
  unfold TrytesHelper.toAscii. rewrite H1.
  replace (2 * List.length value)%nat with (List.length value * 2)%nat by lia.
  rewrite Nat.Div0.mod_mul. cbn [Nat.eqb]. now rewrite H3.
Qed.

(** The trytes of code units below 127 the last of which is not 0 survive
    the trimming of [stringFromTrytes]: at most one 9 is removed, and it is
    put back. *)
Lemma retrim (E : list Z) :
  Forall (fun x => 0 <= x < 127) E -> last E 1 <> 0 ->
  (if Nat.eqb
        (String.length (TrytesHelper.trim9 (TrytesHelper.fromAscii E)) mod 2) 1
   then String.append (TrytesHelper.trim9 (TrytesHelper.fromAscii E)) "9"
   else TrytesHelper.trim9 (TrytesHelper.fromAscii E))
  = TrytesHelper.fromAscii E.
Proof.
  intros HE Hlast.
  destruct E as [|e0 E0]; [reflexivity|].
  assert (Hne : e0 :: E0 <> []) by discriminate.
  rewrite (app_removelast_last 1 Hne) in HE |- *.
  set (E' := removelast (e0 :: E0)) in *.
  set (e := last (e0 :: E0) 1) in *. clearbody E' e. clear Hne.
  apply Forall_app in HE. destruct HE as [HE' He].
  inversion He as [|? ? Hr _]; subst.
  assert (H729 : Forall (fun c => 0 <= c < 729) E')
    by (eapply Forall_impl; [|exact HE']; cbn; intros; lia).
  destruct (fromAscii_codes E' H729) as (Hlen & _ & _).
  rewrite fromAscii_app. cbn [TrytesHelper.fromAscii]. cbv zeta.
  destruct (code_split e ltac:(lia)) as (Hfirst & Hsecond & Hsum).
  rewrite Hsecond.
  destruct (alphabet_at_tryte (Z.rem e 27) Hfirst) as (a & -> & Ha & _).
  destruct (alphabet_at_tryte (e / 27)) as (b & -> & Hb & _);
    [Z.div_mod_to_equations; lia|].
  cbn [String.append].
  set (X := TrytesHelper.fromAscii E') in *.
  replace (String.append X (String a (String b EmptyString)))
    with (String.append (String.append X (String a EmptyString))
            (String b EmptyString))
    by (now rewrite string_append_assoc).
  destruct (Ascii.eqb b "9") eqn:Eb.
  - apply Ascii.eqb_eq in Eb. subst b.
    change (TrytesHelper.indexOfZ TrytesHelper.ALPHABET "9") with 0 in Hb.
    assert (Ea : Ascii.eqb a "9" = false).
    { destruct (Ascii.eqb a "9") eqn:Ea; [|reflexivity].
      apply Ascii.eqb_eq in Ea. subst a.
      change (TrytesHelper.indexOfZ TrytesHelper.ALPHABET "9") with 0 in Ha.
      lia. }
    change (String "9" EmptyString) with (Channel.nines 1).
    rewrite trim9_append_nines, (trim9_keep X a Ea).
    rewrite length_append, Hlen. cbn [String.length].
    replace (2 * List.length E' + 1)%nat
      with (1 + List.length E' * 2)%nat by lia.
    rewrite Nat.Div0.mod_add. reflexivity.
  - rewrite trim9_keep by exact Eb.
    rewrite !length_append, Hlen. cbn [String.length].
    replace (2 * List.length E' + 1 + 1)%nat
      with (0 + (List.length E' + 1) * 2)%nat by lia.
    rewrite Nat.Div0.mod_add. reflexivity.
Qed.

Lemma last_encode (s : list Z) :
  Forall code_unit s -> last s 1 <> 0 ->
  last (TextHelper.encodeNonASCII s) 1 <> 0.
Proof.
  intros Hs Hlast.
  destruct s as [|c0 s0]; [exact Hlast|].
  assert (Hne : c0 :: s0 <> []) by discriminate.
  rewrite (app_removelast_last 1 Hne) in Hs |- *.
  set (s' := removelast (c0 :: s0)) in *.
  set (c := last (c0 :: s0) 1) in *. clearbody s' c. clear Hne.
  apply Forall_app in Hs. destruct Hs as [_ Hc].
  inversion Hc as [|? ? Hr _]; subst.
  rewrite encode_app, (encode_cons c [] Hr).
  cbn [TextHelper.encodeNonASCII]. rewrite app_nil_r.
  unfold code_unit in Hr.
  destruct (Z.leb_spec 127 c).
  - unfold hex4.
    replace (TextHelper.encodeNonASCII s'
             ++ [92; 117; TextHelper.hex_digit (c / 4096);
                 TextHelper.hex_digit (c / 256 mod 16);
                 TextHelper.hex_digit (c / 16 mod 16);
                 TextHelper.hex_digit (c mod 16)])
      with ((TextHelper.encodeNonASCII s'
             ++ [92; 117; TextHelper.hex_digit (c / 4096);
                 TextHelper.hex_digit (c / 256 mod 16);
                 TextHelper.hex_digit (c / 16 mod 16)])
            ++ [TextHelper.hex_digit (c mod 16)])
      by (now rewrite <- app_assoc).
    rewrite last_last.
    destruct (hex_digit_facts (c mod 16)) as (_ & _ & R & _);
      [Z.div_mod_to_equations; lia|lia].
  - now rewrite last_last.
Qed.

(** [stringFromTrytes] after [stringToTrytes].  Take a string of code units
    that has no backslash followed by [u] or [U] and four word characters
    and does not end with the code unit 0.  The trytes [stringToTrytes]
    makes of it, also when any number of code units 0 are added at its end,
    are tryte characters only, and [stringFromTrytes] turns them back into
    the string: code units 0 at the end of a string are lost, and nothing
    else. *)
Theorem stringFromTrytes_stringToTrytes (s : list Z) (n : nat) :
  Forall (fun c => 0 <= c <= 65535) s ->
  has_escape s = false -> last s 1 <> 0 ->
  TrytesHelper.all_tryte_chars
    (TrytesHelper.stringToTrytes (s ++ repeat 0 n)) = true
  /\ TrytesHelper.stringFromTrytes
       (TrytesHelper.stringToTrytes (s ++ repeat 0 n)) = Some s.
Proof.
  intros Hs Hno Hlast.
  pose proof (encode_ascii s Hs) as HE.
  pose proof (last_encode s Hs Hlast) as HL.
  pose proof (decode_encode s Hs Hno) as HD.
  assert (Heq : TrytesHelper.stringToTrytes (s ++ repeat 0 n)
                = String.append
                    (TrytesHelper.fromAscii (TextHelper.encodeNonASCII s))
                    (Channel.nines (2 * n))).
  { unfold TrytesHelper.stringToTrytes.
    rewrite encode_app, encode_zeros, <- fromAscii_zeros, <- fromAscii_app.
    now destruct (TextHelper.encodeNonASCII s ++ repeat 0 n). }
  rewrite Heq.
  set (E := TextHelper.encodeNonASCII s) in *.
  assert (H729 : Forall (fun c => 0 <= c < 729) E)
    by (eapply Forall_impl; [|exact HE]; cbn; intros; lia).
  destruct (fromAscii_codes E H729) as (_ & Hchars & Hback).
  split.
  - now rewrite all_tryte_chars_append, Hchars, nines_chars.
  - unfold TrytesHelper.stringFromTrytes. cbv zeta.
    rewrite trim9_append_nines, (retrim E HE HL), Hback.
    now rewrite HD.
Qed.

Lemma stringFromTrytes_stringToTrytes_witness :
  TrytesHelper.all_tryte_chars
    (TrytesHelper.stringToTrytes ([77; 233; 8364; 7] ++ repeat 0 2)) = true
  /\ TrytesHelper.stringFromTrytes
       (TrytesHelper.stringToTrytes ([77; 233; 8364; 7] ++ repeat 0 2))
     = Some [77; 233; 8364; 7].
Proof.
  apply (stringFromTrytes_stringToTrytes [77; 233; 8364; 7] 2).
  - repeat (apply Forall_cons; [lia|]). apply Forall_nil.
  - reflexivity.
  - cbn. lia.
Defined.

End StringTrytes.

Section ClientData.

Lemma plain_library_ok : library_ok plain_library.
Proof.
  unfold library_ok, plain_library, plain_bytes, plain_text.
  cbn [Client.asciiToBytes Client.bytesToAscii Client.bytesToHex
       Client.hexToBytes].
  repeat split.
  - intros s. rewrite length_map.
    induction s as [|c s IH]; cbn [list_ascii_of_string List.length
                                   String.length]; congruence.
  - intros s. apply Forall_map, Forall_forall. intros c _.
    pose proof (nat_ascii_bounded c). unfold byte. lia.
  - intros s. rewrite map_map.
    rewrite <- (string_of_list_ascii_of_string s) at 2. f_equal.
    rewrite <- (map_id (list_ascii_of_string s)) at 2.
    apply map_ext. intros c. now rewrite Nat2Z.id, ascii_nat_embedding.
  - intros d Hd. rewrite list_ascii_of_string_of_list_ascii, map_map.
    rewrite <- (map_id d) at 2. apply map_ext_in. intros b Hb.
    rewrite Forall_forall in Hd. specialize (Hd b Hb). unfold byte in Hd.
    rewrite nat_ascii_embedding by lia. lia.
Qed.

Lemma set_bytes_here (before source : list Z) (n : nat) :
  Client.set_bytes (before ++ repeat 0 (List.length source + n)) source
    (List.length before)
  = Some (before ++ source ++ repeat 0 n).
Proof.
  unfold Client.set_bytes.
  rewrite length_app, repeat_length.
  destruct (Nat.leb_spec (List.length before + List.length source)
              (List.length before + (List.length source + n))) as [_|H];
    [|lia].
  rewrite firstn_app, firstn_all, Nat.sub_diag, firstn_O, app_nil_r.
  rewrite skipn_app, skipn_all2 by lia. cbn [app].
  replace (List.length before + List.length source - List.length before)%nat
    with (List.length source) by lia.
  rewrite repeat_app, skipn_app, skipn_all2, repeat_length, Nat.sub_diag
    by (rewrite repeat_length; lia).
  reflexivity.
Qed.

(** The data [mamAttach] sends: the length of the tag, the tag, and the
    payload. *)
Lemma mamAttach_data (lib : Client.Library) (m : IMamMessage)
  (tag : option string) :
  library_ok lib ->
  Client.mamAttach_payload lib m tag
  = Some (Client.mkIndexation 2
            (Client.bytesToHex lib
               (Client.sum256 lib (Client.asciiToBytes lib (address m))))
            (Client.bytesToHex lib
               (Z.of_nat (tag_length tag) mod 256
                :: match tag with
                   | Some t => Client.asciiToBytes lib t
                   | None => []
                   end
                ++ Client.asciiToBytes lib (payload m)))).
Proof.
  intros (Hlen & _). unfold Client.mamAttach_payload. cbv zeta.
  assert (Hstep : forall (v : Z) (t : list Z),
    Client.set_bytes
      (Int8Array.store
         (Int8Array.new (1 + List.length t + String.length (payload m))) 0 v)
      t 1
    = Some (v :: t ++ repeat 0 (String.length (payload m)))).
  { intros v t. cbn [Nat.add Int8Array.new repeat Int8Array.store].
    apply (set_bytes_here [v] t). }
  assert (Hlast : forall (v : Z) (t : list Z),
    Client.set_bytes (v :: t ++ repeat 0 (String.length (payload m)))
      (Client.asciiToBytes lib (payload m)) (1 + List.length t)
    = Some (v :: t ++ Client.asciiToBytes lib (payload m))).
  { intros v t.
    pose proof (set_bytes_here (v :: t) (Client.asciiToBytes lib (payload m))
                  0) as H.
    rewrite Nat.add_0_r, Hlen in H. cbn [repeat] in H.
    rewrite app_nil_r in H. cbn [app List.length] in H.
    exact H. }
  destruct tag as [t|]; cbn [tag_length].
  - destruct (Nat.eqb_spec (String.length t) 0) as [E|E]; cbn [negb].
    + assert (Client.asciiToBytes lib t = []) as Ht
        by (apply length_zero_iff_nil; now rewrite Hlen).
      rewrite Ht, E.
      cbn [List.length Nat.add Int8Array.new repeat Int8Array.store app].
      pose proof (Hlast (Z.of_nat 0 mod 256) []) as H2.
      cbn [app List.length Nat.add] in H2. now rewrite H2.
    + rewrite <- (Hlen t), Hstep.
      now rewrite (Hlast _ (Client.asciiToBytes lib t)).
  - cbn [Nat.add Int8Array.new repeat Int8Array.store app].
    pose proof (Hlast (Z.of_nat 0 mod 256) []) as H2.
    cbn [app List.length Nat.add] in H2. now rewrite H2.
Qed.

Lemma attached_bytes (lib : Client.Library) (m : IMamMessage)
  (tag : option string) :
  library_ok lib ->
  Forall byte
    (Z.of_nat (tag_length tag) mod 256
     :: match tag with
        | Some t => Client.asciiToBytes lib t
        | None => []
        end
     ++ Client.asciiToBytes lib (payload m)).
Proof.
  intros (_ & Hb & _). apply Forall_cons.
  - unfold byte. apply Z.mod_pos_bound. lia.
  - apply Forall_app. split; [|apply Hb].
    destruct tag; [apply Hb|constructor].
Qed.

(** A message attached without a tag is not fetched.  With a library that
    takes text and bytes back and forth, for a message with a payload of 100
    characters or more: when the tag is absent or empty, or has from 28 to
    256 characters, [mamAttach] builds an indexation payload on which
    [decodeMessages] returns nothing, whatever root and side key it is given
    and whatever messages follow in the list. *)
Theorem mamAttach_untagged_not_decoded (lib : Client.Library)
  (m : IMamMessage) (tag : option string) :
  library_ok lib ->
  (100 <= String.length (payload m))%nat ->
  (tag_length tag = 0 \/ 27 < tag_length tag <= 256)%nat ->
  exists p,
    Client.mamAttach_payload lib m tag = Some p
    /\ forall (others : list Client.IMessage) (root : string)
              (sideKey : option string),
         Client.decodeMessages lib (Client.mkIMessage (Some p) :: others)
           root sideKey
         = None.
Proof.
  intros Hlib Hlong Htag.
  eexists. split; [apply (mamAttach_data lib m tag Hlib)|].
  intros others root sideKey.
  pose proof (attached_bytes lib m tag Hlib) as Hbytes.
  destruct Hlib as (Hlen & _ & _ & Hhex).
  cbn [Client.decodeMessages Client.message_payload Client.payload_type
       Client.payload_data].
  change (2 =? 2) with true. cbv iota zeta.
  rewrite (Hhex _ Hbytes).
  cbn [List.length]. rewrite length_app, Hlen.
  destruct (Nat.ltb_spec 100
              (S (List.length
                    match tag with
                    | Some t => Client.asciiToBytes lib t
                    | None => []
                    end + String.length (payload m)))) as [_|H]; [|lia].
  unfold Int8Array.get. change (0 <? 0) with false. cbv iota.
  change (Z.to_nat 0) with 0%nat. cbn [nth].
  assert (Hv : Z.of_nat (tag_length tag) mod 256 = 0
               \/ 27 < Z.of_nat (tag_length tag) mod 256).
  { destruct Htag as [->|H]; [now left|].
    destruct (Nat.eq_dec (tag_length tag) 256) as [->|Hne]; [now left|].
    right. rewrite Z.mod_small by lia. lia. }
  destruct Hv as [->|Hv]; [reflexivity|].
  destruct (Z.eqb_spec (Z.of_nat (tag_length tag) mod 256) 0); [lia|].
  destruct (Z.ltb_spec 27 (Z.of_nat (tag_length tag) mod 256)); [|lia].
  reflexivity.
Qed.

Lemma mamAttach_untagged_not_decoded_witness :
  exists p,
    Client.mamAttach_payload plain_library
      (mkMessage (Channel.nines 100) "ROOT" "ADDRESS") None = Some p
    /\ forall (others : list Client.IMessage) (root : string)
              (sideKey : option string),
         Client.decodeMessages plain_library
           (Client.mkIMessage (Some p) :: others) root sideKey
         = None.
Proof.
  apply (mamAttach_untagged_not_decoded plain_library
           (mkMessage (Channel.nines 100) "ROOT" "ADDRESS") None).
  - exact plain_library_ok.
  - cbn [payload]. rewrite nines_length. lia.
  - left. reflexivity.
Defined.

(** A message attached with a tag is parsed.  With a library that takes
    text and bytes back and forth, for a tag of 1 to 27 characters and a
    tag and payload of 100 characters or more together, [decodeMessages]
    reads the tag and the payload back from what [mamAttach] built and gives
    the payload to [parseMessage]: it returns the root, what the parser
    returned and the tag, and goes on to the next message when the parser
    throws. *)
Theorem mamAttach_tagged_decoded (lib : Client.Library) (m : IMamMessage)
  (t : string) :
  library_ok lib ->
  (1 <= String.length t <= 27)%nat ->
  (100 <= String.length t + String.length (payload m))%nat ->
  exists p,
    Client.mamAttach_payload lib m (Some t) = Some p
    /\ forall (others : list Client.IMessage) (root : string)
              (sideKey : option string),
         Client.decodeMessages lib (Client.mkIMessage (Some p) :: others)
           root sideKey
         = match Parser.parseMessage (payload m) root sideKey with
           | Some parsed =>
               Some (Client.mkFetched root (Parser.nextRoot parsed)
                       (Parser.message parsed) t)
           | None => Client.decodeMessages lib others root sideKey
           end.
Proof.
  intros Hlib Htag Hlong.
  eexists. split; [apply (mamAttach_data lib m (Some t) Hlib)|].
  intros others root sideKey.
  pose proof (attached_bytes lib m (Some t) Hlib) as Hbytes.
  destruct Hlib as (Hlen & _ & Hback & Hhex).
  cbn [Client.decodeMessages Client.message_payload Client.payload_type
       Client.payload_data].
  change (2 =? 2) with true. cbv iota zeta.
  rewrite (Hhex _ Hbytes).
  cbn [tag_length List.length]. rewrite length_app, !Hlen.
  destruct (Nat.ltb_spec 100
              (S (String.length t + String.length (payload m)))) as [_|H];
    [|lia].
  unfold Int8Array.get. change (0 <? 0) with false. cbv iota.
  change (Z.to_nat 0) with 0%nat. cbn [nth].
  rewrite Z.mod_small by lia.
  destruct (Z.eqb_spec (Z.of_nat (String.length t)) 0); [lia|].
  destruct (Z.ltb_spec 27 (Z.of_nat (String.length t))); [lia|].
  cbn [orb]. rewrite Nat2Z.id.
  unfold Int8Array.slice.
  replace (1 + String.length t - 1)%nat with (String.length t) by lia.
  cbn [skipn Nat.add].
  rewrite (skipn_pre (Client.asciiToBytes lib t)) by (now rewrite Hlen).
  rewrite firstn_app, firstn_all2 by (rewrite Hlen; lia).
  rewrite Hlen, Nat.sub_diag, firstn_O, app_nil_r.
  now rewrite !Hback.
Qed.

Lemma mamAttach_tagged_decoded_witness :
  exists p,
    Client.mamAttach_payload plain_library
      (mkMessage (Channel.nines 100) "ROOT" "ADDRESS") (Some "MAM"%string)
    = Some p
    /\ forall (others : list Client.IMessage) (root : string)
              (sideKey : option string),
         Client.decodeMessages plain_library
           (Client.mkIMessage (Some p) :: others) root sideKey
         = match
             Parser.parseMessage
               (payload (mkMessage (Channel.nines 100) "ROOT" "ADDRESS"))
               root sideKey
           with
           | Some parsed =>
               Some (Client.mkFetched root (Parser.nextRoot parsed)
                       (Parser.message parsed) "MAM")
           | None => Client.decodeMessages plain_library others root sideKey
           end.
Proof.
  apply (mamAttach_tagged_decoded plain_library
           (mkMessage (Channel.nines 100) "ROOT" "ADDRESS") "MAM").
  - exact plain_library_ok.
  - cbn. lia.
  - cbn [payload]. rewrite nines_length. cbn. lia.
Defined.

End ClientData.
